(** * A shallow embedding of [wn/lmf.py], the WN-LMF reader and writer.

    The development follows the Python module top to bottom: the header
    reader ([_read_header], [is_lmf]), the expat-based scanner
    ([scan_lexicons]), the event cursor ([XMLEventIterator]), the
    recursive-descent loader ([load] and its [_load_*] helpers) and the
    serializer ([dump] and its [_dump_*] / [_build_*] helpers).

    Conventions.
    - Python [bytes] and [str] are both [string] (a list of 8-bit
      characters); a [str] is held in its UTF-8 encoding.
    - A Python [dict] whose insertion order is observable (XML attributes)
      is an association list [dict]; the scanner's tag counters are a
      [gmap].
    - Exceptions are values of [exn]; warnings issued through
      [warnings.warn] are collected in a log. *)

From Stdlib Require Import ZArith Ascii String List Lia Bool DecimalString.
From stdpp Require Import base option list strings gmap.

Set Default Proof Using "Type".
Local Open Scope string_scope.
Local Open Scope list_scope.

(** ** Python values shared by the whole module *)

Inductive exn : Type :=
  | LMFError (msg : string)
  | KeyError (key : string)
  | IndexError
  | StopIteration
  | TypeError
  | AttributeError
  | UnicodeDecodeError
  | OSError.

Inductive result (A : Type) : Type :=
  | Ok (a : A)
  | Raise (e : exn).
Arguments Ok {A} a.
Arguments Raise {A} e.

Definition rbind {A B} (r : result A) (k : A -> result B) : result B :=
  match r with
  | Ok a => k a
  | Raise e => Raise e
  end.

(** The double-quote character and the characters Python's [bytes.rstrip]
    removes. *)
Definition dq : string := String "034"%char EmptyString.
Definition sq_char : ascii := "039"%char.
Definition dq_char : ascii := "034"%char.
Definition nl_char : ascii := "010"%char.

Definition is_space (c : ascii) : bool :=
  let n := nat_of_ascii c in
  (n =? 32)%nat || ((9 <=? n)%nat && (n <=? 13)%nat).

(** [dict]: an insertion-ordered Python dictionary with string keys. *)
Definition dict (V : Type) : Type := list (string * V).

Fixpoint dget {V} (k : string) (d : dict V) : option V :=
  match d with
  | [] => None
  | (k', v) :: d' => if String.eqb k k' then Some v else dget k d'
  end.

(** [d[k] = v]: replaces in place when the key exists, appends otherwise. *)
Fixpoint dset {V} (k : string) (v : V) (d : dict V) : dict V :=
  match d with
  | [] => [(k, v)]
  | (k', v') :: d' =>
      if String.eqb k k' then (k', v) :: d' else (k', v') :: dset k v d'
  end.

(** [d.update(e)] *)
Definition dupdate {V} (d e : dict V) : dict V :=
  fold_left (fun acc kv => dset kv.1 kv.2 acc) e d.

(** [d[k]], raising [KeyError] *)
Definition dindex {V} (k : string) (d : dict V) : result V :=
  match dget k d with
  | Some v => Ok v
  | None => Raise (KeyError k)
  end.

(** [x in choices] for a container of strings *)
Definition str_in (x : string) (choices : list string) : bool :=
  existsb (String.eqb x) choices.

(** [sep.join(l)] *)
Fixpoint join (sep : string) (l : list string) : string :=
  match l with
  | [] => EmptyString
  | [x] => x
  | x :: l' => x +:+ sep +:+ join sep l'
  end.

(** ** Module constants *)

Definition _XMLDECL : string :=
  "<?xml version=" +:+ dq +:+ "1.0" +:+ dq +:+ " encoding=" +:+ dq +:+ "UTF-8"
  +:+ dq +:+ "?>".

(** [_DOCTYPE.format(schema=schema)] *)
Definition _DOCTYPE (schema : string) : string :=
  "<!DOCTYPE LexicalResource SYSTEM " +:+ dq +:+ schema +:+ dq +:+ ">".

Definition _SCHEMAS : dict string :=
  [ ("1.0", "http://globalwordnet.github.io/schemas/WN-LMF-1.0.dtd");
    ("1.1", "http://globalwordnet.github.io/schemas/WN-LMF-1.1.dtd") ].

Definition _DOCTYPES : dict string :=
  map (fun vs : string * string => (_DOCTYPE vs.2, vs.1)) _SCHEMAS.

Definition _DC_URIS : dict string :=
  [ ("1.0", "http://purl.org/dc/elements/1.1/");
    ("1.1", "http://globalwordnet.github.io/schemas/dc/") ].

Definition _DC_ATTRS : list string :=
  [ "contributor"; "coverage"; "creator"; "date"; "description"; "format";
    "identifier"; "publisher"; "relation"; "rights"; "source"; "subject";
    "title"; "type" ].

(** [f'{{{uri}}}{attr}'] *)
Definition qname (uri attr : string) : string := "{" +:+ uri +:+ "}" +:+ attr.

Definition _DC_QNAME_PAIRS : dict (list (string * string)) :=
  map (fun vu : string * string =>
         (vu.1, map (fun attr => (qname vu.2 attr, attr)) _DC_ATTRS))
      _DC_URIS.

(** ** Byte-level helpers used by [_read_header] *)

(** [fh.readline()]: the bytes up to and including the first newline, and
    the rest of the stream. *)
Fixpoint readline (fh : string) : string * string :=
  match fh with
  | EmptyString => (EmptyString, EmptyString)
  | String c rest =>
      if Ascii.eqb c nl_char then (String c EmptyString, rest)
      else let lr := readline rest in (String c lr.1, lr.2)
  end.

(** [b.rstrip()] *)
Fixpoint rstrip (s : string) : string :=
  match s with
  | EmptyString => EmptyString
  | String c r =>
      match rstrip r with
      | EmptyString => if is_space c then EmptyString else String c EmptyString
      | r' => String c r'
      end
  end.

(** [b.replace] of the single-quote byte by the double-quote byte *)
Fixpoint replace_quotes (s : string) : string :=
  match s with
  | EmptyString => EmptyString
  | String c r =>
      String (if Ascii.eqb c sq_char then dq_char else c) (replace_quotes r)
  end.

(** Well-formedness of a UTF-8 byte sequence, as the strict decoder of
    [bytes.decode('utf-8')] checks it (no overlong forms, no surrogates,
    nothing above U+10FFFF). *)
Definition in_range (lo hi : nat) (c : ascii) : bool :=
  let n := nat_of_ascii c in (lo <=? n)%nat && (n <=? hi)%nat.

Definition is_cont : ascii -> bool := in_range 128 191.

Fixpoint utf8_valid (s : string) : bool :=
  match s with
  | EmptyString => true
  | String c0 r0 =>
      if in_range 0 127 c0 then utf8_valid r0
      else match r0 with
      | EmptyString => false
      | String c1 r1 =>
          if in_range 194 223 c0 then is_cont c1 && utf8_valid r1
          else match r1 with
          | EmptyString => false
          | String c2 r2 =>
              if in_range 224 239 c0 then
                (if in_range 224 224 c0 then in_range 160 191 c1
                 else if in_range 237 237 c0 then in_range 128 159 c1
                 else is_cont c1)
                && is_cont c2 && utf8_valid r2
              else match r2 with
              | EmptyString => false
              | String c3 r3 =>
                  if in_range 240 244 c0 then
                    (if in_range 240 240 c0 then in_range 144 191 c1
                     else if in_range 244 244 c0 then in_range 128 143 c1
                     else is_cont c1)
                    && is_cont c2 && is_cont c3 && utf8_valid r3
                  else false
              end
          end
      end
  end.

(** [b.decode('utf-8')] *)
Definition decode_utf8 (b : string) : result string :=
  if utf8_valid b then Ok b else Raise UnicodeDecodeError.

(** ** [_read_header] and [is_lmf] *)

Definition header_line (raw : string) : string := replace_quotes (rstrip raw).

Definition _read_header (fh : string) : result string :=
  let l1 := readline fh in
  let xmldecl := header_line l1.1 in
  let l2 := readline l1.2 in
  let doctype := header_line l2.1 in
  if negb (String.eqb xmldecl _XMLDECL) then
    Raise (LMFError "invalid or missing XML declaration")
  else
    rbind (decode_utf8 doctype) (fun doctype_decoded =>
      match dget doctype_decoded _DOCTYPES with
      | None => Raise (LMFError "invalid or missing DOCTYPE declaration")
      | Some version => Ok version
      end).

Section LMF.

(** *** The environment of the module

    [wn._util.is_xml] and the vocabularies of [wn.constants] live outside
    this file, and so do the file system and the Python builtins [int],
    [float] and [str] on floats; set iteration order is left to the
    interpreter.  [fs p] is the content of the file at [p] when it can be
    opened. *)
Variable is_xml : string -> bool.
Variable fs : string -> option string.
Variables SENSE_RELATIONS SENSE_SYNSET_RELATIONS SYNSET_RELATIONS : list string.
Variables ADJPOSITIONS PARTS_OF_SPEECH : list string.
Variable float : Type.
Variable py_int : string -> option Z.
Variable py_float : string -> option float.
Variable float_in_unit : float -> bool.
Variable float_str : float -> string.
Variable set_iter : list string -> list string.

Definition open_rb (source : string) : result string :=
  match fs source with
  | Some content => Ok content
  | None => Raise OSError
  end.

Definition is_lmf (source : string) : result bool :=
  if negb (is_xml source) then Ok false
  else
    rbind (open_rb source) (fun fh =>
      match _read_header fh with
      | Raise (LMFError _) => Ok false
      | Raise e => Raise e
      | Ok _ => Ok true
      end).

(** ** [scan_lexicons]

    expat reports each start tag, in document order, to the [start]
    handler.  An entry of [infos] is the attribute dictionary of a
    resource, to which the handler adds the keys [counts] and [extends]. *)

Inductive info_val : Type :=
  | IStr (s : string)
  | ICounts (c : gmap string nat)
  | IExtends (id version : string).

Definition info : Type := dict info_val.

(** [infos[-1] = f(infos[-1])], for the in-place updates of the last
    record *)
Fixpoint update_last {A} (f : A -> A) (l : list A) : list A :=
  match l with
  | [] => []
  | [x] => [f x]
  | x :: l' => x :: update_last f l'
  end.

Definition bump (name : string) (counts : gmap string nat) : gmap string nat :=
  <[name := (default 0 (counts !! name) + 1)%nat]> counts.

Definition scan_start (name : string) (attrs : dict string) (infos : list info)
  : result (list info) :=
  if str_in name ["Lexicon"; "LexiconExtension"] then
    Ok (infos ++ [dset "counts" (ICounts ∅)
                    (map (fun kv : string * string => (kv.1, IStr kv.2)) attrs)])
  else if String.eqb name "Extends" then
    rbind (dindex "id" attrs) (fun id =>
    rbind (dindex "version" attrs) (fun version =>
      match last infos with
      | None => Raise IndexError
      | Some _ => Ok (update_last (dset "extends" (IExtends id version)) infos)
      end))
  else
    match last infos with
    | None => Ok infos
    | Some i =>
        match dget "counts" i with
        | Some (ICounts counts) =>
            Ok (update_last (dset "counts" (ICounts (bump name counts))) infos)
        | Some _ => Raise TypeError
        | None => Raise (KeyError "counts")
        end
    end.

Fixpoint scan_feed (tags : list (string * dict string)) (infos : list info)
  : result (list info) :=
  match tags with
  | [] => Ok infos
  | (name, attrs) :: tags' =>
      rbind (scan_start name attrs infos) (scan_feed tags')
  end.

(** [p.ParseFile(fh)] calls the handler on the start tags [tags] it finds
    and raises [ExpatError] at the end when the document is ill-formed
    ([well_formed = false]). *)
Definition scan_lexicons (tags : list (string * dict string)) (well_formed : bool)
  : result (list info) :=
  rbind (scan_feed tags []) (fun infos =>
    if well_formed then Ok infos
    else Raise (LMFError "invalid or ill-formed WN-LMF file")).

(** ** The entity types *)

Inductive pyval : Type :=
  | PStr (s : string)
  | PFloat (f : float).

(** [Metadata] is a named tuple: the tuple of its seventeen slots. *)
Definition Metadata : Type := list (option pyval).

Definition Metadata_fields : list string :=
  _DC_ATTRS ++ ["status"; "note"; "confidence"].

Record Count := mkCount {
  Count_value : Z;
  Count_meta : option Metadata }.

Record SyntacticBehaviour := mkSyntacticBehaviour {
  sb_frame : string;
  sb_senses : list string }.

Record SenseRelation := mkSenseRelation {
  SenseRelation_target : string;
  SenseRelation_type : string;
  SenseRelation_meta : option Metadata }.

Record SynsetRelation := mkSynsetRelation {
  SynsetRelation_target : string;
  SynsetRelation_type : string;
  SynsetRelation_meta : option Metadata }.

Record Example := mkExample {
  Example_text : option string;
  Example_language : option string;
  Example_meta : option Metadata }.

Record ILIDefinition := mkILIDefinition {
  ILIDefinition_text : option string;
  ILIDefinition_meta : option Metadata }.

Record Definition_ := mkDefinition {
  Definition_text : option string;
  Definition_language : option string;
  Definition_source_sense : option string;
  Definition_meta : option Metadata }.

Record Synset := mkSynset {
  Synset_id : string;
  Synset_ili : string;
  Synset_pos : string;
  Synset_definitions : list Definition_;
  Synset_ili_definition : option ILIDefinition;
  Synset_relations : list SynsetRelation;
  Synset_examples : list Example;
  Synset_lexicalized : bool;
  Synset_meta : option Metadata;
  Synset_external : bool }.

Record Sense := mkSense {
  Sense_id : string;
  Sense_synset : string;
  Sense_relations : list SenseRelation;
  Sense_examples : list Example;
  Sense_counts : list Count;
  Sense_lexicalized : bool;
  Sense_adjposition : string;
  Sense_meta : option Metadata;
  Sense_external : bool }.

Record Tag := mkTag {
  Tag_text : option string;
  Tag_category : string }.

Record Form := mkForm {
  Form_form : string;
  Form_script : option string;
  Form_tags : list Tag }.

Record Lemma_ := mkLemma {
  Lemma_form : string;
  Lemma_pos : string;
  Lemma_script : option string;
  Lemma_tags : list Tag }.

Record LexicalEntry := mkLexicalEntry {
  LexicalEntry_id : string;
  LexicalEntry_lemma : option Lemma_;
  LexicalEntry_forms : list Form;
  LexicalEntry_senses : list Sense;
  LexicalEntry_meta : option Metadata;
  LexicalEntry_external : bool }.

(** The dictionaries built by [_load_dependency] *)
Record Dependency := mkDependency {
  dep_id : string;
  dep_version : string;
  dep_url : option string }.

Record Lexicon := mkLexicon {
  Lexicon_id : string;
  Lexicon_label : string;
  Lexicon_language : string;
  Lexicon_email : string;
  Lexicon_license : string;
  Lexicon_version : string;
  Lexicon_url : option string;
  Lexicon_citation : option string;
  Lexicon_lexical_entries : list LexicalEntry;
  Lexicon_synsets : list Synset;
  Lexicon_syntactic_behaviours : list SyntacticBehaviour;
  Lexicon_extends : option Dependency;
  Lexicon_requires : list Dependency;
  Lexicon_meta : option Metadata }.

Definition LexicalResource : Type := list Lexicon.

(** ** [XMLEventIterator]: the event stream with one event of lookahead *)

Inductive kind : Type := start_ev | end_ev.

Record Element := mkElement {
  tag : string;
  attrib : dict string;
  text : option string }.

Definition event : Type := kind * Element.

Inductive warning : Type :=
  | NotOneOf (value : string) (choices : list string)
  | CountNotInteger (txt : string)
  | ConfidenceNotInUnit (value : pyval).

(** [pending] is [_next] followed by what the wrapped iterator still
    holds; [log] collects the warnings issued so far. *)
Record cursor := mkCursor {
  pending : list event;
  log : list warning }.

Inductive outcome (A : Type) : Type :=
  | Done (a : A) (c : cursor)
  | Abort (e : exn)
  | OutOfFuel.
Arguments Done {A} a c.
Arguments Abort {A} e.
Arguments OutOfFuel {A}.

Definition M (A : Type) : Type := cursor -> outcome A.

Definition ret {A} (a : A) : M A := fun c => Done a c.

Definition bind {A B} (m : M A) (k : A -> M B) : M B :=
  fun c =>
    match m c with
    | Done a c' => k a c'
    | Abort e => Abort e
    | OutOfFuel => OutOfFuel
    end.

Notation "x <- m ;; k" := (bind m (fun x => k))
  (at level 100, m at next level, right associativity).
Notation "m ;;; k" := (bind m (fun _ => k))
  (at level 100, right associativity).

Definition raise {A} (e : exn) : M A := fun _ => Abort e.

Definition lift {A} (r : result A) : M A :=
  match r with
  | Ok a => ret a
  | Raise e => raise e
  end.

Definition warn (w : warning) : M unit :=
  fun c => Done tt (mkCursor (pending c) (log c ++ [w])).

(** A [while] loop over an accumulator: [body] answers [None] for
    [break] and the new accumulator otherwise. *)
Fixpoint while_ {S} (fuel : nat) (body : S -> M (option S)) (s : S) : M S :=
  match fuel with
  | O => fun _ => OutOfFuel
  | Datatypes.S fuel' =>
      r <- body s ;;
      match r with
      | None => ret s
      | Some s' => while_ fuel' body s'
      end
  end.

Definition is_start (k : kind) : bool :=
  match k with start_ev => true | end_ev => false end.

(** [next(self)] *)
Definition next_event : M event :=
  fun c =>
    match pending c with
    | [] => Abort StopIteration
    | ev :: evs => Done ev (mkCursor evs (log c))
    end.

Definition starts (tags : list string) : M bool :=
  fun c =>
    match pending c with
    | [] => Done false c
    | (k, elem) :: _ => Done (is_start k && str_in (tag elem) tags) c
    end.

Definition expected (open close : string) (tags : list string) (got : string)
  : string :=
  "expected " +:+ open +:+ join "|" tags +:+ ">, got " +:+ close +:+ got +:+ ">".

Definition start (tags : list string) : M Element :=
  ev <- next_event ;;
  if negb (is_start ev.1) then
    raise (LMFError (expected "<" "</" tags (tag ev.2)))
  else if negb (str_in (tag ev.2) tags) then
    raise (LMFError (expected "<" "<" tags (tag ev.2)))
  else ret ev.2.

Definition end_ (tags : list string) : M Element :=
  ev <- next_event ;;
  if is_start ev.1 then
    raise (LMFError (expected "</" "<" tags (tag ev.2)))
  else if negb (str_in (tag ev.2) tags) then
    raise (LMFError (expected "</" "</" tags (tag ev.2)))
  else ret ev.2.

(** [list(events)] *)
Definition drain : M (list event) :=
  fun c => Done (pending c) (mkCursor [] (log c)).

(** ** The loader *)

(** [s.lower()], on the ASCII letters.  A letter outside ASCII is left
    as it is, where Python lower-cases it too; no such letter becomes an
    ASCII one of [true] or [false]. *)
Definition lower_char (c : ascii) : ascii :=
  let n := nat_of_ascii c in
  if (65 <=? n)%nat && (n <=? 90)%nat then ascii_of_nat (n + 32) else c.

Fixpoint lower (s : string) : string :=
  match s with
  | EmptyString => EmptyString
  | String c r => String (lower_char c) (lower r)
  end.

(** [s.split()]: the words between runs of white space.  The white space
    is that of [str.isspace], read in UTF-8: the ASCII characters 9 to 13
    and 28 to 32, U+0085, U+00A0, U+1680, U+2000 to U+200A, U+2028, U+2029,
    U+202F, U+205F and U+3000. *)
Definition byte_is (n : nat) (c : ascii) : bool := (nat_of_ascii c =? n)%nat.

Definition space1 (c0 : ascii) : bool := in_range 9 13 c0 || in_range 28 32 c0.

Definition space2 (c0 c1 : ascii) : bool :=
  byte_is 194 c0 && (byte_is 133 c1 || byte_is 160 c1).

Definition space3 (c0 c1 c2 : ascii) : bool :=
  byte_is 225 c0 && byte_is 154 c1 && byte_is 128 c2
  || byte_is 226 c0 && byte_is 128 c1
     && (in_range 128 138 c2 || in_range 168 169 c2 || byte_is 175 c2)
  || byte_is 226 c0 && byte_is 129 c1 && byte_is 159 c2
  || byte_is 227 c0 && byte_is 128 c1 && byte_is 128 c2.

(** The word read so far, if any, in front of the words that follow *)
Definition word (cur : string) (words : list string) : list string :=
  match cur with
  | EmptyString => words
  | _ => cur :: words
  end.

Fixpoint split_ws_aux (cur : string) (s : string) : list string :=
  match s with
  | EmptyString => word cur []
  | String c0 r0 =>
      let go_on := split_ws_aux (cur +:+ String c0 EmptyString) r0 in
      if space1 c0 then word cur (split_ws_aux EmptyString r0)
      else
        match r0 with
        | EmptyString => go_on
        | String c1 r1 =>
            if space2 c0 c1 then word cur (split_ws_aux EmptyString r1)
            else
              match r1 with
              | EmptyString => go_on
              | String c2 r2 =>
                  if space3 c0 c1 c2
                  then word cur (split_ws_aux EmptyString r2)
                  else go_on
              end
        end
  end.

Definition split_ws (s : string) : list string := split_ws_aux EmptyString s.

Definition _get_literal (value : option string) (choices : list string)
  : M string :=
  match value with
  | Some v =>
      (if negb (str_in v choices) then warn (NotOneOf v choices) else ret tt) ;;;
      ret v
  | None => ret EmptyString
  end.

Definition _get_bool (value : string) : M bool :=
  r <- _get_literal (Some (lower value)) ["true"; "false"] ;;
  ret (String.eqb r "true").

Definition _get_metadata (attrs : dict string) (version : string)
  : M (option Metadata) :=
  pairs <- lift (dindex version _DC_QNAME_PAIRS) ;;
  let metas : Metadata :=
    map (fun p : string * string => PStr <$> dget p.1 attrs) pairs in
  let metas := metas ++ [PStr <$> dget "status" attrs] in
  let metas := metas ++ [PStr <$> dget "note" attrs] in
  conf <- match dget "confidenceScore" attrs with
          | Some value =>
              match py_float value with
              | Some f =>
                  (if float_in_unit f then ret tt
                   else warn (ConfidenceNotInUnit (PFloat f))) ;;;
                  ret (Some (PFloat f))
              | None =>
                  warn (ConfidenceNotInUnit (PStr value)) ;;;
                  ret (Some (PStr value))
              end
          | None => ret None
          end ;;
  let metas := metas ++ [conf] in
  if existsb (fun meta : option pyval => bool_decide (is_Some meta)) metas
  then ret (Some metas)
  else ret None.

Definition _load_dependency (tag_ : string) : M Dependency :=
  start [tag_] ;;;
  elem <- end_ [tag_] ;;
  id <- lift (dindex "id" (attrib elem)) ;;
  version <- lift (dindex "version" (attrib elem)) ;;
  ret (mkDependency id version (dget "url" (attrib elem))).

Definition _load_tags (fuel : nat) : M (list Tag) :=
  while_ fuel (fun tags =>
    b <- starts ["Tag"] ;;
    if b then
      next_event ;;;
      elem <- end_ ["Tag"] ;;
      category <- lift (dindex "category" (attrib elem)) ;;
      ret (Some (tags ++ [mkTag (text elem) category]))
    else ret None) [].

Definition _load_lemma (fuel : nat) : M Lemma_ :=
  elem <- start ["Lemma"] ;;
  let attrs := attrib elem in
  writtenForm <- lift (dindex "writtenForm" attrs) ;;
  partOfSpeech <- lift (dindex "partOfSpeech" attrs) ;;
  pos <- _get_literal (Some partOfSpeech) PARTS_OF_SPEECH ;;
  tags <- _load_tags fuel ;;
  let lemma := mkLemma writtenForm pos (dget "script" attrs) tags in
  end_ ["Lemma"] ;;;
  ret lemma.

Definition _load_forms (fuel : nat) : M (list Form) :=
  while_ fuel (fun forms =>
    b <- starts ["Form"] ;;
    if b then
      ev <- next_event ;;
      let attrs := attrib ev.2 in
      writtenForm <- lift (dindex "writtenForm" attrs) ;;
      tags <- _load_tags fuel ;;
      end_ ["Form"] ;;;
      ret (Some (forms ++ [mkForm writtenForm (dget "script" attrs) tags]))
    else ret None) [].

Definition _load_sense_relations (fuel : nat) (version : string)
  : M (list SenseRelation) :=
  while_ fuel (fun relations =>
    b <- starts ["SenseRelation"] ;;
    if b then
      next_event ;;;
      elem <- end_ ["SenseRelation"] ;;
      let attrs := attrib elem in
      reltype <- lift (dindex "relType" attrs) ;;
      if negb (str_in reltype SENSE_RELATIONS
               || str_in reltype SENSE_SYNSET_RELATIONS) then
        raise (LMFError ("invalid sense relation: " +:+ reltype))
      else
        target <- lift (dindex "target" attrs) ;;
        meta <- _get_metadata attrs version ;;
        ret (Some (relations ++ [mkSenseRelation target reltype meta]))
    else ret None) [].

Definition _load_examples (fuel : nat) (version : string) : M (list Example) :=
  while_ fuel (fun examples =>
    b <- starts ["Example"] ;;
    if b then
      next_event ;;;
      elem <- end_ ["Example"] ;;
      let attrs := attrib elem in
      meta <- _get_metadata attrs version ;;
      ret (Some (examples ++ [mkExample (text elem) (dget "language" attrs) meta]))
    else ret None) [].

Definition _load_counts (fuel : nat) (version : string) : M (list Count) :=
  while_ fuel (fun counts =>
    b <- starts ["Count"] ;;
    if b then
      next_event ;;;
      elem <- end_ ["Count"] ;;
      let attrs := attrib elem in
      value <- match text elem with
               | None => raise TypeError
               | Some txt =>
                   match py_int txt with
                   | Some n => ret n
                   | None => warn (CountNotInteger txt) ;;; ret (-1)%Z
                   end
               end ;;
      meta <- _get_metadata attrs version ;;
      ret (Some (counts ++ [mkCount value meta]))
    else ret None) [].

Definition _load_senses (fuel : nat) (external : bool) (version : string)
  : M (list Sense) :=
  while_ fuel (fun senses =>
    b <- starts ["Sense"] ;;
    if b then
      elem <- start ["Sense"] ;;
      let attrs := attrib elem in
      id <- lift (dindex "id" attrs) ;;
      synset <- lift (dindex "synset" attrs) ;;
      relations <- _load_sense_relations fuel version ;;
      examples <- _load_examples fuel version ;;
      counts <- _load_counts fuel version ;;
      lexicalized <- _get_bool (default "true" (dget "lexicalized" attrs)) ;;
      adjposition <- _get_literal (dget "adjposition" attrs) ADJPOSITIONS ;;
      meta <- _get_metadata attrs version ;;
      let sense := mkSense id synset relations examples counts lexicalized
                     adjposition meta false in
      end_ ["Sense"] ;;;
      ret (Some (senses ++ [sense]))
    else
      b' <- (if external then starts ["ExternalSense"] else ret false) ;;
      if b' then
        elem <- start ["ExternalSense"] ;;
        let attrs := attrib elem in
        id <- lift (dindex "id" attrs) ;;
        relations <- _load_sense_relations fuel version ;;
        examples <- _load_examples fuel version ;;
        counts <- _load_counts fuel version ;;
        let sense := mkSense id EmptyString relations examples counts true
                       EmptyString None true in
        end_ ["ExternalSense"] ;;;
        ret (Some (senses ++ [sense]))
      else ret None) [].

Definition _load_syntactic_behaviours (fuel : nat) (version : string)
  : M (list SyntacticBehaviour) :=
  while_ fuel (fun syntactic_behaviours =>
    b <- starts ["SyntacticBehaviour"] ;;
    if b then
      next_event ;;;
      elem <- end_ ["SyntacticBehaviour"] ;;
      let attrs := attrib elem in
      frame <- lift (dindex "subcategorizationFrame" attrs) ;;
      ret (Some (syntactic_behaviours ++
                 [mkSyntacticBehaviour frame
                    (split_ws (default EmptyString (dget "senses" attrs)))]))
    else ret None) [].

(** [lex_root.clear()] only releases the subtrees already consumed; the
    attribute dictionary read before the loop stays with the caller, so
    the call does not show in the model. *)
Definition _load_lexical_entries (fuel : nat) (extension : bool)
    (version : string)
  : M (list LexicalEntry * list SyntacticBehaviour) :=
  while_ fuel (fun acc : list LexicalEntry * list SyntacticBehaviour =>
    let (entries, syntactic_behaviours) := acc in
    b <- starts ["LexicalEntry"] ;;
    if b then
      elem <- start ["LexicalEntry"] ;;
      let attrs := attrib elem in
      id <- lift (dindex "id" attrs) ;;
      lemma <- _load_lemma fuel ;;
      forms <- _load_forms fuel ;;
      senses <- _load_senses fuel false version ;;
      meta <- _get_metadata attrs version ;;
      let entry := mkLexicalEntry id (Some lemma) forms senses meta false in
      sbs <- _load_syntactic_behaviours fuel version ;;
      end_ ["LexicalEntry"] ;;;
      ret (Some (entries ++ [entry], syntactic_behaviours ++ sbs))
    else
      b' <- (if extension then starts ["ExternalLexicalEntry"] else ret false) ;;
      if b' then
        elem <- start ["ExternalLexicalEntry"] ;;
        let attrs := attrib elem in
        id <- lift (dindex "id" attrs) ;;
        forms <- _load_forms fuel ;;
        senses <- _load_senses fuel true version ;;
        let entry := mkLexicalEntry id None forms senses None true in
        sbs <- _load_syntactic_behaviours fuel version ;;
        end_ ["ExternalLexicalEntry"] ;;;
        ret (Some (entries ++ [entry], syntactic_behaviours ++ sbs))
      else ret None) ([], []).

Definition _load_definitions (fuel : nat) (version : string)
  : M (list Definition_) :=
  while_ fuel (fun definitions =>
    b <- starts ["Definition"] ;;
    if b then
      next_event ;;;
      elem <- end_ ["Definition"] ;;
      let attrs := attrib elem in
      meta <- _get_metadata attrs version ;;
      ret (Some (definitions ++
                 [mkDefinition (text elem) (dget "language" attrs)
                    (dget "sourceSense" attrs) meta]))
    else ret None) [].

Definition _load_ilidefinition (version : string) : M (option ILIDefinition) :=
  b <- starts ["ILIDefinition"] ;;
  if b then
    next_event ;;;
    elem <- end_ ["ILIDefinition"] ;;
    meta <- _get_metadata (attrib elem) version ;;
    ret (Some (mkILIDefinition (text elem) meta))
  else ret None.

Definition _load_synset_relations (fuel : nat) (version : string)
  : M (list SynsetRelation) :=
  while_ fuel (fun relations =>
    b <- starts ["SynsetRelation"] ;;
    if b then
      next_event ;;;
      elem <- end_ ["SynsetRelation"] ;;
      let attrs := attrib elem in
      reltype <- lift (dindex "relType" attrs) ;;
      if negb (str_in reltype SYNSET_RELATIONS) then
        raise (LMFError ("invalid synset relation: " +:+ reltype))
      else
        target <- lift (dindex "target" attrs) ;;
        meta <- _get_metadata attrs version ;;
        ret (Some (relations ++ [mkSynsetRelation target reltype meta]))
    else ret None) [].

Definition _load_synsets (fuel : nat) (extension : bool) (version : string)
  : M (list Synset) :=
  while_ fuel (fun synsets =>
    b <- starts ["Synset"] ;;
    if b then
      elem <- start ["Synset"] ;;
      let attrs := attrib elem in
      id <- lift (dindex "id" attrs) ;;
      ili <- lift (dindex "ili" attrs) ;;
      pos <- _get_literal (dget "partOfSpeech" attrs) PARTS_OF_SPEECH ;;
      definitions <- _load_definitions fuel version ;;
      ili_definition <- _load_ilidefinition version ;;
      relations <- _load_synset_relations fuel version ;;
      examples <- _load_examples fuel version ;;
      lexicalized <- _get_bool (default "true" (dget "lexicalized" attrs)) ;;
      meta <- _get_metadata attrs version ;;
      let synset := mkSynset id ili pos definitions ili_definition relations
                      examples lexicalized meta false in
      end_ ["Synset"] ;;;
      ret (Some (synsets ++ [synset]))
    else
      b' <- (if extension then starts ["ExternalSynset"] else ret false) ;;
      if b' then
        elem <- start ["ExternalSynset"] ;;
        let attrs := attrib elem in
        id <- lift (dindex "id" attrs) ;;
        definitions <- _load_definitions fuel version ;;
        relations <- _load_synset_relations fuel version ;;
        examples <- _load_examples fuel version ;;
        let synset := mkSynset id EmptyString EmptyString definitions None
                        relations examples true None true in
        end_ ["ExternalSynset"] ;;;
        ret (Some (synsets ++ [synset]))
      else ret None) [].

Definition _load_lexicon (fuel : nat) (version : string) : M Lexicon :=
  hd <-
    (if String.eqb version "1.0" then
       lex_root <- start ["Lexicon"] ;;
       ret (lex_root, false, None, [])
     else
       lex_root <- start ["Lexicon"; "LexiconExtension"] ;;
       let extension := String.eqb (tag lex_root) "LexiconExtension" in
       extends <- (if extension
                   then d <- _load_dependency "Extends" ;; ret (Some d)
                   else ret None) ;;
       requires <- while_ fuel (fun requires =>
                     b <- starts ["Requires"] ;;
                     if b then
                       d <- _load_dependency "Requires" ;;
                       ret (Some (requires ++ [d]))
                     else ret None) [] ;;
       ret (lex_root, extension, extends, requires)) ;;
  let '(lex_root, extension, extends, requires) := hd in
  let attrs := attrib lex_root in
  ef <- _load_lexical_entries fuel extension version ;;
  synsets <- _load_synsets fuel extension version ;;
  id <- lift (dindex "id" attrs) ;;
  label <- lift (dindex "label" attrs) ;;
  language <- lift (dindex "language" attrs) ;;
  email <- lift (dindex "email" attrs) ;;
  license <- lift (dindex "license" attrs) ;;
  version_ <- lift (dindex "version" attrs) ;;
  meta <- _get_metadata attrs version ;;
  let lex := mkLexicon id label language email license version_
               (dget "url" attrs) (dget "citation" attrs)
               ef.1 synsets ef.2 extends requires meta in
  end_ [tag lex_root] ;;;
  ret lex.

(** [load]: [fh] is the content of the file, [events] what
    [ET.iterparse] yields on it. *)
Definition load_events (fuel : nat) (version : string) : M LexicalResource :=
  root <- start ["LexicalResource"] ;;
  lexicons <- while_ fuel (fun lexicons =>
                b <- starts ["Lexicon"; "LexiconExtension"] ;;
                if b then
                  lex <- _load_lexicon fuel version ;;
                  ret (Some (lexicons ++ [lex]))
                else ret None) [] ;;
  end_ [tag root] ;;;
  drain ;;;
  ret lexicons.

Definition load (fh : string) (events : list event) : outcome LexicalResource :=
  match _read_header fh with
  | Raise e => Abort e
  | Ok version =>
      load_events (S (length events)) version (mkCursor events [])
  end.

(** ** Documents as the two tokenizers see them

    An XML document is a tree of elements.  [ET.iterparse] walks it and
    yields a [start] and an [end] event for every element, both carrying
    the element; expat reports the start tags in the same order.  The two
    differ on attribute names with a prefix (expat, created without a
    namespace separator, leaves the prefix and reports the [xmlns]
    declarations), which the scanner never looks up: it reads [id] and
    [version] of [Extends] and otherwise copies the dictionary. *)

#[local] Unset Elimination Schemes.
Inductive xml : Type :=
  | Node (e : Element) (children : list xml).
#[local] Set Elimination Schemes.

Definition root_elem (t : xml) : Element :=
  match t with Node e _ => e end.

Definition children_of (t : xml) : list xml :=
  match t with Node _ cs => cs end.

Fixpoint events_of (t : xml) : list event :=
  match t with
  | Node e cs => (start_ev, e) :: concat (map events_of cs) ++ [(end_ev, e)]
  end.

Definition events_of_forest (ts : list xml) : list event :=
  concat (map events_of ts).

(** The elements of a tree, in document order *)
Fixpoint elements_of (t : xml) : list Element :=
  match t with
  | Node e cs => e :: concat (map elements_of cs)
  end.

Definition expat_tags (t : xml) : list (string * dict string) :=
  map (fun e => (tag e, attrib e)) (elements_of t).

(** ** The serializer

    [dump] writes text; the model keeps the two preamble lines and the
    element tree that the rest of the text spells out.  The layout
    helpers [_tostring] and [_indent] only add white space. *)

Definition truthy (s : string) : bool := negb (String.eqb s EmptyString).

Definition otruthy (o : option string) : bool :=
  match o with
  | Some s => truthy s
  | None => false
  end.

(** [str(val)] *)
Definition py_str (v : pyval) : string :=
  match v with
  | PStr s => s
  | PFloat f => float_str f
  end.

Definition str_of_Z (z : Z) : string :=
  NilZero.string_of_int (Z.to_int z).

(** [{k: v for ...}] *)
Definition dict_of {V} (l : list (string * V)) : dict V :=
  fold_left (fun d kv => dset kv.1 kv.2 d) l [].

(** [zip(a, b)] *)
Fixpoint zip {A B} (a : list A) (b : list B) : list (A * B) :=
  match a, b with
  | x :: a', y :: b' => (x, y) :: zip a' b'
  | _, _ => []
  end.

Definition _meta_dict (m : option Metadata) : dict string :=
  match m with
  | Some ((_ :: _) as slots) =>
      dict_of
        (omap (fun kv : string * option pyval =>
                 match kv.2 with
                 | Some val => Some ("dc:" +:+ kv.1, py_str val)
                 | None => None
                 end)
              (zip Metadata_fields slots))
  | _ => []
  end.

Definition elem (tag_ : string) (attrib_ : dict string) (text_ : option string)
    (children : list xml) : xml :=
  Node (mkElement tag_ attrib_ text_) children.

Definition _build_tag (t : Tag) : xml :=
  elem "Tag" [("category", Tag_category t)] (Tag_text t) [].

Definition _build_lemma (lemma : option Lemma_) : result xml :=
  match lemma with
  | None => Raise AttributeError
  | Some lemma =>
      let attrib_ := [("writtenForm", Lemma_form lemma)] in
      let attrib_ := if otruthy (Lemma_script lemma)
                     then dset "script" (default EmptyString (Lemma_script lemma)) attrib_
                     else attrib_ in
      let attrib_ := dset "partOfSpeech" (Lemma_pos lemma) attrib_ in
      Ok (elem "Lemma" attrib_ None (map _build_tag (Lemma_tags lemma)))
  end.

Definition _build_form (form : Form) : xml :=
  let attrib_ := [("writtenForm", Form_form form)] in
  let attrib_ := if otruthy (Form_script form)
                 then dset "script" (default EmptyString (Form_script form)) attrib_
                 else attrib_ in
  elem "Form" attrib_ None (map _build_tag (Form_tags form)).

Definition _build_sense_relation (relation : SenseRelation) : xml :=
  let attrib_ := [("target", SenseRelation_target relation);
                  ("relType", SenseRelation_type relation)] in
  elem "SenseRelation" (dupdate attrib_ (_meta_dict (SenseRelation_meta relation)))
       None [].

Definition _build_example (example : Example) : xml :=
  let attrib_ := if otruthy (Example_language example)
                 then [("language", default EmptyString (Example_language example))]
                 else [] in
  elem "Example" attrib_ (Example_text example) [].

Definition _build_count (count : Count) : xml :=
  elem "Count" (_meta_dict (Count_meta count))
       (Some (str_of_Z (Count_value count))) [].

Definition _build_sense (sense : Sense) : xml :=
  let attrib_ := [("id", Sense_id sense); ("synset", Sense_synset sense)] in
  let attrib_ := dupdate attrib_ (_meta_dict (Sense_meta sense)) in
  let attrib_ := if negb (Sense_lexicalized sense)
                 then dset "lexicalized" "false" attrib_ else attrib_ in
  let attrib_ := if truthy (Sense_adjposition sense)
                 then dset "adjposition" (Sense_adjposition sense) attrib_
                 else attrib_ in
  elem "Sense" attrib_ None
       (map _build_sense_relation (Sense_relations sense)
        ++ map _build_example (Sense_examples sense)
        ++ map _build_count (Sense_counts sense)).

(** Insertion sort for [sorted] on strings *)
Fixpoint insert_sorted (x : string) (l : list string) : list string :=
  match l with
  | [] => [x]
  | y :: l' => if String.leb x y then x :: l else y :: insert_sorted x l'
  end.

Definition sorted (l : list string) : list string :=
  fold_right insert_sorted [] l.

Definition _build_syntactic_behaviour_1_0 (frame : string) (senses : list string)
  : xml :=
  elem "SyntacticBehaviour"
       [("subcategorizationFrame", frame); ("senses", join " " senses)] None [].

(** [sbmap.setdefault(sense_id, []).append(sb)] *)
Definition sbmap_add (sbmap : gmap string (list SyntacticBehaviour))
    (sense_id : string) (sb : SyntacticBehaviour)
  : gmap string (list SyntacticBehaviour) :=
  <[sense_id := default [] (sbmap !! sense_id) ++ [sb]]> sbmap.

Definition build_sbmap (version : string) (sbs : list SyntacticBehaviour)
  : gmap string (list SyntacticBehaviour) :=
  if String.eqb version "1.0" then
    fold_left (fun m sb =>
                 fold_left (fun m' sense_id => sbmap_add m' sense_id sb)
                           (sb_senses sb) m)
              sbs ∅
  else ∅.

(** The [SyntacticBehaviour] elements appended to an entry.  The outer
    loop runs over the set of the entry's sense ids in the order
    [set_iter] picks. *)
Definition entry_syntactic_behaviours (entry : LexicalEntry)
    (sbmap : gmap string (list SyntacticBehaviour)) : list xml :=
  let ids := map Sense_id (LexicalEntry_senses entry) in
  flat_map (fun sense_id =>
              map (fun sb =>
                     _build_syntactic_behaviour_1_0 (sb_frame sb)
                       (sorted (remove_dups
                                  (filter (fun s => s ∈ sb_senses sb) ids))))
                  (default [] (sbmap !! sense_id)))
           (set_iter ids).

Definition _dump_lexical_entry (entry : LexicalEntry)
    (sbmap : gmap string (list SyntacticBehaviour)) (version : string)
  : result xml :=
  let attrib_ := [("id", LexicalEntry_id entry)] in
  let attrib_ := dupdate attrib_ (_meta_dict (LexicalEntry_meta entry)) in
  rbind (_build_lemma (LexicalEntry_lemma entry)) (fun lemma =>
    let children :=
      [lemma]
      ++ map _build_form (LexicalEntry_forms entry)
      ++ map _build_sense (LexicalEntry_senses entry) in
    let children :=
      if String.eqb version "1.0"
      then children ++ entry_syntactic_behaviours entry sbmap
      else children in
    Ok (elem "LexicalEntry" attrib_ None children)).

Definition _build_definition (definition : Definition_) : xml :=
  let attrib_ := [] in
  let attrib_ := if otruthy (Definition_language definition)
                 then dset "language" (default EmptyString (Definition_language definition)) attrib_
                 else attrib_ in
  let attrib_ := if otruthy (Definition_source_sense definition)
                 then dset "sourceSense" (default EmptyString (Definition_source_sense definition)) attrib_
                 else attrib_ in
  let attrib_ := dupdate attrib_ (_meta_dict (Definition_meta definition)) in
  elem "Definition" attrib_ (Definition_text definition) [].

Definition _build_ili_definition (ili_definition : ILIDefinition) : xml :=
  elem "ILIDefinition" (_meta_dict (ILIDefinition_meta ili_definition))
       (ILIDefinition_text ili_definition) [].

Definition _build_synset_relation (relation : SynsetRelation) : xml :=
  let attrib_ := [("target", SynsetRelation_target relation);
                  ("relType", SynsetRelation_type relation)] in
  elem "SynsetRelation"
       (dupdate attrib_ (_meta_dict (SynsetRelation_meta relation))) None [].

Definition _dump_synset (synset : Synset) (version : string) : xml :=
  let attrib_ := [("id", Synset_id synset)] in
  let attrib_ := if truthy (Synset_ili synset)
                 then dset "ili" (Synset_ili synset) attrib_ else attrib_ in
  let attrib_ := if truthy (Synset_pos synset)
                 then dset "partOfSpeech" (Synset_pos synset) attrib_ else attrib_ in
  let attrib_ := dupdate attrib_ (_meta_dict (Synset_meta synset)) in
  let attrib_ := if negb (Synset_lexicalized synset)
                 then dset "lexicalized" "false" attrib_ else attrib_ in
  elem "Synset" attrib_ None
       (map _build_definition (Synset_definitions synset)
        ++ match Synset_ili_definition synset with
           | Some d => [_build_ili_definition d]
           | None => []
           end
        ++ map _build_synset_relation (Synset_relations synset)
        ++ map _build_example (Synset_examples synset)).

(** [mapM] over [result], for the [for] loops that may raise *)
Fixpoint traverse {A B} (f : A -> result B) (l : list A) : result (list B) :=
  match l with
  | [] => Ok []
  | x :: l' => rbind (f x) (fun y => rbind (traverse f l') (fun ys => Ok (y :: ys)))
  end.

Definition _dump_lexicon (lexicon : Lexicon) (version : string) : result xml :=
  let attrib_ := [("id", Lexicon_id lexicon);
                  ("label", Lexicon_label lexicon);
                  ("language", Lexicon_language lexicon);
                  ("email", Lexicon_email lexicon);
                  ("license", Lexicon_license lexicon);
                  ("version", Lexicon_version lexicon)] in
  let attrib_ := if otruthy (Lexicon_url lexicon)
                 then dset "url" (default EmptyString (Lexicon_url lexicon)) attrib_
                 else attrib_ in
  let attrib_ := if otruthy (Lexicon_citation lexicon)
                 then dset "citation" (default EmptyString (Lexicon_citation lexicon)) attrib_
                 else attrib_ in
  let attrib_ := dupdate attrib_ (_meta_dict (Lexicon_meta lexicon)) in
  let sbmap := build_sbmap version (Lexicon_syntactic_behaviours lexicon) in
  rbind (traverse (fun entry => _dump_lexical_entry entry sbmap version)
                  (Lexicon_lexical_entries lexicon)) (fun entries =>
    Ok (elem "Lexicon" attrib_ None
             (entries
              ++ map (fun synset => _dump_synset synset version)
                     (Lexicon_synsets lexicon)))).

Record document := mkDocument {
  doc_xmldecl : string;
  doc_doctype : string;
  doc_root : xml }.

Definition dump (lexicons : LexicalResource) (version : string)
  : result document :=
  rbind (dindex version _SCHEMAS) (fun schema =>
  rbind (dindex version _DC_URIS) (fun dc_uri =>
  rbind (traverse (fun lexicon => _dump_lexicon lexicon version) lexicons)
        (fun lexs =>
    Ok (mkDocument _XMLDECL (_DOCTYPE schema)
          (elem "LexicalResource" [("xmlns:dc", dc_uri)] None lexs))))).

(** ** Reading back what [dump] wrote

    The text that [dump] writes is read again by [_read_header] and
    [ET.iterparse].  The parser resolves the prefix [dc:] of an attribute
    name to the namespace bound by [xmlns:dc] on the root, written in
    braces before the local name, and does not report the [xmlns:dc]
    declaration as an attribute. *)

Fixpoint string_drop (n : nat) (s : string) : string :=
  match n, s with
  | S n', String _ r => string_drop n' r
  | _, _ => s
  end.

Definition expand_name (uri name : string) : string :=
  if String.prefix "dc:" name then qname uri (string_drop 3 name) else name.

Definition expand_attrib (uri : string) (attrib_ : dict string) : dict string :=
  map (fun kv : string * string => (expand_name uri kv.1, kv.2))
      (List.filter (fun kv : string * string => negb (String.eqb kv.1 "xmlns:dc"))
                   attrib_).

(** The text of an element comes back as XML has it.  An empty text is
    written as an empty element, which has no text.  The serializer writes
    a carriage return as it is, and the parser ends every line with a line
    feed: a carriage return, alone or in front of a line feed, comes back
    as one line feed.  (In an attribute value the serializer writes a
    character reference, and the value comes back as it was.) *)
Definition cr_char : ascii := "013"%char.

Fixpoint line_ends (s : string) : string :=
  match s with
  | EmptyString => EmptyString
  | String c r =>
      if Ascii.eqb c cr_char then
        match r with
        | String c' r' =>
            if Ascii.eqb c' nl_char then String nl_char (line_ends r')
            else String nl_char (line_ends r)
        | EmptyString => String nl_char EmptyString
        end
      else String c (line_ends r)
  end.

Definition parsed_text (text_ : option string) : option string :=
  match text_ with
  | Some s => if truthy s then Some (line_ends s) else None
  | None => None
  end.

Fixpoint expand (uri : string) (t : xml) : xml :=
  match t with
  | Node e cs =>
      Node (mkElement (tag e) (expand_attrib uri (attrib e))
                      (parsed_text (text e)))
           (map (expand uri) cs)
  end.

(** The parser reads a file only if it is well formed.  The serializer
    builds the markup and escapes it in the strings, so what it writes is
    well formed as soon as every string is a text ([utf8_valid]) made of
    characters that XML allows: of the control characters only tab, line
    feed and carriage return, and not the two non-characters U+FFFE and
    U+FFFF (in UTF-8 the bytes 239 191 190 and 239 191 191).  On a file
    with another character the parser raises; [iterparse] and [expand] say
    what it yields on the others, and the properties of a reload below are
    stated for them under [xml_tree]. *)
Definition xml_char (c : ascii) : bool :=
  let n := nat_of_ascii c in
  (n =? 9)%nat || (n =? 10)%nat || (n =? 13)%nat || (32 <=? n)%nat.

Definition nonchar_at (s : string) : bool :=
  match s with
  | String c1 (String c2 (String c3 _)) =>
      (nat_of_ascii c1 =? 239)%nat && (nat_of_ascii c2 =? 191)%nat
      && ((nat_of_ascii c3 =? 190)%nat || (nat_of_ascii c3 =? 191)%nat)
  | _ => false
  end.

Fixpoint xml_chars (s : string) : bool :=
  match s with
  | EmptyString => true
  | String c r => xml_char c && negb (nonchar_at s) && xml_chars r
  end.

(** A [str], held in UTF-8, that the parser accepts *)
Definition xml_string (s : string) : bool := utf8_valid s && xml_chars s.

Definition xml_element (e : Element) : bool :=
  forallb (fun kv : string * string => xml_string kv.2) (attrib e)
  && match text e with
     | Some s => xml_string s
     | None => true
     end.

Fixpoint xml_tree (t : xml) : bool :=
  match t with
  | Node e cs => xml_element e && forallb xml_tree cs
  end.

Definition iterparse (d : document) : list event :=
  let uri := default EmptyString
               (dget "xmlns:dc" (attrib (root_elem (doc_root d)))) in
  events_of (expand uri (doc_root d)).

(** The first two lines of the file *)
Definition file_head (d : document) : string :=
  doc_xmldecl d +:+ String nl_char (doc_doctype d) +:+ String nl_char EmptyString.

Definition loaded {A} (o : outcome A) : option A :=
  match o with
  | Done a _ => Some a
  | _ => None
  end.

Definition returned {A} (r : result A) : option A :=
  match r with
  | Ok a => Some a
  | Raise _ => None
  end.

(** Load, dump, load again, dump again *)
Definition round_trip (version fh : string) (events : list event)
  : option (LexicalResource * document * LexicalResource * document) :=
  g1 ← loaded (load fh events) ;
  d1 ← returned (dump g1 version) ;
  g2 ← loaded (load (file_head d1) (iterparse d1)) ;
  d2 ← returned (dump g2 version) ;
  Some (g1, d1, g2, d2).

(** ** A concrete environment, to run the model

    An excerpt of the vocabularies of [wn.constants]; [int] and [float]
    restricted to plain integer literals; sets iterated in insertion
    order; a file system with three files. *)

Definition sample_SENSE_RELATIONS : list string :=
  ["antonym"; "also"; "derivation"; "pertainym"; "similar"; "other"].
Definition sample_SENSE_SYNSET_RELATIONS : list string :=
  ["domain_topic"; "domain_region"; "exemplifies"; "other"].
Definition sample_SYNSET_RELATIONS : list string :=
  ["hypernym"; "hyponym"; "instance_hypernym"; "instance_hyponym";
   "also"; "similar"; "domain_topic"; "other"].
Definition sample_ADJPOSITIONS : list string := ["a"; "ip"; "p"].
Definition sample_PARTS_OF_SPEECH : list string :=
  ["n"; "v"; "a"; "r"; "s"; "c"; "p"; "x"; "u"].

Definition digit_of (c : ascii) : option Z :=
  let n := nat_of_ascii c in
  if (48 <=? n)%nat && (n <=? 57)%nat then Some (Z.of_nat (n - 48)) else None.

Fixpoint digits_aux (acc : Z) (s : string) : option Z :=
  match s with
  | EmptyString => Some acc
  | String c r =>
      match digit_of c with
      | Some d => digits_aux (10 * acc + d) r
      | None => None
      end
  end.

Definition digits (s : string) : option Z :=
  match s with
  | EmptyString => None
  | _ => digits_aux 0 s
  end.

Definition sample_int (s : string) : option Z :=
  match s with
  | String "-" r => Z.opp <$> digits r
  | String "+" r => digits r
  | _ => digits s
  end.

Definition sample_float (s : string) : option Z := sample_int s.

Definition sample_float_in_unit (f : Z) : bool := ((0 <=? f) && (f <=? 1))%Z.

Definition sample_float_str (f : Z) : string := str_of_Z f +:+ ".0".

Definition sample_set_iter (l : list string) : list string := remove_dups l.

Definition header_1_0 : string :=
  _XMLDECL +:+ String nl_char (_DOCTYPE "http://globalwordnet.github.io/schemas/WN-LMF-1.0.dtd")
  +:+ String nl_char EmptyString.

Definition header_1_1 : string :=
  _XMLDECL +:+ String nl_char (_DOCTYPE "http://globalwordnet.github.io/schemas/WN-LMF-1.1.dtd")
  +:+ String nl_char EmptyString.

Definition lexicon_attrs : dict string :=
  [("id", "test-en"); ("label", "Testing"); ("language", "en");
   ("email", "a@b.c"); ("license", "cc0"); ("version", "1")].

Definition leaf (tag_ : string) (attrib_ : dict string) (text_ : option string)
  : xml := elem tag_ attrib_ text_ [].

(** A file system with a resource, a file that opens with the XML
    declaration and goes on with bytes that are not UTF-8, and a text
    file; [is_xml] looks at the first bytes. *)
Definition sample_fs (path : string) : option string :=
  if String.eqb path "wn.xml" then
    Some (header_1_0 +:+ "<LexicalResource/>")
  else if String.eqb path "garbled.xml" then
    Some (_XMLDECL +:+ String nl_char (String "255" (String "254" EmptyString))
          +:+ String nl_char EmptyString)
  else if String.eqb path "notes.txt" then Some "hello"
  else None.

Definition sample_is_xml (path : string) : bool :=
  match sample_fs path with
  | Some content => String.prefix "<?xml" content
  | None => false
  end.

(** One lexicon with an entry of two senses, both named by one
    [SyntacticBehaviour], an example that carries Dublin-Core metadata,
    and a synset. *)
Definition dc_1_0 (attr : string) : string :=
  qname "http://purl.org/dc/elements/1.1/" attr.

Definition sample_entry : xml :=
  elem "LexicalEntry" [("id", "e1")] None
    [ leaf "Lemma" [("writtenForm", "cat"); ("partOfSpeech", "n")] None;
      elem "Sense" [("id", "s1"); ("synset", "ss1")] None
        [ leaf "Example" [(dc_1_0 "source", "book")] (Some "a cat") ];
      elem "Sense" [("id", "s2"); ("synset", "ss1")] None [];
      leaf "SyntacticBehaviour"
        [("subcategorizationFrame", "F"); ("senses", "s1 s2")] None ].

Definition sample_synset : xml :=
  elem "Synset" [("id", "ss1"); ("ili", "i1")] None
    [ leaf "SynsetRelation" [("target", "ss1"); ("relType", "hypernym")] None ].

Definition sample_doc : xml :=
  elem "LexicalResource" [] None
    [ elem "Lexicon" lexicon_attrs None [sample_entry; sample_synset] ].

(** The same lexicon, with a relation type that is in no vocabulary *)
Definition bogus_synset : xml :=
  elem "Synset" [("id", "ss1"); ("ili", "i1")] None
    [ leaf "SynsetRelation" [("target", "ss1"); ("relType", "bogus-type")] None ].

Definition bogus_relation_doc : xml :=
  elem "LexicalResource" [] None
    [ elem "Lexicon" lexicon_attrs None [sample_entry; bogus_synset] ].

Definition bogus_sense_relation_doc : xml :=
  elem "LexicalResource" [] None
    [ elem "Lexicon" lexicon_attrs None
        [ elem "LexicalEntry" [("id", "e1")] None
            [ leaf "Lemma" [("writtenForm", "cat"); ("partOfSpeech", "n")] None;
              elem "Sense" [("id", "s1"); ("synset", "ss1")] None
                [ leaf "SenseRelation"
                    [("target", "s1"); ("relType", "bogus-type")] None ] ] ] ].

(** An entry without its [Lemma], and an extension without [Extends] *)
Definition lemmaless_entry : xml :=
  elem "LexicalEntry" [("id", "e1")] None
    [ elem "Sense" [("id", "s1"); ("synset", "ss1")] None [] ].

Definition lemmaless_doc : xml :=
  elem "LexicalResource" [] None
    [ elem "Lexicon" lexicon_attrs None [lemmaless_entry] ].

Definition rootless_extension : xml :=
  elem "LexiconExtension" lexicon_attrs None [sample_entry].

Definition extendsless_doc : xml :=
  elem "LexicalResource" [] None [rootless_extension].

(** Senses and synsets with values outside the vocabularies *)
Definition bogus_sense : Element :=
  mkElement "Sense"
    [("id", "s1"); ("synset", "ss1"); ("adjposition", "bogus");
     ("lexicalized", "maybe")] None.

Definition maybe_synset : Element :=
  mkElement "Synset" [("id", "ss1"); ("ili", "i1"); ("lexicalized", "maybe")] None.

(** The metadata of every example of every sense *)
Definition example_metas (g : LexicalResource) : list (option Metadata) :=
  lexicon ← g ;
  entry ← Lexicon_lexical_entries lexicon ;
  sense ← LexicalEntry_senses entry ;
  Example_meta <$> Sense_examples sense.

(** The elements of a given tag that a dumped document holds *)
Definition dumped_elements (name : string) (d : document) : list Element :=
  List.filter (fun e => String.eqb (tag e) name) (elements_of (doc_root d)).

(** ** Vocabulary of the properties *)

(** [quiet m]: [m] never fails to answer, does not move the cursor and
    only adds to the log. *)
Definition quiet {A} (m : M A) : Prop :=
  forall c, exists a w, m c = Done a (mkCursor (pending c) (log c ++ w)).

(** [still m]: when [m] answers, the cursor has not moved. *)
Definition still {A} (m : M A) : Prop :=
  forall c a c', m c = Done a c' -> pending c' = pending c.

(** [fine n m]: from a cursor with fewer than [n] pending events, [m]
    does not run out of fuel and does not lengthen the stream; [eats n m]:
    moreover it consumes at least one event. *)
Definition fine {A} (n : nat) (m : M A) : Prop :=
  forall c, length (pending c) < n ->
    match m c with
    | Done _ c' => length (pending c') <= length (pending c)
    | Abort _ => True
    | OutOfFuel => False
    end.

Definition eats {A} (n : nat) (m : M A) : Prop :=
  forall c, length (pending c) < n ->
    match m c with
    | Done _ c' => length (pending c') < length (pending c)
    | Abort _ => True
    | OutOfFuel => False
    end.

(** A loop body: [None] without growing the stream, or a new accumulator
    after consuming something. *)
Definition iter {S} (n : nat) (m : M (option S)) : Prop :=
  forall c, length (pending c) < n ->
    match m c with
    | Done None c' => length (pending c') <= length (pending c)
    | Done (Some _) c' => length (pending c') < length (pending c)
    | Abort _ => True
    | OutOfFuel => False
    end.

(** The rest of the stream after a run of sibling elements: nothing, or
    the end tag of their parent. *)
Definition rest_ok (rest : list event) : Prop :=
  match rest with
  | [] => True
  | (k, _) :: _ => k = end_ev
  end.

(** All the nodes of a document, in document order *)
Fixpoint subtrees (t : xml) : list xml :=
  match t with
  | Node e cs => Node e cs :: concat (map subtrees cs)
  end.

Definition tag_of (t : xml) : string := tag (root_elem t).

Definition has_attr (name : string) (e : Element) : Prop :=
  is_Some (dget name (attrib e)).

(** What a successful load establishes about the elements it went
    through. *)
Definition valid_synset_relation (e : Element) : Prop :=
  exists r, dget "relType" (attrib e) = Some r /\ str_in r SYNSET_RELATIONS = true.

Definition valid_sense_relation (e : Element) : Prop :=
  exists r, dget "relType" (attrib e) = Some r
    /\ (str_in r SENSE_RELATIONS = true \/ str_in r SENSE_SYNSET_RELATIONS = true).

Definition inner_tags : list string :=
  ["Lemma"; "Tag"; "Form"; "Sense"; "ExternalSense"; "SenseRelation";
   "Example"; "Count"; "SyntacticBehaviour"; "Definition"; "ILIDefinition";
   "SynsetRelation"].

(** A node below an entry or a synset *)
Definition inner_ok (t : xml) : Prop :=
  str_in (tag_of t) inner_tags = true
  /\ (tag_of t = "SynsetRelation" -> valid_synset_relation (root_elem t))
  /\ (tag_of t = "SenseRelation" -> valid_sense_relation (root_elem t)).

Definition inner_forest (ts : list xml) : Prop :=
  Forall inner_ok (concat (map subtrees ts)).

Definition first_child_is (name : string) (t : xml) : Prop :=
  exists c cs, children_of t = c :: cs /\ tag_of c = name.

Definition entry_ok (extension : bool) (t : xml) : Prop :=
  ((tag_of t = "LexicalEntry" /\ first_child_is "Lemma" t)
   \/ (extension = true /\ tag_of t = "ExternalLexicalEntry"))
  /\ inner_forest (children_of t).

Definition synset_ok (extension : bool) (t : xml) : Prop :=
  (tag_of t = "Synset" \/ (extension = true /\ tag_of t = "ExternalSynset"))
  /\ inner_forest (children_of t).

Definition dependency_ok (t : xml) : Prop :=
  (tag_of t = "Extends" \/ tag_of t = "Requires")
  /\ children_of t = []
  /\ has_attr "id" (root_elem t) /\ has_attr "version" (root_elem t).

Definition lexicon_ok (version : string) (t : xml) (lex : Lexicon) : Prop :=
  exists extension deps entries synsets,
    children_of t = deps ++ entries ++ synsets
    /\ Forall dependency_ok deps
    /\ Forall (entry_ok extension) entries
    /\ Forall (synset_ok extension) synsets
    /\ length entries = length (Lexicon_lexical_entries lex)
    /\ length synsets = length (Lexicon_synsets lex)
    /\ ((tag_of t = "Lexicon" /\ extension = false)
        \/ (tag_of t = "LexiconExtension" /\ version <> "1.0"
            /\ first_child_is "Extends" t)).

Definition document_ok (version : string) (doc : xml) (lexicons : LexicalResource)
  : Prop :=
  tag_of doc = "LexicalResource"
  /\ Forall2 (lexicon_ok version) (children_of doc) lexicons.

(** Judgments on loader code run over a forest of sibling elements.

    [consumes m Q]: started in front of the siblings [ts], [m] goes
    through a prefix [ts1] of them, which [Q] relates to its answer.
    [closes m V]: started inside an element, [m] goes through all the
    children left, which are [inner_forest], and through the end tag.
    [at_head tags m Q]: started on an element whose tag is in [tags], [m]
    goes through exactly that element.  [one_step m Q]: [m] is a loop
    body: it breaks without consuming or it goes through one element. *)
Definition consumes {A} (m : M A) (Q : list xml -> A -> Prop) : Prop :=
  forall ts rest c a c',
    rest_ok rest -> pending c = events_of_forest ts ++ rest ->
    m c = Done a c' ->
    exists ts1 ts2, ts = ts1 ++ ts2
      /\ pending c' = events_of_forest ts2 ++ rest /\ Q ts1 a.

Definition inner {A} (m : M A) : Prop :=
  consumes m (fun ts _ => inner_forest ts).

Definition closes {A} (m : M A) (V : Element -> A -> Prop) : Prop :=
  forall e cs R c a c',
    pending c = events_of_forest cs ++ (end_ev, e) :: R ->
    m c = Done a c' ->
    pending c' = R /\ inner_forest cs /\ V e a.

Definition at_head {A} (tags : list string) (m : M A) (Q : xml -> A -> Prop)
  : Prop :=
  forall e cs ts rest c a c',
    rest_ok rest -> str_in (tag e) tags = true ->
    pending c = events_of_forest (Node e cs :: ts) ++ rest ->
    m c = Done a c' ->
    pending c' = events_of_forest ts ++ rest /\ Q (Node e cs) a.

Definition one_step {S} (m : M (option S)) (Q : xml -> S -> Prop) : Prop :=
  forall ts rest c r c',
    rest_ok rest -> pending c = events_of_forest ts ++ rest ->
    m c = Done r c' ->
    match r with
    | None => pending c' = pending c
    | Some s' =>
        exists t ts', ts = t :: ts'
          /\ pending c' = events_of_forest ts' ++ rest /\ Q t s'
    end.

(** What holds of every element of a document that loads *)
Definition node_ok (n : xml) : Prop :=
  (tag_of n = "SynsetRelation" -> valid_synset_relation (root_elem n))
  /\ (tag_of n = "SenseRelation" -> valid_sense_relation (root_elem n))
  /\ (tag_of n = "LexicalEntry" -> first_child_is "Lemma" n)
  /\ (tag_of n = "LexiconExtension" -> first_child_is "Extends" n).

(** The text of the error raised by [start] and [end] *)
Definition got (ev : event) : string :=
  (if is_start ev.1 then "<" else "</") +:+ tag ev.2 +:+ ">".

Definition is_start_of (name : string) (ev : event) : bool :=
  is_start ev.1 && String.eqb (tag ev.2) name.

(** The seventeen attribute names [_get_metadata] reads, in slot order *)
Definition metadata_names (uri : string) : list string :=
  map (qname uri) _DC_ATTRS ++ ["status"; "note"; "confidenceScore"].

(** Vocabulary for the scanner *)
Definition is_resource (name : string) : bool :=
  str_in name ["Lexicon"; "LexiconExtension"].

(** [counts.get(name, 0)] *)
Definition count_of (counts : gmap string nat) (name : string) : nat :=
  default 0 (counts !! name).

(** The elements strictly below the root of [t], in document order *)
Definition descendants (t : xml) : list Element :=
  concat (map elements_of (children_of t)).

Definition occurrences (name : string) (es : list Element) : nat :=
  length (filter (fun e => tag e = name) es).

Definition as_tags (es : list Element) : list (string * dict string) :=
  map (fun e => (tag e, attrib e)) es.


(** The elements below a resource that loaded: none opens a resource,
    and every [Extends] has its [id] and [version]. *)
Definition scannable (e : Element) : Prop :=
  is_resource (tag e) = false
  /\ (tag e = "Extends" -> has_attr "id" e /\ has_attr "version" e).


(** The start tags read after a resource tag, up to the next resource
    tag; and, for a whole stream, one such run per resource tag. *)
Fixpoint until_resource (es : list Element) : list Element :=
  match es with
  | [] => []
  | e :: es' => if is_resource (tag e) then [] else e :: until_resource es'
  end.



(** ** Further vocabulary: the serializer *)

(** Every entry of the graph has its [lemma]; [as_external] entries have
    none. *)
Definition has_lemmas (lexicons : LexicalResource) : Prop :=
  Forall (fun lexicon =>
            Forall (fun entry => is_Some (LexicalEntry_lemma entry))
                   (Lexicon_lexical_entries lexicon))
         lexicons.

(** The tags [dump] writes at every version *)
Definition written_tags : list string :=
  ["LexicalResource"; "Lexicon"; "LexicalEntry"; "Lemma"; "Form"; "Tag";
   "Sense"; "SenseRelation"; "Example"; "Count"; "Synset"; "Definition";
   "ILIDefinition"; "SynsetRelation"].

Definition tags_in (allowed : list string) (t : xml) : Prop :=
  Forall (fun e => str_in (tag e) allowed = true) (elements_of t).

(** The tags [dump] writes at a given version *)
Definition tags_at (version : string) : list string :=
  if String.eqb version "1.0" then written_tags ++ ["SyntacticBehaviour"]
  else written_tags.

(** [d.keys()] *)
Definition dkeys {V} (d : dict V) : list string := map fst d.

(** A metadata slot as [load] fills the fourteen Dublin-Core slots: empty
    or a string. *)
Definition str_slot (slot : option pyval) : Prop :=
  forall f, slot <> Some (PFloat f).

(** What [_get_metadata] finds of a record that [_meta_dict] has written:
    the fourteen Dublin-Core slots. *)
Definition reread_metadata (slots : Metadata) : option Metadata :=
  if existsb (fun slot : option pyval => bool_decide (is_Some slot))
             (take 14 slots)
  then Some (take 14 slots ++ [None; None; None])
  else None.

(** The attribute names the serializer writes beside the metadata *)
Definition plain_names : list string :=
  ["id"; "label"; "language"; "email"; "license"; "version"; "url";
   "citation"; "writtenForm"; "script"; "partOfSpeech"; "category";
   "synset"; "lexicalized"; "adjposition"; "target"; "relType";
   "sourceSense"; "ili"; "subcategorizationFrame"; "senses"].

Definition plain (d : dict string) : Prop :=
  Forall (fun k => str_in k plain_names = true) (dkeys d).

(** The records [load] builds: seventeen slots, strings in the fourteen
    Dublin-Core ones. *)
Definition loaded_metadata (m : option Metadata) : Prop :=
  match m with
  | Some slots => length slots = 17 /\ Forall str_slot (take 14 slots)
  | None => True
  end.

(** ** Further vocabulary: reading back what the serializer built *)

(** The events [ET.iterparse] yields for sibling elements written under a
    root that binds [dc] to [uri] *)
Definition reparsed (uri : string) (ts : list xml) : list event :=
  events_of_forest (map (expand uri) ts).

(** An optional attribute that is written only when it is [truthy] *)
Definition reread_option (o : option string) : option string :=
  if otruthy o then o else None.

(** A tag, a form and an example as a reload finds them: the texts as
    the parser gives them back *)
Definition reread_tag (t : Tag) : Tag :=
  mkTag (parsed_text (Tag_text t)) (Tag_category t).

Definition reread_form (form : Form) : Form :=
  mkForm (Form_form form) (reread_option (Form_script form))
         (map reread_tag (Form_tags form)).

Definition reread_example (example : Example) : Example :=
  mkExample (parsed_text (Example_text example))
            (reread_option (Example_language example)) None.

Definition reread_sense_relation (relation : SenseRelation) : SenseRelation :=
  mkSenseRelation (SenseRelation_target relation) (SenseRelation_type relation)
                  (SenseRelation_meta relation ≫= reread_metadata).

(** An identifier that [' '.join] and [str.split] carry through: not
    empty, of visible ASCII characters only *)
Fixpoint visible (s : string) : bool :=
  match s with
  | EmptyString => true
  | String c r =>
      let n := nat_of_ascii c in
      (33 <=? n)%nat && (n <=? 126)%nat && visible r
  end.

Definition token (s : string) : Prop := s <> EmptyString /\ visible s = true.


Definition reread_synset_relation (relation : SynsetRelation) : SynsetRelation :=
  mkSynsetRelation (SynsetRelation_target relation)
                   (SynsetRelation_type relation)
                   (SynsetRelation_meta relation ≫= reread_metadata).

Definition reread_definition (definition : Definition_) : Definition_ :=
  mkDefinition (parsed_text (Definition_text definition))
               (reread_option (Definition_language definition))
               (reread_option (Definition_source_sense definition))
               (Definition_meta definition ≫= reread_metadata).

Definition reread_count (count : Count) : Count :=
  mkCount (Count_value count) (Count_meta count ≫= reread_metadata).

(** A loop over the elements of tag [T] stops in front of [rest]: the
    stream is over, or goes on with an end tag or with another element. *)
Definition stops (T : string) (rest : list event) : Prop :=
  match rest with
  | (start_ev, e) :: _ => tag e <> T
  | _ => True
  end.

Definition reread_ili_definition (d : ILIDefinition) : ILIDefinition :=
  mkILIDefinition (parsed_text (ILIDefinition_text d))
                  (ILIDefinition_meta d ≫= reread_metadata).

(** A sense as a reload finds it: the metadata of its examples is gone,
    that of the rest is what [_get_metadata] reads again, and the sense is
    no longer external. *)
Definition reread_sense (sense : Sense) : Sense :=
  mkSense (Sense_id sense) (Sense_synset sense)
          (map reread_sense_relation (Sense_relations sense))
          (map reread_example (Sense_examples sense))
          (map reread_count (Sense_counts sense))
          (Sense_lexicalized sense) (Sense_adjposition sense)
          (Sense_meta sense ≫= reread_metadata) false.

(** What holds of the senses of a loaded graph and matters to a reload:
    relation types in the vocabularies, counts that [int] reads back, and
    metadata records as [_get_metadata] builds them. *)
Definition loaded_sense (sense : Sense) : Prop :=
  Forall (fun relation =>
            (str_in (SenseRelation_type relation) SENSE_RELATIONS = true
             \/ str_in (SenseRelation_type relation) SENSE_SYNSET_RELATIONS
                = true)
            /\ loaded_metadata (SenseRelation_meta relation))
         (Sense_relations sense)
  /\ Forall (fun count =>
               py_int (str_of_Z (Count_value count)) = Some (Count_value count)
               /\ loaded_metadata (Count_meta count))
            (Sense_counts sense)
  /\ loaded_metadata (Sense_meta sense).

(** The warnings a reload issues for a value: one when the value is
    written and is outside its vocabulary *)
Definition literal_warnings (value : string) (choices : list string)
  : list warning :=
  if truthy value && negb (str_in value choices)
  then [NotOneOf value choices] else [].

(** A synset as a reload finds it *)
Definition reread_synset (synset : Synset) : Synset :=
  mkSynset (Synset_id synset) (Synset_ili synset) (Synset_pos synset)
           (map reread_definition (Synset_definitions synset))
           (reread_ili_definition <$> Synset_ili_definition synset)
           (map reread_synset_relation (Synset_relations synset))
           (map reread_example (Synset_examples synset))
           (Synset_lexicalized synset)
           (Synset_meta synset ≫= reread_metadata) false.

Definition loaded_synset (synset : Synset) : Prop :=
  Forall (fun definition => loaded_metadata (Definition_meta definition))
         (Synset_definitions synset)
  /\ match Synset_ili_definition synset with
     | Some d => loaded_metadata (ILIDefinition_meta d)
     | None => True
     end
  /\ Forall (fun relation =>
               str_in (SynsetRelation_type relation) SYNSET_RELATIONS = true
               /\ loaded_metadata (SynsetRelation_meta relation))
            (Synset_relations synset)
  /\ loaded_metadata (Synset_meta synset).

(** ** Further vocabulary: what every loaded graph satisfies *)

(** [yields m P]: whenever [m] answers, its answer satisfies [P]. *)
Definition yields {A} (m : M A) (P : A -> Prop) : Prop :=
  forall c a c', m c = Done a c' -> P a.

Definition sense_relation_inv (relation : SenseRelation) : Prop :=
  (str_in (SenseRelation_type relation) SENSE_RELATIONS = true
   \/ str_in (SenseRelation_type relation) SENSE_SYNSET_RELATIONS = true)
  /\ loaded_metadata (SenseRelation_meta relation).

Definition synset_relation_inv (relation : SynsetRelation) : Prop :=
  str_in (SynsetRelation_type relation) SYNSET_RELATIONS = true
  /\ loaded_metadata (SynsetRelation_meta relation).

Definition sense_inv (sense : Sense) : Prop :=
  Forall sense_relation_inv (Sense_relations sense)
  /\ Forall (fun example => loaded_metadata (Example_meta example))
            (Sense_examples sense)
  /\ Forall (fun count => loaded_metadata (Count_meta count))
            (Sense_counts sense)
  /\ loaded_metadata (Sense_meta sense)
  /\ (Sense_external sense = true ->
      Sense_synset sense = EmptyString /\ Sense_lexicalized sense = true
      /\ Sense_adjposition sense = EmptyString /\ Sense_meta sense = None).

Definition entry_inv (entry : LexicalEntry) : Prop :=
  Forall sense_inv (LexicalEntry_senses entry)
  /\ loaded_metadata (LexicalEntry_meta entry)
  /\ (LexicalEntry_external entry = false ->
      is_Some (LexicalEntry_lemma entry)
      /\ Forall (fun sense => Sense_external sense = false)
                (LexicalEntry_senses entry))
  /\ (LexicalEntry_external entry = true ->
      LexicalEntry_lemma entry = None /\ LexicalEntry_meta entry = None).

Definition synset_inv (synset : Synset) : Prop :=
  Forall (fun definition => loaded_metadata (Definition_meta definition))
         (Synset_definitions synset)
  /\ match Synset_ili_definition synset with
     | Some d => loaded_metadata (ILIDefinition_meta d)
     | None => True
     end
  /\ Forall synset_relation_inv (Synset_relations synset)
  /\ Forall (fun example => loaded_metadata (Example_meta example))
            (Synset_examples synset)
  /\ loaded_metadata (Synset_meta synset)
  /\ (Synset_external synset = true ->
      Synset_ili synset = EmptyString /\ Synset_pos synset = EmptyString
      /\ Synset_ili_definition synset = None
      /\ Synset_lexicalized synset = true /\ Synset_meta synset = None).

Definition lexicon_inv (version : string) (lexicon : Lexicon) : Prop :=
  Forall entry_inv (Lexicon_lexical_entries lexicon)
  /\ Forall synset_inv (Lexicon_synsets lexicon)
  /\ loaded_metadata (Lexicon_meta lexicon)
  /\ (Lexicon_extends lexicon = None ->
      Forall (fun entry => LexicalEntry_external entry = false)
             (Lexicon_lexical_entries lexicon)
      /\ Forall (fun synset => Synset_external synset = false)
                (Lexicon_synsets lexicon))
  /\ (version = "1.0" ->
      Lexicon_extends lexicon = None /\ Lexicon_requires lexicon = []).

(** ** Further vocabulary: the scanner *)

Definition is_extends (e : Element) : bool := String.eqb (tag e) "Extends".

(** Each resource start tag with the run of start tags that follows it *)
Fixpoint resources (es : list Element) : list (Element * list Element) :=
  match es with
  | [] => []
  | e :: es' =>
      if is_resource (tag e) then (e, until_resource es') :: resources es'
      else resources es'
  end.

(** The value stored under [extends] for an [Extends] tag *)
Definition extends_of (e : Element) : option info_val :=
  match dget "id" (attrib e), dget "version" (attrib e) with
  | Some id, Some version => Some (IExtends id version)
  | _, _ => None
  end.

(** The value under [extends] after a run of start tags, [x] being the
    value before *)
Definition extends_after (run : list Element) (x : option info_val)
  : option info_val :=
  match last (List.filter is_extends run) with
  | Some e => extends_of e
  | None => x
  end.

(** A record against the resource tag it was made for and its run: the
    attributes of the tag are kept, and [extends] holds the [id] and the
    [version] of the last [Extends] of the run. *)
Definition record_of (r : Element * list Element) (i : info) : Prop :=
  (forall k, k <> "counts" -> k <> "extends" ->
     dget k i = IStr <$> dget k (attrib r.1))
  /\ dget "extends" i
     = extends_after r.2 (IStr <$> dget "extends" (attrib r.1)).

(** The start tags the scanner reads without raising: every [Extends] has
    its [id] and [version], and none comes before the first resource. *)
Definition extends_ok (es : list Element) : Prop :=
  Forall (fun e => is_extends e = true ->
                   has_attr "id" e /\ has_attr "version" e) es
  /\ Forall (fun e => is_extends e = false) (until_resource es).

(** ** [XMLEventIterator], field by field

    The loader model above keeps the lookahead event and what the wrapped
    iterator still holds in one list, [pending].  Here is the class as it
    is written: [iterator] is what the wrapped iterator still holds and
    [_next] the event read ahead, [None] standing for the pair
    [(None, None)]. *)

Record XMLEventIterator := mkXMLEventIterator {
  iterator : list event;
  _next : option event }.

(** [next(self.iterator, (None, None))], with the iterator advanced *)
Definition advance (it : list event) : XMLEventIterator :=
  match it with
  | [] => mkXMLEventIterator [] None
  | ev :: it' => mkXMLEventIterator it' (Some ev)
  end.

(** [__init__] *)
Definition XMLEventIterator_init (it : list event) : XMLEventIterator :=
  advance it.

(** [__next__] *)
Definition XMLEventIterator_next (self : XMLEventIterator)
  : result (event * XMLEventIterator) :=
  match _next self with
  | None => Raise StopIteration
  | Some ev => Ok (ev, advance (iterator self))
  end.

Definition XMLEventIterator_starts (self : XMLEventIterator) (tags : list string)
  : bool :=
  match _next self with
  | None => false
  | Some (k, elem) => is_start k && str_in (tag elem) tags
  end.

Definition XMLEventIterator_start (self : XMLEventIterator) (tags : list string)
  : result (Element * XMLEventIterator) :=
  rbind (XMLEventIterator_next self) (fun r =>
    let '((k, elem), self') := r in
    if negb (is_start k) then
      Raise (LMFError (expected "<" "</" tags (tag elem)))
    else if negb (str_in (tag elem) tags) then
      Raise (LMFError (expected "<" "<" tags (tag elem)))
    else Ok (elem, self')).

Definition XMLEventIterator_end (self : XMLEventIterator) (tags : list string)
  : result (Element * XMLEventIterator) :=
  rbind (XMLEventIterator_next self) (fun r =>
    let '((k, elem), self') := r in
    if is_start k then
      Raise (LMFError (expected "</" "<" tags (tag elem)))
    else if negb (str_in (tag elem) tags) then
      Raise (LMFError (expected "</" "</" tags (tag elem)))
    else Ok (elem, self')).

(** [list(self)] *)
Fixpoint XMLEventIterator_list (fuel : nat) (self : XMLEventIterator)
  : list event :=
  match fuel with
  | O => []
  | S fuel' =>
      match XMLEventIterator_next self with
      | Ok (ev, self') => ev :: XMLEventIterator_list fuel' self'
      | Raise _ => []
      end
  end.

(** The events still to come, and the states [__init__] and [__next__]
    produce: nothing is left in the wrapped iterator once the lookahead is
    empty. *)
Definition to_come (self : XMLEventIterator) : list event :=
  match _next self with
  | Some ev => ev :: iterator self
  | None => []
  end.

Definition exhausted_together (self : XMLEventIterator) : Prop :=
  _next self = None -> iterator self = [].

(** The result of a method of the class against the answer of the loader
    model *)
Definition same_answer {A} (r : result (A * XMLEventIterator)) (o : outcome A)
    (w : list warning) : Prop :=
  match r with
  | Ok (a, self') =>
      o = Done a (mkCursor (to_come self') w) /\ exhausted_together self'
  | Raise e => o = Abort e
  end.

(** ** Further vocabulary: the header *)

(** White space a line may end with before its newline *)
Fixpoint trailing (w : string) : bool :=
  match w with
  | EmptyString => true
  | String c r => is_space c && negb (Ascii.eqb c nl_char) && trailing r
  end.

Fixpoint one_line (s : string) : bool :=
  match s with
  | EmptyString => true
  | String c r => negb (Ascii.eqb c nl_char) && one_line r
  end.

Fixpoint all_space (s : string) : bool :=
  match s with
  | EmptyString => true
  | String c r => is_space c && all_space r
  end.

(** ** [_indent]

    An [ET.Element] with its [tail], the text between its end tag and
    the next tag, which the layout helper sets. *)

#[local] Unset Elimination Schemes.
Inductive etree : Type :=
  | ETNode (tag_ : string) (attrib_ : dict string) (text_ tail_ : option string)
           (children : list etree).
#[local] Set Elimination Schemes.

Definition et_tail (t : etree) : option string :=
  match t with ETNode _ _ _ tl _ => tl end.

Definition set_tail (tl : string) (t : etree) : etree :=
  match t with ETNode tg at_ tx _ cs => ETNode tg at_ tx (Some tl) cs end.

(** The white space of [str.isspace], in UTF-8 *)
Fixpoint isspace_all (s : string) : bool :=
  match s with
  | EmptyString => true
  | String c0 r0 =>
      if in_range 9 13 c0 || in_range 28 32 c0 then isspace_all r0
      else match r0 with
      | EmptyString => false
      | String c1 r1 =>
          if byte_is 194 c0 then
            (byte_is 133 c1 || byte_is 160 c1) && isspace_all r1
          else match r1 with
          | EmptyString => false
          | String c2 r2 =>
              (byte_is 225 c0 && byte_is 154 c1 && byte_is 128 c2
               || byte_is 226 c0 && byte_is 128 c1
                  && (in_range 128 138 c2 || in_range 168 169 c2
                      || byte_is 175 c2)
               || byte_is 226 c0 && byte_is 129 c1 && byte_is 159 c2
               || byte_is 227 c0 && byte_is 128 c1 && byte_is 128 c2)
              && isspace_all r2
          end
      end
  end.

(** [not elem.text or not elem.text.strip()] *)
Definition blank_text (o : option string) : bool :=
  match o with
  | None => true
  | Some s => isspace_all s
  end.

(** ['  ' * level] *)
Fixpoint spaces (level : nat) : string :=
  match level with
  | O => EmptyString
  | S level' => "  " +:+ spaces level'
  end.

Definition self_indent (level : nat) : string := String nl_char (spaces level).

Definition child_indent (level : nat) : string := self_indent level +:+ "  ".

Fixpoint _indent (level : nat) (elem : etree) : etree :=
  match elem with
  | ETNode tg at_ tx tl cs =>
      match cs with
      | [] => elem
      | _ :: _ =>
          ETNode tg at_
            (if blank_text tx then Some (child_indent level) else tx) tl
            ((fix go (cs : list etree) : list etree :=
                match cs with
                | [] => []
                | [c] => [set_tail (self_indent level) (_indent (S level) c)]
                | c :: cs' =>
                    set_tail (child_indent level) (_indent (S level) c) :: go cs'
                end) cs)
      end
  end.

(** What an element holds apart from its layout: the tails, and the
    white space that is the whole text of an element with children, are
    dropped. *)
Fixpoint content (t : etree) : etree :=
  match t with
  | ETNode tg at_ tx _ cs =>
      ETNode tg at_
        (match cs with
         | [] => tx
         | _ :: _ => if blank_text tx then None else tx
         end)
        None (map content cs)
  end.

(** The loop of [_indent] over the children, [f] standing for the
    recursive call *)
Fixpoint layout (level : nat) (f : etree -> etree) (cs : list etree)
  : list etree :=
  match cs with
  | [] => []
  | [c] => [set_tail (self_indent level) (f c)]
  | c :: cs' => set_tail (child_indent level) (f c) :: layout level f cs'
  end.

(** ** Further vocabulary: scanning what [dump] wrote *)

Definition below_entry : list string :=
  ["Lemma"; "Form"; "Tag"; "Sense"; "SenseRelation"; "Example"; "Count";
   "SyntacticBehaviour"].

Definition below_synset : list string :=
  ["Definition"; "ILIDefinition"; "SynsetRelation"; "Example"].

(** An element written for an entry or a synset: its tag, and the tags
    allowed below it *)
Definition shaped (name : string) (below : list string) (t : xml) : Prop :=
  tag_of t = name /\ Forall (tags_in below) (children_of t).

(** ** Further vocabulary: a graph written by [dump] and loaded again *)

Definition reread_lemma (lemma : Lemma_) : Lemma_ :=
  mkLemma (Lemma_form lemma) (Lemma_pos lemma)
          (reread_option (Lemma_script lemma))
          (map reread_tag (Lemma_tags lemma)).

(** The behaviours written in an entry at version 1.0: for every sense
    id of the entry, in the order [set_iter] picks, the behaviours
    recorded for it, each with the sorted sense ids of the entry that it
    names. *)
Definition entry_behaviours (entry : LexicalEntry)
    (sbmap : gmap string (list SyntacticBehaviour)) : list SyntacticBehaviour :=
  let ids := map Sense_id (LexicalEntry_senses entry) in
  flat_map (fun sense_id =>
              map (fun sb =>
                     mkSyntacticBehaviour (sb_frame sb)
                       (sorted (remove_dups
                                  (filter (fun s => s ∈ sb_senses sb) ids))))
                  (default [] (sbmap !! sense_id)))
           (set_iter ids).

Definition written_behaviours (version : string) (entry : LexicalEntry)
    (sbmap : gmap string (list SyntacticBehaviour)) : list SyntacticBehaviour :=
  if String.eqb version "1.0" then entry_behaviours entry sbmap else [].

Definition reread_entry (entry : LexicalEntry) : LexicalEntry :=
  mkLexicalEntry (LexicalEntry_id entry)
    (reread_lemma <$> LexicalEntry_lemma entry)
    (map reread_form (LexicalEntry_forms entry))
    (map reread_sense (LexicalEntry_senses entry))
    (LexicalEntry_meta entry ≫= reread_metadata) false.

(** A lexicon as a reload finds it: the behaviours are those written in
    the entries, and the dependencies are gone. *)
Definition reread_lexicon (version : string) (lexicon : Lexicon) : Lexicon :=
  mkLexicon (Lexicon_id lexicon) (Lexicon_label lexicon)
    (Lexicon_language lexicon) (Lexicon_email lexicon)
    (Lexicon_license lexicon) (Lexicon_version lexicon)
    (reread_option (Lexicon_url lexicon))
    (reread_option (Lexicon_citation lexicon))
    (map reread_entry (Lexicon_lexical_entries lexicon))
    (map reread_synset (Lexicon_synsets lexicon))
    (flat_map (fun entry =>
                 written_behaviours version entry
                   (build_sbmap version (Lexicon_syntactic_behaviours lexicon)))
              (Lexicon_lexical_entries lexicon))
    None [] (Lexicon_meta lexicon ≫= reread_metadata).

(** The warnings of a reload, in the order they are issued *)
Definition pos_warnings (pos : string) : list warning :=
  if str_in pos PARTS_OF_SPEECH then [] else [NotOneOf pos PARTS_OF_SPEECH].

Definition entry_warnings (entry : LexicalEntry) : list warning :=
  match LexicalEntry_lemma entry with
  | Some lemma => pos_warnings (Lemma_pos lemma)
  | None => []
  end
  ++ flat_map (fun sense =>
                 literal_warnings (Sense_adjposition sense) ADJPOSITIONS)
              (LexicalEntry_senses entry).

Definition lexicon_warnings (lexicon : Lexicon) : list warning :=
  flat_map entry_warnings (Lexicon_lexical_entries lexicon)
  ++ flat_map (fun synset =>
                 literal_warnings (Synset_pos synset) PARTS_OF_SPEECH)
              (Lexicon_synsets lexicon).

(** The graphs the round trip is stated for: records as [load] builds
    them, an [ili] on every synset and, at version 1.0, sense ids that
    [str.split] leaves whole. *)
Definition reloadable_entry (version : string) (entry : LexicalEntry) : Prop :=
  Forall loaded_sense (LexicalEntry_senses entry)
  /\ loaded_metadata (LexicalEntry_meta entry)
  /\ (version = "1.0" ->
      Forall (fun sense => token (Sense_id sense)) (LexicalEntry_senses entry)).

Definition reloadable_lexicon (version : string) (lexicon : Lexicon) : Prop :=
  Forall (reloadable_entry version) (Lexicon_lexical_entries lexicon)
  /\ Forall (fun synset => Synset_ili synset <> EmptyString
                           /\ loaded_synset synset)
            (Lexicon_synsets lexicon)
  /\ loaded_metadata (Lexicon_meta lexicon).

(** ** Further vocabulary: the errors of a load *)

(** What is left of a document read down to depth [d]: the rest of the
    children of the innermost open element, its end tag, and so on up to
    the root. *)
Fixpoint depth_ok (d : nat) (l : list event) : Prop :=
  match d with
  | O => exists ts, l = events_of_forest ts
  | S d' =>
      exists ts e l',
        l = events_of_forest ts ++ (end_ev, e) :: l' /\ depth_ok d' l'
  end.

Definition head_start (l : list event) : Prop :=
  match l with
  | (start_ev, _) :: _ => True
  | _ => False
  end.

(** The exceptions of the loaders *)
Definition loader_error (e : exn) : Prop :=
  match e with
  | LMFError _ | KeyError _ | TypeError => True
  | _ => False
  end.

(** [runs d m d']: started at depth [d], [m] stops at depth [d'] or raises
    a [loader_error]; [runs_at]: the same when the next event is a start
    tag; [keeps m]: [m] does not read the stream. *)
Definition runs {A} (d : nat) (m : M A) (d' : nat) : Prop :=
  forall c, depth_ok d (pending c) ->
    match m c with
    | Done _ c' => depth_ok d' (pending c')
    | Abort e => loader_error e
    | OutOfFuel => True
    end.

Definition runs_at {A} (d : nat) (m : M A) (d' : nat) : Prop :=
  forall c, depth_ok d (pending c) -> head_start (pending c) ->
    match m c with
    | Done _ c' => depth_ok d' (pending c')
    | Abort e => loader_error e
    | OutOfFuel => True
    end.

Definition keeps {A} (m : M A) : Prop :=
  forall c,
    match m c with
    | Done _ c' => pending c' = pending c
    | Abort e => loader_error e
    | OutOfFuel => True
    end.

(** ** Further vocabulary: [Count] elements as they come *)

(** The value [_load_counts] stores for an element that has a text, and
    the warning it issues *)
Definition count_value (e : Element) : Z :=
  default (-1)%Z (text e ≫= py_int).

Definition count_warnings (e : Element) : list warning :=
  match text e with
  | Some txt =>
      match py_int txt with
      | Some _ => []
      | None => [CountNotInteger txt]
      end
  | None => []
  end.

(** ** Further vocabulary: documents that [load] accepts

    A sufficient shape, read off the loaders: which children an element
    has, in which order, and which attributes the loaders index. *)

Definition leaf_of (name : string) (t : xml) : Prop :=
  tag_of t = name /\ children_of t = [].

Definition accepted_tag (t : xml) : Prop :=
  leaf_of "Tag" t /\ has_attr "category" (root_elem t).

Definition accepted_form (t : xml) : Prop :=
  tag_of t = "Form" /\ has_attr "writtenForm" (root_elem t)
  /\ Forall accepted_tag (children_of t).

Definition accepted_lemma (t : xml) : Prop :=
  tag_of t = "Lemma" /\ has_attr "writtenForm" (root_elem t)
  /\ has_attr "partOfSpeech" (root_elem t)
  /\ Forall accepted_tag (children_of t).

Definition accepted_sense_relation (t : xml) : Prop :=
  leaf_of "SenseRelation" t /\ has_attr "target" (root_elem t)
  /\ valid_sense_relation (root_elem t).

Definition accepted_synset_relation (t : xml) : Prop :=
  leaf_of "SynsetRelation" t /\ has_attr "target" (root_elem t)
  /\ valid_synset_relation (root_elem t).

Definition accepted_count (t : xml) : Prop :=
  leaf_of "Count" t /\ is_Some (text (root_elem t)).

Definition accepted_behaviour (t : xml) : Prop :=
  leaf_of "SyntacticBehaviour" t
  /\ has_attr "subcategorizationFrame" (root_elem t).

Definition accepted_sense (external : bool) (t : xml) : Prop :=
  has_attr "id" (root_elem t)
  /\ ((tag_of t = "Sense" /\ has_attr "synset" (root_elem t))
      \/ (external = true /\ tag_of t = "ExternalSense"))
  /\ exists relations examples counts,
       children_of t = relations ++ examples ++ counts
       /\ Forall accepted_sense_relation relations
       /\ Forall (leaf_of "Example") examples
       /\ Forall accepted_count counts.

Definition accepted_entry (extension : bool) (t : xml) : Prop :=
  has_attr "id" (root_elem t)
  /\ exists lemmas forms senses behaviours,
       children_of t = lemmas ++ forms ++ senses ++ behaviours
       /\ Forall accepted_form forms
       /\ Forall accepted_behaviour behaviours
       /\ ((tag_of t = "LexicalEntry"
            /\ (exists lemma, lemmas = [lemma] /\ accepted_lemma lemma)
            /\ Forall (accepted_sense false) senses)
           \/ (extension = true /\ tag_of t = "ExternalLexicalEntry"
               /\ lemmas = [] /\ Forall (accepted_sense true) senses)).

Definition accepted_synset (extension : bool) (t : xml) : Prop :=
  has_attr "id" (root_elem t)
  /\ exists definitions ili_definitions relations examples,
       children_of t = definitions ++ ili_definitions ++ relations ++ examples
       /\ Forall (leaf_of "Definition") definitions
       /\ Forall accepted_synset_relation relations
       /\ Forall (leaf_of "Example") examples
       /\ ((tag_of t = "Synset" /\ has_attr "ili" (root_elem t)
            /\ (ili_definitions = []
                \/ exists d, ili_definitions = [d] /\ leaf_of "ILIDefinition" d))
           \/ (extension = true /\ tag_of t = "ExternalSynset"
               /\ ili_definitions = [])).

Definition accepted_dependency (name : string) (t : xml) : Prop :=
  leaf_of name t /\ has_attr "id" (root_elem t)
  /\ has_attr "version" (root_elem t).

Definition accepted_lexicon (version : string) (t : xml) : Prop :=
  Forall (fun name => has_attr name (root_elem t))
         ["id"; "label"; "language"; "email"; "license"; "version"]
  /\ exists extension dependencies entries synsets,
       children_of t = dependencies ++ entries ++ synsets
       /\ Forall (accepted_entry extension) entries
       /\ Forall (accepted_synset extension) synsets
       /\ ((tag_of t = "Lexicon" /\ extension = false
            /\ Forall (accepted_dependency "Requires") dependencies
            /\ (version = "1.0" -> dependencies = []))
           \/ (version <> "1.0" /\ tag_of t = "LexiconExtension"
               /\ extension = true
               /\ exists extends requires,
                    dependencies = extends :: requires
                    /\ accepted_dependency "Extends" extends
                    /\ Forall (accepted_dependency "Requires") requires)).

Definition accepted_document (version : string) (doc : xml) : Prop :=
  tag_of doc = "LexicalResource"
  /\ Forall (accepted_lexicon version) (children_of doc).

(** [passes m l rest Q]: started in front of the events [l] followed by
    [rest], [m] goes through [l] and answers a value that satisfies [Q];
    [halts tags l]: the stream [l] does not go on with a start tag of
    [tags]; [fits fuel t]: the loops have fuel for [t]. *)
Definition passes {A} (m : M A) (l rest : list event) (Q : A -> Prop) : Prop :=
  forall w, exists a w', m (mkCursor (l ++ rest) w) = Done a (mkCursor rest w') /\ Q a.

Definition halts (tags : list string) (l : list event) : Prop :=
  match l with
  | (start_ev, e) :: _ => str_in (tag e) tags = false
  | _ => True
  end.

Definition fits (fuel : nat) (t : xml) : Prop := length (events_of t) < fuel.

(** [fails m l e]: started in front of the events [l], [m] raises [e]. *)
Definition fails {A} (m : M A) (l : list event) (e : exn) : Prop :=
  forall w, m (mkCursor l w) = Abort e.

(** The event that follows the start tag of an element: the start tag of
    its first child, or its own end tag *)
Definition first_inside (t : xml) : event :=
  match children_of t with
  | c :: _ => (start_ev, root_elem c)
  | [] => (end_ev, root_elem t)
  end.

(** The body of the loop of [_load_lexical_entries] *)
Definition lexical_entries_body (fuel : nat) (extension : bool)
    (version : string)
  : list LexicalEntry * list SyntacticBehaviour ->
    M (option (list LexicalEntry * list SyntacticBehaviour)) :=
  ltac:(let t := eval cbv beta delta [_load_lexical_entries]
                 in (_load_lexical_entries fuel extension version) in
        lazymatch t with
        | while_ _ ?body _ => exact body
        end).

(** How a lexicon starts, as [_load_lexicon] reads it: the kind of the
    element and its dependencies, none at version 1.0, an [Extends] first
    in an extension *)
Definition accepted_head (version : string) (extension : bool) (e : Element)
    (dependencies : list xml) : Prop :=
  (tag e = "Lexicon" /\ extension = false
   /\ Forall (accepted_dependency "Requires") dependencies
   /\ (version = "1.0" -> dependencies = []))
  \/ (version <> "1.0" /\ tag e = "LexiconExtension" /\ extension = true
      /\ exists extends requires,
           dependencies = extends :: requires
           /\ accepted_dependency "Extends" extends
           /\ Forall (accepted_dependency "Requires") requires).

(** ** Further vocabulary: the metadata of the loaded entities

    [attached uri e m]: [m] is the metadata that goes with the element
    [e]: a record exactly when one of the seventeen attributes is present,
    and then one of seventeen slots, each filled exactly when its attribute
    is present. *)
Definition attached (uri : string) (e : Element) (m : option Metadata) : Prop :=
  (is_Some m
   <-> Exists (fun name => is_Some (dget name (attrib e))) (metadata_names uri))
  /\ forall slots,
       m = Some slots ->
       length slots = 17
       /\ Forall2 (fun name slot => is_Some slot <-> is_Some (dget name (attrib e)))
                  (metadata_names uri) slots.

(** An entity loaded from a childless element of tag [T] *)
Definition leaf_metadata {X} (T : string) (meta : X -> option Metadata)
    (uri : string) (t : xml) (x : X) : Prop :=
  tag_of t = T /\ attached uri (root_elem t) (meta x).

(** A sense against the element it was loaded from, with its relations,
    examples and counts; an external sense has no metadata. *)
Definition sense_metadata (uri : string) (t : xml) (sense : Sense) : Prop :=
  ((tag_of t = "Sense" /\ Sense_external sense = false
    /\ attached uri (root_elem t) (Sense_meta sense))
   \/ (tag_of t = "ExternalSense" /\ Sense_external sense = true
       /\ Sense_meta sense = None))
  /\ exists relations examples counts,
       children_of t = relations ++ examples ++ counts
       /\ Forall2 (leaf_metadata "SenseRelation" SenseRelation_meta uri)
                  relations (Sense_relations sense)
       /\ Forall2 (leaf_metadata "Example" Example_meta uri)
                  examples (Sense_examples sense)
       /\ Forall2 (leaf_metadata "Count" Count_meta uri)
                  counts (Sense_counts sense).

(** An entry: its own metadata and that of its senses, which are its
    children between the lemma and forms and the syntactic behaviours *)
Definition entry_metadata (uri : string) (t : xml) (entry : LexicalEntry)
  : Prop :=
  ((tag_of t = "LexicalEntry" /\ LexicalEntry_external entry = false
    /\ attached uri (root_elem t) (LexicalEntry_meta entry))
   \/ (tag_of t = "ExternalLexicalEntry" /\ LexicalEntry_external entry = true
       /\ LexicalEntry_meta entry = None))
  /\ exists before senses behaviours,
       children_of t = before ++ senses ++ behaviours
       /\ Forall (fun c => str_in (tag_of c) ["Lemma"; "Form"] = true) before
       /\ Forall (fun c => tag_of c = "SyntacticBehaviour") behaviours
       /\ Forall2 (sense_metadata uri) senses (LexicalEntry_senses entry).

Definition synset_metadata (uri : string) (t : xml) (synset : Synset) : Prop :=
  ((tag_of t = "Synset" /\ Synset_external synset = false
    /\ attached uri (root_elem t) (Synset_meta synset))
   \/ (tag_of t = "ExternalSynset" /\ Synset_external synset = true
       /\ Synset_meta synset = None))
  /\ exists definitions ili_definitions relations examples,
       children_of t = definitions ++ ili_definitions ++ relations ++ examples
       /\ Forall2 (leaf_metadata "Definition" Definition_meta uri)
                  definitions (Synset_definitions synset)
       /\ Forall2 (leaf_metadata "ILIDefinition" ILIDefinition_meta uri)
                  ili_definitions
                  (option_list (Synset_ili_definition synset))
       /\ Forall2 (leaf_metadata "SynsetRelation" SynsetRelation_meta uri)
                  relations (Synset_relations synset)
       /\ Forall2 (leaf_metadata "Example" Example_meta uri)
                  examples (Synset_examples synset).

Definition lexicon_metadata (uri : string) (t : xml) (lexicon : Lexicon)
  : Prop :=
  attached uri (root_elem t) (Lexicon_meta lexicon)
  /\ exists dependencies entries synsets,
       children_of t = dependencies ++ entries ++ synsets
       /\ Forall (fun c => str_in (tag_of c) ["Extends"; "Requires"] = true)
                 dependencies
       /\ Forall2 (entry_metadata uri) entries (Lexicon_lexical_entries lexicon)
       /\ Forall2 (synset_metadata uri) synsets (Lexicon_synsets lexicon).

(** [encloses m e W]: started inside the element [e], [m] goes through
    all the children left, which [W] relates to its answer, and through
    the end tag of [e]. *)
Definition encloses {A} (m : M A) (e : Element) (W : list xml -> A -> Prop)
  : Prop :=
  forall cs R c a c',
    pending c = events_of_forest cs ++ (end_ev, e) :: R ->
    m c = Done a c' ->
    pending c' = R /\ W cs a.

(** ** A small graph, to run the serializer *)

Definition sample_metadata : Metadata :=
  [None; None; None; None; None; None; None; None; None; None;
   Some (PStr "book"); None; None; None; Some (PStr "checked"); None; None].

Definition sample_sense : Sense :=
  mkSense "s1" "ss1"
    [mkSenseRelation "s2" "antonym" (Some sample_metadata)]
    [mkExample (Some "a cat") (Some "en") (Some sample_metadata)]
    [mkCount 3 None] false "a" (Some sample_metadata) false.

Definition sample_synset_record : Synset :=
  mkSynset "ss1" "i1" "n"
    [mkDefinition (Some "a feline") (Some "en") None (Some sample_metadata)]
    (Some (mkILIDefinition (Some "feline") None))
    [mkSynsetRelation "ss2" "hypernym" None]
    [mkExample (Some "the cat sat") None None] true None false.

Definition ililess_synset : Synset :=
  mkSynset "ss2" EmptyString "n" [] None [] [] true None false.

Definition sample_form : Form :=
  mkForm "cats" (Some "Latn") [mkTag (Some "plural") "number"].

(** A text of two lines ended the DOS way, and the same as the parser
    gives it back *)
Definition two_lines : string :=
  "a cat" +:+ String cr_char (String nl_char "sat").

Definition two_lines_read : string := "a cat" +:+ String nl_char "sat".

Definition noted_form : Form :=
  mkForm "cats" (Some "") [mkTag (Some two_lines) "note"; mkTag (Some "") "number"].

Definition external_entry : LexicalEntry :=
  mkLexicalEntry "e9" None [] [] None true.

Definition extension_lexicon : Lexicon :=
  mkLexicon "ext" "Extension" "en" "a@b.c" "cc0" "1" None None
    [external_entry] [] []
    (Some (mkDependency "test-en" "1" None)) [] None.

Definition plain_lexicon : Lexicon :=
  mkLexicon "test-en" "Testing" "en" "a@b.c" "cc0" "1" None None
    [mkLexicalEntry "e1" (Some (mkLemma "cat" "n" None [])) [sample_form]
       [sample_sense] None false]
    [sample_synset_record] [] None [] None.

(** A lexicon read without fault, followed by one whose second entry has
    no [Lemma], and by an extension without [Extends] *)
Definition later_lemmaless_doc : xml :=
  elem "LexicalResource" [] None
    [elem "Lexicon" lexicon_attrs None [sample_entry; sample_synset];
     elem "Lexicon" lexicon_attrs None
       [sample_entry; lemmaless_entry; sample_synset]].

Definition later_extendsless_doc : xml :=
  elem "LexicalResource" [] None
    [elem "Lexicon" lexicon_attrs None [sample_entry; sample_synset];
     rootless_extension].

(** An extension whose external entry, sense and synset carry metadata
    attributes *)
Definition noted_external_entry : xml :=
  elem "ExternalLexicalEntry" [("id", "e1"); ("status", "checked")] None
    [elem "ExternalSense" [("id", "s1"); ("note", "rare")] None
       [leaf "Example" [("status", "checked")] (Some "a cat")]].

Definition noted_external_synset : xml :=
  leaf "ExternalSynset" [("id", "ss1"); ("status", "checked")] None.

Definition noted_extension_doc : xml :=
  elem "LexicalResource" [] None
    [elem "LexiconExtension" lexicon_attrs None
       [leaf "Extends" [("id", "other-en"); ("version", "1")] None;
        noted_external_entry; noted_external_synset]].

(** An extension with an external entry *)
Definition extension_doc : xml :=
  elem "LexicalResource" [] None
    [elem "LexiconExtension" lexicon_attrs None
       [leaf "Extends" [("id", "other-en"); ("version", "1")] None;
        leaf "ExternalLexicalEntry" [("id", "e1")] None]].

(** A lexicon with a behaviour, a dependency, a part of speech outside
    the vocabulary and a record holding a [status] *)
Definition behaving_lexicon : Lexicon :=
  mkLexicon "test-en" "Testing" "en" "a@b.c" "cc0" "1"
    (Some "https://example.org") None
    [mkLexicalEntry "e1" (Some (mkLemma "cat" "q" None [])) [sample_form]
       [sample_sense] (Some sample_metadata) false]
    [sample_synset_record]
    [mkSyntacticBehaviour "NP V" ["s1"; "s7"]]
    None [mkDependency "other-en" "1" None] None.
(** ** Properties *)

(** *** The header reader *)

Lemma dget_DOCTYPES (s v : string) :
  dget s _DOCTYPES = Some v ->
  (v = "1.0" /\ Some s = _DOCTYPE <$> dget "1.0" _SCHEMAS)
  \/ (v = "1.1" /\ Some s = _DOCTYPE <$> dget "1.1" _SCHEMAS).
Proof.
  unfold _DOCTYPES, _SCHEMAS. simpl map. simpl dget at 1.
  destruct (String.eqb_spec s (_DOCTYPE "http://globalwordnet.github.io/schemas/WN-LMF-1.0.dtd")) as [->|_].
  - intros [= <-]. left. split; reflexivity.
  - destruct (String.eqb_spec s (_DOCTYPE "http://globalwordnet.github.io/schemas/WN-LMF-1.1.dtd")) as [->|_].
    + intros [= <-]. right. split; reflexivity.
    + discriminate.
Qed.

(** C4.  [_read_header] raises whenever the first line, stripped of
    trailing white space and with single quotes turned into double quotes,
    differs from the XML declaration, and whenever the second line,
    normalised the same way and decoded, is none of the two DOCTYPE
    strings; when it returns, it returns the version whose DOCTYPE the
    second line spells; a file whose first line declares XML version 1.1
    is rejected with the declaration error. *)
Theorem read_header_spec (fh : string) :
  let line1 := header_line (readline fh).1 in
  let line2 := header_line (readline (readline fh).2).1 in
  (line1 <> _XMLDECL ->
     _read_header fh = Raise (LMFError "invalid or missing XML declaration"))
  /\ ((forall version schema,
         dget version _SCHEMAS = Some schema -> line2 <> _DOCTYPE schema) ->
     exists e, _read_header fh = Raise e)
  /\ (forall version, _read_header fh = Ok version ->
        line1 = _XMLDECL
        /\ exists schema, dget version _SCHEMAS = Some schema
             /\ line2 = _DOCTYPE schema
             /\ (version = "1.0" \/ version = "1.1"))
  /\ (forall rest,
        fh = "<?xml version=" +:+ dq +:+ "1.1" +:+ dq +:+ "?>"
             +:+ String nl_char rest ->
        _read_header fh = Raise (LMFError "invalid or missing XML declaration")).
Proof.
  intros line1 line2. unfold _read_header. fold line1. fold line2.
  destruct (String.eqb_spec line1 _XMLDECL) as [Heq|Hne]; simpl negb; cbv iota.
  - split; [intros Hc; contradiction|].
    split.
    { intros Hnone. unfold decode_utf8.
      destruct (utf8_valid line2); cbn [rbind]; [|eauto].
      destruct (dget line2 _DOCTYPES) as [v|] eqn:Hd; [|eauto].
      exfalso.
      destruct (dget_DOCTYPES _ _ Hd) as [[-> Hs]|[-> Hs]]; simpl in Hs;
        injection Hs as Hs;
        [ apply (Hnone "1.0" _ eq_refl Hs) | apply (Hnone "1.1" _ eq_refl Hs) ]. }
    split.
    { intros version. unfold decode_utf8.
      destruct (utf8_valid line2); cbn [rbind]; [|discriminate].
      destruct (dget line2 _DOCTYPES) as [v|] eqn:Hd; [|discriminate].
      intros [= <-]. split; [assumption|].
      destruct (dget_DOCTYPES _ _ Hd) as [[-> Hs]|[-> Hs]]; simpl in Hs;
        injection Hs as ->; eexists; (split; [reflexivity|]); auto. }
    intros rest ->. exfalso.
    subst line1. vm_compute in Heq. discriminate.
  - split; [reflexivity|].
    split; [eauto|].
    split; [discriminate|].
    reflexivity.
Qed.

(** *** Reasoning about the loader monad *)

Lemma bind_Done {A B} (m : M A) (k : A -> M B) c b c' :
  bind m k c = Done b c' ->
  exists a c1, m c = Done a c1 /\ k a c1 = Done b c'.
Proof.
  unfold bind. destruct (m c) as [a c1| |]; try discriminate. eauto.
Qed.

Lemma lift_Done {A} (r : result A) c a c' :
  lift r c = Done a c' -> r = Ok a /\ c' = c.
Proof.
  destruct r; simpl; unfold ret, raise; intros [= <- <-] || discriminate.
  auto.
Qed.

Lemma ret_Done {A} (x : A) c a c' : ret x c = Done a c' -> a = x /\ c' = c.
Proof. unfold ret. intros [= <- <-]. auto. Qed.

Lemma quiet_ret {A} (a : A) : quiet (ret a).
Proof. intros [p l]. exists a, []. unfold ret. simpl. by rewrite app_nil_r. Qed.

Lemma quiet_warn w : quiet (warn w).
Proof. intros c. exists tt, [w]. reflexivity. Qed.

Lemma quiet_bind {A B} (m : M A) (k : A -> M B) :
  quiet m -> (forall a, quiet (k a)) -> quiet (bind m k).
Proof.
  intros Hm Hk c. destruct (Hm c) as (a & w & Ha).
  destruct (Hk a (mkCursor (pending c) (log c ++ w))) as (b & w' & Hb).
  exists b, (w ++ w'). unfold bind. rewrite Ha, Hb. simpl.
  by rewrite app_assoc.
Qed.

Lemma quiet_get_literal value choices : quiet (_get_literal value choices).
Proof.
  destruct value as [v|]; simpl; [|apply quiet_ret].
  apply quiet_bind; [|intros; apply quiet_ret].
  destruct (negb _); [apply quiet_warn | apply quiet_ret].
Qed.

Lemma quiet_get_bool value : quiet (_get_bool value).
Proof.
  apply quiet_bind; [apply quiet_get_literal | intros; apply quiet_ret].
Qed.

Lemma quiet_still {A} (m : M A) : quiet m -> still m.
Proof.
  intros Hq c a c' H. destruct (Hq c) as (a' & w & Ha).
  rewrite Ha in H. by injection H as <- <-.
Qed.

Lemma still_ret {A} (a : A) : still (ret a).
Proof. intros c x c' [_ ->]%ret_Done. reflexivity. Qed.

Lemma still_raise {A} e : still (@raise A e).
Proof. intros c x c'. discriminate. Qed.

Lemma still_lift {A} (r : result A) : still (lift r).
Proof. intros c a c' [_ ->]%lift_Done. reflexivity. Qed.

Lemma still_bind {A B} (m : M A) (k : A -> M B) :
  still m -> (forall a, still (k a)) -> still (bind m k).
Proof.
  intros Hm Hk c b c' (a & c1 & H1 & H2)%bind_Done.
  rewrite (Hk _ _ _ _ H2). eauto.
Qed.

Lemma still_get_metadata attrs version : still (_get_metadata attrs version).
Proof.
  unfold _get_metadata.
  apply still_bind; [apply still_lift|intros pairs].
  apply still_bind.
  - destruct (dget "confidenceScore" attrs); [|apply still_ret].
    destruct (py_float _).
    + apply still_bind; [|intros; apply still_ret].
      destruct (float_in_unit _); [apply still_ret|apply quiet_still, quiet_warn].
    + apply still_bind; [apply quiet_still, quiet_warn|intros; apply still_ret].
  - intros conf. destruct (existsb _ _); apply still_ret.
Qed.

Lemma still_get_literal value choices : still (_get_literal value choices).
Proof. apply quiet_still, quiet_get_literal. Qed.

Lemma still_get_bool value : still (_get_bool value).
Proof. apply quiet_still, quiet_get_bool. Qed.

(** *** The loader always answers *)

Lemma eats_fine {A} n (m : M A) : eats n m -> fine n m.
Proof.
  intros H c Hc. specialize (H c Hc). destruct (m c); auto. lia.
Qed.

Lemma still_fine {A} n (m : M A) :
  still m -> (forall c, m c <> OutOfFuel) -> fine n m.
Proof.
  intros Hs Hf c _. destruct (m c) eqn:E; auto.
  - rewrite (Hs _ _ _ E). lia.
  - by apply (Hf c).
Qed.

Lemma fine_ret {A} n (a : A) : fine n (ret a).
Proof. intros c _. simpl. lia. Qed.

Lemma fine_raise {A} n e : fine n (@raise A e).
Proof. intros c _. exact I. Qed.

Lemma fine_lift {A} n (r : result A) : fine n (lift r).
Proof. destruct r; [apply fine_ret | apply fine_raise]. Qed.

Lemma fine_warn n w : fine n (warn w).
Proof. intros c _. simpl. lia. Qed.

Lemma fine_starts n tags : fine n (starts tags).
Proof.
  intros c _. unfold starts. destruct (pending c) as [|[k e] evs] eqn:E;
    rewrite ?E; simpl; lia.
Qed.

Lemma fine_drain n : fine n drain.
Proof. intros c _. simpl. lia. Qed.

Lemma fine_bind {A B} n (m : M A) (k : A -> M B) :
  fine n m -> (forall a, fine n (k a)) -> fine n (bind m k).
Proof.
  intros Hm Hk c Hc. unfold bind. specialize (Hm c Hc).
  destruct (m c) as [a c1| |]; auto.
  assert (Hc1 : length (pending c1) < n) by lia.
  specialize (Hk a c1 Hc1). destruct (k a c1); auto. lia.
Qed.

Lemma eats_bind {A B} n (m : M A) (k : A -> M B) :
  eats n m -> (forall a, fine n (k a)) -> eats n (bind m k).
Proof.
  intros Hm Hk c Hc. unfold bind. specialize (Hm c Hc).
  destruct (m c) as [a c1| |]; auto.
  assert (Hc1 : length (pending c1) < n) by lia.
  specialize (Hk a c1 Hc1). destruct (k a c1); auto. lia.
Qed.

Lemma eats_next n : eats n next_event.
Proof.
  intros c _. unfold next_event. destruct (pending c); simpl; auto.
Qed.

Lemma eats_start n tags : eats n (start tags).
Proof.
  apply eats_bind; [apply eats_next|]. intros ev.
  destruct (negb _); [apply fine_raise|].
  destruct (negb _); [apply fine_raise|apply fine_ret].
Qed.

Lemma eats_end n tags : eats n (end_ tags).
Proof.
  apply eats_bind; [apply eats_next|]. intros ev.
  destruct (is_start _); [apply fine_raise|].
  destruct (negb _); [apply fine_raise|apply fine_ret].
Qed.

Lemma iter_eats {S} n (m : M (option S)) : eats n m -> iter n m.
Proof.
  intros H c Hc. specialize (H c Hc). destruct (m c) as [[s|] c'| |]; auto. lia.
Qed.

Lemma iter_none {S} n : iter n (@ret (option S) None).
Proof. intros c _. simpl. lia. Qed.

Lemma iter_bind {A S} n (m : M A) (k : A -> M (option S)) :
  fine n m -> (forall a, iter n (k a)) -> iter n (bind m k).
Proof.
  intros Hm Hk c Hc. unfold bind. specialize (Hm c Hc).
  destruct (m c) as [a c1| |]; auto.
  assert (Hc1 : length (pending c1) < n) by lia.
  specialize (Hk a c1 Hc1). destruct (k a c1) as [[s|] c'| |]; auto; lia.
Qed.

Lemma fine_while {S} n (body : S -> M (option S)) :
  (forall s, iter n (body s)) ->
  forall fuel s c, length (pending c) < fuel -> fuel <= n ->
    match while_ fuel body s c with
    | Done _ c' => length (pending c') <= length (pending c)
    | Abort _ => True
    | OutOfFuel => False
    end.
Proof.
  intros Hb. induction fuel as [|fuel IH]; intros s c Hc Hn; [lia|].
  simpl. unfold bind.
  assert (Hc' : length (pending c) < n) by lia.
  specialize (Hb s c Hc'). destruct (body s c) as [[s'|] c1| |]; auto.
  assert (H1 : length (pending c1) < fuel) by lia.
  assert (H2 : fuel <= n) by lia.
  specialize (IH s' c1 H1 H2). destruct (while_ fuel body s' c1); auto. lia.
Qed.

Lemma fine_while_n {S} n (body : S -> M (option S)) s :
  (forall s, iter n (body s)) -> fine n (while_ n body s).
Proof. intros Hb c Hc. exact (fine_while n body Hb n s c Hc (le_n n)). Qed.

Lemma fine_get_literal n value choices : fine n (_get_literal value choices).
Proof.
  destruct value; simpl; [|apply fine_ret].
  apply fine_bind; [|intros; apply fine_ret].
  destruct (negb _); [apply fine_warn|apply fine_ret].
Qed.

Lemma fine_get_bool n value : fine n (_get_bool value).
Proof.
  apply fine_bind; [apply fine_get_literal|intros; apply fine_ret].
Qed.

Lemma fine_get_metadata n attrs version : fine n (_get_metadata attrs version).
Proof.
  unfold _get_metadata. apply fine_bind; [apply fine_lift|intros pairs].
  apply fine_bind.
  - destruct (dget _ _); [|apply fine_ret].
    destruct (py_float _); (apply fine_bind; [|intros; apply fine_ret]).
    + destruct (float_in_unit _); [apply fine_ret|apply fine_warn].
    + apply fine_warn.
  - intros conf. destruct (existsb _ _); apply fine_ret.
Qed.

Lemma eats_load_dependency n tag_ : eats n (_load_dependency tag_).
Proof.
  unfold _load_dependency.
  apply eats_bind; [apply eats_start|intros _].
  apply fine_bind; [apply eats_fine, eats_end|intros elem].
  apply fine_bind; [apply fine_lift|intros id].
  apply fine_bind; [apply fine_lift|intros version].
  apply fine_ret.
Qed.

Create HintDb fine.

(** The loaders are built from these pieces; [fine_tac] follows their
    syntax. *)
Ltac fine_step :=
  match goal with
  | |- fine _ (ret _) => apply fine_ret
  | |- fine _ (raise _) => apply fine_raise
  | |- fine _ (lift _) => apply fine_lift
  | |- fine _ (warn _) => apply fine_warn
  | |- fine _ (starts _) => apply fine_starts
  | |- fine _ drain => apply fine_drain
  | |- fine _ (end_ _) => apply eats_fine, eats_end
  | |- fine _ (start _) => apply eats_fine, eats_start
  | |- fine _ next_event => apply eats_fine, eats_next
  | |- fine _ (_get_literal _ _) => apply fine_get_literal
  | |- fine _ (_get_bool _) => apply fine_get_bool
  | |- fine _ (_get_metadata _ _) => apply fine_get_metadata
  | |- fine _ (while_ _ _ _) => apply fine_while_n; intros
  | |- fine _ (bind _ _) => apply fine_bind; [|intros]
  | |- eats _ (bind (start _) _) => apply eats_bind; [apply eats_start|intros]
  | |- eats _ (bind next_event _) => apply eats_bind; [apply eats_next|intros]
  | |- iter _ (ret None) => apply iter_none
  | |- iter _ (bind (start _) _) => apply iter_eats
  | |- iter _ (bind next_event _) => apply iter_eats
  | |- iter _ (bind (_load_dependency _) _) =>
      apply iter_eats, eats_bind; [apply eats_load_dependency|intros]
  | |- fine _ (_load_dependency _) => apply eats_fine, eats_load_dependency
  | |- iter _ (bind (starts _) _) =>
      apply iter_bind; [apply fine_starts|intros]
  | |- iter _ (bind (if ?b then starts _ else ret false) _) =>
      apply iter_bind; [destruct b; [apply fine_starts|apply fine_ret]|intros]
  | |- _ _ (if ?b then _ else _) => destruct b
  | |- _ _ (match ?x with _ => _ end) => destruct x
  | |- _ _ (let (_, _) := ?x in _) => destruct x
  end.

Ltac fine_tac := repeat fine_step; try solve [eauto with fine].

Lemma fine_load_tags n : fine n (_load_tags n).
Proof. unfold _load_tags. fine_tac. Qed.
#[local] Hint Resolve fine_load_tags : fine.

Lemma fine_load_lemma n : fine n (_load_lemma n).
Proof. unfold _load_lemma. fine_tac. Qed.
#[local] Hint Resolve fine_load_lemma : fine.

Lemma fine_load_forms n : fine n (_load_forms n).
Proof. unfold _load_forms. fine_tac. Qed.
#[local] Hint Resolve fine_load_forms : fine.

Lemma fine_load_sense_relations n version :
  fine n (_load_sense_relations n version).
Proof. unfold _load_sense_relations. fine_tac. Qed.
#[local] Hint Resolve fine_load_sense_relations : fine.

Lemma fine_load_examples n version : fine n (_load_examples n version).
Proof. unfold _load_examples. fine_tac. Qed.
#[local] Hint Resolve fine_load_examples : fine.

Lemma fine_load_counts n version : fine n (_load_counts n version).
Proof. unfold _load_counts. fine_tac. Qed.
#[local] Hint Resolve fine_load_counts : fine.

Lemma fine_load_senses n external version :
  fine n (_load_senses n external version).
Proof. unfold _load_senses. fine_tac. Qed.
#[local] Hint Resolve fine_load_senses : fine.

Lemma fine_load_syntactic_behaviours n version :
  fine n (_load_syntactic_behaviours n version).
Proof. unfold _load_syntactic_behaviours. fine_tac. Qed.
#[local] Hint Resolve fine_load_syntactic_behaviours : fine.

Lemma fine_load_lexical_entries n extension version :
  fine n (_load_lexical_entries n extension version).
Proof. unfold _load_lexical_entries. fine_tac. Qed.
#[local] Hint Resolve fine_load_lexical_entries : fine.

Lemma fine_load_definitions n version : fine n (_load_definitions n version).
Proof. unfold _load_definitions. fine_tac. Qed.
#[local] Hint Resolve fine_load_definitions : fine.

Lemma fine_load_ilidefinition n version : fine n (_load_ilidefinition version).
Proof. unfold _load_ilidefinition. fine_tac. Qed.
#[local] Hint Resolve fine_load_ilidefinition : fine.

Lemma fine_load_synset_relations n version :
  fine n (_load_synset_relations n version).
Proof. unfold _load_synset_relations. fine_tac. Qed.
#[local] Hint Resolve fine_load_synset_relations : fine.

Lemma fine_load_synsets n extension version :
  fine n (_load_synsets n extension version).
Proof. unfold _load_synsets. fine_tac. Qed.
#[local] Hint Resolve fine_load_synsets : fine.

Lemma eats_load_lexicon n version : eats n (_load_lexicon n version).
Proof.
  unfold _load_lexicon. apply eats_bind.
  - destruct (String.eqb version "1.0"); fine_tac.
  - intros [[[lex_root extension] extends] requires]. fine_tac.
Qed.

Lemma fine_load_events n version : fine n (load_events n version).
Proof.
  unfold load_events. fine_tac.
  apply iter_eats, eats_bind; [apply eats_load_lexicon|intros; fine_tac].
Qed.

(** [load] never runs out of fuel: it returns a resource or raises. *)
Lemma load_total fh events : load fh events <> OutOfFuel.
Proof.
  unfold load. destruct (_read_header fh) as [version|e]; [|discriminate].
  pose proof (fine_load_events (S (length events)) version
                (mkCursor events [])) as H.
  simpl in H. intros E. rewrite E in H. apply H. lia.
Qed.


(** *** Running the loader over a document tree *)

Lemma xml_ind (P : xml -> Prop) :
  (forall e cs, Forall P cs -> P (Node e cs)) -> forall t, P t.
Proof.
  intros H. fix IH 1. intros [e cs]. apply H.
  induction cs as [|c cs IHcs]; constructor; auto.
Qed.

Lemma forest_cons e cs ts :
  events_of_forest (Node e cs :: ts)
  = (start_ev, e) :: events_of_forest cs ++ (end_ev, e) :: events_of_forest ts.
Proof.
  unfold events_of_forest. simpl. rewrite <- app_assoc. reflexivity.
Qed.

Lemma forest_app ts1 ts2 :
  events_of_forest (ts1 ++ ts2) = events_of_forest ts1 ++ events_of_forest ts2.
Proof. unfold events_of_forest. by rewrite map_app, concat_app. Qed.

Lemma events_of_forest_one t : events_of t = events_of_forest [t].
Proof. unfold events_of_forest. simpl. by rewrite app_nil_r. Qed.

Lemma inner_forest_nil : inner_forest [].
Proof. constructor. Qed.

Lemma inner_forest_app ts1 ts2 :
  inner_forest (ts1 ++ ts2) <-> inner_forest ts1 /\ inner_forest ts2.
Proof. unfold inner_forest. rewrite map_app, concat_app. apply Forall_app. Qed.

Lemma inner_forest_cons e cs ts :
  inner_forest (Node e cs :: ts)
  <-> inner_ok (Node e cs) /\ inner_forest cs /\ inner_forest ts.
Proof.
  unfold inner_forest. simpl. rewrite Forall_cons, Forall_app. reflexivity.
Qed.

Lemma inner_forest_Forall ts :
  Forall (fun t => inner_forest [t]) ts -> inner_forest ts.
Proof.
  induction 1 as [|t ts Ht _ IH]; [apply inner_forest_nil|].
  change (t :: ts) with ([t] ++ ts). apply inner_forest_app. auto.
Qed.

Lemma str_in_true x l : str_in x l = true <-> In x l.
Proof.
  unfold str_in. rewrite existsb_exists. split.
  - intros (y & Hy & ->%String.eqb_eq). assumption.
  - intros H. exists x. split; [assumption|apply String.eqb_refl].
Qed.

Lemma starts_forest tags ts rest c b c' :
  rest_ok rest -> pending c = events_of_forest ts ++ rest ->
  starts tags c = Done b c' ->
  c' = c /\ (b = true ->
             exists e cs ts', ts = Node e cs :: ts' /\ str_in (tag e) tags = true).
Proof.
  intros Hr Hp. unfold starts. rewrite Hp.
  destruct ts as [|[e cs] ts'].
  - simpl. destruct rest as [|[k x] rest']; intros [= <- <-];
      (split; [reflexivity|]); [discriminate|].
    simpl in Hr. subst k. discriminate.
  - rewrite forest_cons. simpl. intros [= <- <-]. split; [reflexivity|].
    intros Hb. eauto.
Qed.

Lemma next_forest e cs ts rest c ev c' :
  pending c = events_of_forest (Node e cs :: ts) ++ rest ->
  next_event c = Done ev c' ->
  ev = (start_ev, e)
  /\ pending c' = events_of_forest cs ++ (end_ev, e) :: events_of_forest ts ++ rest.
Proof.
  intros Hp. unfold next_event. rewrite Hp, forest_cons. simpl.
  intros [= <- <-]. simpl. by rewrite <- app_assoc.
Qed.

Lemma start_forest tags ts rest c x c' :
  rest_ok rest -> pending c = events_of_forest ts ++ rest ->
  start tags c = Done x c' ->
  exists cs ts', ts = Node x cs :: ts' /\ str_in (tag x) tags = true
    /\ pending c' = events_of_forest cs ++ (end_ev, x) :: events_of_forest ts' ++ rest.
Proof.
  intros Hr Hp (ev & c1 & Hn & H)%bind_Done.
  destruct ts as [|[e cs] ts'].
  - exfalso. unfold next_event in Hn. rewrite Hp in Hn. simpl in Hn.
    destruct rest as [|[k y] rest']; [discriminate|].
    simpl in Hr. subst k. injection Hn as <- <-. discriminate.
  - destruct (next_forest _ _ _ _ _ _ _ Hp Hn) as [-> Hp1].
    simpl in H. destruct (str_in (tag e) tags) eqn:Hin; [|discriminate].
    simpl in H. apply ret_Done in H as [-> ->]. eauto.
Qed.

Lemma end_forest tags cs e R c x c' :
  pending c = events_of_forest cs ++ (end_ev, e) :: R ->
  end_ tags c = Done x c' ->
  cs = [] /\ x = e /\ str_in (tag e) tags = true /\ pending c' = R.
Proof.
  intros Hp (ev & c1 & Hn & H)%bind_Done.
  unfold next_event in Hn. rewrite Hp in Hn.
  destruct cs as [|[e' cs'] cs].
  - simpl in Hn. injection Hn as <- <-. simpl in H.
    destruct (str_in (tag e) tags) eqn:Hin; [|discriminate].
    simpl in H. apply ret_Done in H as [-> ->]. auto.
  - rewrite forest_cons in Hn. simpl in Hn. injection Hn as <- <-.
    discriminate.
Qed.

Lemma consumes_weaken {A} (m : M A) (Q Q' : list xml -> A -> Prop) :
  (forall ts a, Q ts a -> Q' ts a) -> consumes m Q -> consumes m Q'.
Proof.
  intros HQ Hm ts rest c a c' Hr Hp H.
  destruct (Hm _ _ _ _ _ Hr Hp H) as (ts1 & ts2 & -> & Hp' & Hq). eauto 6.
Qed.

Lemma inner_still {A} (m : M A) : still m -> inner m.
Proof.
  intros Hs ts rest c a c' Hr Hp H. exists [], ts.
  rewrite (Hs _ _ _ H). auto using inner_forest_nil.
Qed.

Lemma inner_bind {A B} (m : M A) (k : A -> M B) :
  inner m -> (forall a, inner (k a)) -> inner (bind m k).
Proof.
  intros Hm Hk ts rest c b c' Hr Hp (a & c1 & H1 & H2)%bind_Done.
  destruct (Hm _ _ _ _ _ Hr Hp H1) as (ts1 & ts2 & -> & Hp1 & Hq1).
  destruct (Hk a _ _ _ _ _ Hr Hp1 H2) as (ts3 & ts4 & -> & Hp2 & Hq2).
  exists (ts1 ++ ts3), ts4. rewrite app_assoc. split; [reflexivity|].
  split; [assumption|]. apply inner_forest_app. auto.
Qed.

Lemma closes_bind {A B} (m : M A) (k : A -> M B) V :
  inner m -> (forall a, closes (k a) V) -> closes (bind m k) V.
Proof.
  intros Hm Hk e cs R c b c' Hp (a & c1 & H1 & H2)%bind_Done.
  destruct (Hm cs ((end_ev, e) :: R) c a c1 eq_refl Hp H1)
    as (ts1 & ts2 & -> & Hp1 & Hq1).
  destruct (Hk a _ _ _ _ _ _ Hp1 H2) as (Hp2 & Hq2 & Hv).
  split; [assumption|]. split; [|assumption]. apply inner_forest_app. auto.
Qed.

Lemma closes_end {A} tags (k : Element -> M A) (V : Element -> A -> Prop) :
  (forall x c a c', str_in (tag x) tags = true -> k x c = Done a c' ->
     pending c' = pending c /\ V x a) ->
  closes (bind (end_ tags) k) V.
Proof.
  intros Hk e cs R c a c' Hp (x & c1 & H1 & H2)%bind_Done.
  destruct (end_forest _ _ _ _ _ _ _ Hp H1) as (-> & -> & Hin & Hp1).
  destruct (Hk _ _ _ _ Hin H2) as [Hp2 Hv].
  split; [congruence|]. split; [apply inner_forest_nil|assumption].
Qed.

Lemma at_head_next {A} tags (k : event -> M A) V :
  (forall ev, closes (k ev) V) ->
  at_head tags (bind next_event k)
    (fun t a => inner_forest (children_of t) /\ V (root_elem t) a).
Proof.
  intros Hk e cs ts rest c a c' Hr Hin Hp (ev & c1 & H1 & H2)%bind_Done.
  destruct (next_forest _ _ _ _ _ _ _ Hp H1) as [-> Hp1].
  destruct (Hk _ _ _ _ _ _ _ Hp1 H2) as (Hp2 & Hq & Hv). auto.
Qed.

Lemma at_head_start {A} tags tags' (k : Element -> M A) V :
  (forall x, closes (k x) (V x)) ->
  at_head tags (bind (start tags') k)
    (fun t a => str_in (tag_of t) tags' = true
                /\ inner_forest (children_of t) /\ V (root_elem t) (root_elem t) a).
Proof.
  intros Hk e cs ts rest c a c' Hr Hin Hp (x & c1 & H1 & H2)%bind_Done.
  destruct (start_forest _ _ _ _ _ _ Hr Hp H1) as (cs' & ts' & [= <- <- <-] & Hin' & Hp1).
  destruct (Hk _ _ _ _ _ _ _ Hp1 H2) as (Hp2 & Hq & Hv). auto.
Qed.

Lemma one_step_guard {S} tags (m e : M (option S)) Q :
  at_head tags m (fun t r => exists s', r = Some s' /\ Q t s') ->
  one_step e Q ->
  one_step (bind (starts tags) (fun b => if b then m else e)) Q.
Proof.
  intros Hm He ts rest c r c' Hr Hp (b & c1 & H1 & H2)%bind_Done.
  destruct (starts_forest _ _ _ _ _ _ Hr Hp H1) as [-> Hb].
  destruct b.
  - destruct (Hb eq_refl) as (x & cs & ts' & -> & Hin).
    destruct (Hm _ _ _ _ _ _ _ Hr Hin Hp H2) as (Hp' & s' & -> & Hq).
    eauto.
  - eapply He; eauto.
Qed.

Lemma one_step_guard_if {S} (flag : bool) tags (m : M (option S)) Q :
  at_head tags m (fun t r => exists s', r = Some s' /\ (flag = true -> Q t s')) ->
  one_step (bind (if flag then starts tags else ret false)
                 (fun b => if b then m else ret None)) Q.
Proof.
  intros Hm ts rest c r c' Hr Hp (b & c1 & H1 & H2)%bind_Done.
  destruct flag.
  - destruct (starts_forest _ _ _ _ _ _ Hr Hp H1) as [-> Hb].
    destruct b.
    + destruct (Hb eq_refl) as (x & cs & ts' & -> & Hin).
      destruct (Hm _ _ _ _ _ _ _ Hr Hin Hp H2) as (Hp' & s' & -> & Hq).
      specialize (Hq eq_refl). eauto.
    + apply ret_Done in H2 as [-> ->]. reflexivity.
  - apply ret_Done in H1 as [-> ->]. apply ret_Done in H2 as [-> ->].
    reflexivity.
Qed.

Lemma one_step_none {S} (Q : xml -> S -> Prop) : one_step (ret None) Q.
Proof. intros ts rest c r c' _ _ [-> ->]%ret_Done. reflexivity. Qed.

Lemma consumes_while {S} (body : S -> M (option S)) (G : xml -> Prop)
    (mu : S -> nat) :
  (forall s, one_step (body s) (fun t s' => G t /\ mu s' = Datatypes.S (mu s))) ->
  forall fuel s,
    consumes (while_ fuel body s)
      (fun ts1 r => Forall G ts1 /\ mu r = mu s + length ts1).
Proof.
  intros Hb. induction fuel as [|fuel IH]; intros s ts rest c r c' Hr Hp H;
    [discriminate|].
  simpl in H. apply bind_Done in H as (o & c1 & H1 & H2).
  pose proof (Hb s _ _ _ _ _ Hr Hp H1) as Hstep. destruct o as [s'|].
  - destruct Hstep as (t & ts' & -> & Hp1 & Hg & Hmu).
    destruct (IH s' _ _ _ _ _ Hr Hp1 H2) as (ts1 & ts2 & -> & Hp2 & Hf & Hmu').
    exists (t :: ts1), ts2. simpl.
    split; [reflexivity|]. split; [assumption|].
    split; [constructor; assumption|lia].
  - apply ret_Done in H2 as [-> ->]. exists [], ts. simpl.
    split; [reflexivity|]. split; [congruence|].
    split; [constructor|lia].
Qed.

Ltac run :=
  repeat match goal with
  | H : bind _ _ _ = Done _ _ |- _ =>
      let a := fresh "a" in
      let c := fresh "c" in
      let Hm := fresh "Hm" in
      apply bind_Done in H as (a & c & Hm & H); cbv beta zeta in H
  | H : lift _ _ = Done _ _ |- _ => apply lift_Done in H as [H ->]
  | H : ret _ _ = Done _ _ |- _ => apply ret_Done in H as [? ?]; subst
  | H : raise _ _ = Done _ _ |- _ => discriminate H
  | H : warn _ _ = Done _ _ |- _ => apply (quiet_still _ (quiet_warn _)) in H
  | H : _get_metadata _ _ _ = Done _ _ |- _ => apply still_get_metadata in H
  | H : _get_literal _ _ _ = Done _ _ |- _ => apply still_get_literal in H
  | H : _get_bool _ _ = Done _ _ |- _ => apply still_get_bool in H
  | H : (if ?b then _ else _) _ = Done _ _ |- _ => destruct b eqn:?
  | H : (match ?x with _ => _ end) _ = Done _ _ |- _ => destruct x eqn:?
  end.

Lemma dindex_Ok {V} k (d : dict V) v : dindex k d = Ok v -> dget k d = Some v.
Proof. unfold dindex. destruct (dget k d); [intros [= ->]; reflexivity|discriminate]. Qed.

Lemma at_head_weaken {A} tags (m : M A) (Q Q' : xml -> A -> Prop) :
  (forall t a, str_in (tag_of t) tags = true -> Q t a -> Q' t a) ->
  at_head tags m Q -> at_head tags m Q'.
Proof.
  intros HQ Hm e cs ts rest c a c' Hr Hin Hp H.
  destruct (Hm _ _ _ _ _ _ _ Hr Hin Hp H) as [Hp' Hq]. split; [assumption|].
  apply HQ; assumption.
Qed.

Lemma str_in_one x y : str_in x [y] = true -> x = y.
Proof. intros [->|[]]%str_in_true. reflexivity. Qed.

Lemma inner_tree t :
  str_in (tag_of t) inner_tags = true ->
  (tag_of t = "SynsetRelation" -> valid_synset_relation (root_elem t)) ->
  (tag_of t = "SenseRelation" -> valid_sense_relation (root_elem t)) ->
  inner_forest (children_of t) ->
  inner_forest [t].
Proof.
  destruct t as [e cs]. intros H1 H2 H3 H4. apply inner_forest_cons.
  split; [|split; [assumption|apply inner_forest_nil]].
  split; [assumption|]. split; assumption.
Qed.

(** The loops over childless elements ([Tag], [Example], [Count], the
    relations, ...) share one shape. *)
Lemma leaf_loop {I} (T : string) (K : list I -> Element -> M (option (list I)))
    fuel acc :
  str_in T inner_tags = true ->
  (forall acc x c r c', K acc x c = Done r c' ->
     pending c' = pending c
     /\ (exists item, r = Some (acc ++ [item]))
     /\ (T = "SynsetRelation" -> valid_synset_relation x)
     /\ (T = "SenseRelation" -> valid_sense_relation x)) ->
  inner (while_ fuel
           (fun acc =>
              b <- starts [T] ;;
              if b then next_event ;;; (elem <- end_ [T] ;; K acc elem)
              else ret None) acc).
Proof.
  intros HT HK. eapply consumes_weaken; cycle 1.
  - apply (consumes_while _ (fun t => inner_forest [t]) length).
    intros s. apply one_step_guard; [|apply one_step_none].
    eapply at_head_weaken; cycle 1.
    + apply at_head_next. intros _. apply (closes_end _ _
        (fun x r => (exists item, r = Some (s ++ [item]))
                    /\ (T = "SynsetRelation" -> valid_synset_relation x)
                    /\ (T = "SenseRelation" -> valid_sense_relation x))).
      intros x c a c' _ H. apply HK in H. exact H.
    + intros t a Ht%str_in_one (Hc & (item & ->) & Hv1 & Hv2).
      eexists. split; [reflexivity|]. split.
      * apply inner_tree; rewrite ?Ht; auto.
      * rewrite length_app. simpl. lia.
  - intros ts a [Hf _]. apply inner_forest_Forall, Hf.
Qed.

Ltac leaf_K :=
  let H := fresh "H" in
  intros ? ? ? ? ? H; run;
  (split; [congruence|]); (split; [eauto|]);
  split; try discriminate.

Lemma inner_load_tags fuel : inner (_load_tags fuel).
Proof. apply leaf_loop; [reflexivity|]. leaf_K. Qed.

Lemma inner_load_examples fuel version : inner (_load_examples fuel version).
Proof. apply leaf_loop; [reflexivity|]. leaf_K. Qed.

Lemma inner_load_counts fuel version : inner (_load_counts fuel version).
Proof. apply leaf_loop; [reflexivity|]. leaf_K. Qed.

Lemma inner_load_syntactic_behaviours fuel version :
  inner (_load_syntactic_behaviours fuel version).
Proof. apply leaf_loop; [reflexivity|]. leaf_K. Qed.

Lemma inner_load_definitions fuel version :
  inner (_load_definitions fuel version).
Proof. apply leaf_loop; [reflexivity|]. leaf_K. Qed.

Lemma inner_load_sense_relations fuel version :
  inner (_load_sense_relations fuel version).
Proof.
  apply leaf_loop; [reflexivity|]. leaf_K.
  intros _. eexists. split; [apply dindex_Ok; eassumption|].
  match goal with
  | Hb : negb _ = false |- _ =>
      apply negb_false_iff, orb_true_iff in Hb; exact Hb
  end.
Qed.

Lemma inner_load_synset_relations fuel version :
  inner (_load_synset_relations fuel version).
Proof.
  apply leaf_loop; [reflexivity|]. leaf_K.
  intros _. eexists. split; [apply dindex_Ok; eassumption|].
  match goal with
  | Hb : negb _ = false |- _ => apply negb_false_iff in Hb; exact Hb
  end.
Qed.

Lemma inner_lift {A} (r : result A) : inner (lift r).
Proof. apply inner_still, still_lift. Qed.

Lemma inner_get_literal value choices : inner (_get_literal value choices).
Proof. apply inner_still, still_get_literal. Qed.

Lemma inner_get_bool value : inner (_get_bool value).
Proof. apply inner_still, still_get_bool. Qed.

Lemma inner_get_metadata attrs version : inner (_get_metadata attrs version).
Proof. apply inner_still, still_get_metadata. Qed.

Create HintDb inner.
#[local] Hint Resolve inner_lift inner_get_literal inner_get_bool
  inner_get_metadata inner_load_tags inner_load_examples inner_load_counts
  inner_load_syntactic_behaviours inner_load_definitions
  inner_load_sense_relations inner_load_synset_relations : inner.

Ltac closes_step :=
  match goal with
  | |- closes (let _ := _ in _) _ => cbv zeta
  | |- closes (bind (end_ _) _) _ =>
      let H := fresh "H" in
      apply closes_end; intros ? ? ? ? _ H; run; (split; [congruence|])
  | |- closes (bind _ _) _ =>
      apply closes_bind; [solve [auto with inner]|intros]
  end.

Ltac closes_tac := repeat closes_step.

Ltac grew :=
  eexists; split; [reflexivity|]; rewrite ?length_app; simpl; lia.

Lemma inner_one_step {S} (m : M (option S)) :
  one_step m (fun t _ => inner_forest [t]) -> inner m.
Proof.
  intros Hm ts rest c r c' Hr Hp H. specialize (Hm _ _ _ _ _ Hr Hp H).
  destruct r as [s|].
  - destruct Hm as (t & ts' & -> & Hp' & Hq). exists [t], ts'. auto.
  - exists [], ts. rewrite Hm. auto using inner_forest_nil.
Qed.

Lemma consumes_start {A} tags (k : Element -> M A) (V : Element -> A -> Prop) :
  (forall x, closes (k x) V) ->
  consumes (bind (start tags) k)
    (fun ts1 a => exists t, ts1 = [t] /\ str_in (tag_of t) tags = true
                   /\ inner_forest (children_of t) /\ V (root_elem t) a).
Proof.
  intros Hk ts rest c a c' Hr Hp (x & c1 & H1 & H2)%bind_Done.
  destruct (start_forest _ _ _ _ _ _ Hr Hp H1) as (cs & ts' & -> & Hin & Hp1).
  destruct (Hk _ _ _ _ _ _ _ Hp1 H2) as (Hp2 & Hq & Hv).
  exists [Node x cs], ts'. split; [reflexivity|]. split; [assumption|].
  exists (Node x cs). auto.
Qed.

(** An element of the inner levels, opened by [start]: the loop body of
    [_load_senses], and [_load_lemma]. *)
Lemma at_head_elem {S} tags tags' (k : Element -> M (option S)) (P : S -> Prop) :
  (forall y, In y tags' ->
     str_in y inner_tags = true /\ y <> "SynsetRelation" /\ y <> "SenseRelation") ->
  (forall x, closes (k x) (fun _ a => exists s', a = Some s' /\ P s')) ->
  at_head tags (bind (start tags') k)
    (fun t r => exists s', r = Some s' /\ inner_forest [t] /\ P s').
Proof.
  intros Htags Hk. eapply at_head_weaken; cycle 1.
  - apply (at_head_start tags tags' k
             (fun _ _ a => exists s', a = Some s' /\ P s')). exact Hk.
  - intros t a _ (Hin & Hc & s' & -> & HP). simpl.
    apply str_in_true, Htags in Hin as (H1 & H2 & H3).
    exists s'. split; [reflexivity|]. split; [|assumption].
    apply inner_tree;
      [exact H1|intros E; destruct (H2 E)|intros E; destruct (H3 E)|exact Hc].
Qed.

Ltac inner_tag_facts :=
  let y := fresh "y" in
  let Hy := fresh "Hy" in
  intros y Hy; simpl in Hy;
  repeat (destruct Hy as [<-|Hy]; [split; [reflexivity|split; discriminate]|]);
  contradiction.

Lemma consumes_load_lemma fuel :
  consumes (_load_lemma fuel)
    (fun ts1 _ => exists t, ts1 = [t] /\ tag_of t = "Lemma" /\ inner_forest [t]).
Proof.
  eapply consumes_weaken; cycle 1.
  - unfold _load_lemma.
    apply (consumes_start _ _ (fun _ _ => True)). intros x. closes_tac. exact I.
  - intros ts a (t & -> & Hin%str_in_one & Hc & _). exists t.
    split; [reflexivity|]. split; [assumption|].
    apply inner_tree; rewrite ?Hin; auto; discriminate.
Qed.

Lemma inner_load_lemma fuel : inner (_load_lemma fuel).
Proof.
  eapply consumes_weaken; [|apply consumes_load_lemma].
  intros ts a (t & -> & _ & H). exact H.
Qed.
#[local] Hint Resolve inner_load_lemma : inner.

Lemma inner_load_forms fuel : inner (_load_forms fuel).
Proof.
  eapply consumes_weaken; cycle 1.
  - apply (consumes_while _ (fun t => inner_forest [t]) length).
    intros s. apply one_step_guard; [|apply one_step_none].
    eapply at_head_weaken; cycle 1.
    + apply (at_head_next _ _
               (fun _ r => exists s', r = Some s' /\ length s' = S (length s))).
      intros ev. closes_tac. grew.
    + intros t a Ht%str_in_one (Hc & s' & -> & Hl).
      exists s'. split; [reflexivity|]. split; [|assumption].
      apply inner_tree; rewrite ?Ht; auto; discriminate.
  - intros ts a [Hf _]. apply inner_forest_Forall, Hf.
Qed.
#[local] Hint Resolve inner_load_forms : inner.

Lemma inner_load_ilidefinition version : inner (_load_ilidefinition version).
Proof.
  apply inner_one_step. unfold _load_ilidefinition.
  apply one_step_guard; [|apply one_step_none].
  eapply at_head_weaken; cycle 1.
  - apply (at_head_next _ _ (fun _ r => exists s' : ILIDefinition, r = Some s')).
    intros ev. closes_tac. eauto.
  - intros t a Ht%str_in_one (Hc & s' & ->).
    exists s'. split; [reflexivity|].
    apply inner_tree; rewrite ?Ht; auto; discriminate.
Qed.
#[local] Hint Resolve inner_load_ilidefinition : inner.

Lemma inner_load_senses fuel external version :
  inner (_load_senses fuel external version).
Proof.
  eapply consumes_weaken; cycle 1.
  - apply (consumes_while _ (fun t => inner_forest [t]) length).
    intros s. apply one_step_guard; [|apply one_step_guard_if].
    + apply (at_head_elem _ _ _ (fun s' => length s' = S (length s)));
        [inner_tag_facts|].
      intros x. closes_tac. grew.
    + eapply at_head_weaken; cycle 1.
      * apply (at_head_elem _ _ _ (fun s' => length s' = S (length s)));
          [inner_tag_facts|].
        intros x. closes_tac. grew.
      * intros t a _ (s' & -> & H1 & H2). eauto.
  - intros ts a [Hf _]. apply inner_forest_Forall, Hf.
Qed.
#[local] Hint Resolve inner_load_senses : inner.

Lemma consumes_load_lexical_entries fuel extension version :
  consumes (_load_lexical_entries fuel extension version)
    (fun ts1 r => Forall (entry_ok extension) ts1 /\ length r.1 = length ts1).
Proof.
  unfold _load_lexical_entries.
  eapply consumes_weaken; cycle 1;
    [apply (consumes_while _ (entry_ok extension) (fun s => length s.1))|
     intros ts a [Hf Hl]; split; [assumption|]; simpl in Hl; exact Hl].
  intros acc.
  destruct acc as [entries sbs]. cbv beta iota.
  apply one_step_guard; [|apply one_step_guard_if].
  - intros e cs ts rest c a c' Hr Hin Hp H.
    pose proof H as H'.
    eapply (at_head_start _ _ _
              (fun _ _ r => exists s', r = Some s'
                 /\ length s'.1 = S (length entries))) in H'; eauto;
      [|intros x; closes_tac; eexists; split; [reflexivity|];
        simpl; rewrite length_app; simpl; lia].
    destruct H' as (Hp' & Htag & Hc & s' & -> & Hlen).
    split; [assumption|]. exists s'. split; [reflexivity|].
    split; [|assumption]. split; [left|assumption].
    split; [apply str_in_one in Htag; exact Htag|].
    apply bind_Done in H as (x & c1 & H1 & H2).
    destruct (start_forest _ _ _ _ _ _ Hr Hp H1)
      as (cs' & ts' & [= <- <- <-] & _ & Hp1).
    cbv zeta in H2. apply bind_Done in H2 as (id & c2 & H2 & H3).
    apply lift_Done in H2 as [_ ->].
    apply bind_Done in H3 as (lemma & c3 & H3 & _).
    destruct (consumes_load_lemma _ cs ((end_ev, e) :: events_of_forest ts ++ rest)
                _ _ _ eq_refl Hp1 H3) as (ts1 & ts2 & -> & _ & t & -> & Ht & _).
    exists t, ts2. auto.
  - eapply at_head_weaken; cycle 1.
    + apply (at_head_start _ _ _
               (fun _ _ r => exists s', r = Some s'
                  /\ length s'.1 = S (length entries))).
      intros x. closes_tac. eexists. split; [reflexivity|].
      simpl. rewrite length_app. simpl. lia.
    + intros t a _ (Htag & Hc & s' & -> & Hlen). exists s'.
      split; [reflexivity|]. intros Hext. split; [|assumption].
      split; [right|assumption]. split; [assumption|].
      apply str_in_one in Htag. exact Htag.
Qed.

Lemma consumes_load_synsets fuel extension version :
  consumes (_load_synsets fuel extension version)
    (fun ts1 r => Forall (synset_ok extension) ts1 /\ length r = length ts1).
Proof.
  unfold _load_synsets.
  eapply consumes_weaken; cycle 1.
  - apply (consumes_while _ (synset_ok extension) length).
    intros s. apply one_step_guard; [|apply one_step_guard_if].
    + eapply at_head_weaken; cycle 1.
      * apply (at_head_start _ _ _
                 (fun _ _ r => exists s', r = Some s'
                    /\ length s' = S (length s))).
        intros x. closes_tac. grew.
      * intros t a _ (Htag & Hc & s' & -> & Hlen). exists s'.
        split; [reflexivity|]. split; [|assumption].
        split; [left|assumption]. apply str_in_one in Htag. exact Htag.
    + eapply at_head_weaken; cycle 1.
      * apply (at_head_start _ _ _
                 (fun _ _ r => exists s', r = Some s'
                    /\ length s' = S (length s))).
        intros x. closes_tac. grew.
      * intros t a _ (Htag & Hc & s' & -> & Hlen). exists s'.
        split; [reflexivity|]. intros Hext. split; [|assumption].
        split; [right|assumption]. split; [assumption|].
        apply str_in_one in Htag. exact Htag.
  - intros ts a [Hf Hl]. split; [assumption|]. simpl in Hl. exact Hl.
Qed.

Lemma consumes_load_dependency tag_ :
  (tag_ = "Extends" \/ tag_ = "Requires") ->
  consumes (_load_dependency tag_)
    (fun ts1 _ => exists t, ts1 = [t] /\ tag_of t = tag_ /\ dependency_ok t).
Proof.
  intros Htag ts rest c a c' Hr Hp H. unfold _load_dependency in H.
  apply bind_Done in H as (x & c1 & H1 & H2).
  destruct (start_forest _ _ _ _ _ _ Hr Hp H1) as (cs & ts' & -> & Hin & Hp1).
  apply bind_Done in H2 as (y & c2 & H2 & H3).
  destruct (end_forest _ _ _ _ _ _ _ Hp1 H2) as (-> & -> & _ & Hp2).
  run. apply str_in_one in Hin.
  exists [Node x []], ts'. split; [reflexivity|]. split; [assumption|].
  exists (Node x []). split; [reflexivity|]. split; [exact Hin|].
  split; [unfold tag_of; simpl; rewrite Hin; exact Htag|].
  split; [reflexivity|].
  unfold has_attr. simpl. erewrite !dindex_Ok by eassumption. eauto.
Qed.

Lemma rest_ok_end e R : rest_ok ((end_ev, e) :: R).
Proof. reflexivity. Qed.

Lemma consumes_while_list {X} (body : list X -> M (option (list X)))
    (R : xml -> X -> Prop) :
  (forall s, one_step (body s) (fun t s' => exists x, s' = s ++ [x] /\ R t x)) ->
  forall fuel s,
    consumes (while_ fuel body s)
      (fun ts1 r => exists xs, r = s ++ xs /\ Forall2 R ts1 xs).
Proof.
  intros Hb. induction fuel as [|fuel IH]; intros s ts rest c r c' Hr Hp H;
    [discriminate|].
  simpl in H. apply bind_Done in H as (o & c1 & H1 & H2).
  pose proof (Hb s _ _ _ _ _ Hr Hp H1) as Hstep. destruct o as [s'|].
  - destruct Hstep as (t & ts' & -> & Hp1 & x & -> & Hx).
    destruct (IH _ _ _ _ _ _ Hr Hp1 H2) as (ts1 & ts2 & -> & Hp2 & xs & -> & Hf).
    exists (t :: ts1), ts2. split; [reflexivity|]. split; [assumption|].
    exists (x :: xs). rewrite <- app_assoc. split; [reflexivity|].
    constructor; assumption.
  - apply ret_Done in H2 as [-> ->]. exists [], ts.
    split; [reflexivity|]. split; [congruence|].
    exists []. rewrite app_nil_r. split; [reflexivity|constructor].
Qed.

Lemma consumes_load_lexicon fuel version :
  consumes (_load_lexicon fuel version)
    (fun ts1 lex => exists t, ts1 = [t] /\ lexicon_ok version t lex).
Proof.
  intros ts rest c lex c' Hr Hp H. unfold _load_lexicon in H.
  apply bind_Done in H as (hd & c1 & Hhd & H).
  assert (Hhead : exists x cs ts' deps cs2 extension extends requires,
    ts = Node x cs :: ts' /\ cs = deps ++ cs2
    /\ pending c1 = events_of_forest cs2
                    ++ (end_ev, x) :: events_of_forest ts' ++ rest
    /\ Forall dependency_ok deps
    /\ hd = (x, extension, extends, requires)
    /\ ((tag x = "Lexicon" /\ extension = false)
        \/ (tag x = "LexiconExtension" /\ version <> "1.0"
            /\ exists d deps', deps = d :: deps' /\ tag_of d = "Extends"))).
  { destruct (String.eqb_spec version "1.0") as [Hv|Hv].
    - apply bind_Done in Hhd as (x & c2 & H1 & H2).
      destruct (start_forest _ _ _ _ _ _ Hr Hp H1) as (cs & ts' & -> & Hin & Hp1).
      apply ret_Done in H2 as [-> ->]. apply str_in_one in Hin.
      exists x, cs, ts', [], cs, false, None, [].
      repeat (split; [first [reflexivity|assumption|constructor]|]). auto.
    - apply bind_Done in Hhd as (x & c2 & H1 & H2).
      destruct (start_forest _ _ _ _ _ _ Hr Hp H1) as (cs & ts' & -> & Hin & Hp1).
      cbv zeta in H2. apply bind_Done in H2 as (extends & c3 & H2 & H3).
      apply bind_Done in H3 as (requires & c4 & H3 & H4).
      apply ret_Done in H4 as [-> ->].
      assert (Hreq : forall ts0 c0, pending c0 = events_of_forest ts0
                       ++ (end_ev, x) :: events_of_forest ts' ++ rest ->
                forall r0 c0', while_ fuel
                  (fun requires0 =>
                     b <- starts ["Requires"] ;;
                     if b then d <- _load_dependency "Requires" ;;
                               ret (Some (requires0 ++ [d]))
                     else ret None) [] c0 = Done r0 c0' ->
                exists rq ts2, ts0 = rq ++ ts2 /\ Forall dependency_ok rq
                  /\ pending c0' = events_of_forest ts2
                       ++ (end_ev, x) :: events_of_forest ts' ++ rest).
      { intros ts0 c0 Hp0 r0 c0' Hw.
        match type of Hw with
        | while_ _ ?body _ _ = _ =>
            assert (HB : forall s, one_step (body s)
                      (fun t s' => dependency_ok t /\ length s' = S (length s)))
        end.
        - intros s ts3 rest3 c5 r5 c5' Hr3 Hp3 H5.
          apply bind_Done in H5 as (b & c6 & H5 & H6).
          destruct (starts_forest _ _ _ _ _ _ Hr3 Hp3 H5) as [-> _].
          destruct b.
          + apply bind_Done in H6 as (d & c7 & H6 & H7).
            destruct (consumes_load_dependency "Requires" (or_intror eq_refl)
                        _ _ _ _ _ Hr3 Hp3 H6)
              as (ts4 & ts5 & -> & Hp4 & t & -> & _ & Hd).
            apply ret_Done in H7 as [-> ->]. exists t, ts5.
            split; [reflexivity|]. split; [assumption|]. split; [assumption|].
            rewrite length_app. simpl. lia.
          + apply ret_Done in H6 as [-> ->]. reflexivity.
        - destruct (consumes_while _ _ _ HB _ _ _ _ _ _ _
                      (rest_ok_end _ _) Hp0 Hw)
            as (rq & ts2 & -> & Hp2 & Hf & _).
          eauto. }
      destruct (String.eqb_spec (tag x) "LexiconExtension") as [Hx|Hx].
      + apply bind_Done in H2 as (d & c5 & H2 & H5).
        apply ret_Done in H5 as [-> ->].
        destruct (consumes_load_dependency "Extends" (or_introl eq_refl)
                    cs ((end_ev, x) :: events_of_forest ts' ++ rest)
                    _ _ _ eq_refl Hp1 H2)
          as (ts1 & ts2 & -> & Hp2 & t & -> & Ht & Hd).
        destruct (Hreq _ _ Hp2 _ _ H3) as (rq & ts3 & -> & Hf & Hp3).
        exists x, ([t] ++ rq ++ ts3), ts', (t :: rq), ts3, true, (Some d), requires.
        split; [reflexivity|]. split; [reflexivity|]. split; [assumption|].
        split; [constructor; assumption|]. split; [reflexivity|].
        right. split; [assumption|]. split; [assumption|]. eauto.
      + apply ret_Done in H2 as [-> ->].
        destruct (Hreq _ _ Hp1 _ _ H3) as (rq & ts3 & -> & Hf & Hp3).
        exists x, (rq ++ ts3), ts', rq, ts3, false, None, requires.
        split; [reflexivity|]. split; [reflexivity|]. split; [assumption|].
        split; [assumption|]. split; [reflexivity|].
        left. split; [|reflexivity].
        apply str_in_true in Hin. simpl in Hin.
        destruct Hin as [Hin|[Hin|[]]]; [auto|]. symmetry in Hin. contradiction. }
  destruct Hhead as (x & cs & ts' & deps & cs2 & extension & extends & requires
                     & -> & -> & Hp1 & Hdeps & -> & Htag).
  cbv beta iota zeta in H.
  apply bind_Done in H as (ef & c2 & H1 & H).
  destruct (consumes_load_lexical_entries _ _ _ cs2
              ((end_ev, x) :: events_of_forest ts' ++ rest) _ _ _ eq_refl Hp1 H1)
    as (es & cs3 & -> & Hp2 & Hes & Hlen_es).
  apply bind_Done in H as (synsets & c3 & H2 & H).
  destruct (consumes_load_synsets _ _ _ cs3
              ((end_ev, x) :: events_of_forest ts' ++ rest) _ _ _ eq_refl Hp2 H2)
    as (ss & cs4 & -> & Hp3 & Hss & Hlen_ss).
  repeat (apply bind_Done in H as (? & ? & Hm & H);
          first [apply lift_Done in Hm as [_ ->]
                |apply still_get_metadata in Hm; rewrite <- Hm in Hp3]).
  apply bind_Done in H as (y & c4 & H3 & H).
  destruct (end_forest _ _ _ _ _ _ _ Hp3 H3) as (-> & -> & _ & Hp4).
  apply ret_Done in H as [-> ->].
  exists [Node x (deps ++ es ++ ss ++ [])], ts'.
  split; [reflexivity|]. split; [assumption|].
  exists (Node x (deps ++ es ++ ss ++ [])). split; [reflexivity|].
  exists extension, deps, es, ss. rewrite app_nil_r. simpl.
  split; [reflexivity|]. split; [assumption|]. split; [assumption|].
  split; [assumption|]. split; [symmetry; assumption|].
  split; [symmetry; assumption|].
  destruct Htag as [[Ht ->]|(Ht & Hv & d & deps' & -> & Hd)].
  - left. auto.
  - right. split; [assumption|]. split; [assumption|].
    exists d, (deps' ++ es ++ ss). auto.
Qed.

(** A successful load has gone through the whole document, which then
    has the shape of [document_ok]. *)
Lemma load_events_sound fuel version doc lexicons w c' :
  load_events fuel version (mkCursor (events_of doc) w) = Done lexicons c' ->
  document_ok version doc lexicons.
Proof.
  intros H. unfold load_events in H.
  apply bind_Done in H as (root & c1 & H1 & H).
  assert (Hp : pending (mkCursor (events_of doc) w) = events_of_forest [doc] ++ [])
    by (simpl; rewrite app_nil_r; apply events_of_forest_one).
  destruct (start_forest _ [doc] [] _ _ _ I Hp H1)
    as (cs & ts' & [= -> <-] & Hin & Hp1).
  apply bind_Done in H as (lexs & c2 & H2 & H).
  match type of H2 with
  | while_ _ ?body _ _ = _ =>
      assert (HB : forall s, one_step (body s)
                (fun t s' => exists x, s' = s ++ [x] /\ lexicon_ok version t x))
  end; cycle 1.
  - destruct (consumes_while_list _ _ HB _ _ _ _ _ _ _
                (rest_ok_end _ _) Hp1 H2)
      as (ts1 & ts2 & -> & Hp2 & xs & -> & Hf).
    apply bind_Done in H as (y & c3 & H3 & H).
    destruct (end_forest _ _ _ _ _ _ _ Hp2 H3) as (-> & _ & _ & _).
    apply bind_Done in H as (d & c4 & H4 & H).
    apply ret_Done in H as [-> _].
    split; [apply str_in_one in Hin; exact Hin|].
    simpl. rewrite app_nil_r. exact Hf.
  - intros s ts rest c r c0 Hr0 Hp0 H0.
    apply bind_Done in H0 as (b & c5 & H5 & H6).
    destruct (starts_forest _ _ _ _ _ _ Hr0 Hp0 H5) as [-> _].
    destruct b.
    + apply bind_Done in H6 as (lex & c6 & H6 & H7).
      destruct (consumes_load_lexicon _ _ _ _ _ _ _ Hr0 Hp0 H6)
        as (ts3 & ts4 & -> & Hp4 & t & -> & Hok).
      apply ret_Done in H7 as [-> ->]. exists t, ts4. eauto.
    + apply ret_Done in H6 as [-> ->]. reflexivity.
Qed.

Lemma load_sound fh doc lexicons c' :
  load fh (events_of doc) = Done lexicons c' ->
  exists version, _read_header fh = Ok version
    /\ document_ok version doc lexicons.
Proof.
  unfold load. destruct (_read_header fh) as [version|e]; [|discriminate].
  intros H. exists version. split; [reflexivity|].
  eapply load_events_sound, H.
Qed.

(** *** What a successful load says about the document *)

Lemma inner_node_ok n : inner_ok n -> node_ok n.
Proof.
  intros (Hin & Hs & Hr). split; [assumption|]. split; [assumption|].
  split; intros E; rewrite E in Hin; discriminate.
Qed.

Lemma inner_forest_nodes ts :
  inner_forest ts -> Forall node_ok (concat (map subtrees ts)).
Proof. intros H. eapply Forall_impl; [exact H|exact inner_node_ok]. Qed.

Lemma Forall_concat_map {A B} (P : A -> Prop) (Q : B -> Prop)
    (f : A -> list B) (l : list A) :
  (forall x, P x -> Forall Q (f x)) -> Forall P l -> Forall Q (concat (map f l)).
Proof.
  intros H. induction 1 as [|x l Hx _ IH]; simpl; [constructor|].
  apply Forall_app. auto.
Qed.

Lemma entry_nodes extension t : entry_ok extension t -> Forall node_ok (subtrees t).
Proof.
  destruct t as [e cs]. intros [Htag Hc]. simpl. constructor.
  - unfold node_ok, tag_of in *. simpl in *.
    destruct Htag as [[Ht Hl]|[_ Ht]]; rewrite Ht;
      (split; [discriminate|]); (split; [discriminate|]);
      (split; [|discriminate]); [intros _; exact Hl|discriminate].
  - apply inner_forest_nodes, Hc.
Qed.

Lemma synset_nodes extension t : synset_ok extension t -> Forall node_ok (subtrees t).
Proof.
  destruct t as [e cs]. intros [Htag Hc]. simpl. constructor.
  - unfold node_ok, tag_of in *. simpl in *.
    destruct Htag as [Ht|[_ Ht]]; rewrite Ht;
      (split; [discriminate|]); (split; [discriminate|]);
      (split; discriminate).
  - apply inner_forest_nodes, Hc.
Qed.

Lemma dependency_nodes t : dependency_ok t -> Forall node_ok (subtrees t).
Proof.
  destruct t as [e cs]. intros (Htag & Hc & _). simpl in Hc. subst cs.
  simpl. constructor; [|constructor].
  unfold node_ok, tag_of in *. simpl in *.
  destruct Htag as [Ht|Ht]; rewrite Ht;
    (split; [discriminate|]); (split; [discriminate|]); (split; discriminate).
Qed.

Lemma lexicon_nodes version t lex :
  lexicon_ok version t lex -> Forall node_ok (subtrees t).
Proof.
  destruct t as [e cs].
  intros (ext & deps & es & ss & Hc & Hd & He & Hs & _ & _ & Htag).
  simpl in Hc. subst cs. simpl. constructor.
  - unfold node_ok, tag_of in *. simpl in *.
    destruct Htag as [[Ht _]|(Ht & _ & Hf)]; rewrite Ht;
      (split; [discriminate|]); (split; [discriminate|]);
      (split; [discriminate|]); [discriminate|intros _; exact Hf].
  - rewrite !map_app, !concat_app. rewrite !Forall_app.
    split; [|split].
    + eapply Forall_concat_map; [|exact Hd]. apply dependency_nodes.
    + eapply Forall_concat_map; [|exact He]. apply entry_nodes.
    + eapply Forall_concat_map; [|exact Hs]. apply synset_nodes.
Qed.

Lemma document_nodes version doc lexicons :
  document_ok version doc lexicons -> Forall node_ok (subtrees doc).
Proof.
  destruct doc as [e cs]. intros [Htag Hf]. simpl in *. constructor.
  - unfold node_ok, tag_of in *. simpl in *. rewrite Htag.
    split; [discriminate|]. split; [discriminate|]. split; discriminate.
  - clear Htag. induction Hf as [|t lex ts lexs Hok _ IH]; simpl; [constructor|].
    apply Forall_app. split; [|assumption].
    eapply lexicon_nodes, Hok.
Qed.

(** A document with an element that breaks [node_ok] does not load. *)
Lemma load_aborts fh doc n :
  In n (subtrees doc) -> ~ node_ok n ->
  exists e, load fh (events_of doc) = Abort e.
Proof.
  intros Hin Hbad.
  destruct (load fh (events_of doc)) as [lexicons c'|e|] eqn:E.
  - exfalso. apply load_sound in E as (version & _ & Hok).
    apply document_nodes in Hok. rewrite Forall_forall in Hok.
    apply Hbad, Hok. apply list_elem_of_In. exact Hin.
  - eauto.
  - exfalso. eapply load_total, E.
Qed.

(** *** Running the loader forwards *)

Lemma bind_eq {A B} (m : M A) (k : A -> M B) c a c1 :
  m c = Done a c1 -> bind m k c = k a c1.
Proof. unfold bind. intros ->. reflexivity. Qed.

Lemma bind_abort {A B} (m : M A) (k : A -> M B) c e :
  m c = Abort e -> bind m k c = Abort e.
Proof. unfold bind. intros ->. reflexivity. Qed.

Lemma while_some {S} fuel (body : S -> M (option S)) s s' c c1 :
  body s c = Done (Some s') c1 ->
  while_ (Datatypes.S fuel) body s c = while_ fuel body s' c1.
Proof. intros H. simpl. by rewrite (bind_eq _ _ _ _ _ H). Qed.

Lemma while_none {S} fuel (body : S -> M (option S)) s c c1 :
  body s c = Done None c1 ->
  while_ (Datatypes.S fuel) body s c = Done s c1.
Proof. intros H. simpl. by rewrite (bind_eq _ _ _ _ _ H). Qed.

Lemma while_abort {S} fuel (body : S -> M (option S)) s c e :
  body s c = Abort e ->
  while_ (Datatypes.S fuel) body s c = Abort e.
Proof. intros H. simpl. by rewrite (bind_abort _ _ _ _ H). Qed.

Lemma starts_at tags c k x evs :
  pending c = (k, x) :: evs ->
  starts tags c = Done (is_start k && str_in (tag x) tags) c.
Proof. unfold starts. intros ->. reflexivity. Qed.

Lemma starts_rest_ok tags c :
  rest_ok (pending c) -> starts tags c = Done false c.
Proof.
  unfold starts. destruct (pending c) as [|[k x] rest']; [reflexivity|].
  simpl. intros ->. reflexivity.
Qed.

Lemma start_at tags c x evs :
  pending c = (start_ev, x) :: evs -> str_in (tag x) tags = true ->
  start tags c = Done x (mkCursor evs (log c)).
Proof.
  intros Hp Hin. unfold start, bind, next_event. rewrite Hp. simpl.
  rewrite Hin. reflexivity.
Qed.

Lemma end_at tags c x evs :
  pending c = (end_ev, x) :: evs -> str_in (tag x) tags = true ->
  end_ tags c = Done x (mkCursor evs (log c)).
Proof.
  intros Hp Hin. unfold end_, bind, next_event. rewrite Hp. simpl.
  rewrite Hin. reflexivity.
Qed.

Lemma lift_dindex {V} k (d : dict V) v c :
  dget k d = Some v -> lift (dindex k d) c = Done v c.
Proof. unfold dindex. intros ->. reflexivity. Qed.

Lemma leaf_loop_stops {S} fuel tag_ (k : S -> M (option S)) acc c :
  rest_ok (pending c) ->
  while_ (Datatypes.S fuel)
    (fun acc => b <- starts [tag_] ;; if b then k acc else ret None) acc c
  = Done acc c.
Proof.
  intros Hr. apply while_none. by rewrite (bind_eq _ _ _ _ _ (starts_rest_ok _ _ Hr)).
Qed.

Ltac step tac :=
  lazymatch goal with
  | |- bind ?m ?k ?c = _ =>
      let H := fresh "Hstep" in
      eassert (H : m c = Done _ _) by tac;
      rewrite (bind_eq m k c _ _ H); clear H; cbv beta zeta
  end.

Lemma load_childless_sense fuel external version e rest w id synset lex adj meta
    c1 c2 c3 :
  tag e = "Sense" ->
  dget "id" (attrib e) = Some id ->
  dget "synset" (attrib e) = Some synset ->
  rest_ok rest ->
  _get_bool (default "true" (dget "lexicalized" (attrib e)))
    (mkCursor ((end_ev, e) :: rest) w) = Done lex c1 ->
  _get_literal (dget "adjposition" (attrib e)) ADJPOSITIONS c1 = Done adj c2 ->
  _get_metadata (attrib e) version c2 = Done meta c3 ->
  _load_senses (S (S fuel)) external version
    (mkCursor (events_of (Node e []) ++ rest) w)
  = Done [mkSense id synset [] [] [] lex adj meta false] (mkCursor rest (log c3)).
Proof.
  intros Htag Hid Hsyn Hr H1 H2 H3.
  pose proof (still_get_bool _ _ _ _ H1) as P1.
  pose proof (still_get_literal _ _ _ _ _ H2) as P2.
  pose proof (still_get_metadata _ _ _ _ _ H3) as P3.
  simpl in P1. rewrite P1 in P2. rewrite P2 in P3.
  assert (Hin : str_in (tag e) ["Sense"] = true) by (rewrite Htag; reflexivity).
  unfold _load_senses. simpl events_of. simpl app.
  erewrite while_some; cycle 1.
  { cbv beta. step ltac:(eapply starts_at; reflexivity).
    cbn [is_start andb]. rewrite Hin. cbv iota.
    step ltac:(apply start_at; [reflexivity|exact Hin]).
    step ltac:(apply lift_dindex; exact Hid).
    step ltac:(apply lift_dindex; exact Hsyn).
    step ltac:(apply leaf_loop_stops; reflexivity).
    step ltac:(apply leaf_loop_stops; reflexivity).
    step ltac:(apply leaf_loop_stops; reflexivity).
    step ltac:(exact H1).
    step ltac:(exact H2).
    step ltac:(exact H3).
    step ltac:(apply end_at; [exact P3|exact Hin]).
    reflexivity. }
  apply while_none. cbv beta.
  step ltac:(apply starts_rest_ok; exact Hr).
  destruct external.
  - step ltac:(apply starts_rest_ok; exact Hr). reflexivity.
  - reflexivity.
Qed.

Lemma ilidefinition_stops version c :
  rest_ok (pending c) -> _load_ilidefinition version c = Done None c.
Proof.
  intros Hr. unfold _load_ilidefinition.
  by rewrite (bind_eq _ _ _ _ _ (starts_rest_ok _ _ Hr)).
Qed.

Lemma load_childless_synset fuel extension version e rest w id ili pos lex meta
    c1 c2 c3 :
  tag e = "Synset" ->
  dget "id" (attrib e) = Some id ->
  dget "ili" (attrib e) = Some ili ->
  rest_ok rest ->
  _get_literal (dget "partOfSpeech" (attrib e)) PARTS_OF_SPEECH
    (mkCursor ((end_ev, e) :: rest) w) = Done pos c1 ->
  _get_bool (default "true" (dget "lexicalized" (attrib e))) c1 = Done lex c2 ->
  _get_metadata (attrib e) version c2 = Done meta c3 ->
  _load_synsets (S (S fuel)) extension version
    (mkCursor (events_of (Node e []) ++ rest) w)
  = Done [mkSynset id ili pos [] None [] [] lex meta false]
         (mkCursor rest (log c3)).
Proof.
  intros Htag Hid Hili Hr H1 H2 H3.
  pose proof (still_get_literal _ _ _ _ _ H1) as P1.
  pose proof (still_get_bool _ _ _ _ H2) as P2.
  pose proof (still_get_metadata _ _ _ _ _ H3) as P3.
  simpl in P1. rewrite P1 in P2. rewrite P2 in P3.
  assert (Hin : str_in (tag e) ["Synset"] = true) by (rewrite Htag; reflexivity).
  assert (Hr1 : rest_ok (pending c1)) by (rewrite P1; reflexivity).
  unfold _load_synsets. simpl events_of. simpl app.
  erewrite while_some; cycle 1.
  { cbv beta. step ltac:(eapply starts_at; reflexivity).
    cbn [is_start andb]. rewrite Hin. cbv iota.
    step ltac:(apply start_at; [reflexivity|exact Hin]).
    step ltac:(apply lift_dindex; exact Hid).
    step ltac:(apply lift_dindex; exact Hili).
    step ltac:(exact H1).
    step ltac:(apply leaf_loop_stops; exact Hr1).
    step ltac:(apply ilidefinition_stops; exact Hr1).
    step ltac:(apply leaf_loop_stops; exact Hr1).
    step ltac:(apply leaf_loop_stops; exact Hr1).
    step ltac:(exact H2).
    step ltac:(exact H3).
    step ltac:(apply end_at; [exact P3|exact Hin]).
    reflexivity. }
  apply while_none. cbv beta.
  step ltac:(apply starts_rest_ok; exact Hr).
  destruct extension.
  - step ltac:(apply starts_rest_ok; exact Hr). reflexivity.
  - reflexivity.
Qed.

Lemma quiet_lift_ok {A} (r : result A) a : r = Ok a -> quiet (lift r).
Proof. intros ->. apply quiet_ret. Qed.

Lemma quiet_get_metadata attrs version :
  version = "1.0" \/ version = "1.1" -> quiet (_get_metadata attrs version).
Proof.
  intros Hv. unfold _get_metadata. apply quiet_bind.
  - destruct Hv as [->| ->]; eapply quiet_lift_ok; reflexivity.
  - intros pairs. apply quiet_bind.
    + destruct (dget _ _); [|apply quiet_ret].
      destruct (py_float _); (apply quiet_bind; [|intros; apply quiet_ret]).
      * destruct (float_in_unit _); [apply quiet_ret|apply quiet_warn].
      * apply quiet_warn.
    + intros conf. destruct (existsb _ _); apply quiet_ret.
Qed.

Lemma get_literal_outside value choices c :
  str_in value choices = false ->
  _get_literal (Some value) choices c
  = Done value (mkCursor (pending c) (log c ++ [NotOneOf value choices])).
Proof. intros H. unfold _get_literal, bind. rewrite H. reflexivity. Qed.

Lemma get_literal_inside value choices c :
  str_in value choices = true ->
  _get_literal (Some value) choices c = Done value c.
Proof. intros H. unfold _get_literal, bind. rewrite H. reflexivity. Qed.

Lemma start_abort name c ev evs :
  pending c = ev :: evs -> is_start_of name ev = false ->
  start [name] c = Abort (LMFError ("expected <" +:+ name +:+ ">, got " +:+ got ev)).
Proof.
  intros Hp Hev. unfold start, bind, next_event. rewrite Hp.
  destruct ev as [[|] x]; unfold is_start_of, got in *; simpl in *.
  - unfold str_in. simpl. rewrite Hev. reflexivity.
  - reflexivity.
Qed.

(** * The claims *)

(** C3.  A document with a [SynsetRelation] whose [relType] is outside
    [SYNSET_RELATIONS], or a [SenseRelation] whose [relType] is in neither
    [SENSE_RELATIONS] nor [SENSE_SYNSET_RELATIONS], does not load: [load]
    raises, and the relation loaders raise [LMFError] on such an element.
    An [adjposition] outside [ADJPOSITIONS] is kept as it is and only
    logged; a [Sense] element carrying it is loaded. *)
Theorem relation_validation :
  (forall fh doc n r,
     In n (subtrees doc) -> tag_of n = "SynsetRelation" ->
     dget "relType" (attrib (root_elem n)) = Some r ->
     str_in r SYNSET_RELATIONS = false ->
     exists e, load fh (events_of doc) = Abort e)
  /\ (forall fh doc n r,
     In n (subtrees doc) -> tag_of n = "SenseRelation" ->
     dget "relType" (attrib (root_elem n)) = Some r ->
     str_in r SENSE_RELATIONS = false ->
     str_in r SENSE_SYNSET_RELATIONS = false ->
     exists e, load fh (events_of doc) = Abort e)
  /\ (forall fuel version e evs w r,
     tag e = "SynsetRelation" ->
     dget "relType" (attrib e) = Some r ->
     str_in r SYNSET_RELATIONS = false ->
     _load_synset_relations (S fuel) version
       (mkCursor ((start_ev, e) :: (end_ev, e) :: evs) w)
     = Abort (LMFError ("invalid synset relation: " +:+ r)))
  /\ (forall fuel version e evs w r,
     tag e = "SenseRelation" ->
     dget "relType" (attrib e) = Some r ->
     str_in r SENSE_RELATIONS = false ->
     str_in r SENSE_SYNSET_RELATIONS = false ->
     _load_sense_relations (S fuel) version
       (mkCursor ((start_ev, e) :: (end_ev, e) :: evs) w)
     = Abort (LMFError ("invalid sense relation: " +:+ r)))
  /\ (forall value c,
     str_in value ADJPOSITIONS = false ->
     _get_literal (Some value) ADJPOSITIONS c
     = Done value (mkCursor (pending c) (log c ++ [NotOneOf value ADJPOSITIONS])))
  /\ (forall fuel external version e rest w id synset value,
     tag e = "Sense" ->
     dget "id" (attrib e) = Some id ->
     dget "synset" (attrib e) = Some synset ->
     dget "adjposition" (attrib e) = Some value ->
     str_in value ADJPOSITIONS = false ->
     version = "1.0" \/ version = "1.1" ->
     rest_ok rest ->
     exists sense c',
       _load_senses (S (S fuel)) external version
         (mkCursor (events_of (Node e []) ++ rest) w) = Done [sense] c'
       /\ pending c' = rest
       /\ Sense_adjposition sense = value
       /\ In (NotOneOf value ADJPOSITIONS) (log c')).
Proof.
  split; [|split; [|split; [|split; [|split]]]].
  - intros fh doc n r Hin Htag Hrel Hbad. apply (load_aborts fh doc n Hin).
    intros (Hok & _). destruct (Hok Htag) as (r' & Hr' & Hv). congruence.
  - intros fh doc n r Hin Htag Hrel Hbad1 Hbad2. apply (load_aborts fh doc n Hin).
    intros (_ & Hok & _). destruct (Hok Htag) as (r' & Hr' & [Hv|Hv]); congruence.
  - intros fuel version e evs w r Htag Hrel Hbad.
    assert (Hin : str_in (tag e) ["SynsetRelation"] = true)
      by (rewrite Htag; reflexivity).
    unfold _load_synset_relations. apply while_abort. cbv beta.
    step ltac:(eapply starts_at; reflexivity).
    cbn [is_start andb]. rewrite Hin. cbv iota.
    step ltac:(reflexivity).
    step ltac:(apply end_at; [reflexivity|exact Hin]).
    step ltac:(apply lift_dindex; exact Hrel).
    rewrite Hbad. reflexivity.
  - intros fuel version e evs w r Htag Hrel Hbad1 Hbad2.
    assert (Hin : str_in (tag e) ["SenseRelation"] = true)
      by (rewrite Htag; reflexivity).
    unfold _load_sense_relations. apply while_abort. cbv beta.
    step ltac:(eapply starts_at; reflexivity).
    cbn [is_start andb]. rewrite Hin. cbv iota.
    step ltac:(reflexivity).
    step ltac:(apply end_at; [reflexivity|exact Hin]).
    step ltac:(apply lift_dindex; exact Hrel).
    rewrite Hbad1, Hbad2. reflexivity.
  - intros value c Hbad. apply get_literal_outside, Hbad.
  - intros fuel external version e rest w id synset value
      Htag Hid Hsyn Hadj Hbad Hv Hr.
    destruct (quiet_get_bool (default "true" (dget "lexicalized" (attrib e)))
                (mkCursor ((end_ev, e) :: rest) w)) as (lex & w1 & H1).
    pose proof (get_literal_outside value ADJPOSITIONS
                  (mkCursor ((end_ev, e) :: rest) (w ++ w1)) Hbad) as H2.
    cbn [pending log] in H1, H2. rewrite <- Hadj in H2.
    destruct (quiet_get_metadata (attrib e) version Hv
                (mkCursor ((end_ev, e) :: rest)
                   ((w ++ w1) ++ [NotOneOf value ADJPOSITIONS])))
      as (meta & w3 & H3).
    cbn [pending log] in H3.
    eexists _, _. split.
    + eapply load_childless_sense; eauto.
    + simpl. split; [reflexivity|]. split; [reflexivity|].
      apply in_or_app. left. apply in_or_app. right. left. reflexivity.
Qed.

Lemma get_bool_outside value c :
  str_in (lower value) ["true"; "false"] = false ->
  _get_bool value c
  = Done false (mkCursor (pending c)
                  (log c ++ [NotOneOf (lower value) ["true"; "false"]])).
Proof.
  intros H. unfold _get_bool.
  rewrite (bind_eq _ _ _ _ _ (get_literal_outside _ _ c H)).
  unfold str_in in H. simpl in H. apply orb_false_iff in H as [H _].
  unfold ret. rewrite H. reflexivity.
Qed.

Lemma get_bool_inside value c :
  str_in (lower value) ["true"; "false"] = true ->
  _get_bool value c = Done (String.eqb (lower value) "true") c.
Proof.
  intros H. unfold _get_bool.
  rewrite (bind_eq _ _ _ _ _ (get_literal_inside _ _ c H)). reflexivity.
Qed.

(** C7 (amended).  [_get_bool] lower-cases the text first.  When the
    lower-cased text is neither [true] nor [false], the load goes on: one
    diagnostic is logged and the flag is stored as [False]; the text itself
    is not kept.  So are loaded a [Sense] and a [Synset] element carrying
    such a [lexicalized] attribute.  When the lower-cased text is in the
    vocabulary nothing is logged. *)
Theorem lexicalized_outside_vocabulary :
  (forall value c,
     str_in (lower value) ["true"; "false"] = false ->
     _get_bool value c
     = Done false (mkCursor (pending c)
                     (log c ++ [NotOneOf (lower value) ["true"; "false"]])))
  /\ (forall value c,
     str_in (lower value) ["true"; "false"] = true ->
     _get_bool value c = Done (String.eqb (lower value) "true") c)
  /\ (forall fuel external version e rest w id synset value,
     tag e = "Sense" ->
     dget "id" (attrib e) = Some id ->
     dget "synset" (attrib e) = Some synset ->
     dget "lexicalized" (attrib e) = Some value ->
     str_in (lower value) ["true"; "false"] = false ->
     version = "1.0" \/ version = "1.1" ->
     rest_ok rest ->
     exists sense c',
       _load_senses (S (S fuel)) external version
         (mkCursor (events_of (Node e []) ++ rest) w) = Done [sense] c'
       /\ pending c' = rest
       /\ Sense_lexicalized sense = false
       /\ In (NotOneOf (lower value) ["true"; "false"]) (log c'))
  /\ (forall fuel extension version e rest w id ili value,
     tag e = "Synset" ->
     dget "id" (attrib e) = Some id ->
     dget "ili" (attrib e) = Some ili ->
     dget "lexicalized" (attrib e) = Some value ->
     str_in (lower value) ["true"; "false"] = false ->
     version = "1.0" \/ version = "1.1" ->
     rest_ok rest ->
     exists synset c',
       _load_synsets (S (S fuel)) extension version
         (mkCursor (events_of (Node e []) ++ rest) w) = Done [synset] c'
       /\ pending c' = rest
       /\ Synset_lexicalized synset = false
       /\ In (NotOneOf (lower value) ["true"; "false"]) (log c')).
Proof.
  split; [exact get_bool_outside|]. split; [exact get_bool_inside|]. split.
  - intros fuel external version e rest w id synset value
      Htag Hid Hsyn Hlex Hbad Hv Hr.
    pose proof (get_bool_outside value
                  (mkCursor ((end_ev, e) :: rest) w) Hbad) as H1.
    cbn [pending log] in H1.
    destruct (quiet_get_literal (dget "adjposition" (attrib e)) ADJPOSITIONS
                (mkCursor ((end_ev, e) :: rest)
                   (w ++ [NotOneOf (lower value) ["true"; "false"]])))
      as (adj & w2 & H2).
    cbn [pending log] in H2.
    destruct (quiet_get_metadata (attrib e) version Hv
                (mkCursor ((end_ev, e) :: rest)
                   ((w ++ [NotOneOf (lower value) ["true"; "false"]]) ++ w2)))
      as (meta & w3 & H3).
    cbn [pending log] in H3.
    eexists _, _. split.
    + eapply load_childless_sense; eauto. rewrite Hlex. exact H1.
    + simpl. split; [reflexivity|]. split; [reflexivity|].
      apply in_or_app. left. apply in_or_app. left. apply in_or_app.
      right. left. reflexivity.
  - intros fuel extension version e rest w id ili value
      Htag Hid Hili Hlex Hbad Hv Hr.
    destruct (quiet_get_literal (dget "partOfSpeech" (attrib e)) PARTS_OF_SPEECH
                (mkCursor ((end_ev, e) :: rest) w)) as (pos & w1 & H1).
    cbn [pending log] in H1.
    pose proof (get_bool_outside value
                  (mkCursor ((end_ev, e) :: rest) (w ++ w1)) Hbad) as H2.
    cbn [pending log] in H2.
    destruct (quiet_get_metadata (attrib e) version Hv
                (mkCursor ((end_ev, e) :: rest)
                   ((w ++ w1) ++ [NotOneOf (lower value) ["true"; "false"]])))
      as (meta & w3 & H3).
    cbn [pending log] in H3.
    eexists _, _. split.
    + eapply load_childless_synset; eauto. rewrite Hlex. exact H2.
    + simpl. split; [reflexivity|]. split; [reflexivity|].
      apply in_or_app. left. apply in_or_app. right. left. reflexivity.
Qed.

Lemma qname_pairs version uri :
  dget version _DC_URIS = Some uri ->
  dget version _DC_QNAME_PAIRS
  = Some (map (fun attr => (qname uri attr, attr)) _DC_ATTRS).
Proof.
  unfold _DC_QNAME_PAIRS, _DC_URIS. simpl.
  destruct (String.eqb version "1.0"); [intros [= <-]; reflexivity|].
  destruct (String.eqb version "1.1"); [intros [= <-]; reflexivity|].
  discriminate.
Qed.

Lemma Forall2_map_both {A B C} (R : B -> C -> Prop) (f : A -> B) (g : A -> C)
    (l : list A) :
  (forall x, R (f x) (g x)) -> Forall2 R (map f l) (map g l).
Proof. intros H. induction l; simpl; constructor; auto. Qed.

Lemma existsb_is_Some {A} (l : list (option A)) :
  if existsb (fun m => bool_decide (is_Some m)) l
  then Exists is_Some l
  else Forall (fun m => m = None) l.
Proof.
  induction l as [|[a|] l IH]; simpl.
  - constructor.
  - apply Exists_cons_hd. eauto.
  - destruct (existsb _ l).
    + apply Exists_cons_tl, IH.
    + constructor; [reflexivity|exact IH].
Qed.

(** For a schema version of [_DC_URIS], [_get_metadata] fills seventeen
    slots, one per attribute name of [metadata_names]; a slot is filled
    exactly when the attribute is present.  It returns the record when some
    slot is filled and [None] when none is. *)
Lemma get_metadata_slots attrs version uri c :
  dget version _DC_URIS = Some uri ->
  exists (slots : Metadata) r c',
    _get_metadata attrs version c = Done r c'
    /\ pending c' = pending c
    /\ length slots = 17
    /\ Forall2 (fun name slot => is_Some slot <-> is_Some (dget name attrs))
               (metadata_names uri) slots
    /\ ((r = Some slots /\ Exists is_Some slots)
        \/ (r = None /\ Forall (fun slot => slot = None) slots)).
Proof.
  intros Huri. unfold _get_metadata.
  assert (Hconf : exists conf w,
    (match dget "confidenceScore" attrs with
     | Some value =>
         match py_float value with
         | Some f =>
             (if float_in_unit f then ret tt
              else warn (ConfidenceNotInUnit (PFloat f))) ;;;
             ret (Some (PFloat f))
         | None =>
             warn (ConfidenceNotInUnit (PStr value)) ;;;
             ret (Some (PStr value))
         end
     | None => ret None
     end) c = Done conf (mkCursor (pending c) (log c ++ w))
    /\ (is_Some conf <-> is_Some (dget "confidenceScore" attrs))).
  { destruct (dget "confidenceScore" attrs) as [value|].
    - destruct (py_float value) as [f|].
      + destruct (float_in_unit f).
        * exists (Some (PFloat f)), []. rewrite app_nil_r. destruct c.
          split; [reflexivity|]. split; eauto.
        * exists (Some (PFloat f)), [ConfidenceNotInUnit (PFloat f)].
          split; [reflexivity|]. split; eauto.
      + exists (Some (PStr value)), [ConfidenceNotInUnit (PStr value)].
        split; [reflexivity|]. split; eauto.
    - exists None, []. rewrite app_nil_r. destruct c.
      split; [reflexivity|]. split; intros [? [=]]. }
  destruct Hconf as (conf & w & Hrun & Hconf).
  unfold dindex. rewrite (qname_pairs _ _ Huri). cbn [lift].
  rewrite (bind_eq _ _ _ _ _ (eq_refl : ret _ c = Done _ c)).
  rewrite (bind_eq _ _ _ _ _ Hrun). rewrite map_map. cbn [fst].
  set (slots := (map (fun x => PStr <$> dget (qname uri x) attrs) _DC_ATTRS
                 ++ [PStr <$> dget "status" attrs])
                 ++ [PStr <$> dget "note" attrs]).
  exists (slots ++ [conf]).
  pose proof (existsb_is_Some (slots ++ [conf])) as Hex.
  destruct (existsb _ (slots ++ [conf])); eexists _, _;
    (split; [reflexivity|]); (split; [reflexivity|]);
    (split; [reflexivity|]); (split; [|auto]).
  all: unfold metadata_names, slots;
    rewrite <- !app_assoc; apply Forall2_app;
    [apply Forall2_map_both; intros x; apply fmap_is_Some|];
    repeat (constructor; [first [apply fmap_is_Some|exact Hconf]|]);
    constructor.
Qed.

(** [is_lmf] turns the [LMFError] of the header reader into [False];
    any other exception goes through. *)
Lemma is_lmf_cases source :
  (is_xml source = false -> is_lmf source = Ok false)
  /\ (forall fh, is_xml source = true -> fs source = Some fh ->
        match _read_header fh with
        | Ok _ => is_lmf source = Ok true
        | Raise (LMFError _) => is_lmf source = Ok false
        | Raise e => is_lmf source = Raise e
        end).
Proof.
  unfold is_lmf, open_rb. split.
  - intros ->. reflexivity.
  - intros fh -> ->. simpl. destruct (_read_header fh) as [v|[]]; reflexivity.
Qed.

(** *** The scanner *)

Lemma dget_dset_eq {V} k (v : V) d : dget k (dset k v d) = Some v.
Proof.
  induction d as [|[k' v'] d IH]; simpl.
  - by rewrite String.eqb_refl.
  - destruct (String.eqb_spec k k') as [->|Hne]; simpl.
    + by rewrite String.eqb_refl.
    + destruct (String.eqb_spec k k'); [contradiction|exact IH].
Qed.

Lemma dget_dset_ne {V} k k' (v : V) d :
  k <> k' -> dget k (dset k' v d) = dget k d.
Proof.
  intros Hne. induction d as [|[k0 v0] d IH]; simpl.
  - destruct (String.eqb_spec k k'); [contradiction|reflexivity].
  - destruct (String.eqb_spec k' k0) as [->|Hne0]; simpl.
    + destruct (String.eqb_spec k k0); [contradiction|reflexivity].
    + destruct (String.eqb_spec k k0); [reflexivity|exact IH].
Qed.

Lemma update_last_snoc {A} (f : A -> A) pre x :
  update_last f (pre ++ [x]) = pre ++ [f x].
Proof.
  induction pre as [|y pre IH]; [reflexivity|].
  simpl. rewrite IH. destruct (pre ++ [x]) eqn:E; [|reflexivity].
  destruct pre; discriminate.
Qed.

Lemma count_of_bump counts name name' :
  count_of (bump name counts) name'
  = count_of counts name' + (if decide (name' = name) then 1 else 0).
Proof.
  unfold count_of, bump. destruct (decide (name' = name)) as [->|Hne].
  - rewrite lookup_insert_eq. simpl. reflexivity.
  - rewrite lookup_insert_ne by congruence. lia.
Qed.

Lemma occurrences_cons name e es :
  occurrences name (e :: es)
  = (if decide (tag e = name) then 1 else 0) + occurrences name es.
Proof.
  unfold occurrences. rewrite filter_cons.
  destruct (decide (tag e = name)); reflexivity.
Qed.

Lemma occurrences_app name es1 es2 :
  occurrences name (es1 ++ es2) = occurrences name es1 + occurrences name es2.
Proof. unfold occurrences. by rewrite filter_app, length_app. Qed.

Lemma scan_feed_app tags1 tags2 infos :
  scan_feed (tags1 ++ tags2) infos
  = rbind (scan_feed tags1 infos) (scan_feed tags2).
Proof.
  revert infos. induction tags1 as [|[name attrs] tags1 IH]; intros infos;
    [reflexivity|].
  simpl. destruct (scan_start name attrs infos); simpl; [apply IH|reflexivity].
Qed.

(** Start tags read while a resource is open and no other begins: only
    the record of that resource changes, and its counters grow by the
    number of tags of each name, [Extends] apart. *)
Lemma scan_feed_inner es pre info counts infos' :
  Forall (fun e => is_resource (tag e) = false) es ->
  dget "counts" info = Some (ICounts counts) ->
  scan_feed (as_tags es) (pre ++ [info]) = Ok infos' ->
  exists info' counts',
    infos' = pre ++ [info']
    /\ dget "counts" info' = Some (ICounts counts')
    /\ forall name, name <> "Extends" ->
         count_of counts' name = count_of counts name + occurrences name es.
Proof.
  intros Hes. revert info counts. induction Hes as [|e es He _ IH];
    intros info counts Hc H.
  - injection H as <-. exists info, counts. split; [reflexivity|].
    split; [assumption|]. intros name _. unfold occurrences. simpl. lia.
  - simpl in H. unfold scan_start in H. unfold is_resource in He.
    rewrite He in H. rewrite last_snoc in H.
    destruct (String.eqb_spec (tag e) "Extends") as [Hext|Hext].
    + destruct (dindex "id" (attrib e)) as [id|]; [|discriminate].
      destruct (dindex "version" (attrib e)) as [ver|]; [|discriminate].
      simpl in H. rewrite update_last_snoc in H.
      apply IH with (counts := counts) in H;
        [|rewrite dget_dset_ne by discriminate; exact Hc].
      destruct H as (info' & counts' & -> & Hc' & Hn).
      exists info', counts'. split; [reflexivity|]. split; [assumption|].
      intros name Hname. rewrite (Hn name Hname), occurrences_cons.
      destruct (decide (tag e = name)); [congruence|lia].
    + rewrite Hc in H. simpl in H. rewrite update_last_snoc in H.
      apply IH with (counts := bump (tag e) counts) in H;
        [|apply dget_dset_eq].
      destruct H as (info' & counts' & -> & Hc' & Hn).
      exists info', counts'. split; [reflexivity|]. split; [assumption|].
      intros name Hname.
      rewrite (Hn name Hname), count_of_bump, occurrences_cons.
      destruct (decide (name = tag e)), (decide (tag e = name));
        try congruence; lia.
Qed.

Lemma scan_feed_inner_ok es pre info counts :
  Forall (fun e => is_resource (tag e) = false
                   /\ (tag e = "Extends" ->
                       has_attr "id" e /\ has_attr "version" e)) es ->
  dget "counts" info = Some (ICounts counts) ->
  exists infos', scan_feed (as_tags es) (pre ++ [info]) = Ok infos'.
Proof.
  intros Hes. revert info counts. induction Hes as [|e es [He Hx] _ IH];
    intros info counts Hc.
  - eexists. reflexivity.
  - simpl. unfold scan_start. unfold is_resource in He. rewrite He.
    rewrite last_snoc.
    destruct (String.eqb_spec (tag e) "Extends") as [Hext|Hext].
    + destruct (Hx Hext) as [[id Hid] [ver Hver]].
      unfold dindex. rewrite Hid, Hver. simpl. rewrite update_last_snoc.
      apply IH with (counts := counts).
      rewrite dget_dset_ne by discriminate. exact Hc.
    + rewrite Hc. simpl. rewrite update_last_snoc.
      apply IH with (counts := bump (tag e) counts). apply dget_dset_eq.
Qed.

Lemma scan_start_resource name attrs infos :
  is_resource name = true ->
  exists info, scan_start name attrs infos = Ok (infos ++ [info])
    /\ dget "counts" info = Some (ICounts ∅).
Proof.
  intros H. unfold scan_start. unfold is_resource in H. rewrite H.
  eexists. split; [reflexivity|]. apply dget_dset_eq.
Qed.

Lemma expat_tags_node e cs :
  expat_tags (Node e cs) = (tag e, attrib e) :: as_tags (descendants (Node e cs)).
Proof. reflexivity. Qed.

Lemma count_of_empty name : count_of ∅ name = 0.
Proof. unfold count_of. by rewrite lookup_empty. Qed.

(** One resource element without resources below it adds one record. *)
Lemma scan_resource_tree t pre infos' :
  is_resource (tag_of t) = true ->
  Forall (fun e => is_resource (tag e) = false) (descendants t) ->
  scan_feed (expat_tags t) pre = Ok infos' ->
  exists info counts,
    infos' = pre ++ [info]
    /\ dget "counts" info = Some (ICounts counts)
    /\ forall name, name <> "Extends" ->
         count_of counts name = occurrences name (descendants t).
Proof.
  destruct t as [e cs]. intros Hres Hdesc H.
  rewrite expat_tags_node in H. simpl in H.
  destruct (scan_start_resource (tag e) (attrib e) pre Hres)
    as (info0 & Hs & Hc0).
  rewrite Hs in H. simpl in H.
  destruct (scan_feed_inner _ _ _ _ _ Hdesc Hc0 H)
    as (info & counts & -> & Hc & Hn).
  exists info, counts. split; [reflexivity|]. split; [assumption|].
  intros name Hname. rewrite (Hn name Hname), count_of_empty. reflexivity.
Qed.

Lemma scan_resources ts pre infos' :
  Forall (fun t => is_resource (tag_of t) = true
            /\ Forall (fun e => is_resource (tag e) = false) (descendants t)) ts ->
  scan_feed (concat (map expat_tags ts)) pre = Ok infos' ->
  exists news, infos' = pre ++ news
    /\ Forall2 (fun t info => exists counts,
                  dget "counts" info = Some (ICounts counts)
                  /\ forall name, name <> "Extends" ->
                       count_of counts name = occurrences name (descendants t))
               ts news.
Proof.
  intros Hts. revert pre. induction Hts as [|t ts [Hres Hdesc] _ IH]; intros pre H.
  - injection H as <-. exists []. rewrite app_nil_r. split; [reflexivity|constructor].
  - simpl in H. rewrite scan_feed_app in H.
    destruct (scan_feed (expat_tags t) pre) as [infos1|] eqn:E; [|discriminate].
    simpl in H.
    destruct (scan_resource_tree _ _ _ Hres Hdesc E) as (info & counts & -> & Hc & Hn).
    destruct (IH _ H) as (news & -> & Hf).
    exists (info :: news). rewrite <- app_assoc. split; [reflexivity|].
    constructor; [eauto|assumption].
Qed.

(** In a document whose root holds the resources, none inside another,
    the run of a resource is what lies below it. *)
Lemma scan_tree_counts root resources infos :
  is_resource (tag root) = false ->
  Forall (fun t => is_resource (tag_of t) = true
            /\ Forall (fun e => is_resource (tag e) = false) (descendants t))
         resources ->
  scan_lexicons (expat_tags (Node root resources)) true = Ok infos ->
  Forall2 (fun t info => exists counts,
             dget "counts" info = Some (ICounts counts)
             /\ forall name, name <> "Extends" ->
                  count_of counts name = occurrences name (descendants t))
          resources infos.
Proof.
  intros Hroot Hres H. unfold scan_lexicons in H.
  destruct (scan_feed _ []) as [infos0|] eqn:E; [|discriminate].
  simpl in H. injection H as <-.
  rewrite expat_tags_node in E. simpl in E. unfold scan_start in E.
  unfold is_resource in Hroot. rewrite Hroot in E. simpl in E.
  destruct (String.eqb (tag root) "Extends").
  - destruct (dindex "id" (attrib root)); [|discriminate].
    destruct (dindex "version" (attrib root)); discriminate.
  - simpl in E. unfold descendants, as_tags in E. simpl in E.
    rewrite concat_map, map_map in E.
    destruct (scan_resources _ _ _ Hres E) as (news & -> & Hf). exact Hf.
Qed.



(** *** Scanner and loader on the same document *)

Lemma elements_subtrees t : elements_of t = map root_elem (subtrees t).
Proof.
  induction t as [e cs IH] using xml_ind. simpl. f_equal.
  induction IH as [|c cs Hc _ IHcs]; [reflexivity|].
  simpl. rewrite map_app, Hc, IHcs. reflexivity.
Qed.

Lemma elements_forest ts :
  concat (map elements_of ts) = map root_elem (concat (map subtrees ts)).
Proof.
  induction ts as [|t ts IH]; [reflexivity|].
  simpl. rewrite map_app, elements_subtrees, IH. reflexivity.
Qed.

Lemma inner_forest_elements ts :
  inner_forest ts ->
  Forall (fun e => str_in (tag e) inner_tags = true)
         (concat (map elements_of ts)).
Proof.
  intros H. rewrite elements_forest. apply Forall_map.
  eapply Forall_impl; [exact H|]. intros n (Hn & _). exact Hn.
Qed.

Lemma occurrences_zero name es :
  Forall (fun e => tag e <> name) es -> occurrences name es = 0.
Proof.
  induction 1 as [|e es He _ IH]; [reflexivity|].
  rewrite occurrences_cons, IH. destruct (decide (tag e = name)); [contradiction|lia].
Qed.

Lemma inner_not name es :
  str_in name inner_tags = false ->
  Forall (fun e => str_in (tag e) inner_tags = true) es ->
  Forall (fun e => tag e <> name) es.
Proof.
  intros Hname H. eapply Forall_impl; [exact H|].
  intros e He Heq. cbv beta in He. rewrite Heq in He. congruence.
Qed.

Lemma occurrences_inner name ts :
  str_in name inner_tags = false -> inner_forest ts ->
  occurrences name (concat (map elements_of ts)) = 0.
Proof.
  intros Hname H. apply occurrences_zero, (inner_not name); [assumption|].
  apply inner_forest_elements, H.
Qed.

Lemma occurrences_entries extension es :
  Forall (entry_ok extension) es ->
  occurrences "LexicalEntry" (concat (map elements_of es))
  + occurrences "ExternalLexicalEntry" (concat (map elements_of es)) = length es
  /\ occurrences "Synset" (concat (map elements_of es)) = 0
  /\ occurrences "ExternalSynset" (concat (map elements_of es)) = 0.
Proof.
  induction 1 as [|[x cs] es [Htag Hc] _ (IH1 & IH2 & IH3)];
    [split; [|split]; reflexivity|].
  simpl. rewrite !occurrences_cons, !occurrences_app.
  rewrite !(occurrences_inner _ cs) by (reflexivity || assumption).
  unfold tag_of in Htag. simpl in Htag.
  destruct Htag as [[Ht _]|[_ Ht]]; rewrite Ht; simpl;
    (split; [|split]); lia.
Qed.

Lemma occurrences_synsets extension ss :
  Forall (synset_ok extension) ss ->
  occurrences "Synset" (concat (map elements_of ss))
  + occurrences "ExternalSynset" (concat (map elements_of ss)) = length ss
  /\ occurrences "LexicalEntry" (concat (map elements_of ss)) = 0
  /\ occurrences "ExternalLexicalEntry" (concat (map elements_of ss)) = 0.
Proof.
  induction 1 as [|[x cs] ss [Htag Hc] _ (IH1 & IH2 & IH3)];
    [split; [|split]; reflexivity|].
  simpl. rewrite !occurrences_cons, !occurrences_app.
  rewrite !(occurrences_inner _ cs) by (reflexivity || assumption).
  unfold tag_of in Htag. simpl in Htag.
  destruct Htag as [Ht|[_ Ht]]; rewrite Ht; simpl;
    (split; [|split]); lia.
Qed.

Lemma occurrences_dependencies name deps :
  name <> "Extends" -> name <> "Requires" ->
  Forall dependency_ok deps ->
  occurrences name (concat (map elements_of deps)) = 0.
Proof.
  intros H1 H2. induction 1 as [|[x cs] deps (Htag & Hc & _) _ IH]; [reflexivity|].
  simpl in Hc. subst cs. simpl. rewrite occurrences_cons, IH.
  unfold tag_of in Htag. simpl in Htag.
  destruct (decide (tag x = name)) as [<-|]; [|reflexivity].
  destruct Htag; contradiction.
Qed.

Lemma scannable_inner ts :
  inner_forest ts -> Forall scannable (concat (map elements_of ts)).
Proof.
  intros H. apply inner_forest_elements in H.
  eapply Forall_impl; [exact H|]. intros e He. cbv beta in He. split.
  - destruct (is_resource (tag e)) eqn:E; [|reflexivity].
    apply str_in_true in E. simpl in E.
    destruct E as [E|[E|[]]]; rewrite <- E in He; discriminate.
  - intros E. rewrite E in He. discriminate.
Qed.

Lemma scannable_tree x cs :
  is_resource (tag x) = false -> tag x <> "Extends" -> inner_forest cs ->
  Forall scannable (elements_of (Node x cs)).
Proof.
  intros H1 H2 Hc. simpl. constructor; [|apply scannable_inner, Hc].
  split; [assumption|]. intros E. contradiction.
Qed.

Lemma scannable_lexicon version t lex :
  lexicon_ok version t lex ->
  is_resource (tag_of t) = true /\ Forall scannable (descendants t).
Proof.
  destruct t as [e cs].
  intros (ext & deps & es & ss & Hc & Hd & He & Hs & _ & _ & Htag).
  simpl in Hc. subst cs. split.
  - unfold tag_of in *. simpl in *.
    destruct Htag as [[-> _]|(-> & _)]; reflexivity.
  - unfold descendants. simpl. rewrite !map_app, !concat_app, !Forall_app.
    split; [|split].
    + eapply Forall_concat_map; [|exact Hd].
      intros [x cs] (Ht & Hcs & Hid & Hver). simpl in *. subst cs. simpl.
      constructor; [|constructor]. unfold tag_of in Ht. simpl in Ht. split.
      * destruct Ht as [-> | ->]; reflexivity.
      * auto.
    + eapply Forall_concat_map; [|exact He].
      intros [x cs] [Ht Hcs]. unfold tag_of in Ht. simpl in Ht, Hcs.
      apply scannable_tree; [| |assumption];
        destruct Ht as [[-> _]|[_ ->]]; (reflexivity || discriminate).
    + eapply Forall_concat_map; [|exact Hs].
      intros [x cs] [Ht Hcs]. unfold tag_of in Ht. simpl in Ht, Hcs.
      apply scannable_tree; [| |assumption];
        destruct Ht as [->|[_ ->]]; (reflexivity || discriminate).
Qed.

Lemma occurrences_lexicon version t lex :
  lexicon_ok version t lex ->
  occurrences "LexicalEntry" (descendants t)
  + occurrences "ExternalLexicalEntry" (descendants t)
  = length (Lexicon_lexical_entries lex)
  /\ occurrences "Synset" (descendants t)
     + occurrences "ExternalSynset" (descendants t)
     = length (Lexicon_synsets lex).
Proof.
  destruct t as [e cs].
  intros (ext & deps & es & ss & Hc & Hd & He & Hs & Hle & Hls & _).
  simpl in Hc. subst cs. unfold descendants. simpl.
  rewrite !map_app, !concat_app, !occurrences_app.
  rewrite !(occurrences_dependencies _ deps) by (discriminate || assumption).
  destruct (occurrences_entries _ _ He) as (E1 & E2 & E3).
  destruct (occurrences_synsets _ _ Hs) as (S1 & S2 & S3).
  lia.
Qed.

Lemma scan_feed_cons name attrs tags infos :
  scan_feed ((name, attrs) :: tags) infos
  = rbind (scan_start name attrs infos) (scan_feed tags).
Proof. reflexivity. Qed.

Lemma scan_resources_ok ts pre :
  Forall (fun t => is_resource (tag_of t) = true
                   /\ Forall scannable (descendants t)) ts ->
  exists infos', scan_feed (concat (map expat_tags ts)) pre = Ok infos'.
Proof.
  intros Hts. revert pre. induction Hts as [|[e cs] ts [Hres Hdesc] _ IH];
    intros pre; [eexists; reflexivity|].
  change (concat (map expat_tags (Node e cs :: ts)))
    with (expat_tags (Node e cs) ++ concat (map expat_tags ts)).
  rewrite scan_feed_app, expat_tags_node, scan_feed_cons.
  destruct (scan_start_resource (tag e) (attrib e) pre Hres) as (info0 & Hs & Hc0).
  rewrite Hs. cbn [rbind].
  destruct (scan_feed_inner_ok _ pre info0 ∅ Hdesc Hc0) as (infos1 & E).
  match goal with
  | |- context [rbind ?x _] =>
      replace x with (Ok infos1) by (symmetry; exact E)
  end.
  cbn [rbind]. apply IH.
Qed.

(** C8.  When a document loads, the scanner reads it too, and yields
    one record per loaded resource, in order; in each the counts of
    [LexicalEntry] and [ExternalLexicalEntry] add up to the number of
    loaded lexical entries, and those of [Synset] and [ExternalSynset] to
    the number of loaded synsets. *)
Theorem scan_load_consistency fh doc lexicons c' :
  load fh (events_of doc) = Done lexicons c' ->
  exists infos,
    scan_lexicons (expat_tags doc) true = Ok infos
    /\ Forall2 (fun info lex => exists counts,
                  dget "counts" info = Some (ICounts counts)
                  /\ count_of counts "LexicalEntry"
                     + count_of counts "ExternalLexicalEntry"
                     = length (Lexicon_lexical_entries lex)
                  /\ count_of counts "Synset" + count_of counts "ExternalSynset"
                     = length (Lexicon_synsets lex))
               infos lexicons.
Proof.
  intros H. apply load_sound in H as (version & _ & Htag & Hf).
  destruct doc as [root resources]. unfold tag_of in Htag. simpl in Htag, Hf.
  assert (Hsc : Forall (fun t => is_resource (tag_of t) = true
                          /\ Forall scannable (descendants t)) resources).
  { clear -Hf. induction Hf as [|t lex ts lexs Hok _ IH]; constructor;
      [eapply scannable_lexicon, Hok|exact IH]. }
  assert (Hroot : is_resource (tag root) = false) by (rewrite Htag; reflexivity).
  destruct (scan_resources_ok resources [] Hsc) as (infos & E).
  assert (Hscan : scan_lexicons (expat_tags (Node root resources)) true = Ok infos).
  { unfold scan_lexicons. rewrite expat_tags_node, scan_feed_cons.
    unfold scan_start. unfold is_resource in Hroot. rewrite Hroot, Htag.
    cbn [String.eqb Ascii.eqb Bool.eqb last rbind].
    unfold descendants, as_tags. simpl children_of.
    rewrite concat_map, map_map.
    change (fun x => map (fun e => (tag e, attrib e)) (elements_of x))
      with expat_tags.
    rewrite E. reflexivity. }
  exists infos. split; [exact Hscan|].
  apply scan_tree_counts in Hscan; [|exact Hroot|].
  - clear -Hscan Hf. revert lexicons Hf.
    induction Hscan as [|t info ts infos (counts & Hc & Hn) _ IH];
      intros lexicons Hf; inversion Hf as [|? lex ? lexs Hok Hf']; subst;
      constructor; [|apply IH, Hf'].
    exists counts. split; [exact Hc|].
    rewrite !Hn by discriminate. eapply occurrences_lexicon, Hok.
  - eapply Forall_impl; [exact Hsc|]. intros t [Hres Hd]. split; [exact Hres|].
    eapply Forall_impl; [exact Hd|]. intros e [He _]. exact He.
Qed.

(** *** The serializer: the [SyntacticBehaviour] elements of an entry *)

Lemma sbmap_add_lookup sbmap sense_id sb sid :
  default [] (sbmap_add sbmap sense_id sb !! sid)
  = default [] (sbmap !! sid) ++ (if decide (sense_id = sid) then [sb] else []).
Proof.
  unfold sbmap_add. destruct (decide (sense_id = sid)) as [->|Hne].
  - rewrite lookup_insert_eq. reflexivity.
  - rewrite lookup_insert_ne by exact Hne. by rewrite app_nil_r.
Qed.

Lemma sbmap_senses_lookup sb senses sbmap sid :
  default [] (fold_left (fun m' sense_id => sbmap_add m' sense_id sb) senses sbmap
              !! sid)
  = default [] (sbmap !! sid)
    ++ replicate (length (filter (fun s => s = sid) senses)) sb.
Proof.
  revert sbmap. induction senses as [|s senses IH]; intros sbmap; simpl.
  - by rewrite app_nil_r.
  - rewrite IH, sbmap_add_lookup, filter_cons, <- app_assoc.
    destruct (decide (s = sid)); reflexivity.
Qed.

(** [sbmap[sense_id]] holds a frame once for every time the frame names
    [sense_id]. *)
Lemma build_sbmap_lookup sbs sid :
  default [] (build_sbmap "1.0" sbs !! sid)
  = flat_map (fun sb =>
                replicate (length (filter (fun s => s = sid) (sb_senses sb))) sb)
             sbs.
Proof.
  unfold build_sbmap. simpl.
  change (flat_map _ sbs) with
    (default [] ((∅ : gmap string (list SyntacticBehaviour)) !! sid)
     ++ flat_map (fun sb =>
          replicate (length (filter (fun s => s = sid) (sb_senses sb))) sb) sbs).
  generalize (∅ : gmap string (list SyntacticBehaviour)).
  induction sbs as [|sb sbs IH]; intros m; simpl.
  - by rewrite app_nil_r.
  - rewrite IH, sbmap_senses_lookup, <- app_assoc. reflexivity.
Qed.

Lemma length_flat_map {A B} (f : A -> list B) (l : list A) :
  length (flat_map f l) = sum_list_with (fun x => length (f x)) l.
Proof.
  induction l as [|x l IH]; [reflexivity|].
  simpl. rewrite length_app, IH. reflexivity.
Qed.

(** Every element emitted for an entry carries the frame of a recorded
    [SyntacticBehaviour] and the sorted, duplicate-free intersection of the
    entry's sense ids with the frame's. *)
Lemma entry_syntactic_behaviours_members entry sbmap x :
  In x (entry_syntactic_behaviours entry sbmap) ->
  exists sense_id sb,
    In sense_id (set_iter (map Sense_id (LexicalEntry_senses entry)))
    /\ In sb (default [] (sbmap !! sense_id))
    /\ x = _build_syntactic_behaviour_1_0 (sb_frame sb)
             (sorted (remove_dups
                        (filter (fun s => s ∈ sb_senses sb)
                                (map Sense_id (LexicalEntry_senses entry))))).
Proof.
  unfold entry_syntactic_behaviours.
  intros (sense_id & Hid & Hx)%in_flat_map.
  apply in_map_iff in Hx as (sb & <- & Hsb). eauto.
Qed.

Lemma build_sbmap_length sbs sid :
  length (default [] (build_sbmap "1.0" sbs !! sid))
  = sum_list_with
      (fun sb => length (filter (fun s => s = sid) (sb_senses sb))) sbs.
Proof.
  rewrite build_sbmap_lookup, length_flat_map.
  induction sbs as [|sb sbs IH]; [reflexivity|].
  simpl. rewrite length_replicate, IH. reflexivity.
Qed.

(** The number of elements emitted for an entry: one for every sense id
    of the entry and every time a frame names it. *)
Lemma entry_syntactic_behaviours_length entry sbs :
  length (entry_syntactic_behaviours entry (build_sbmap "1.0" sbs))
  = sum_list_with
      (fun sense_id =>
         sum_list_with
           (fun sb => length (filter (fun s => s = sense_id) (sb_senses sb)))
           sbs)
      (set_iter (map Sense_id (LexicalEntry_senses entry))).
Proof.
  unfold entry_syntactic_behaviours. rewrite length_flat_map.
  generalize (set_iter (map Sense_id (LexicalEntry_senses entry))).
  intros l. induction l as [|sid l IH]; [reflexivity|].
  simpl. rewrite IH, length_map, build_sbmap_length. reflexivity.
Qed.

(** * Further properties of the module *)

(** *** What [dump] answers *)

Lemma traverse_Ok {A B} (f : A -> result B) (g : A -> B) l :
  Forall (fun x => f x = Ok (g x)) l -> traverse f l = Ok (map g l).
Proof.
  induction 1 as [|x l Hx _ IH]; simpl; [reflexivity|].
  rewrite Hx, IH. reflexivity.
Qed.

Lemma traverse_inv {A B} (f : A -> result B) l ys :
  traverse f l = Ok ys -> Forall2 (fun x y => f x = Ok y) l ys.
Proof.
  revert ys. induction l as [|x l IH]; simpl; intros ys H.
  - injection H as <-. constructor.
  - destruct (f x) as [y|] eqn:Hx; [|discriminate]. simpl in H.
    destruct (traverse f l) as [ys'|]; [|discriminate]. simpl in H.
    injection H as <-. constructor; auto.
Qed.

Lemma traverse_raises {A B} (f : A -> result B) e l :
  Forall (fun x => (exists y, f x = Ok y) \/ f x = Raise e) l ->
  Exists (fun x => f x = Raise e) l ->
  traverse f l = Raise e.
Proof.
  induction 1 as [|x l Hx Hl IH]; intros Hex; [inversion Hex|].
  simpl. destruct Hx as [[y Hy]|Hr].
  - rewrite Hy. simpl. inversion Hex as [? ? Hh|? ? Ht]; subst.
    + congruence.
    + rewrite (IH Ht). reflexivity.
  - rewrite Hr. reflexivity.
Qed.

Lemma traverse_total {A B} (f : A -> result B) l :
  Forall (fun x => exists y, f x = Ok y) l -> exists ys, traverse f l = Ok ys.
Proof.
  induction 1 as [|x l [y Hy] _ [ys IH]]; simpl; [eauto|].
  rewrite Hy, IH. simpl. eauto.
Qed.

Lemma dump_lexical_entry_cases entry sbmap version :
  match LexicalEntry_lemma entry with
  | Some _ => exists t, _dump_lexical_entry entry sbmap version = Ok t
  | None => _dump_lexical_entry entry sbmap version = Raise AttributeError
  end.
Proof.
  unfold _dump_lexical_entry, _build_lemma.
  destruct (LexicalEntry_lemma entry); simpl; eauto.
Qed.

Lemma dump_lexicon_cases lexicon version :
  (Forall (fun entry => is_Some (LexicalEntry_lemma entry))
          (Lexicon_lexical_entries lexicon) ->
   exists t, _dump_lexicon lexicon version = Ok t)
  /\ (Exists (fun entry => LexicalEntry_lemma entry = None)
             (Lexicon_lexical_entries lexicon) ->
      _dump_lexicon lexicon version = Raise AttributeError).
Proof.
  unfold _dump_lexicon.
  set (sbmap := build_sbmap version _).
  split; intros H.
  - destruct (traverse_total
                (fun entry => _dump_lexical_entry entry sbmap version)
                (Lexicon_lexical_entries lexicon)) as [ys Hys].
    { eapply Forall_impl; [exact H|]. intros entry [l Hl].
      pose proof (dump_lexical_entry_cases entry sbmap version) as Hc.
      rewrite Hl in Hc. exact Hc. }
    rewrite Hys. simpl. eauto.
  - rewrite (traverse_raises _ AttributeError); [reflexivity| |].
    + apply Forall_forall. intros entry _.
      pose proof (dump_lexical_entry_cases entry sbmap version) as Hc.
      destruct (LexicalEntry_lemma entry); auto.
    + eapply Exists_impl; [exact H|]. intros entry Hl.
      pose proof (dump_lexical_entry_cases entry sbmap version) as Hc.
      rewrite Hl in Hc. exact Hc.
Qed.

Lemma not_has_lemmas lexicons :
  ~ has_lemmas lexicons ->
  Exists (fun lexicon =>
            Exists (fun entry => LexicalEntry_lemma entry = None)
                   (Lexicon_lexical_entries lexicon)) lexicons.
Proof.
  intros H. unfold has_lemmas in H.
  apply not_Forall_Exists in H; [|intros x; apply Forall_dec; intros y; apply _].
  eapply Exists_impl; [exact H|]. intros lexicon Hn. cbv beta in Hn.
  apply not_Forall_Exists in Hn; [|intros y; apply _].
  eapply Exists_impl; [exact Hn|]. intros entry He. cbv beta in He.
  destruct (LexicalEntry_lemma entry) eqn:E; [|reflexivity].
  exfalso. apply He. rewrite E. eauto.
Qed.

Lemma known_version version :
  is_Some (dget version _SCHEMAS) ->
  exists schema dc_uri,
    dindex version _SCHEMAS = Ok schema /\ dindex version _DC_URIS = Ok dc_uri.
Proof.
  intros [schema Hs]. unfold dindex. rewrite Hs. simpl in Hs |- *.
  destruct (String.eqb version "1.0"); [eauto|].
  destruct (String.eqb version "1.1"); [eauto|discriminate].
Qed.

Lemma dump_refuses lexicons version :
  is_Some (dget version _SCHEMAS) ->
  Exists (fun lexicon =>
            Exists (fun entry => LexicalEntry_lemma entry = None)
                   (Lexicon_lexical_entries lexicon)) lexicons ->
  dump lexicons version = Raise AttributeError.
Proof.
  intros Hs Hl. unfold dump.
  destruct (known_version _ Hs) as (schema & dc_uri & -> & ->). simpl.
  rewrite (traverse_raises _ AttributeError); [reflexivity| |].
  - apply Forall_forall. intros lexicon _.
    destruct (dump_lexicon_cases lexicon version) as [H1 H2].
    destruct (Forall_Exists_dec
                (fun entry => is_Some (LexicalEntry_lemma entry))
                (fun entry => LexicalEntry_lemma entry = None)
                (fun entry =>
                   match LexicalEntry_lemma entry as o
                         return {is_Some o} + {o = None} with
                   | Some l => left (ex_intro _ l eq_refl)
                   | None => right eq_refl
                   end)
                (Lexicon_lexical_entries lexicon)) as [Ha|He]; auto.
  - eapply Exists_impl; [exact Hl|]. intros lexicon He.
    apply (dump_lexicon_cases lexicon version). exact He.
Qed.

Lemma dump_writes lexicons version :
  is_Some (dget version _SCHEMAS) -> has_lemmas lexicons ->
  exists d, dump lexicons version = Ok d.
Proof.
  intros Hs Hl. unfold dump.
  destruct (known_version _ Hs) as (schema & dc_uri & -> & ->). simpl.
  destruct (traverse_total (fun lexicon => _dump_lexicon lexicon version)
              lexicons) as [ys Hys].
  { eapply Forall_impl; [exact Hl|]. intros lexicon Hall.
    apply (dump_lexicon_cases lexicon version). exact Hall. }
  rewrite Hys. simpl. eauto.
Qed.

(** X1.  [dump] raises [KeyError] on a version outside [_SCHEMAS]; at a
    known version it raises [AttributeError] as soon as some entry of the
    graph has no lemma, which is the case of every external entry, and
    writes the document otherwise. *)
Theorem dump_outcome lexicons version :
  (dget version _SCHEMAS = None ->
   dump lexicons version = Raise (KeyError version))
  /\ (is_Some (dget version _SCHEMAS) -> ~ has_lemmas lexicons ->
      dump lexicons version = Raise AttributeError)
  /\ (is_Some (dget version _SCHEMAS) -> has_lemmas lexicons ->
      exists d, dump lexicons version = Ok d).
Proof.
  split; [|split].
  - intros Hn. unfold dump, dindex at 1. rewrite Hn. reflexivity.
  - intros Hs Hl. apply dump_refuses; [exact Hs|]. by apply not_has_lemmas.
  - apply dump_writes.
Qed.

(** *** The file [dump] writes, seen by the header reader *)

Lemma dump_inv lexicons version d :
  dump lexicons version = Ok d ->
  exists schema dc_uri lexs,
    dget version _SCHEMAS = Some schema
    /\ dget version _DC_URIS = Some dc_uri
    /\ traverse (fun lexicon => _dump_lexicon lexicon version) lexicons = Ok lexs
    /\ d = mkDocument _XMLDECL (_DOCTYPE schema)
             (elem "LexicalResource" [("xmlns:dc", dc_uri)] None lexs).
Proof.
  unfold dump, dindex. intros H.
  destruct (dget version _SCHEMAS) as [schema|]; [|discriminate].
  destruct (dget version _DC_URIS) as [dc_uri|]; [|discriminate].
  simpl in H.
  destruct (traverse _ lexicons) as [lexs|]; [|discriminate].
  simpl in H. injection H as <-. eauto 10.
Qed.

Lemma schema_cases version schema :
  dget version _SCHEMAS = Some schema ->
  (version = "1.0"
   /\ schema = "http://globalwordnet.github.io/schemas/WN-LMF-1.0.dtd")
  \/ (version = "1.1"
      /\ schema = "http://globalwordnet.github.io/schemas/WN-LMF-1.1.dtd").
Proof.
  simpl. destruct (String.eqb_spec version "1.0") as [->|_].
  - intros [= <-]. auto.
  - destruct (String.eqb_spec version "1.1") as [->|_]; [|discriminate].
    intros [= <-]. auto.
Qed.

(** X2.  Whatever [dump] writes at a version, [_read_header] reads that
    version back from it, without looking at what follows the second
    line; [is_lmf] answers [True] on such a file once [is_xml] does. *)
Theorem dump_header lexicons version d rest :
  dump lexicons version = Ok d ->
  _read_header (file_head d +:+ rest) = Ok version
  /\ forall source,
       is_xml source = true -> fs source = Some (file_head d +:+ rest) ->
       is_lmf source = Ok true.
Proof.
  intros H. apply dump_inv in H as (schema & dc_uri & lexs & Hs & _ & _ & ->).
  assert (Hh : _read_header
                 (file_head (mkDocument _XMLDECL (_DOCTYPE schema)
                    (elem "LexicalResource" [("xmlns:dc", dc_uri)] None lexs))
                  +:+ rest) = Ok version).
  { destruct (schema_cases _ _ Hs) as [[-> ->]|[-> ->]]; vm_compute; reflexivity. }
  split; [exact Hh|].
  intros source Hx Hf. unfold is_lmf, open_rb. rewrite Hx, Hf. simpl.
  rewrite Hh. reflexivity.
Qed.

(** *** The elements [dump] writes *)

Lemma tags_in_elem allowed tag_ attrib_ text_ cs :
  str_in tag_ allowed = true -> Forall (tags_in allowed) cs ->
  tags_in allowed (elem tag_ attrib_ text_ cs).
Proof.
  intros Ht Hcs. unfold tags_in, elem. simpl. constructor; [exact Ht|].
  apply Forall_concat. apply Forall_map. exact Hcs.
Qed.

Lemma tags_in_leaves allowed {A} (f : A -> xml) l :
  (forall x, tags_in allowed (f x)) -> Forall (tags_in allowed) (map f l).
Proof. intros H. apply Forall_map. apply Forall_forall. intros x _. apply H. Qed.

Lemma tags_in_mono allowed allowed' t :
  (forall x, str_in x allowed = true -> str_in x allowed' = true) ->
  tags_in allowed t -> tags_in allowed' t.
Proof.
  intros Hm H. eapply Forall_impl; [exact H|]. intros e He. apply Hm, He.
Qed.

Ltac tags_tac :=
  repeat match goal with
  | |- tags_in _ (elem _ _ _ _) => apply tags_in_elem; [reflexivity|]
  | |- Forall _ [] => apply Forall_nil_2
  | |- Forall _ (_ ++ _) => apply Forall_app_2
  | |- Forall _ (_ :: _) => apply Forall_cons_2
  | |- Forall _ (map _ _) => apply tags_in_leaves; intros ?
  end.

Lemma tags_build_tag t : tags_in written_tags (_build_tag t).
Proof. unfold _build_tag. tags_tac. Qed.

Lemma tags_build_form f : tags_in written_tags (_build_form f).
Proof. unfold _build_form. tags_tac. apply tags_build_tag. Qed.

Lemma tags_build_lemma l t :
  _build_lemma l = Ok t -> tags_in written_tags t.
Proof.
  unfold _build_lemma. destruct l as [l|]; [|discriminate].
  intros [= <-]. tags_tac. apply tags_build_tag.
Qed.

Lemma tags_build_sense s : tags_in written_tags (_build_sense s).
Proof.
  unfold _build_sense.
  tags_tac; [unfold _build_sense_relation|unfold _build_example|unfold _build_count];
    tags_tac.
Qed.

Lemma tags_dump_synset s version : tags_in written_tags (_dump_synset s version).
Proof.
  unfold _dump_synset. tags_tac.
  - unfold _build_definition. tags_tac.
  - destruct (Synset_ili_definition s); tags_tac.
    unfold _build_ili_definition. tags_tac.
  - unfold _build_synset_relation. tags_tac.
  - unfold _build_example. tags_tac.
Qed.

Lemma written_tags_at version x :
  str_in x written_tags = true -> str_in x (tags_at version) = true.
Proof.
  unfold tags_at. destruct (String.eqb version "1.0"); [|auto].
  unfold str_in. rewrite existsb_app. intros ->. reflexivity.
Qed.

Lemma tags_dump_lexical_entry entry sbmap version t :
  _dump_lexical_entry entry sbmap version = Ok t -> tags_in (tags_at version) t.
Proof.
  unfold _dump_lexical_entry.
  destruct (_build_lemma (LexicalEntry_lemma entry)) as [lemma|] eqn:Hl;
    [|discriminate].
  simpl. intros [= <-].
  assert (Hbase : Forall (tags_in (tags_at version))
            ([lemma] ++ map _build_form (LexicalEntry_forms entry)
             ++ map _build_sense (LexicalEntry_senses entry))).
  { eapply Forall_impl.
    - tags_tac; [eapply tags_build_lemma; exact Hl
                |apply tags_build_form|apply tags_build_sense].
    - intros t. apply tags_in_mono, written_tags_at. }
  apply tags_in_elem; [apply written_tags_at; reflexivity|].
  unfold tags_at in *. destruct (String.eqb version "1.0"); [|exact Hbase].
  refine (Forall_app_2 _ _ _ Hbase _).
  unfold entry_syntactic_behaviours. apply Forall_forall. intros x Hx.
  apply list_elem_of_In, in_flat_map in Hx as (sid & _ & Hx).
  apply in_map_iff in Hx as (sb & <- & _).
  unfold _build_syntactic_behaviour_1_0. tags_tac.
Qed.

Lemma tags_dump_lexicon lexicon version t :
  _dump_lexicon lexicon version = Ok t -> tags_in (tags_at version) t.
Proof.
  unfold _dump_lexicon.
  destruct (traverse _ (Lexicon_lexical_entries lexicon)) as [entries|] eqn:He;
    [|discriminate].
  simpl. intros [= <-].
  apply tags_in_elem; [apply written_tags_at; reflexivity|].
  apply Forall_app_2.
  - apply traverse_inv in He. clear -He.
    induction He as [|entry t l ts Ht _ IH]; constructor; [|exact IH].
    eapply tags_dump_lexical_entry. exact Ht.
  - apply tags_in_leaves. intros s.
    eapply tags_in_mono; [apply written_tags_at|apply tags_dump_synset].
Qed.

(** X3.  Every element [dump] writes has one of the fourteen tags of
    [written_tags], or is a [SyntacticBehaviour] when the version is 1.0.
    So it never writes a [LexiconExtension], an [Extends], a [Requires]
    or an external element, and at version 1.1 the syntactic behaviours
    of the graph are not written at all. *)
Theorem dump_written_tags lexicons version d :
  dump lexicons version = Ok d ->
  tags_in (tags_at version) (doc_root d)
  /\ (version <> "1.0" -> dumped_elements "SyntacticBehaviour" d = [])
  /\ Forall (fun name => dumped_elements name d = [])
       ["LexiconExtension"; "Extends"; "Requires"; "ExternalLexicalEntry";
        "ExternalSense"; "ExternalSynset"].
Proof.
  intros H. apply dump_inv in H as (schema & dc_uri & lexs & _ & _ & Ht & ->).
  assert (Hall : tags_in (tags_at version)
            (elem "LexicalResource" [("xmlns:dc", dc_uri)] None lexs)).
  { apply tags_in_elem; [apply written_tags_at; reflexivity|].
    apply traverse_inv in Ht. clear -Ht.
    induction Ht as [|lexicon t l ts Hl _ IH]; constructor; [|exact IH].
    eapply tags_dump_lexicon. exact Hl. }
  assert (Hnone : forall name, str_in name (tags_at version) = false ->
            dumped_elements name
              (mkDocument _XMLDECL (_DOCTYPE schema)
                 (elem "LexicalResource" [("xmlns:dc", dc_uri)] None lexs)) = []).
  { intros name Hn. unfold dumped_elements. cbn [doc_root].
    unfold tags_in in Hall. induction Hall as [|e es He _ IH]; [reflexivity|].
    simpl. destruct (String.eqb_spec (tag e) name) as [<-|_]; [|exact IH].
    congruence. }
  split; [exact Hall|]. split.
  - intros Hv. apply Hnone. unfold tags_at.
    destruct (String.eqb_spec version "1.0"); [contradiction|reflexivity].
  - repeat constructor; apply Hnone; unfold tags_at;
      destruct (String.eqb version "1.0"); reflexivity.
Qed.

(** *** Dictionaries: keys *)

Lemma dget_None_keys {V} x (d : dict V) :
  Forall (fun k => k <> x) (dkeys d) -> dget x d = None.
Proof.
  induction d as [|[k v] d IH]; simpl; intros H; [reflexivity|].
  apply Forall_cons_1 in H as [Hk Hd].
  destruct (String.eqb_spec x k) as [->|_]; [contradiction|]. auto.
Qed.

Lemma dset_fresh {V} k (v : V) d :
  Forall (fun k' => k' <> k) (dkeys d) -> dset k v d = d ++ [(k, v)].
Proof.
  induction d as [|[k' v'] d IH]; simpl; intros H; [reflexivity|].
  apply Forall_cons_1 in H as [Hk Hd].
  destruct (String.eqb_spec k k') as [->|_]; [contradiction|].
  rewrite IH by exact Hd. reflexivity.
Qed.

Lemma dkeys_dset {V} (P : string -> Prop) k (v : V) d :
  P k -> Forall P (dkeys d) -> Forall P (dkeys (dset k v d)).
Proof.
  intros Hk. induction d as [|[k' v'] d IH]; simpl; intros H.
  - constructor; [exact Hk|constructor].
  - apply Forall_cons_1 in H as [Hk' Hd].
    destruct (String.eqb k k'); simpl; constructor; auto.
Qed.

Lemma dkeys_dupdate {V} (P : string -> Prop) (d e : dict V) :
  Forall P (dkeys d) -> Forall P (dkeys e) -> Forall P (dkeys (dupdate d e)).
Proof.
  unfold dupdate. revert d. induction e as [|[k v] e IH]; simpl; intros d Hd He.
  - exact Hd.
  - apply Forall_cons_1 in He as [Hk He].
    apply IH; [|exact He]. apply dkeys_dset; assumption.
Qed.

Lemma dict_of_distinct_aux {V} (l : list (string * V)) acc :
  NoDup (dkeys acc ++ dkeys l) ->
  fold_left (fun d kv => dset kv.1 kv.2 d) l acc = acc ++ l.
Proof.
  revert acc. induction l as [|[k v] l IH]; simpl; intros acc Hnd.
  - by rewrite app_nil_r.
  - rewrite dset_fresh.
    + rewrite IH.
      * by rewrite <- app_assoc.
      * unfold dkeys in *. rewrite map_app, <- app_assoc. exact Hnd.
    + apply NoDup_app in Hnd as (_ & Hdis & _).
      apply Forall_forall. intros k' Hk' ->.
      apply (Hdis k Hk'). left.
Qed.

Lemma dict_of_distinct {V} (l : list (string * V)) :
  NoDup (dkeys l) -> dict_of l = l.
Proof. intros H. unfold dict_of. by rewrite dict_of_distinct_aux. Qed.

(** *** Metadata written by [_meta_dict] and read by [_get_metadata] *)

Lemma written_keys (fields : list string) (slots : Metadata) k :
  k ∈ dkeys (omap (fun kv : string * option pyval =>
                     match kv.2 with
                     | Some val => Some ("dc:" +:+ kv.1, py_str val)
                     | None => None
                     end) (zip fields slots)) ->
  exists n, n ∈ fields /\ k = "dc:" +:+ n.
Proof.
  revert slots. induction fields as [|n fields IH]; intros [|s slots]; simpl;
    try (intros H; inversion H; fail).
  destruct s as [val|]; simpl.
  - intros H. apply elem_of_cons in H as [->|H].
    + exists n. split; [left|reflexivity].
    + destruct (IH _ H) as (n' & Hn & ->). exists n'. split; [by right|reflexivity].
  - intros H. destruct (IH _ H) as (n' & Hn & ->).
    exists n'. split; [by right|reflexivity].
Qed.

Lemma written_distinct (fields : list string) (slots : Metadata) :
  NoDup fields ->
  NoDup (dkeys (omap (fun kv : string * option pyval =>
                        match kv.2 with
                        | Some val => Some ("dc:" +:+ kv.1, py_str val)
                        | None => None
                        end) (zip fields slots))).
Proof.
  intros Hnd. revert slots.
  induction Hnd as [|n fields Hn Hnd IH]; intros [|s slots]; simpl;
    try apply NoDup_nil_2.
  destruct s as [val|]; simpl; [|apply IH].
  apply NoDup_cons_2; [|apply IH].
  intros H. apply written_keys in H as (n' & Hn' & Heq).
  apply String.app_inj in Heq. subst n'. contradiction.
Qed.

Lemma meta_dict_written (slots : Metadata) :
  slots <> [] ->
  _meta_dict (Some slots)
  = omap (fun kv : string * option pyval =>
            match kv.2 with
            | Some val => Some ("dc:" +:+ kv.1, py_str val)
            | None => None
            end) (zip Metadata_fields slots).
Proof.
  intros Hne. destruct slots as [|s slots]; [contradiction|].
  unfold _meta_dict. apply dict_of_distinct, written_distinct.
  apply (bool_decide_unpack (NoDup Metadata_fields)). vm_compute. reflexivity.
Qed.

Lemma meta_dict_keys m :
  Forall (fun k => exists n, k = "dc:" +:+ n) (dkeys (_meta_dict m)).
Proof.
  destruct m as [[|s slots]|]; try apply Forall_nil_2.
  rewrite meta_dict_written by discriminate.
  apply Forall_forall. intros k Hk.
  apply written_keys in Hk as (n & _ & ->). eauto.
Qed.

Lemma expand_name_dc uri n : expand_name uri ("dc:" +:+ n) = qname uri n.
Proof.
  unfold expand_name.
  replace (String.prefix "dc:" ("dc:" +:+ n)) with true
    by (destruct n; vm_compute; reflexivity).
  reflexivity.
Qed.

Lemma expand_written uri (fields : list string) (slots : Metadata) :
  expand_attrib uri
    (omap (fun kv : string * option pyval =>
             match kv.2 with
             | Some val => Some ("dc:" +:+ kv.1, py_str val)
             | None => None
             end) (zip fields slots))
  = omap (fun kv : string * option pyval =>
            (fun val => (qname uri kv.1, py_str val)) <$> kv.2)
         (zip fields slots).
Proof.
  unfold expand_attrib. revert slots.
  induction fields as [|n fields IH]; intros [|s slots]; simpl; try reflexivity.
  destruct s as [val|]; simpl; [|apply IH].
  rewrite IH, expand_name_dc. reflexivity.
Qed.

Lemma qname_inj uri : Inj eq eq (qname uri).
Proof.
  intros n n' H. unfold qname in H.
  apply String.app_inj, String.app_inj, String.app_inj in H. exact H.
Qed.

Lemma reread_keys uri (fields : list string) (slots : Metadata) k :
  k ∈ dkeys (omap (fun kv : string * option pyval =>
                     (fun val => (qname uri kv.1, py_str val)) <$> kv.2)
                  (zip fields slots)) ->
  exists n, n ∈ fields /\ k = qname uri n.
Proof.
  revert slots. induction fields as [|n fields IH]; intros [|s slots]; simpl;
    try (intros H; inversion H; fail).
  destruct s as [val|]; simpl.
  - intros H. apply elem_of_cons in H as [->|H].
    + exists n. split; [left|reflexivity].
    + destruct (IH _ H) as (n' & Hn & ->). exists n'. split; [by right|reflexivity].
  - intros H. destruct (IH _ H) as (n' & Hn & ->).
    exists n'. split; [by right|reflexivity].
Qed.

Lemma reread_slots uri (fields : list string) (slots : Metadata) :
  NoDup fields -> length fields = length slots ->
  map (fun n => dget (qname uri n)
                  (omap (fun kv : string * option pyval =>
                           (fun val => (qname uri kv.1, py_str val)) <$> kv.2)
                        (zip fields slots)))
      fields
  = map (fmap py_str) slots.
Proof.
  intros Hnd. revert slots.
  induction Hnd as [|n fields Hn Hnd IH]; intros [|s slots] Hlen;
    try discriminate; [reflexivity|].
  injection Hlen as Hlen. specialize (IH slots Hlen).
  cbn [map zip omap list_omap]. f_equal.
  - destruct s as [val|]; cbn [fmap option_fmap option_map fst snd].
    + cbn [dget].
      destruct (String.eqb_spec (qname uri n) (qname uri n)); [reflexivity|congruence].
    + apply dget_None_keys, Forall_forall. intros k Hk ->.
      apply reread_keys in Hk as (n' & Hn' & Heq).
      apply qname_inj in Heq. subst n'. contradiction.
  - rewrite <- IH. apply map_ext_in. intros n' Hn'.
    destruct s as [val|]; cbn [fmap option_fmap option_map fst snd]; [|reflexivity].
    cbn [dget]. destruct (String.eqb_spec (qname uri n') (qname uri n)) as [E|_];
      [|reflexivity].
    apply qname_inj in E. subst n'. apply list_elem_of_In in Hn'. contradiction.
Qed.

Lemma dget_app {V} k (d e : dict V) :
  dget k (d ++ e) = match dget k d with Some v => Some v | None => dget k e end.
Proof.
  induction d as [|[k' v'] d IH]; simpl; [reflexivity|].
  destruct (String.eqb k k'); [reflexivity|exact IH].
Qed.

Lemma expand_attrib_app uri d e :
  expand_attrib uri (d ++ e) = expand_attrib uri d ++ expand_attrib uri e.
Proof. unfold expand_attrib. by rewrite List.filter_app, map_app. Qed.

Lemma plain_cases (P : string -> Prop) k :
  Forall P plain_names -> str_in k plain_names = true -> P k.
Proof.
  intros HP Hk. apply str_in_true in Hk.
  rewrite Forall_forall in HP. apply HP, list_elem_of_In, Hk.
Qed.

Lemma plain_expand_name uri k :
  str_in k plain_names = true -> expand_name uri k = k.
Proof.
  apply (plain_cases (fun k => expand_name uri k = k)).
  repeat constructor.
Qed.

Lemma plain_not_qname uri n k :
  str_in k plain_names = true -> k <> qname uri n.
Proof.
  apply (plain_cases (fun k => k <> qname uri n)).
  repeat (constructor; [discriminate|]). constructor.
Qed.

Lemma plain_not_meta k :
  str_in k plain_names = true ->
  k <> "status" /\ k <> "note" /\ k <> "confidenceScore".
Proof.
  apply (plain_cases
           (fun k => k <> "status" /\ k <> "note" /\ k <> "confidenceScore")).
  repeat (constructor; [repeat split; discriminate|]). constructor.
Qed.

Lemma plain_expand uri d : plain d -> plain (expand_attrib uri d).
Proof.
  unfold plain, expand_attrib, dkeys.
  induction d as [|[k v] d IH]; simpl; intros H; [constructor|].
  apply Forall_cons_1 in H as [Hk Hd].
  destruct (negb (String.eqb k "xmlns:dc")); simpl; [|auto].
  constructor; [|auto]. by rewrite plain_expand_name.
Qed.

Lemma plain_dget_qname uri n d : plain d -> dget (qname uri n) d = None.
Proof.
  intros H. apply dget_None_keys. eapply Forall_impl; [exact H|].
  intros k Hk. cbv beta in Hk. by apply plain_not_qname.
Qed.

Lemma plain_dget_meta d :
  plain d ->
  dget "status" d = None /\ dget "note" d = None
  /\ dget "confidenceScore" d = None.
Proof.
  intros H. repeat split; apply dget_None_keys;
    (eapply Forall_impl; [exact H|]); intros k Hk; cbv beta in Hk;
    destruct (plain_not_meta _ Hk) as (? & ? & ?); assumption.
Qed.

Lemma expand_meta_keys uri m :
  Forall (fun k => exists n, k = qname uri n)
         (dkeys (expand_attrib uri (_meta_dict m))).
Proof.
  pose proof (meta_dict_keys m) as H. revert H.
  generalize (_meta_dict m). intros d. unfold expand_attrib, dkeys.
  induction d as [|[k v] d IH]; simpl; intros H; [constructor|].
  apply Forall_cons_1 in H as [[n ->] Hd].
  destruct (negb (String.eqb ("dc:" +:+ n) "xmlns:dc")); simpl; [|auto].
  constructor; [|auto]. exists n. apply expand_name_dc.
Qed.

Lemma framed_dget_qname uri pre post m n :
  plain pre -> plain post ->
  dget (qname uri n) (expand_attrib uri (pre ++ _meta_dict m ++ post))
  = dget (qname uri n) (expand_attrib uri (_meta_dict m)).
Proof.
  intros Hpre Hpost. rewrite !expand_attrib_app, !dget_app.
  rewrite (plain_dget_qname uri n _ (plain_expand uri _ Hpre)).
  rewrite (plain_dget_qname uri n _ (plain_expand uri _ Hpost)).
  destruct (dget _ _); reflexivity.
Qed.

Lemma framed_dget_meta uri pre post m k :
  plain pre -> plain post ->
  k = "status" \/ k = "note" \/ k = "confidenceScore" ->
  dget k (expand_attrib uri (pre ++ _meta_dict m ++ post)) = None.
Proof.
  intros Hpre Hpost Hk. rewrite !expand_attrib_app, !dget_app.
  destruct (plain_dget_meta _ (plain_expand uri _ Hpre)) as (A1 & A2 & A3).
  destruct (plain_dget_meta _ (plain_expand uri _ Hpost)) as (B1 & B2 & B3).
  assert (Hmd : dget k (expand_attrib uri (_meta_dict m)) = None).
  { apply dget_None_keys. eapply Forall_impl; [apply expand_meta_keys|].
    intros k' [n ->] E. unfold qname in E.
    destruct Hk as [->|[->| ->]]; discriminate E. }
  rewrite Hmd. destruct Hk as [->|[->| ->]]; [by rewrite A1|by rewrite A2|by rewrite A3].
Qed.

Lemma reread_str_slots (slots : Metadata) :
  Forall str_slot slots ->
  map (fun s : option pyval => PStr <$> (py_str <$> s)) slots = slots.
Proof.
  induction 1 as [|s slots Hs _ IH]; simpl; [reflexivity|].
  rewrite IH. f_equal. destruct s as [[v|f]|]; try reflexivity.
  exfalso. exact (Hs f eq_refl).
Qed.

Lemma existsb_none_tail (l : Metadata) :
  existsb (fun slot : option pyval => bool_decide (is_Some slot))
          (l ++ [None; None; None])
  = existsb (fun slot : option pyval => bool_decide (is_Some slot)) l.
Proof. rewrite existsb_app. simpl. apply orb_false_r. Qed.

Lemma get_metadata_written version uri pre post m c :
  dget version _DC_URIS = Some uri ->
  plain pre -> plain post -> loaded_metadata m ->
  _get_metadata (expand_attrib uri (pre ++ _meta_dict m ++ post)) version c
  = Done (m ≫= reread_metadata) c.
Proof.
  intros Huri Hpre Hpost Hm.
  set (attrs := expand_attrib uri (pre ++ _meta_dict m ++ post)).
  assert (Hslots : map (fun p : string * string => PStr <$> dget p.1 attrs)
                       (map (fun attr => (qname uri attr, attr)) _DC_ATTRS)
                   = match m with
                     | Some slots => take 14 slots
                     | None => replicate 14 None
                     end).
  { rewrite map_map. cbn [fst].
    erewrite map_ext; [|intros n; unfold attrs;
                        rewrite (framed_dget_qname uri pre post m n Hpre Hpost);
                        reflexivity].
    destruct m as [slots|]; [|reflexivity].
    destruct Hm as [Hlen Hstr].
    rewrite meta_dict_written by (intros ->; discriminate Hlen).
    rewrite expand_written.
    assert (Hall := reread_slots uri Metadata_fields slots).
    rewrite Hlen in Hall. specialize (Hall ltac:(apply (bool_decide_unpack (NoDup Metadata_fields)); vm_compute; reflexivity) eq_refl).
    apply (f_equal (take 14)) in Hall.
    unfold Metadata_fields in Hall at 2. rewrite map_app in Hall.
    rewrite (take_app_length' _ _ 14) in Hall by reflexivity.
    rewrite <- (reread_str_slots (take 14 slots) Hstr).
    rewrite <- map_map with (f := fmap py_str) (g := fmap PStr).
    rewrite <- map_map with (g := fmap PStr). f_equal.
    rewrite Hall. symmetry. apply fmap_take. }
  unfold _get_metadata.
  rewrite (bind_eq _ _ _ _ _ (lift_dindex _ _ _ c (qname_pairs _ _ Huri))).
  rewrite Hslots.
  unfold attrs.
  rewrite (framed_dget_meta uri pre post m "status" Hpre Hpost) by auto.
  rewrite (framed_dget_meta uri pre post m "note" Hpre Hpost) by auto.
  rewrite (framed_dget_meta uri pre post m "confidenceScore" Hpre Hpost) by auto.
  unfold bind, ret. cbn [fmap option_fmap option_map].
  rewrite <- !app_assoc. cbn [app].
  destruct m as [slots|]; [|reflexivity].
  rewrite existsb_none_tail. unfold mbind, option_bind, reread_metadata.
  destruct (existsb _ (take 14 slots)); reflexivity.
Qed.


(** *** Running the loader over elements the serializer built *)

Lemma reparsed_cons uri tag_ attrib_ text_ cs ts :
  reparsed uri (elem tag_ attrib_ text_ cs :: ts)
  = (start_ev, mkElement tag_ (expand_attrib uri attrib_) (parsed_text text_))
    :: reparsed uri cs
    ++ (end_ev, mkElement tag_ (expand_attrib uri attrib_) (parsed_text text_))
    :: reparsed uri ts.
Proof.
  unfold reparsed, events_of_forest, elem. cbn [map expand concat events_of tag attrib text].
  cbn [app]. f_equal. rewrite <- app_assoc. reflexivity.
Qed.

Lemma reparsed_nil uri : reparsed uri [] = [].
Proof. reflexivity. Qed.

Lemma reparsed_app uri ts1 ts2 :
  reparsed uri (ts1 ++ ts2) = reparsed uri ts1 ++ reparsed uri ts2.
Proof. unfold reparsed. rewrite map_app. apply forest_app. Qed.

Lemma reparsed_length uri ts : length ts <= length (reparsed uri ts).
Proof.
  induction ts as [|[[tg at_ tx] cs] ts IH]; [reflexivity|].
  change (Node (mkElement tg at_ tx) cs) with (elem tg at_ tx cs).
  rewrite reparsed_cons. simpl. rewrite length_app. simpl. lia.
Qed.

Lemma starts_stops T rest w :
  stops T rest -> starts [T] (mkCursor rest w) = Done false (mkCursor rest w).
Proof.
  unfold stops, starts. cbn [pending]. destruct rest as [|[[|] e] rest']; try reflexivity.
  intros Hne. cbn [is_start andb]. unfold str_in. simpl.
  destruct (String.eqb_spec (tag e) T); [contradiction|reflexivity].
Qed.

Lemma rest_ok_stops T rest : rest_ok rest -> stops T rest.
Proof.
  unfold rest_ok, stops. destruct rest as [|[k e] rest']; [auto|].
  intros ->. exact I.
Qed.

Lemma stops_map {X} T uri (build : X -> xml) xs rest :
  (forall x, tag_of (build x) <> T) -> stops T rest ->
  stops T (reparsed uri (map build xs) ++ rest).
Proof.
  intros Hb Hr. destruct xs as [|x xs]; [exact Hr|].
  cbn [map]. specialize (Hb x). destruct (build x) as [[tg at_ tx] cs].
  change (Node (mkElement tg at_ tx) cs) with (elem tg at_ tx cs).
  rewrite reparsed_cons. exact Hb.
Qed.

Lemma loop_stops {S} fuel T (k : S -> M (option S)) acc rest w :
  stops T rest ->
  while_ (Datatypes.S fuel)
    (fun acc => b <- starts [T] ;; if b then k acc else ret None) acc
    (mkCursor rest w)
  = Done acc (mkCursor rest w).
Proof.
  intros Hs. apply while_none.
  by rewrite (bind_eq _ _ _ _ _ (starts_stops _ _ _ Hs)).
Qed.

(** A loop over childless elements of one tag, each of which the body
    turns into one item *)
Lemma leaf_loop_run {X I} (T : string)
    (K : list I -> Element -> M (option (list I)))
    (build : X -> xml) (item : X -> I) uri xs :
  (forall x, In x xs -> exists attrib_ text_,
     build x = elem T attrib_ text_ []
     /\ forall acc c,
          K acc (mkElement T (expand_attrib uri attrib_) (parsed_text text_)) c
          = Done (Some (acc ++ [item x])) c) ->
  forall fuel acc rest w,
    stops T rest -> length xs < fuel ->
    while_ fuel
      (fun acc =>
         b <- starts [T] ;;
         if b then next_event ;;; (elem <- end_ [T] ;; K acc elem)
         else ret None) acc
      (mkCursor (reparsed uri (map build xs) ++ rest) w)
    = Done (acc ++ map item xs) (mkCursor rest w).
Proof.
  induction xs as [|x xs IH]; intros HK fuel acc rest w Hr Hf.
  - destruct fuel as [|fuel]; [simpl in Hf; lia|].
    cbn [map]. rewrite reparsed_nil. cbn [app]. rewrite app_nil_r.
    apply loop_stops. exact Hr.
  - destruct fuel as [|fuel]; [simpl in Hf; lia|].
    destruct (HK x (or_introl eq_refl)) as (attrib_ & text_ & Hb & Hk).
    cbn [map]. rewrite Hb, reparsed_cons, reparsed_nil. cbn [app].
    assert (Hin : str_in T [T] = true).
    { unfold str_in. simpl. by rewrite String.eqb_refl. }
    erewrite while_some; cycle 1.
    { cbv beta. step ltac:(eapply starts_at; reflexivity).
      cbn [is_start andb tag]. rewrite Hin. cbv iota.
      step ltac:(unfold next_event; reflexivity).
      step ltac:(apply end_at; [reflexivity|exact Hin]).
      apply Hk. }
    cbn [pending log].
    rewrite IH; [|intros; apply HK; by right|exact Hr|simpl in Hf; lia].
    cbn [map]. rewrite <- app_assoc. reflexivity.
Qed.

(** *** Tags and forms *)

Lemma load_tags_reread uri fuel tags rest w :
  stops "Tag" rest -> length tags < fuel ->
  _load_tags fuel (mkCursor (reparsed uri (map _build_tag tags) ++ rest) w)
  = Done (map reread_tag tags) (mkCursor rest w).
Proof.
  intros Hr Hf. unfold _load_tags.
  apply (leaf_loop_run "Tag" _ _build_tag reread_tag uri tags);
    [|exact Hr|exact Hf].
  intros [txt cat] _. eexists _, _. split; [reflexivity|].
  intros acc c. reflexivity.
Qed.

Lemma reread_option_id o : o <> Some EmptyString -> reread_option o = o.
Proof.
  unfold reread_option, otruthy, truthy. destruct o as [s|]; [|reflexivity].
  destruct (String.eqb_spec s EmptyString) as [->|_]; [congruence|reflexivity].
Qed.

Lemma build_form_attrib form :
  exists attrib_,
    _build_form form
    = elem "Form" attrib_ None (map _build_tag (Form_tags form))
    /\ forall uri,
         dget "writtenForm" (expand_attrib uri attrib_) = Some (Form_form form)
         /\ dget "script" (expand_attrib uri attrib_)
            = reread_option (Form_script form).
Proof.
  unfold _build_form, reread_option.
  destruct (otruthy (Form_script form)) eqn:Ht.
  - eexists. split; [reflexivity|]. intros uri. split; [reflexivity|].
    destruct (Form_script form); [reflexivity|discriminate].
  - eexists. split; [reflexivity|]. intros uri. split; reflexivity.
Qed.

Lemma forms_loop uri fuel forms rest w :
  stops "Form" rest ->
  Forall (fun form => length (Form_tags form) < fuel) forms ->
  forall n acc,
    length forms < n ->
    while_ n
      (fun forms0 =>
         b <- starts ["Form"] ;;
         if b then
           ev <- next_event ;;
           let attrs := attrib ev.2 in
           writtenForm <- lift (dindex "writtenForm" attrs) ;;
           tags <- _load_tags fuel ;;
           end_ ["Form"] ;;;
           ret (Some (forms0 ++ [mkForm writtenForm (dget "script" attrs) tags]))
         else ret None) acc
      (mkCursor (reparsed uri (map _build_form forms) ++ rest) w)
    = Done (acc ++ map reread_form forms) (mkCursor rest w).
Proof.
  intros Hr Hall. induction Hall as [|form forms Hform _ IH]; intros n acc Hf.
  - destruct n as [|n]; [simpl in Hf; lia|].
    cbn [map]. rewrite reparsed_nil. cbn [app]. rewrite app_nil_r.
    apply loop_stops. exact Hr.
  - destruct n as [|n]; [simpl in Hf; lia|].
    destruct (build_form_attrib form) as (attrib_ & Hb & Ha).
    destruct (Ha uri) as [Hw Hs].
    cbn [map]. rewrite Hb, reparsed_cons. cbn [app].
    erewrite while_some; cycle 1.
    { cbv beta. step ltac:(eapply starts_at; reflexivity).
      cbn [is_start andb tag]. change (str_in "Form" ["Form"]) with true.
      cbv iota.
      step ltac:(unfold next_event; reflexivity).
      cbn [snd attrib pending log].
      step ltac:(apply lift_dindex; exact Hw).
      rewrite <- app_assoc. cbn [app].
      step ltac:(apply load_tags_reread; [reflexivity|exact Hform]).
      step ltac:(apply end_at; reflexivity).
      rewrite Hs. reflexivity. }
    cbn [pending log].
    rewrite IH by (simpl in Hf; lia). rewrite <- app_assoc. reflexivity.
Qed.

Lemma reparsed_children_length uri ts n :
  length (reparsed uri ts) < n ->
  Forall (fun t => length (reparsed uri (children_of t)) < n) ts.
Proof.
  induction ts as [|[[tg at_ tx] cs] ts IH]; intros H; constructor.
  - change (Node (mkElement tg at_ tx) cs) with (elem tg at_ tx cs) in H.
    rewrite reparsed_cons in H. simpl in H. rewrite length_app in H.
    simpl. lia.
  - apply IH.
    change (Node (mkElement tg at_ tx) cs) with (elem tg at_ tx cs) in H.
    rewrite reparsed_cons in H. simpl in H. rewrite length_app in H.
    simpl in H. lia.
Qed.

(** X5.  The [Form] elements that [_build_form] writes for a list of
    forms, when their strings are of characters XML allows, are read by
    [_load_forms] as the forms [reread_form] gives: the written form as it
    was; a [script] that is the empty string as [None], since it is not
    written; the category of every tag as it was and its text as the
    parser gives it back, an empty text as [None] and every carriage
    return, with the line feed that may follow it, as one line feed.  The
    forms come back unchanged when no script and no tag text is empty and
    no tag text holds a carriage return. *)
Theorem forms_reread uri forms fuel rest w :
  forallb xml_tree (map _build_form forms) = true ->
  rest_ok rest ->
  length (reparsed uri (map _build_form forms)) < fuel ->
  _load_forms fuel
    (mkCursor (reparsed uri (map _build_form forms) ++ rest) w)
  = Done (map reread_form forms) (mkCursor rest w)
  /\ (Forall (fun form =>
                Form_script form <> Some EmptyString
                /\ Forall (fun t => parsed_text (Tag_text t) = Tag_text t)
                          (Form_tags form)) forms ->
      map reread_form forms = forms).
Proof.
  intros _ Hr Hf. split.
  - unfold _load_forms.
    apply (forms_loop uri fuel forms rest w (rest_ok_stops _ _ Hr)).
    + apply reparsed_children_length in Hf.
      rewrite Forall_map in Hf. eapply Forall_impl; [exact Hf|].
      intros form Hform. cbv beta in Hform.
      destruct (build_form_attrib form) as (attrib_ & Hb & _).
      rewrite Hb in Hform. cbn [children_of elem] in Hform.
      pose proof (reparsed_length uri (map _build_tag (Form_tags form))) as Hl.
      rewrite length_map in Hl. lia.
    + pose proof (reparsed_length uri (map _build_form forms)) as Hl.
      rewrite length_map in Hl. lia.
  - clear Hf. intros Hs.
    induction Hs as [|form forms [Hform Htags] _ IH]; [reflexivity|].
    cbn [map]. rewrite IH. f_equal. unfold reread_form.
    rewrite reread_option_id by exact Hform.
    assert (Ht : map reread_tag (Form_tags form) = Form_tags form).
    { clear -Htags. induction Htags as [|[txt cat] tags Ht _ IH]; [reflexivity|].
      cbn [map]. rewrite IH. unfold reread_tag. cbn [Tag_text Tag_category] in *.
      by rewrite Ht. }
    rewrite Ht. by destruct form.
Qed.

(** *** Examples, relations and syntactic behaviours *)

Lemma plain_not_dc k n : str_in k plain_names = true -> k <> "dc:" +:+ n.
Proof.
  apply (plain_cases (fun k => k <> "dc:" +:+ n)).
  repeat (constructor; [discriminate|]). constructor.
Qed.

Lemma dupdate_meta base m :
  plain base -> NoDup (dkeys base) ->
  dupdate base (_meta_dict m) = base ++ _meta_dict m.
Proof.
  intros Hp Hnd. unfold dupdate. apply dict_of_distinct_aux.
  apply NoDup_app. split; [exact Hnd|]. split.
  - intros k Hk Hk'.
    pose proof (meta_dict_keys m) as Hm. rewrite Forall_forall in Hm.
    destruct (Hm k Hk') as [n ->].
    unfold plain in Hp. rewrite Forall_forall in Hp.
    exact (plain_not_dc _ n (Hp _ Hk) eq_refl).
  - destruct m as [[|s slots]|]; try apply NoDup_nil_2.
    rewrite meta_dict_written by discriminate.
    apply written_distinct.
    apply (bool_decide_unpack (NoDup Metadata_fields)). vm_compute. reflexivity.
Qed.

Lemma plain_expand_id uri d : plain d -> expand_attrib uri d = d.
Proof.
  unfold plain, expand_attrib, dkeys.
  induction d as [|[k v] d IH]; simpl; intros H; [reflexivity|].
  apply Forall_cons_1 in H as [Hk Hd].
  assert (Hx : String.eqb k "xmlns:dc" = false).
  { revert Hk. apply (plain_cases (fun k => String.eqb k "xmlns:dc" = false)).
    repeat constructor. }
  rewrite Hx. simpl. rewrite (plain_expand_name uri k Hk), IH by exact Hd.
  reflexivity.
Qed.

Lemma framed_dget_plain uri pre m k :
  plain pre ->
  str_in k plain_names = true ->
  dget k (expand_attrib uri (pre ++ _meta_dict m)) = dget k pre.
Proof.
  intros Hp Hk. rewrite expand_attrib_app, dget_app, plain_expand_id by exact Hp.
  destruct (dget k pre); [reflexivity|].
  apply dget_None_keys. eapply Forall_impl; [apply expand_meta_keys|].
  intros k' [n ->] E. symmetry in E. revert E. by apply plain_not_qname.
Qed.

Lemma metadata_reread_base version uri pre m c :
  dget version _DC_URIS = Some uri ->
  plain pre -> loaded_metadata m ->
  _get_metadata (expand_attrib uri (pre ++ _meta_dict m)) version c
  = Done (m ≫= reread_metadata) c.
Proof.
  intros Hu Hp Hm.
  pose proof (get_metadata_written version uri pre [] m c Hu Hp (Forall_nil_2 _) Hm) as H.
  rewrite app_nil_r in H. exact H.
Qed.

Lemma get_metadata_plain version uri attrs c :
  dget version _DC_URIS = Some uri -> plain attrs ->
  _get_metadata attrs version c = Done None c.
Proof.
  intros Hu Hp. unfold _get_metadata.
  rewrite (bind_eq _ _ _ _ _ (lift_dindex _ _ _ c (qname_pairs _ _ Hu))).
  rewrite map_map. cbn [fst].
  erewrite map_ext; [|intros n; rewrite (plain_dget_qname uri n _ Hp); reflexivity].
  destruct (plain_dget_meta _ Hp) as (-> & -> & ->).
  reflexivity.
Qed.

Lemma examples_run version uri examples fuel rest w :
  dget version _DC_URIS = Some uri ->
  stops "Example" rest -> length examples < fuel ->
  _load_examples fuel version
    (mkCursor (reparsed uri (map _build_example examples) ++ rest) w)
  = Done (map reread_example examples) (mkCursor rest w).
Proof.
  intros Hu Hr Hf. unfold _load_examples.
  refine (leaf_loop_run "Example" _ _build_example reread_example uri examples
            _ fuel [] rest w Hr Hf).
  intros [txt lang meta] _. unfold _build_example, reread_example, reread_option.
  cbn [Example_language Example_text].
  eexists _, _. split; [reflexivity|]. intros acc c. cbn [attrib text].
  assert (Hp : plain (if otruthy lang then [("language", default "" lang)] else [])).
  { destruct (otruthy lang); repeat constructor. }
  rewrite plain_expand_id by exact Hp.
  rewrite (bind_eq _ _ _ _ _ (get_metadata_plain version uri _ c Hu Hp)).
  unfold ret. do 3 f_equal.
  destruct lang as [l|]; [|reflexivity]. simpl.
  destruct (truthy l); reflexivity.
Qed.

(** X6.  The [Example] elements that [_build_example] writes, when their
    strings are of characters XML allows, are read by [_load_examples] as
    the examples [reread_example] gives: the language as it was (an empty
    one as [None]), the text as the parser gives it back, an empty text as
    [None] and every carriage return, with the line feed that may follow
    it, as one line feed, and no metadata, whatever metadata the example
    had: [_build_example] does not write it. *)
Theorem examples_reread version uri examples fuel rest w :
  dget version _DC_URIS = Some uri ->
  forallb xml_tree (map _build_example examples) = true ->
  rest_ok rest -> length examples < fuel ->
  _load_examples fuel version
    (mkCursor (reparsed uri (map _build_example examples) ++ rest) w)
  = Done (map reread_example examples) (mkCursor rest w).
Proof.
  intros Hu _ Hr Hf. apply examples_run; [exact Hu| |exact Hf].
  by apply rest_ok_stops.
Qed.

Lemma sense_relations_run version uri relations fuel rest w :
  dget version _DC_URIS = Some uri -> stops "SenseRelation" rest ->
  Forall (fun relation =>
            (str_in (SenseRelation_type relation) SENSE_RELATIONS = true
             \/ str_in (SenseRelation_type relation) SENSE_SYNSET_RELATIONS
                = true)
            /\ loaded_metadata (SenseRelation_meta relation))
         relations ->
  length relations < fuel ->
  _load_sense_relations fuel version
    (mkCursor (reparsed uri (map _build_sense_relation relations) ++ rest) w)
  = Done (map reread_sense_relation relations) (mkCursor rest w).
Proof.
  intros Hu Hr Hall Hf.
  unfold _load_sense_relations.
  refine (leaf_loop_run "SenseRelation" _ _build_sense_relation
            reread_sense_relation uri relations _ fuel [] rest w Hr Hf).
  intros [target type meta] Hin.
  rewrite Forall_forall in Hall.
  destruct (Hall _ (proj2 (list_elem_of_In _ _) Hin)) as [Hty Hm].
  cbn [SenseRelation_type SenseRelation_meta] in Hty, Hm.
  unfold _build_sense_relation, reread_sense_relation.
  cbn [SenseRelation_target SenseRelation_type SenseRelation_meta].
  assert (Hp : plain [("target", target); ("relType", type)])
    by (repeat constructor).
  rewrite dupdate_meta;
    [|exact Hp
     |apply (bool_decide_unpack (NoDup ["target"; "relType"]));
      vm_compute; reflexivity].
  eexists _, _. split; [reflexivity|]. intros acc c. cbn [attrib text].
  step ltac:(apply lift_dindex; rewrite framed_dget_plain;
             [reflexivity|exact Hp|reflexivity]).
  assert (Hv : negb (str_in type SENSE_RELATIONS
                     || str_in type SENSE_SYNSET_RELATIONS) = false).
  { apply negb_false_iff, orb_true_iff. exact Hty. }
  rewrite Hv. cbv iota.
  step ltac:(apply lift_dindex; rewrite framed_dget_plain;
             [reflexivity|exact Hp|reflexivity]).
  step ltac:(apply metadata_reread_base; [exact Hu|exact Hp|exact Hm]).
  reflexivity.
Qed.

Lemma synset_relations_run version uri relations fuel rest w :
  dget version _DC_URIS = Some uri -> stops "SynsetRelation" rest ->
  Forall (fun relation =>
            str_in (SynsetRelation_type relation) SYNSET_RELATIONS = true
            /\ loaded_metadata (SynsetRelation_meta relation))
         relations ->
  length relations < fuel ->
  _load_synset_relations fuel version
    (mkCursor (reparsed uri (map _build_synset_relation relations) ++ rest) w)
  = Done (map reread_synset_relation relations) (mkCursor rest w).
Proof.
  intros Hu Hr Hall Hf.
  unfold _load_synset_relations.
  refine (leaf_loop_run "SynsetRelation" _ _build_synset_relation
            reread_synset_relation uri relations _ fuel [] rest w Hr Hf).
  intros [target type meta] Hin.
  rewrite Forall_forall in Hall.
  destruct (Hall _ (proj2 (list_elem_of_In _ _) Hin)) as [Hty Hm].
  cbn [SynsetRelation_type SynsetRelation_meta] in Hty, Hm.
  unfold _build_synset_relation, reread_synset_relation.
  cbn [SynsetRelation_target SynsetRelation_type SynsetRelation_meta].
  assert (Hp : plain [("target", target); ("relType", type)])
    by (repeat constructor).
  rewrite dupdate_meta;
    [|exact Hp
     |apply (bool_decide_unpack (NoDup ["target"; "relType"]));
      vm_compute; reflexivity].
  eexists _, _. split; [reflexivity|]. intros acc c. cbn [attrib text].
  step ltac:(apply lift_dindex; rewrite framed_dget_plain;
             [reflexivity|exact Hp|reflexivity]).
  rewrite Hty. cbn [negb]. cbv iota.
  step ltac:(apply lift_dindex; rewrite framed_dget_plain;
             [reflexivity|exact Hp|reflexivity]).
  step ltac:(apply metadata_reread_base; [exact Hu|exact Hp|exact Hm]).
  reflexivity.
Qed.


(** *** Definitions and counts *)

Lemma build_definition_attrib definition :
  exists base,
    plain base /\ NoDup (dkeys base)
    /\ _build_definition definition
       = elem "Definition" (dupdate base (_meta_dict (Definition_meta definition)))
              (Definition_text definition) []
    /\ dget "language" base = reread_option (Definition_language definition)
    /\ dget "sourceSense" base
       = reread_option (Definition_source_sense definition).
Proof.
  destruct definition as [txt lang ss meta].
  unfold _build_definition, reread_option.
  cbn [Definition_language Definition_source_sense Definition_meta Definition_text].
  destruct lang as [lang|], ss as [ss|]; cbn [otruthy default];
    repeat match goal with
           | |- context [truthy ?s] => destruct (truthy s)
           end;
    eexists; (split; [|split; [|split; [reflexivity|split; reflexivity]]]);
    try (repeat constructor; fail);
    match goal with
    | |- NoDup ?l => apply (bool_decide_unpack (NoDup l)); vm_compute; reflexivity
    end.
Qed.

Lemma definitions_run version uri definitions fuel rest w :
  dget version _DC_URIS = Some uri -> stops "Definition" rest ->
  Forall (fun definition => loaded_metadata (Definition_meta definition))
         definitions ->
  length definitions < fuel ->
  _load_definitions fuel version
    (mkCursor (reparsed uri (map _build_definition definitions) ++ rest) w)
  = Done (map reread_definition definitions) (mkCursor rest w).
Proof.
  intros Hu Hr Hall Hf. unfold _load_definitions.
  refine (leaf_loop_run "Definition" _ _build_definition reread_definition uri
            definitions _ fuel [] rest w Hr Hf).
  intros definition Hin. rewrite Forall_forall in Hall.
  pose proof (Hall _ (proj2 (list_elem_of_In _ _) Hin)) as Hm.
  destruct (build_definition_attrib definition)
    as (base & Hp & Hnd & Hb & Hl & Hs).
  rewrite Hb, dupdate_meta by assumption.
  eexists _, _. split; [reflexivity|]. intros acc c. cbn [attrib text].
  step ltac:(apply metadata_reread_base; [exact Hu|exact Hp|exact Hm]).
  rewrite !framed_dget_plain by (exact Hp || reflexivity).
  rewrite Hl, Hs. reflexivity.
Qed.

(** Reading a text twice changes nothing more. *)
Lemma line_ends_cons c r :
  Ascii.eqb c cr_char = false ->
  line_ends (String c r) = String c (line_ends r).
Proof. intros H. cbn [line_ends]. by rewrite H. Qed.

Lemma line_ends_twice s : line_ends (line_ends s) = line_ends s.
Proof.
  remember (String.length s) as n eqn:Hn.
  assert (Hle : String.length s <= n) by lia. clear Hn. revert s Hle.
  induction n as [|n IH]; intros [|c r] Hle; try reflexivity;
    cbn [String.length] in Hle; [lia|].
  cbn [line_ends]. destruct (Ascii.eqb c cr_char) eqn:Hc.
  - destruct r as [|c' r']; [reflexivity|].
    cbn [String.length] in Hle.
    destruct (Ascii.eqb c' nl_char); rewrite line_ends_cons by reflexivity;
      rewrite IH by (cbn [String.length]; lia); reflexivity.
  - rewrite line_ends_cons by exact Hc. rewrite IH by lia. reflexivity.
Qed.

Lemma truthy_line_ends s : truthy (line_ends s) = truthy s.
Proof.
  destruct s as [|c r]; [reflexivity|]. cbn [line_ends].
  destruct (Ascii.eqb c cr_char); [|reflexivity].
  destruct r as [|c' r']; [reflexivity|]. by destruct (Ascii.eqb c' nl_char).
Qed.

Lemma parsed_text_twice o : parsed_text (parsed_text o) = parsed_text o.
Proof.
  destruct o as [s|]; [|reflexivity]. cbn [parsed_text].
  destruct (truthy s) eqn:Ht; [|reflexivity].
  cbn [parsed_text]. by rewrite truthy_line_ends, Ht, line_ends_twice.
Qed.

Lemma reread_tag_twice t : reread_tag (reread_tag t) = reread_tag t.
Proof. unfold reread_tag. cbn. by rewrite parsed_text_twice. Qed.

(** The text of a [Count] is a decimal numeral, which the parser gives
    back as it is. *)
Lemma line_ends_uint d :
  line_ends (NilEmpty.string_of_uint d)
  = NilEmpty.string_of_uint d.
Proof. induction d; cbn; by rewrite ?IHd. Qed.

Lemma parsed_text_str_of_Z z : parsed_text (Some (str_of_Z z)) = Some (str_of_Z z).
Proof.
  unfold str_of_Z, NilZero.string_of_int, NilZero.string_of_uint.
  destruct (Z.to_int z) as [d|d]; destruct d; cbn;
    rewrite ?line_ends_uint; reflexivity.
Qed.

Lemma counts_run_back version uri counts fuel rest w :
  dget version _DC_URIS = Some uri -> stops "Count" rest ->
  Forall (fun count =>
            py_int (str_of_Z (Count_value count)) = Some (Count_value count)
            /\ loaded_metadata (Count_meta count))
         counts ->
  length counts < fuel ->
  _load_counts fuel version
    (mkCursor (reparsed uri (map _build_count counts) ++ rest) w)
  = Done (map reread_count counts) (mkCursor rest w).
Proof.
  intros Hu Hr Hall Hf. unfold _load_counts.
  refine (leaf_loop_run "Count" _ _build_count reread_count uri
            counts _ fuel [] rest w Hr Hf).
  intros [value meta] Hin. rewrite Forall_forall in Hall.
  destruct (Hall _ (proj2 (list_elem_of_In _ _) Hin)) as [Hv Hm].
  cbn [Count_value Count_meta] in Hv, Hm.
  unfold _build_count, reread_count. cbn [Count_value Count_meta].
  eexists _, _. split; [reflexivity|]. intros acc c.
  rewrite parsed_text_str_of_Z. cbn [attrib text].
  rewrite Hv.
  step ltac:(reflexivity).
  step ltac:(apply (metadata_reread_base version uri [] meta);
             [exact Hu|constructor|exact Hm]).
  reflexivity.
Qed.

Lemma ilidefinition_run version uri d rest w :
  dget version _DC_URIS = Some uri ->
  loaded_metadata (ILIDefinition_meta d) ->
  _load_ilidefinition version
    (mkCursor (reparsed uri [_build_ili_definition d] ++ rest) w)
  = Done (Some (reread_ili_definition d)) (mkCursor rest w).
Proof.
  intros Hu Hm. unfold _load_ilidefinition, _build_ili_definition.
  rewrite reparsed_cons, reparsed_nil. cbn [app].
  step ltac:(eapply starts_at; reflexivity).
  cbn [is_start andb tag]. change (str_in "ILIDefinition" ["ILIDefinition"]) with true.
  cbv iota.
  step ltac:(unfold next_event; reflexivity).
  step ltac:(apply end_at; reflexivity).
  cbn [attrib text].
  step ltac:(apply (metadata_reread_base version uri [] (ILIDefinition_meta d));
             [exact Hu|constructor|exact Hm]).
  reflexivity.
Qed.

(** *** Syntactic behaviours: [' '.join] and [str.split] *)

Lemma append_nil_r s : s +:+ "" = s.
Proof.
  induction s as [|c s IH]; [reflexivity|].
  change (String c (s +:+ "") = String c s). by f_equal.
Qed.

Lemma append_assoc s1 s2 s3 : (s1 +:+ s2) +:+ s3 = s1 +:+ (s2 +:+ s3).
Proof.
  induction s1 as [|c s1 IH]; [reflexivity|].
  change (String c ((s1 +:+ s2) +:+ s3) = String c (s1 +:+ (s2 +:+ s3))).
  by f_equal.
Qed.

Lemma append_not_empty s c r : s +:+ String c r <> "".
Proof. destruct s; discriminate. Qed.

Lemma split_ws_aux_other cur c0 r0 :
  space1 c0 = false ->
  (forall c1, space2 c0 c1 = false) ->
  (forall c1 c2, space3 c0 c1 c2 = false) ->
  split_ws_aux cur (String c0 r0) = split_ws_aux (cur +:+ String c0 "") r0.
Proof.
  intros H1 H2 H3. cbn [split_ws_aux]. cbv zeta. rewrite H1.
  destruct r0 as [|c1 [|c2 r2]]; rewrite ?H2, ?H3; reflexivity.
Qed.

Lemma split_ws_visible s cur r :
  visible s = true ->
  split_ws_aux cur (s +:+ r) = split_ws_aux (cur +:+ s) r.
Proof.
  revert cur. induction s as [|c s IH]; intros cur Hv.
  - by rewrite append_nil_r.
  - change (visible (String c s))
      with ((33 <=? nat_of_ascii c)%nat && (nat_of_ascii c <=? 126)%nat
            && visible s) in Hv.
    apply andb_true_iff in Hv as [Hc Hv].
    apply andb_true_iff in Hc as [Hlo Hhi]. apply Nat.leb_le in Hlo, Hhi.
    change (String c s +:+ r) with (String c (s +:+ r)).
    assert (Hb : forall n, 127 <= n -> byte_is n c = false).
    { intros n Hn. unfold byte_is. apply Nat.eqb_neq. lia. }
    rewrite split_ws_aux_other.
    + rewrite IH by exact Hv. rewrite append_assoc. reflexivity.
    + unfold space1, in_range. apply orb_false_iff. split;
        apply andb_false_iff; right; apply Nat.leb_gt; lia.
    + intros c1. unfold space2. by rewrite Hb by lia.
    + intros c1 c2. unfold space3. by rewrite !Hb by lia.
Qed.

Lemma split_ws_join l :
  Forall token l -> split_ws (join " " l) = l.
Proof.
  unfold split_ws. induction 1 as [|x l [Hne Hv] Hl IH]; [reflexivity|].
  destruct l as [|y l].
  - cbn [join]. rewrite <- (append_nil_r x) at 1.
    rewrite split_ws_visible by exact Hv. cbn [split_ws_aux].
    change ("" +:+ x) with x.
    destruct x; [contradiction|reflexivity].
  - change (join " " (x :: y :: l)) with (x +:+ " " +:+ join " " (y :: l)).
    rewrite split_ws_visible by exact Hv.
    change (" " +:+ join " " (y :: l)) with (String " " (join " " (y :: l))).
    cbn [split_ws_aux]. change (space1 " ") with true. cbv iota zeta.
    change ("" +:+ x) with x.
    rewrite IH. destruct x; [contradiction|reflexivity].
Qed.


(** *** Senses *)

Lemma framed_dget_plain2 uri pre post m k :
  plain pre -> plain post ->
  str_in k plain_names = true ->
  dget k (expand_attrib uri (pre ++ _meta_dict m ++ post))
  = match dget k pre with Some v => Some v | None => dget k post end.
Proof.
  intros Hp Hq Hk.
  rewrite !expand_attrib_app, !dget_app.
  rewrite (plain_expand_id uri pre Hp), (plain_expand_id uri post Hq).
  destruct (dget k pre); [reflexivity|].
  assert (Hmd : dget k (expand_attrib uri (_meta_dict m)) = None).
  { apply dget_None_keys. eapply Forall_impl; [apply expand_meta_keys|].
    intros k' [n ->] E. symmetry in E. revert E. by apply plain_not_qname. }
  by rewrite Hmd.
Qed.

Lemma dkeys_app {V} (d e : dict V) : dkeys (d ++ e) = dkeys d ++ dkeys e.
Proof. apply map_app. Qed.

Lemma build_sense_attrib sense :
  exists post,
    plain post
    /\ _build_sense sense
       = elem "Sense"
           ([("id", Sense_id sense); ("synset", Sense_synset sense)]
            ++ _meta_dict (Sense_meta sense) ++ post) None
           (map _build_sense_relation (Sense_relations sense)
            ++ map _build_example (Sense_examples sense)
            ++ map _build_count (Sense_counts sense))
    /\ default "true" (dget "lexicalized" post)
       = (if Sense_lexicalized sense then "true" else "false")
    /\ dget "adjposition" post
       = (if truthy (Sense_adjposition sense)
          then Some (Sense_adjposition sense) else None).
Proof.
  unfold _build_sense.
  assert (Hp : plain [("id", Sense_id sense); ("synset", Sense_synset sense)])
    by (repeat constructor).
  rewrite dupdate_meta;
    [|exact Hp
     |apply (bool_decide_unpack (NoDup ["id"; "synset"])); vm_compute; reflexivity].
  set (md := _meta_dict (Sense_meta sense)).
  assert (Hfresh : forall k post,
            str_in k plain_names = true -> plain post ->
            Forall (fun k' => k' <> k) (dkeys post) ->
            k <> "id" -> k <> "synset" ->
            forall v,
            dset k v ([("id", Sense_id sense); ("synset", Sense_synset sense)]
                      ++ md ++ post)
            = [("id", Sense_id sense); ("synset", Sense_synset sense)]
              ++ md ++ (post ++ [(k, v)])).
  { intros k post Hk Hpost Hne H1 H2 v. rewrite dset_fresh.
    - by rewrite <- !app_assoc.
    - rewrite !dkeys_app. apply Forall_app. split; [|apply Forall_app; split].
      + apply Forall_cons_2; [intros E; apply H1; by rewrite <- E|].
        apply Forall_cons_2; [intros E; apply H2; by rewrite <- E|].
        apply Forall_nil_2.
      + eapply Forall_impl; [apply meta_dict_keys|].
        intros k' [n ->] E. symmetry in E. revert E. by apply plain_not_dc.
      + exact Hne. }
  destruct (Sense_lexicalized sense), (truthy (Sense_adjposition sense)) eqn:Ha;
    cbn [negb].
  - exists [("adjposition", Sense_adjposition sense)].
    split; [repeat constructor|]. split; [|split; reflexivity].
    rewrite <- (app_nil_r md) at 1.
    rewrite (Hfresh "adjposition" []); try reflexivity; try discriminate;
      constructor.
  - exists []. split; [constructor|]. split; [|split; reflexivity].
    by rewrite app_nil_r.
  - exists [("lexicalized", "false"); ("adjposition", Sense_adjposition sense)].
    split; [repeat constructor|]. split; [|split; reflexivity].
    rewrite <- (app_nil_r md) at 1.
    rewrite (Hfresh "lexicalized" []); try reflexivity; try discriminate;
      [|constructor|constructor].
    rewrite (Hfresh "adjposition"); try reflexivity; try discriminate;
      repeat constructor; discriminate.
  - exists [("lexicalized", "false")].
    split; [repeat constructor|]. split; [|split; reflexivity].
    rewrite <- (app_nil_r md) at 1.
    rewrite (Hfresh "lexicalized" []); try reflexivity; try discriminate;
      constructor.
Qed.

Lemma get_literal_written value choices c :
  _get_literal (if truthy value then Some value else None) choices c
  = Done value (mkCursor (pending c) (log c ++ literal_warnings value choices)).
Proof.
  unfold literal_warnings, truthy.
  destruct (String.eqb_spec value EmptyString) as [->|_]; cbn [negb andb].
  - destruct c. cbn [_get_literal ret pending log]. by rewrite app_nil_r.
  - destruct (str_in value choices) eqn:Hin; cbn [negb].
    + rewrite get_literal_inside by exact Hin. destruct c. cbn [pending log].
      by rewrite app_nil_r.
    + by rewrite get_literal_outside.
Qed.

Lemma get_bool_written (flag : bool) c :
  _get_bool (if flag then "true" else "false") c = Done flag c.
Proof.
  rewrite get_bool_inside; destruct flag; reflexivity.
Qed.

Lemma tag_of_elem tag_ attrib_ text_ cs : tag_of (elem tag_ attrib_ text_ cs) = tag_.
Proof. reflexivity. Qed.

Lemma stops_end T e rest : stops T ((end_ev, e) :: rest).
Proof. exact I. Qed.

Lemma senses_run version uri external senses fuel rest w :
  dget version _DC_URIS = Some uri ->
  Forall loaded_sense senses ->
  stops "Sense" rest -> (external = true -> stops "ExternalSense" rest) ->
  length (reparsed uri (map _build_sense senses)) < fuel ->
  _load_senses fuel external version
    (mkCursor (reparsed uri (map _build_sense senses) ++ rest) w)
  = Done (map reread_sense senses)
      (mkCursor rest
         (w ++ flat_map (fun sense =>
                           literal_warnings (Sense_adjposition sense) ADJPOSITIONS)
                        senses)).
Proof.
  intros Hu Hall Hr Hx Hf.
  assert (Hfs : Forall (fun sense =>
                  length (Sense_relations sense) < fuel
                  /\ length (Sense_examples sense) < fuel
                  /\ length (Sense_counts sense) < fuel) senses).
  { apply reparsed_children_length in Hf. rewrite Forall_map in Hf.
    eapply Forall_impl; [exact Hf|]. intros sense Hs. cbv beta in Hs.
    destruct (build_sense_attrib sense) as (post & _ & Hb & _).
    rewrite Hb in Hs. cbn [children_of elem] in Hs.
    pose proof (reparsed_length uri
                  (map _build_sense_relation (Sense_relations sense) ++
                   map _build_example (Sense_examples sense) ++
                   map _build_count (Sense_counts sense))) as Hl.
    rewrite !length_app, !length_map in Hl. lia. }
  assert (Hn : length senses < fuel).
  { pose proof (reparsed_length uri (map _build_sense senses)) as Hl.
    rewrite length_map in Hl. lia. }
  clear Hf. unfold _load_senses.
  match goal with
  | |- while_ _ ?body _ _ = _ => set (B := body)
  end.
  replace (map reread_sense senses) with ([] ++ map reread_sense senses)
    by reflexivity.
  generalize (@nil Sense) as acc. revert w Hn. generalize fuel at 1 2 as n.
  induction senses as [|sense senses IH]; intros n w Hn acc.
  - destruct n as [|n]; [simpl in Hn; lia|].
    cbn [map flat_map]. rewrite reparsed_nil, !app_nil_r. cbn [app].
    apply while_none. subst B. cbv beta.
    step ltac:(apply starts_stops, Hr).
    destruct external; [|reflexivity].
    step ltac:(apply starts_stops, Hx; reflexivity). reflexivity.
  - destruct n as [|n]; [simpl in Hn; lia|].
    apply Forall_cons_1 in Hall as [(Hrel & Hcnt & Hmeta) Hall].
    apply Forall_cons_1 in Hfs as [(F1 & F2 & F3) Hfs].
    destruct (build_sense_attrib sense) as (post & Hpost & Hb & Hlex & Hadj).
    assert (Hp : plain [("id", Sense_id sense); ("synset", Sense_synset sense)])
      by (repeat constructor).
    set (A := [("id", Sense_id sense); ("synset", Sense_synset sense)]
              ++ _meta_dict (Sense_meta sense) ++ post) in Hb.
    cbn [map flat_map]. rewrite Hb, reparsed_cons, !reparsed_app. cbn [app].
    erewrite while_some; cycle 1.
    { subst B. cbv beta.
      step ltac:(eapply starts_at; reflexivity).
      cbn [is_start andb tag]. change (str_in "Sense" ["Sense"]) with true.
      cbv iota.
      step ltac:(apply start_at; reflexivity).
      cbn [attrib]. unfold A.
      step ltac:(apply lift_dindex; rewrite framed_dget_plain2;
                 [reflexivity|exact Hp|exact Hpost|reflexivity]).
      step ltac:(apply lift_dindex; rewrite framed_dget_plain2;
                 [reflexivity|exact Hp|exact Hpost|reflexivity]).
      rewrite <- !app_assoc.
      step ltac:(apply sense_relations_run;
                 [exact Hu
                 |apply stops_map; [intros x; discriminate|];
                  apply stops_map; [intros x; discriminate|]; apply stops_end
                 |exact Hrel|exact F1]).
      step ltac:(apply examples_run;
                 [exact Hu
                 |apply stops_map; [intros x; discriminate|]; apply stops_end
                 |exact F2]).
      step ltac:(apply counts_run_back;
                 [exact Hu|apply stops_end|exact Hcnt|exact F3]).
      rewrite !framed_dget_plain2 by (exact Hp || exact Hpost || reflexivity).
      cbn [dget String.eqb Ascii.eqb Bool.eqb].
      rewrite Hlex, Hadj.
      step ltac:(apply get_bool_written).
      step ltac:(apply get_literal_written).
      step ltac:(apply get_metadata_written; [exact Hu|exact Hp|exact Hpost|exact Hmeta]).
      step ltac:(apply end_at; reflexivity).
      reflexivity. }
    cbn [pending log].
    rewrite IH by (assumption || simpl in Hn; lia).
    rewrite <- !app_assoc. reflexivity.
Qed.

(** X9.  The [Sense] elements that [_build_sense] writes for senses as
    [load] builds them, when their strings are of characters XML allows,
    are read by [_load_senses] as the senses [reread_sense] gives, with
    their relations and counts; the examples come back without metadata
    and with their text as the parser gives it back (an empty text as
    [None], every carriage return, with the line feed that may follow it,
    as one line feed), the metadata of the rest as [_get_metadata] finds it
    again, and an external sense comes back as an ordinary one.  The reload
    warns once for every [adjposition] outside [ADJPOSITIONS]. *)
Theorem senses_reread version uri external senses fuel rest w :
  dget version _DC_URIS = Some uri ->
  forallb xml_tree (map _build_sense senses) = true ->
  Forall loaded_sense senses ->
  rest_ok rest ->
  length (reparsed uri (map _build_sense senses)) < fuel ->
  _load_senses fuel external version
    (mkCursor (reparsed uri (map _build_sense senses) ++ rest) w)
  = Done (map reread_sense senses)
      (mkCursor rest
         (w ++ flat_map (fun sense =>
                           literal_warnings (Sense_adjposition sense) ADJPOSITIONS)
                        senses)).
Proof.
  intros Hu _ Hall Hr Hf.
  apply senses_run; [exact Hu|exact Hall| | |exact Hf].
  - by apply rest_ok_stops.
  - intros _. by apply rest_ok_stops.
Qed.

(** *** Synsets *)

Lemma dset_framed (pre md post : dict string) k (v : string) :
  Forall (fun k' => k' <> k) (dkeys pre) ->
  Forall (fun k' => exists n, k' = "dc:" +:+ n) (dkeys md) ->
  str_in k plain_names = true ->
  Forall (fun k' => k' <> k) (dkeys post) ->
  dset k v (pre ++ md ++ post) = pre ++ md ++ (post ++ [(k, v)]).
Proof.
  intros Hpre Hmd Hk Hpost. rewrite dset_fresh.
  - by rewrite <- !app_assoc.
  - rewrite !dkeys_app. apply Forall_app. split; [exact Hpre|].
    apply Forall_app. split; [|exact Hpost].
    eapply Forall_impl; [exact Hmd|].
    intros k' [n ->] E. symmetry in E. revert E. by apply plain_not_dc.
Qed.

Lemma dump_synset_attrib synset version :
  exists pre post,
    plain pre /\ plain post
    /\ _dump_synset synset version
       = elem "Synset" (pre ++ _meta_dict (Synset_meta synset) ++ post) None
           (map _build_definition (Synset_definitions synset)
            ++ match Synset_ili_definition synset with
               | Some d => [_build_ili_definition d]
               | None => []
               end
            ++ map _build_synset_relation (Synset_relations synset)
            ++ map _build_example (Synset_examples synset))
    /\ (forall k,
          match dget k pre with Some v => Some v | None => dget k post end
          = if String.eqb k "id" then Some (Synset_id synset)
            else if String.eqb k "ili" then
              if truthy (Synset_ili synset) then Some (Synset_ili synset)
              else None
            else if String.eqb k "partOfSpeech" then
              if truthy (Synset_pos synset) then Some (Synset_pos synset)
              else None
            else if String.eqb k "lexicalized" then
              if Synset_lexicalized synset then None else Some "false"
            else None).
Proof.
  unfold _dump_synset.
  set (pre := if truthy (Synset_pos synset)
              then dset "partOfSpeech" (Synset_pos synset)
                     (if truthy (Synset_ili synset)
                      then dset "ili" (Synset_ili synset) [("id", Synset_id synset)]
                      else [("id", Synset_id synset)])
              else if truthy (Synset_ili synset)
                   then dset "ili" (Synset_ili synset) [("id", Synset_id synset)]
                   else [("id", Synset_id synset)]).
  assert (Hpre : plain pre /\ NoDup (dkeys pre)
                 /\ Forall (fun k' => k' <> "lexicalized") (dkeys pre)
                 /\ forall k,
                      dget k pre
                      = if String.eqb k "id" then Some (Synset_id synset)
                        else if String.eqb k "ili" then
                          if truthy (Synset_ili synset)
                          then Some (Synset_ili synset) else None
                        else if String.eqb k "partOfSpeech" then
                          if truthy (Synset_pos synset)
                          then Some (Synset_pos synset) else None
                        else None).
  { subst pre.
    destruct (truthy (Synset_pos synset)), (truthy (Synset_ili synset));
      cbn [dset String.eqb Ascii.eqb Bool.eqb];
      (split; [repeat constructor|]);
      (split; [match goal with
               | |- NoDup ?l =>
                   apply (bool_decide_unpack (NoDup l)); vm_compute; reflexivity
               end|]);
      (split; [repeat (constructor; [discriminate|]); constructor|]);
      intros k; cbn [dget];
      repeat match goal with
             | |- context [String.eqb k ?x] => destruct (String.eqb_spec k x); subst
             end; try reflexivity; try discriminate. }
  destruct Hpre as (Hp & Hnd & Hnl & Hget).
  exists pre.
  rewrite (dupdate_meta pre (Synset_meta synset) Hp Hnd).
  set (md := _meta_dict (Synset_meta synset)).
  destruct (Synset_lexicalized synset); cbn [negb].
  - exists []. split; [exact Hp|]. split; [constructor|].
    rewrite app_nil_r. split; [reflexivity|].
    intros k. rewrite Hget. cbn [dget].
    repeat match goal with
           | |- context [String.eqb ?y ?x] =>
               destruct (String.eqb_spec y x); subst
           end; try discriminate; try reflexivity;
      repeat match goal with
             | |- context [truthy ?x] => destruct (truthy x)
             end; reflexivity.
  - exists [("lexicalized", "false")]. split; [exact Hp|].
    split; [repeat constructor|].
    rewrite <- (app_nil_r md) at 1.
    rewrite (dset_framed pre md [] "lexicalized" "false" Hnl);
      [|apply meta_dict_keys|reflexivity|constructor].
    split; [reflexivity|].
    intros k. rewrite Hget. cbn [dget].
    repeat match goal with
           | |- context [String.eqb ?y ?x] =>
               destruct (String.eqb_spec y x); subst
           end; try discriminate; try reflexivity;
      repeat match goal with
             | |- context [truthy ?x] => destruct (truthy x)
             end; reflexivity.
Qed.

Lemma ilidefinition_absent version rest w :
  stops "ILIDefinition" rest ->
  _load_ilidefinition version (mkCursor rest w) = Done None (mkCursor rest w).
Proof.
  intros Hs. unfold _load_ilidefinition.
  by rewrite (bind_eq _ _ _ _ _ (starts_stops _ _ _ Hs)).
Qed.

Lemma synsets_run version uri extension synsets fuel rest w :
  dget version _DC_URIS = Some uri ->
  rest_ok rest ->
  Forall (fun synset => Synset_ili synset <> EmptyString /\ loaded_synset synset)
         synsets ->
  length (reparsed uri (map (fun synset => _dump_synset synset version)
                            synsets)) < fuel ->
  _load_synsets fuel extension version
    (mkCursor (reparsed uri (map (fun synset => _dump_synset synset version)
                                 synsets) ++ rest) w)
  = Done (map reread_synset synsets)
      (mkCursor rest
         (w ++ flat_map (fun synset =>
                           literal_warnings (Synset_pos synset) PARTS_OF_SPEECH)
                        synsets)).
Proof.
  intros Hu Hr Hall Hf.
assert (Hfs : Forall (fun synset =>
                length (Synset_definitions synset) < fuel
                /\ length (Synset_relations synset) < fuel
                /\ length (Synset_examples synset) < fuel) synsets).
{ apply reparsed_children_length in Hf. rewrite Forall_map in Hf.
  eapply Forall_impl; [exact Hf|]. intros synset Hs. cbv beta in Hs.
  destruct (dump_synset_attrib synset version)
    as (pre & post & _ & _ & Hb & _).
  rewrite Hb in Hs. cbn [children_of elem] in Hs.
  match type of Hs with
  | length (reparsed _ ?l) < _ =>
      pose proof (reparsed_length uri l) as Hl
  end.
  rewrite !length_app, !length_map in Hl. lia. }
assert (Hn : length synsets < fuel).
{ pose proof (reparsed_length uri
                (map (fun synset => _dump_synset synset version) synsets))
    as Hl.
  rewrite length_map in Hl. lia. }
clear Hf. unfold _load_synsets.
match goal with
| |- while_ _ ?body _ _ = _ => set (B := body)
end.
replace (map reread_synset synsets) with ([] ++ map reread_synset synsets)
  by reflexivity.
generalize (@nil Synset) as acc. revert w Hn. generalize fuel at 1 2 as n.
induction synsets as [|synset synsets IH]; intros n w Hn acc.
- destruct n as [|n]; [simpl in Hn; lia|].
  cbn [map flat_map]. rewrite reparsed_nil, !app_nil_r. cbn [app].
  apply while_none. subst B. cbv beta.
  step ltac:(apply starts_stops, rest_ok_stops, Hr).
  destruct extension; [|reflexivity].
  step ltac:(apply starts_stops, rest_ok_stops, Hr). reflexivity.
- destruct n as [|n]; [simpl in Hn; lia|].
  apply Forall_cons_1 in Hall
    as [(Hili & (Hdef & Hidef & Hrel & Hmeta)) Hall].
  apply Forall_cons_1 in Hfs as [(F1 & F2 & F3) Hfs].
  destruct (dump_synset_attrib synset version)
    as (pre & post & Hp & Hq & Hb & Hget).
  assert (Ht : truthy (Synset_ili synset) = true).
  { unfold truthy. by destruct (String.eqb_spec (Synset_ili synset) ""). }
  set (A := pre ++ _meta_dict (Synset_meta synset) ++ post) in Hb.
  cbn [map flat_map]. rewrite Hb, reparsed_cons, !reparsed_app. cbn [app].
  rewrite (while_some n B acc (acc ++ [reread_synset synset]) _
             (mkCursor
                (reparsed uri
                   (map (fun synset => _dump_synset synset version) synsets)
                 ++ rest)
                (w ++ literal_warnings (Synset_pos synset) PARTS_OF_SPEECH)));
    cycle 1.
  { subst B. cbv beta. unfold reread_synset.
    step ltac:(eapply starts_at; reflexivity).
    cbn [is_start andb tag]. change (str_in "Synset" ["Synset"]) with true.
    cbv iota.
    step ltac:(apply start_at; reflexivity).
    cbn [attrib]. unfold A, dindex.
    rewrite !framed_dget_plain2 by (exact Hp || exact Hq || reflexivity).
    rewrite !Hget. cbn [String.eqb Ascii.eqb Bool.eqb]. rewrite Ht.
    step ltac:(reflexivity).
    step ltac:(reflexivity).
    step ltac:(apply get_literal_written).
    cbn [pending log].
    rewrite <- !app_assoc.
    destruct (Synset_ili_definition synset) as [d|] eqn:Hd.
    + replace (default "true"
                 (if Synset_lexicalized synset then None else Some "false"))
        with (if Synset_lexicalized synset then "true" else "false")
        by (destruct (Synset_lexicalized synset); reflexivity).
      step ltac:(apply definitions_run;
                 [exact Hu
                 |refine (stops_map _ uri _build_ili_definition [d] _ _ _);
                  [intros x; discriminate|];
                  apply stops_map; [intros x; discriminate|];
                  apply stops_map; [intros x; discriminate|]; apply stops_end
                 |exact Hdef|exact F1]).
      step ltac:(apply ilidefinition_run; [exact Hu|exact Hidef]).
      step ltac:(apply synset_relations_run;
                 [exact Hu
                 |apply stops_map; [intros x; discriminate|]; apply stops_end
                 |exact Hrel|exact F2]).
      step ltac:(apply examples_run; [exact Hu|apply stops_end|exact F3]).
      step ltac:(apply get_bool_written).
      step ltac:(apply get_metadata_written; [exact Hu|exact Hp|exact Hq|exact Hmeta]).
      step ltac:(apply end_at; reflexivity).
      reflexivity.
    + replace (default "true"
                 (if Synset_lexicalized synset then None else Some "false"))
        with (if Synset_lexicalized synset then "true" else "false")
        by (destruct (Synset_lexicalized synset); reflexivity).
      rewrite reparsed_nil. cbn [app].
      step ltac:(apply definitions_run;
                 [exact Hu
                 |apply stops_map; [intros x; discriminate|];
                  apply stops_map; [intros x; discriminate|]; apply stops_end
                 |exact Hdef|exact F1]).
      step ltac:(apply ilidefinition_absent;
                 apply stops_map; [intros x; discriminate|];
                 apply stops_map; [intros x; discriminate|]; apply stops_end).
      step ltac:(apply synset_relations_run;
                 [exact Hu
                 |apply stops_map; [intros x; discriminate|]; apply stops_end
                 |exact Hrel|exact F2]).
      step ltac:(apply examples_run; [exact Hu|apply stops_end|exact F3]).
      step ltac:(apply get_bool_written).
      step ltac:(apply get_metadata_written; [exact Hu|exact Hp|exact Hq|exact Hmeta]).
      step ltac:(apply end_at; reflexivity).
      reflexivity. }
  rewrite IH by (assumption || simpl in Hn; lia).
  rewrite <- !app_assoc. reflexivity.
Qed.

(** X10.  The [Synset] elements that [_dump_synset] writes for synsets
    as [load] builds them, when their strings are of characters XML
    allows, are read back by [_load_synsets] when every [ili] is
    non-empty: the synsets come back as [reread_synset] gives them, with
    the examples stripped of their metadata, the texts of the definitions,
    of the ILI definition and of the examples as the parser gives them back
    (an empty text as [None], every carriage return, with the line feed
    that may follow it, as one line feed) and the other metadata as
    [_get_metadata] finds it again, with one warning for every
    [partOfSpeech] outside [PARTS_OF_SPEECH].  A synset whose [ili] is the
    empty string, as every external synset has it, is written without the
    attribute, and reading it raises [KeyError]. *)
Theorem synsets_reread version uri extension fuel rest w :
  dget version _DC_URIS = Some uri ->
  rest_ok rest ->
  (forall synsets,
     forallb xml_tree (map (fun synset => _dump_synset synset version) synsets)
     = true ->
     Forall (fun synset => Synset_ili synset <> EmptyString
                           /\ loaded_synset synset)
            synsets ->
     length (reparsed uri (map (fun synset => _dump_synset synset version)
                               synsets)) < fuel ->
     _load_synsets fuel extension version
       (mkCursor (reparsed uri (map (fun synset => _dump_synset synset version)
                                    synsets) ++ rest) w)
     = Done (map reread_synset synsets)
         (mkCursor rest
            (w ++ flat_map (fun synset =>
                              literal_warnings (Synset_pos synset) PARTS_OF_SPEECH)
                           synsets)))
  /\ (forall synset ts,
     forallb xml_tree (_dump_synset synset version :: ts) = true ->
     Synset_ili synset = EmptyString -> 0 < fuel ->
     _load_synsets fuel extension version
       (mkCursor (reparsed uri (_dump_synset synset version :: ts) ++ rest) w)
     = Abort (KeyError "ili")).
Proof.
  intros Hu Hr. split.
  - intros synsets _ Hall Hf. apply synsets_run; [exact Hu|exact Hr| |exact Hf].
    exact Hall.
  - intros synset ts _ Hili Hf. destruct fuel as [|n]; [lia|].
    destruct (dump_synset_attrib synset version)
      as (pre & post & Hp & Hq & Hb & Hget).
    set (A := pre ++ _meta_dict (Synset_meta synset) ++ post) in Hb.
    rewrite Hb, reparsed_cons. cbn [app].
    unfold _load_synsets. apply while_abort.
    step ltac:(eapply starts_at; reflexivity).
    cbn [is_start andb tag]. change (str_in "Synset" ["Synset"]) with true.
    cbv iota.
    step ltac:(apply start_at; reflexivity).
    cbn [attrib]. unfold A, dindex.
    rewrite !framed_dget_plain2 by (exact Hp || exact Hq || reflexivity).
    rewrite !Hget. cbn [String.eqb Ascii.eqb Bool.eqb]. rewrite Hili.
    step ltac:(reflexivity).
    reflexivity.
Qed.

(** *** What every loaded graph satisfies *)

Lemma yields_ret {A} (a : A) (P : A -> Prop) : P a -> yields (ret a) P.
Proof. intros H c a' c' [= <- _]. exact H. Qed.

Lemma yields_raise {A} e (P : A -> Prop) : yields (raise e) P.
Proof. intros c a c' H. discriminate H. Qed.

Lemma yields_bind {A B} (m : M A) (k : A -> M B) (P : A -> Prop) Q :
  yields m P -> (forall a, P a -> yields (k a) Q) -> yields (bind m k) Q.
Proof.
  intros Hm Hk c b c' H. apply bind_Done in H as (a & c1 & H1 & H2).
  eapply Hk; [eapply Hm; exact H1|exact H2].
Qed.

Lemma yields_any {A} (m : M A) : yields m (fun _ => True).
Proof. intros c a c' _. exact I. Qed.

Lemma yields_then {A B} (m : M A) (k : A -> M B) Q :
  (forall a, yields (k a) Q) -> yields (bind m k) Q.
Proof. intros Hk. eapply yields_bind; [apply yields_any|]. intros a _. apply Hk. Qed.

Lemma yields_weaken {A} (m : M A) (P Q : A -> Prop) :
  yields m P -> (forall a, P a -> Q a) -> yields m Q.
Proof. intros Hm HPQ c a c' H. eapply HPQ, Hm, H. Qed.

Lemma yields_while {S} (Inv : S -> Prop) fuel (body : S -> M (option S)) s :
  Inv s ->
  (forall s, Inv s ->
     yields (body s) (fun r => match r with Some s' => Inv s' | None => True end)) ->
  yields (while_ fuel body s) Inv.
Proof.
  intros Hs Hbody. revert s Hs. induction fuel as [|fuel IH]; intros s Hs c a c' H.
  - discriminate H.
  - simpl in H. apply bind_Done in H as (r & c1 & H1 & H2).
    pose proof (Hbody s Hs _ _ _ H1) as Hr. destruct r as [s'|].
    + eapply IH; [exact Hr|exact H2].
    + injection H2 as <- _. exact Hs.
Qed.

(** A loop that appends one item per element *)
Lemma yields_loop {I} (P : I -> Prop) fuel tags (k : list I -> M (option (list I))) :
  (forall acc, Forall P acc ->
     yields (k acc) (fun r => match r with
                              | Some acc' => Forall P acc'
                              | None => True
                              end)) ->
  yields (while_ fuel (fun acc => b <- starts tags ;; if b then k acc else ret None) [])
         (Forall P).
Proof.
  intros Hk. apply yields_while; [constructor|].
  intros acc Hacc. apply yields_then. intros [|]; [apply Hk, Hacc|].
  by apply yields_ret.
Qed.

Lemma yields_get_metadata attrs version :
  yields (_get_metadata attrs version) loaded_metadata.
Proof.
  intros c m c' H. unfold _get_metadata in H.
  apply bind_Done in H as (pairs & c1 & Hp & H).
  apply lift_Done in Hp as [Hp ->]. apply dindex_Ok in Hp.
  assert (Hpairs : exists uri, pairs = map (fun attr => (qname uri attr, attr)) _DC_ATTRS).
  { unfold _DC_QNAME_PAIRS, _DC_URIS in Hp. simpl in Hp.
    destruct (String.eqb version "1.0"); [injection Hp as <-; eauto|].
    destruct (String.eqb version "1.1"); [injection Hp as <-; eauto|discriminate]. }
  destruct Hpairs as [uri ->].
  apply bind_Done in H as (conf & c2 & _ & H).
  destruct (existsb _ _); injection H as <- _; [|exact I].
  split.
  - reflexivity.
  - cbn [take].
    repeat (constructor; [intros f; destruct (dget _ attrs); discriminate|]).
    constructor.
Qed.

Create HintDb yields discriminated.
#[local] Hint Resolve yields_get_metadata : yields.

Ltac ystep :=
  cbv beta zeta;
  lazymatch goal with
  | |- yields (bind _ _) _ =>
      first [ eapply yields_bind; [solve [eauto with yields]|intros ? ?]
            | apply yields_then; intros ? ]
  | |- yields (ret _) _ => apply yields_ret
  | |- yields (raise _) _ => apply yields_raise
  | |- yields (if ?b then _ else _) _ => destruct b eqn:?
  | |- yields (match ?x with _ => _ end) _ => destruct x eqn:?
  end.

Ltac ysnoc :=
  lazymatch goal with
  | |- Forall _ (_ ++ [_]) =>
      apply Forall_app; split; [assumption|];
      apply Forall_cons_2; [|apply Forall_nil_2]
  end.

Lemma yields_load_sense_relations fuel version :
  yields (_load_sense_relations fuel version) (Forall sense_relation_inv).
Proof.
  apply yields_loop. intros acc Hacc. repeat ystep. ysnoc.
  split; [|assumption]. cbn [SenseRelation_type].
  match goal with
  | Hb : negb _ = false |- _ => apply negb_false_iff, orb_true_iff in Hb; exact Hb
  end.
Qed.
#[local] Hint Resolve yields_load_sense_relations : yields.

Lemma yields_load_synset_relations fuel version :
  yields (_load_synset_relations fuel version) (Forall synset_relation_inv).
Proof.
  apply yields_loop. intros acc Hacc. repeat ystep. ysnoc.
  split; [|assumption]. cbn [SynsetRelation_type].
  match goal with
  | Hb : negb _ = false |- _ => apply negb_false_iff in Hb; exact Hb
  end.
Qed.
#[local] Hint Resolve yields_load_synset_relations : yields.

Lemma yields_load_examples fuel version :
  yields (_load_examples fuel version)
         (Forall (fun example => loaded_metadata (Example_meta example))).
Proof. apply yields_loop. intros acc Hacc. repeat ystep. ysnoc. assumption. Qed.
#[local] Hint Resolve yields_load_examples : yields.

Lemma yields_load_counts fuel version :
  yields (_load_counts fuel version)
         (Forall (fun count => loaded_metadata (Count_meta count))).
Proof.
  apply yields_loop. intros acc Hacc. repeat ystep; ysnoc; assumption.
Qed.
#[local] Hint Resolve yields_load_counts : yields.

Lemma yields_load_definitions fuel version :
  yields (_load_definitions fuel version)
         (Forall (fun definition => loaded_metadata (Definition_meta definition))).
Proof. apply yields_loop. intros acc Hacc. repeat ystep. ysnoc. assumption. Qed.
#[local] Hint Resolve yields_load_definitions : yields.

Lemma yields_load_ilidefinition version :
  yields (_load_ilidefinition version)
         (fun r => match r with
                   | Some d => loaded_metadata (ILIDefinition_meta d)
                   | None => True
                   end).
Proof. unfold _load_ilidefinition. repeat ystep; [assumption|exact I]. Qed.
#[local] Hint Resolve yields_load_ilidefinition : yields.

Lemma yields_guard (flag : bool) tags :
  yields (if flag then starts tags else ret false)
         (fun b => flag = false -> b = false).
Proof.
  destruct flag; [intros c a c' _; discriminate|].
  apply yields_ret. reflexivity.
Qed.
#[local] Hint Resolve yields_guard : yields.

Lemma yields_load_senses fuel external version :
  yields (_load_senses fuel external version)
         (fun senses => Forall sense_inv senses
                        /\ (external = false ->
                            Forall (fun sense => Sense_external sense = false)
                                   senses)).
Proof.
  unfold _load_senses.
  apply (yields_while
           (fun senses => Forall sense_inv senses
                          /\ (external = false ->
                              Forall (fun sense => Sense_external sense = false)
                                     senses))).
  { split; [constructor|intros _; constructor]. }
  intros acc [Hacc Hext]. repeat ystep; try exact I.
  - split.
    + ysnoc. repeat split; try assumption;
        match goal with
        | H : Sense_external _ = true |- _ => discriminate H
        end.
    + intros E. specialize (Hext E). apply Forall_app. split; [exact Hext|].
      repeat constructor.
  - split.
    + ysnoc. repeat split; try assumption; exact I.
    + intros E.
      match goal with
      | H : external = false -> true = false |- _ => discriminate (H E)
      end.
Qed.
#[local] Hint Resolve yields_load_senses : yields.

Lemma yields_load_lexical_entries fuel extension version :
  yields (_load_lexical_entries fuel extension version)
         (fun acc => Forall entry_inv acc.1
                     /\ (extension = false ->
                         Forall (fun entry => LexicalEntry_external entry = false)
                                acc.1)).
Proof.
  unfold _load_lexical_entries.
  apply (yields_while
           (fun acc : list LexicalEntry * list SyntacticBehaviour =>
              Forall entry_inv acc.1
              /\ (extension = false ->
                  Forall (fun entry => LexicalEntry_external entry = false)
                         acc.1))).
  { split; [constructor|intros _; constructor]. }
  intros [entries sbs] [Hacc Hext]. cbn [fst] in Hacc, Hext.
  repeat ystep; try exact I; cbn [fst]; cbv beta in *.
  - match goal with
    | H : _ /\ (false = false -> _) |- _ => destruct H as [Hs Hn]
    end.
    split.
    + ysnoc. split; [exact Hs|]. split; [assumption|]. split.
      * intros _. split; [eauto|]. apply Hn. reflexivity.
      * intros E. discriminate E.
    + intros E. apply Forall_app. split; [auto|]. repeat constructor.
  - match goal with
    | H : _ /\ (true = false -> _) |- _ => destruct H as [Hs _]
    end.
    split.
    + ysnoc. split; [exact Hs|]. split; [exact I|]. split.
      * intros E. discriminate E.
      * intros _. split; reflexivity.
    + intros E.
      match goal with
      | H : extension = false -> true = false |- _ => discriminate (H E)
      end.
Qed.
#[local] Hint Resolve yields_load_lexical_entries : yields.

Lemma yields_load_synsets fuel extension version :
  yields (_load_synsets fuel extension version)
         (fun synsets => Forall synset_inv synsets
                         /\ (extension = false ->
                             Forall (fun synset => Synset_external synset = false)
                                    synsets)).
Proof.
  unfold _load_synsets.
  apply (yields_while
           (fun synsets => Forall synset_inv synsets
                           /\ (extension = false ->
                               Forall (fun synset => Synset_external synset = false)
                                      synsets))).
  { split; [constructor|intros _; constructor]. }
  intros acc [Hacc Hext]. repeat ystep; try exact I.
  - split.
    + ysnoc. repeat split; try assumption;
        match goal with
        | H : Synset_external _ = true |- _ => discriminate H
        end.
    + intros E. apply Forall_app. split; [auto|]. repeat constructor.
  - split.
    + ysnoc. repeat split; try assumption; exact I.
    + intros E.
      match goal with
      | H : extension = false -> true = false |- _ => discriminate (H E)
      end.
Qed.
#[local] Hint Resolve yields_load_synsets : yields.

Lemma yields_load_lexicon fuel version :
  yields (_load_lexicon fuel version) (lexicon_inv version).
Proof.
  unfold _load_lexicon.
  eapply (yields_bind _ _
            (fun hd : Element * bool * option Dependency * list Dependency =>
               let '(_, extension, extends, requires) := hd in
               (extends = None -> extension = false)
               /\ (version = "1.0" -> extends = None /\ requires = []))).
  - destruct (String.eqb_spec version "1.0") as [->|Hv].
    + repeat ystep. split; [reflexivity|intros _; split; reflexivity].
    + apply yields_then. intros lex_root. cbv zeta.
      eapply (yields_bind _ _
                (fun extends : option Dependency =>
                   extends = None
                   -> String.eqb (tag lex_root) "LexiconExtension" = false)).
      * destruct (String.eqb (tag lex_root) "LexiconExtension").
        -- repeat ystep. discriminate.
        -- apply yields_ret. reflexivity.
      * intros extends He. repeat ystep.
        split; [exact He|intros E; contradiction].
  - intros [[[lex_root extension] extends] requires] [He Hv].
    repeat ystep. cbv beta in *.
    match goal with
    | H1 : Forall entry_inv _ /\ _, H2 : Forall synset_inv _ /\ _ |- _ =>
        destruct H1 as [E1 E2], H2 as [S1 S2]
    end.
    unfold lexicon_inv.
    cbn [Lexicon_lexical_entries Lexicon_synsets Lexicon_meta Lexicon_extends
         Lexicon_requires].
    split; [exact E1|]. split; [exact S1|]. split; [assumption|].
    split; [|exact Hv].
    intros E. specialize (He E). split; auto.
Qed.
#[local] Hint Resolve yields_load_lexicon : yields.

Lemma yields_load_events fuel version :
  yields (load_events fuel version) (Forall (lexicon_inv version)).
Proof.
  unfold load_events. apply yields_then. intros root.
  eapply yields_bind.
  - apply (yields_loop (lexicon_inv version)). intros acc Hacc.
    repeat ystep. ysnoc. assumption.
  - intros lexs Hl. repeat ystep. exact Hl.
Qed.

(** X11.  Every graph [load] returns is well formed in the sense of
    [lexicon_inv]: every relation has a type of its vocabulary, every
    metadata record has seventeen slots with strings in the fourteen
    Dublin-Core ones, an entry is external exactly when it has no lemma,
    external entries, senses and synsets occur only in an extension, and
    at version 1.0 no lexicon extends or requires another. *)
Theorem load_invariants fh events lexicons c' :
  load fh events = Done lexicons c' ->
  exists version,
    _read_header fh = Ok version /\ Forall (lexicon_inv version) lexicons.
Proof.
  unfold load. destruct (_read_header fh) as [version|]; [|discriminate].
  intros H. exists version. split; [reflexivity|].
  exact (yields_load_events _ _ _ _ _ H).
Qed.

(** *** The scanner: records and errors *)

Lemma dget_map_IStr k (attrs : dict string) :
  dget k (map (fun kv : string * string => (kv.1, IStr kv.2)) attrs)
  = IStr <$> dget k attrs.
Proof.
  induction attrs as [|[k' v] attrs IH]; simpl; [reflexivity|].
  destruct (String.eqb k k'); [reflexivity|exact IH].
Qed.

Lemma extends_after_nil x : extends_after [] x = x.
Proof. reflexivity. Qed.

Lemma extends_after_other e run x :
  is_extends e = false -> extends_after (e :: run) x = extends_after run x.
Proof. unfold extends_after. simpl. by intros ->. Qed.

Lemma extends_after_extends e run x :
  is_extends e = true ->
  extends_after (e :: run) x = extends_after run (extends_of e).
Proof.
  unfold extends_after. simpl. intros ->.
  destruct (List.filter is_extends run) as [|y l] eqn:E; [reflexivity|].
  change (last (e :: y :: l)) with (last (y :: l)).
  destruct (last (y :: l)) eqn:El; [reflexivity|].
  apply last_None in El. discriminate El.
Qed.

Lemma scan_start_other name attrs pre last_ counts :
  is_resource name = false -> String.eqb name "Extends" = false ->
  dget "counts" last_ = Some (ICounts counts) ->
  scan_start name attrs (pre ++ [last_])
  = Ok (pre ++ [dset "counts" (ICounts (bump name counts)) last_]).
Proof.
  intros Hr He Hc. unfold scan_start. unfold is_resource in Hr.
  rewrite Hr, He, last_snoc, Hc, update_last_snoc. reflexivity.
Qed.

Lemma scan_start_extends name attrs pre last_ :
  is_resource name = false -> String.eqb name "Extends" = true ->
  scan_start name attrs (pre ++ [last_])
  = rbind (dindex "id" attrs) (fun id =>
    rbind (dindex "version" attrs) (fun version =>
      Ok (pre ++ [dset "extends" (IExtends id version) last_]))).
Proof.
  intros Hr He. unfold scan_start. unfold is_resource in Hr.
  rewrite Hr, He, last_snoc.
  destruct (dindex "id" attrs); [|reflexivity]. simpl.
  destruct (dindex "version" attrs); [|reflexivity]. simpl.
  by rewrite update_last_snoc.
Qed.

Lemma scan_feed_step e es infos :
  scan_feed (as_tags (e :: es)) infos
  = rbind (scan_start (tag e) (attrib e) infos) (scan_feed (as_tags es)).
Proof. reflexivity. Qed.

Lemma scan_feed_records es :
  (forall infos', scan_feed (as_tags es) [] = Ok infos' ->
     Forall2 record_of (resources es) infos')
  /\ (forall pre last_ counts infos',
        dget "counts" last_ = Some (ICounts counts) ->
        scan_feed (as_tags es) (pre ++ [last_]) = Ok infos' ->
        exists last' news,
          infos' = pre ++ last' :: news
          /\ (forall k, k <> "counts" -> k <> "extends" ->
                dget k last' = dget k last_)
          /\ dget "extends" last'
             = extends_after (until_resource es) (dget "extends" last_)
          /\ Forall2 record_of (resources es) news).
Proof.
  induction es as [|e es [IH0 IH1]].
  - split.
    + intros infos' [= <-]. constructor.
    + intros pre last_ counts infos' Hc [= <-].
      exists last_, []. repeat split; constructor.
  - assert (Hres : is_resource (tag e) = true ->
              forall infos infos',
                scan_feed (as_tags (e :: es)) infos = Ok infos' ->
                exists info news,
                  infos' = infos ++ info :: news
                  /\ record_of (e, until_resource es) info
                  /\ Forall2 record_of (resources es) news).
    { intros He infos infos' H. rewrite scan_feed_step in H.
      unfold scan_start in H. pose proof He as He'. unfold is_resource in He'.
      rewrite He' in H. cbn [rbind] in H.
      apply IH1 with (counts := ∅) in H; [|apply dget_dset_eq].
      destruct H as (last' & news & -> & Hk & Hx & Hf).
      exists last', news. split; [reflexivity|]. split; [|exact Hf].
      split; cbn [fst snd].
      - intros k H1 H2. rewrite (Hk k H1 H2), dget_dset_ne by exact H1.
        apply dget_map_IStr.
      - rewrite Hx, dget_dset_ne by discriminate. by rewrite dget_map_IStr. }
    split.
    + intros infos' H. cbn [resources].
      destruct (is_resource (tag e)) eqn:He.
      * destruct (Hres eq_refl [] _ H) as (info & news & -> & Hi & Hf).
        constructor; assumption.
      * rewrite scan_feed_step in H.
        unfold scan_start in H. unfold is_resource in He.
        rewrite He in H. cbn [last] in H.
        destruct (String.eqb (tag e) "Extends").
        -- destruct (dindex "id" (attrib e)); [|discriminate].
           destruct (dindex "version" (attrib e)); discriminate.
        -- apply IH0, H.
    + intros pre last_ counts infos' Hc H. cbn [resources until_resource].
      destruct (is_resource (tag e)) eqn:He.
      * destruct (Hres eq_refl _ _ H) as (info & news & -> & Hi & Hf).
        exists last_, (info :: news). rewrite <- app_assoc.
        split; [reflexivity|]. split; [reflexivity|].
        split; [reflexivity|]. constructor; assumption.
      * rewrite scan_feed_step in H.
        destruct (String.eqb (tag e) "Extends") eqn:Hext.
        -- rewrite scan_start_extends in H by assumption.
           destruct (dindex "id" (attrib e)) as [id|] eqn:Hid; [|discriminate].
           destruct (dindex "version" (attrib e)) as [ver|] eqn:Hver;
             [|discriminate].
           cbn [rbind] in H.
           apply IH1 with (counts := counts) in H;
             [|rewrite dget_dset_ne by discriminate; exact Hc].
           destruct H as (last' & news & -> & Hk & Hx & Hf).
           exists last', news. split; [reflexivity|]. split; [|split; [|exact Hf]].
           ++ intros k H1 H2. rewrite (Hk k H1 H2). by apply dget_dset_ne.
           ++ rewrite Hx, dget_dset_eq, extends_after_extends by exact Hext.
              unfold extends_of. apply dindex_Ok in Hid, Hver.
              by rewrite Hid, Hver.
        -- rewrite (scan_start_other _ _ _ _ counts) in H by assumption.
           cbn [rbind] in H.
           apply IH1 with (counts := bump (tag e) counts) in H;
             [|apply dget_dset_eq].
           destruct H as (last' & news & -> & Hk & Hx & Hf).
           exists last', news. split; [reflexivity|]. split; [|split; [|exact Hf]].
           ++ intros k H1 H2. rewrite (Hk k H1 H2). by apply dget_dset_ne.
           ++ rewrite Hx, dget_dset_ne, extends_after_other by (exact Hext || discriminate).
              reflexivity.
Qed.

(** X12.  [scan_lexicons] returns one record per [Lexicon] or
    [LexiconExtension] start tag, in document order.  A record keeps
    every attribute of its tag, the keys [counts] and [extends] apart,
    and holds under [extends] the [id] and [version] of the last
    [Extends] read before the next resource. *)
Theorem scan_records es well_formed infos :
  scan_lexicons (as_tags es) well_formed = Ok infos ->
  Forall2 record_of (resources es) infos
  /\ map fst (resources es) = List.filter (fun e => is_resource (tag e)) es.
Proof.
  intros H. split.
  - unfold scan_lexicons in H.
    destruct (scan_feed (as_tags es) []) as [infos0|] eqn:E; [|discriminate].
    simpl in H. destruct well_formed; [|discriminate]. injection H as <-.
    apply (scan_feed_records es), E.
  - clear H. induction es as [|e es IH]; [reflexivity|].
    simpl. destruct (is_resource (tag e)); simpl; by rewrite IH.
Qed.

Lemma resource_not_extends e : is_resource (tag e) = true -> is_extends e = false.
Proof.
  unfold is_resource, is_extends, str_in. simpl.
  destruct (String.eqb_spec (tag e) "Lexicon") as [->|_]; [reflexivity|].
  destruct (String.eqb_spec (tag e) "LexiconExtension") as [->|_];
    [reflexivity|discriminate].
Qed.

Lemma has_counts_update (f : info -> info) infos :
  (forall i, (exists c, dget "counts" i = Some (ICounts c)) ->
             exists c, dget "counts" (f i) = Some (ICounts c)) ->
  Forall (fun i : info => exists c, dget "counts" i = Some (ICounts c)) infos ->
  Forall (fun i : info => exists c, dget "counts" i = Some (ICounts c))
         (update_last f infos).
Proof.
  intros Hf. induction 1 as [|i infos Hi Hinfos IH]; [constructor|].
  destruct infos as [|j infos]; cbn [update_last].
  - constructor; [apply Hf, Hi|constructor].
  - constructor; [exact Hi|exact IH].
Qed.

Lemma update_last_nil {A} (f : A -> A) l : update_last f l = [] -> l = [].
Proof. destruct l as [|x [|y l]]; [reflexivity|discriminate|discriminate]. Qed.

Lemma scan_feed_cases es :
  forall infos,
    Forall (fun i : info => exists c, dget "counts" i = Some (ICounts c)) infos ->
    match scan_feed (as_tags es) infos with
    | Ok infos' =>
        Forall (fun e => is_extends e = true ->
                         has_attr "id" e /\ has_attr "version" e) es
        /\ (infos = [] -> Forall (fun e => is_extends e = false)
                                 (until_resource es))
    | Raise e =>
        (e = KeyError "id" \/ e = KeyError "version" \/ e = IndexError)
        /\ ~ (Forall (fun e => is_extends e = true ->
                               has_attr "id" e /\ has_attr "version" e) es
              /\ (infos = [] -> Forall (fun e => is_extends e = false)
                                       (until_resource es)))
    end.
Proof.
  induction es as [|e es IH]; intros infos Hinv.
  - simpl. split; [constructor|intros _; constructor].
  - rewrite scan_feed_step. cbn [until_resource].
    destruct (is_resource (tag e)) eqn:Hres.
    + destruct (scan_start_resource (tag e) (attrib e) infos Hres)
        as (new & -> & Hnew).
      cbn [rbind]. specialize (IH (infos ++ [new])).
      destruct (scan_feed (as_tags es) (infos ++ [new])) as [infos'|x].
      * destruct IH as [Hg _].
        { apply Forall_app. split; [exact Hinv|]. constructor; [eauto|constructor]. }
        split; [|intros _; constructor].
        constructor; [|exact Hg]. intros E.
        rewrite (resource_not_extends e Hres) in E. discriminate E.
      * destruct IH as [Hx Hn].
        { apply Forall_app. split; [exact Hinv|]. constructor; [eauto|constructor]. }
        split; [exact Hx|]. intros [Hg _]. apply Hn.
        apply Forall_cons_1 in Hg as [_ Hg]. split; [exact Hg|].
        intros E. destruct infos; discriminate E.
    + unfold scan_start. pose proof Hres as Hres'. unfold is_resource in Hres'.
      rewrite Hres'. fold (is_extends e).
      destruct (is_extends e) eqn:Hext.
      * unfold dindex.
        destruct (dget "id" (attrib e)) as [id|] eqn:Hid; cbn [rbind].
        2:{ split; [auto|]. intros [Hg _]. apply Forall_cons_1 in Hg as [Hg _].
            destruct (Hg Hext) as [[v Hv] _]. congruence. }
        destruct (dget "version" (attrib e)) as [ver|] eqn:Hver; cbn [rbind].
        2:{ split; [auto|]. intros [Hg _]. apply Forall_cons_1 in Hg as [Hg _].
            destruct (Hg Hext) as [_ [v Hv]]. congruence. }
        destruct (last infos) as [i|] eqn:Hlast; cbn [rbind].
        2:{ split; [auto|]. intros [_ Hn]. apply last_None in Hlast.
            specialize (Hn Hlast). apply Forall_cons_1 in Hn as [Hn _].
            congruence. }
        specialize (IH (update_last (dset "extends" (IExtends id ver)) infos)).
        assert (Hne : update_last (dset "extends" (IExtends id ver)) infos <> []).
        { intros E. apply update_last_nil in E. subst infos. discriminate Hlast. }
        destruct (scan_feed (as_tags es) _) as [infos'|x].
        -- destruct IH as [Hg _].
           { apply has_counts_update; [|exact Hinv]. intros j [c Hc].
             exists c. rewrite dget_dset_ne by discriminate. exact Hc. }
           split.
           ++ constructor; [|exact Hg]. intros _. unfold has_attr.
              rewrite Hid, Hver. eauto.
           ++ intros ->. discriminate Hlast.
        -- destruct IH as [Hx Hn].
           { apply has_counts_update; [|exact Hinv]. intros j [c Hc].
             exists c. rewrite dget_dset_ne by discriminate. exact Hc. }
           split; [exact Hx|]. intros [Hg _]. apply Hn.
           apply Forall_cons_1 in Hg as [_ Hg]. split; [exact Hg|].
           intros E. contradiction.
      * destruct (last infos) as [i|] eqn:Hlast.
        -- assert (Hi : exists c, dget "counts" i = Some (ICounts c)).
           { rewrite Forall_forall in Hinv. apply Hinv.
             apply last_Some in Hlast as [pre ->].
             apply elem_of_app. right. left. }
           destruct Hi as [c Hc]. rewrite Hc. cbn [rbind].
           specialize (IH (update_last
                             (dset "counts" (ICounts (bump (tag e) c))) infos)).
           assert (Hne : update_last
                           (dset "counts" (ICounts (bump (tag e) c))) infos <> []).
           { intros E. apply update_last_nil in E. subst infos. discriminate Hlast. }
           destruct (scan_feed (as_tags es) _) as [infos'|x].
           ++ destruct IH as [Hg _].
              { apply has_counts_update; [|exact Hinv]. intros j _.
                eexists. apply dget_dset_eq. }
              split.
              ** constructor; [|exact Hg]. intros E. congruence.
              ** intros ->. discriminate Hlast.
           ++ destruct IH as [Hx Hn].
              { apply has_counts_update; [|exact Hinv]. intros j _.
                eexists. apply dget_dset_eq. }
              split; [exact Hx|]. intros [Hg _]. apply Hn.
              apply Forall_cons_1 in Hg as [_ Hg]. split; [exact Hg|].
              intros E. contradiction.
        -- cbn [rbind]. apply last_None in Hlast. subst infos.
           specialize (IH [] Hinv).
           destruct (scan_feed (as_tags es) []) as [infos'|x].
           ++ destruct IH as [Hg Hn]. split.
              ** constructor; [|exact Hg]. intros E. congruence.
              ** intros _. constructor; [exact Hext|]. apply Hn. reflexivity.
           ++ destruct IH as [Hx Hn]. split; [exact Hx|].
              intros [Hg Hu]. apply Hn.
              apply Forall_cons_1 in Hg as [_ Hg]. split; [exact Hg|].
              intros _. specialize (Hu eq_refl).
              apply Forall_cons_1 in Hu as [_ Hu]. exact Hu.
Qed.

(** X13.  [scan_lexicons] returns exactly when the document is well
    formed, every [Extends] start tag has its [id] and [version], and no
    [Extends] comes before the first resource.  Otherwise it raises
    [KeyError] for the missing attribute or [IndexError] for the early
    [Extends], as the handler meets them, or [LMFError] for a document
    that is not well formed; it raises nothing else. *)
Theorem scan_outcome es well_formed :
  match scan_lexicons (as_tags es) well_formed with
  | Ok _ => well_formed = true /\ extends_ok es
  | Raise e =>
      ((e = KeyError "id" \/ e = KeyError "version" \/ e = IndexError)
       /\ ~ extends_ok es)
      \/ (e = LMFError "invalid or ill-formed WN-LMF file"
          /\ well_formed = false /\ extends_ok es)
  end.
Proof.
  unfold scan_lexicons, extends_ok.
  pose proof (scan_feed_cases es [] (Forall_nil_2 _)) as H.
  destruct (scan_feed (as_tags es) []) as [infos|e]; cbn [rbind].
  - destruct H as [Hg Hn]. specialize (Hn eq_refl).
    destruct well_formed; [auto|]. right. auto.
  - destruct H as [He Hn]. left. split; [exact He|].
    intros [Hg Hu]. apply Hn. auto.
Qed.

(** *** The event iterator *)

Lemma to_come_advance it : to_come (advance it) = it.
Proof. destruct it; reflexivity. Qed.

Lemma exhausted_advance it : exhausted_together (advance it).
Proof. destruct it; intros H; [reflexivity|discriminate H]. Qed.

Lemma iterator_list_all it :
  XMLEventIterator_list (S (length it)) (advance it) = it.
Proof.
  induction it as [|ev it IH]; [reflexivity|].
  change (XMLEventIterator_list (S (length (ev :: it))) (advance (ev :: it)))
    with (ev :: XMLEventIterator_list (S (length it)) (advance it)).
  by rewrite IH.
Qed.

(** X14.  [XMLEventIterator] is transparent: it yields the events of the
    wrapped iterator, all of them and in order, and then raises
    [StopIteration].  At every state [__init__] and [__next__] produce,
    its methods answer as the loader model does on the list of the events
    still to come: [starts] looks at the first event without consuming
    it and is [False] at the end, [__next__], [start] and [end] consume
    one event or raise. *)
Theorem iterator_transparent :
  (forall it,
     to_come (XMLEventIterator_init it) = it
     /\ exhausted_together (XMLEventIterator_init it)
     /\ XMLEventIterator_list (S (length it)) (XMLEventIterator_init it) = it)
  /\ (forall self tags w,
        exhausted_together self ->
        same_answer (XMLEventIterator_next self)
                    (next_event (mkCursor (to_come self) w)) w
        /\ starts tags (mkCursor (to_come self) w)
           = Done (XMLEventIterator_starts self tags)
                  (mkCursor (to_come self) w)
        /\ same_answer (XMLEventIterator_start self tags)
                       (start tags (mkCursor (to_come self) w)) w
        /\ same_answer (XMLEventIterator_end self tags)
                       (end_ tags (mkCursor (to_come self) w)) w).
Proof.
  split.
  - intros it. unfold XMLEventIterator_init.
    split; [apply to_come_advance|]. split; [apply exhausted_advance|].
    apply iterator_list_all.
  - intros [it [[k e]|]] tags w Hex.
    + unfold XMLEventIterator_next, XMLEventIterator_starts,
        XMLEventIterator_start, XMLEventIterator_end, XMLEventIterator_next,
        same_answer, to_come, start, end_, starts, next_event, bind.
      cbn [_next iterator pending log rbind fst snd].
      destruct k, (str_in (tag e) tags); cbn [is_start negb andb].
      all: repeat split; try apply exhausted_advance.
      all: destruct it; reflexivity.
    + repeat split.
Qed.

(** *** The header, whatever the quotes and the line ends *)

Lemma readline_one_line s r :
  one_line s = true ->
  readline (s +:+ String nl_char r) = (s +:+ String nl_char "", r).
Proof.
  induction s as [|c s IH]; intros H.
  - reflexivity.
  - cbn [one_line] in H. apply andb_true_iff in H as [Hc Hs].
    change (String c s +:+ String nl_char r) with (String c (s +:+ String nl_char r)).
    cbn [readline]. apply negb_true_iff in Hc. rewrite Hc, (IH Hs). reflexivity.
Qed.

Lemma readline_last_line s :
  one_line s = true -> readline s = (s, "").
Proof.
  induction s as [|c s IH]; intros H; [reflexivity|].
  cbn [one_line] in H. apply andb_true_iff in H as [Hc Hs].
  cbn [readline]. apply negb_true_iff in Hc. rewrite Hc, (IH Hs). reflexivity.
Qed.

Lemma one_line_app s w : one_line s = true -> one_line w = true -> one_line (s +:+ w) = true.
Proof.
  induction s as [|c s IH]; intros Hs Hw; [exact Hw|].
  cbn [one_line] in Hs. apply andb_true_iff in Hs as [Hc Hs].
  change (String c s +:+ w) with (String c (s +:+ w)). cbn [one_line].
  by rewrite Hc, IH.
Qed.

Lemma trailing_one_line w : trailing w = true -> one_line w = true.
Proof.
  induction w as [|c w IH]; [reflexivity|]. cbn [trailing one_line].
  intros H. apply andb_true_iff in H as [H Hw]. apply andb_true_iff in H as [_ Hc].
  by rewrite Hc, IH.
Qed.

Lemma trailing_all_space w r :
  trailing w = true -> all_space r = true -> all_space (w +:+ r) = true.
Proof.
  induction w as [|c w IH]; intros Hw Hr; [exact Hr|].
  cbn [trailing] in Hw. apply andb_true_iff in Hw as [H Hw].
  apply andb_true_iff in H as [Hc _].
  change (String c w +:+ r) with (String c (w +:+ r)). cbn [all_space].
  by rewrite Hc, IH.
Qed.

Lemma rstrip_all_space w : all_space w = true -> rstrip w = "".
Proof.
  induction w as [|c w IH]; [reflexivity|]. cbn [all_space rstrip].
  intros H. apply andb_true_iff in H as [Hc Hw]. by rewrite (IH Hw), Hc.
Qed.

Lemma rstrip_app_space s w : all_space w = true -> rstrip (s +:+ w) = rstrip s.
Proof.
  intros Hw. induction s as [|c s IH].
  - change ("" +:+ w) with w. by rewrite rstrip_all_space.
  - change (String c s +:+ w) with (String c (s +:+ w)). cbn [rstrip].
    by rewrite IH.
Qed.

Lemma replace_quotes_one_line s : one_line (replace_quotes s) = one_line s.
Proof.
  induction s as [|c s IH]; [reflexivity|]. cbn [replace_quotes one_line].
  rewrite IH. f_equal. f_equal.
  destruct (Ascii.eqb_spec c sq_char) as [->|_]; reflexivity.
Qed.

Lemma rstrip_replace_quotes s :
  rstrip (replace_quotes s) = replace_quotes (rstrip s).
Proof.
  induction s as [|c s IH]; [reflexivity|]. cbn [replace_quotes rstrip].
  rewrite IH. destruct (rstrip s) as [|c' s'] eqn:E; cbn [replace_quotes].
  - destruct (Ascii.eqb c sq_char) eqn:Hc.
    + apply Ascii.eqb_eq in Hc. subst c. reflexivity.
    + destruct (is_space c); cbn [replace_quotes]; [reflexivity|].
      by rewrite Hc.
  - reflexivity.
Qed.

Lemma header_line_tolerant q w r expected_ :
  replace_quotes q = expected_ -> rstrip expected_ = expected_ ->
  trailing w = true -> all_space r = true ->
  header_line (q +:+ w +:+ r) = expected_.
Proof.
  intros Hq He Hw Hr. unfold header_line.
  rewrite rstrip_app_space by (by apply trailing_all_space).
  rewrite <- rstrip_replace_quotes, Hq. exact He.
Qed.

(** X15.  [_read_header] accepts the two header lines written with
    single or double quotes and followed by any white space, carriage
    return included, and answers the version of the document type; it does
    not look past the second line, which need not end with a newline. *)
Theorem read_header_tolerant version schema q1 q2 w1 w2 rest :
  dget version _SCHEMAS = Some schema ->
  replace_quotes q1 = _XMLDECL ->
  replace_quotes q2 = _DOCTYPE schema ->
  trailing w1 = true -> trailing w2 = true ->
  _read_header (q1 +:+ w1 +:+ String nl_char (q2 +:+ w2 +:+ String nl_char rest))
  = Ok version
  /\ _read_header (q1 +:+ w1 +:+ String nl_char (q2 +:+ w2)) = Ok version.
Proof.
  intros Hs H1 H2 Hw1 Hw2.
  assert (L1 : one_line (q1 +:+ w1) = true).
  { apply one_line_app; [|by apply trailing_one_line].
    rewrite <- replace_quotes_one_line, H1. reflexivity. }
  assert (L2 : one_line (q2 +:+ w2) = true).
  { apply one_line_app; [|by apply trailing_one_line].
    rewrite <- replace_quotes_one_line, H2.
    destruct (schema_cases _ _ Hs) as [[_ ->]|[_ ->]]; reflexivity. }
  assert (E1 : header_line ((q1 +:+ w1) +:+ String nl_char "") = _XMLDECL).
  { rewrite append_assoc. apply header_line_tolerant; auto; reflexivity. }
  assert (E2 : forall r, all_space r = true ->
                 header_line ((q2 +:+ w2) +:+ r) = _DOCTYPE schema).
  { intros r Hr. rewrite append_assoc. apply header_line_tolerant; auto.
    destruct (schema_cases _ _ Hs) as [[_ ->]|[_ ->]]; reflexivity. }
  assert (Hd : rbind (decode_utf8 (_DOCTYPE schema)) (fun doctype_decoded =>
                 match dget doctype_decoded _DOCTYPES with
                 | None => Raise (LMFError "invalid or missing DOCTYPE declaration")
                 | Some version => Ok version
                 end) = Ok version).
  { destruct (schema_cases _ _ Hs) as [[-> ->]|[-> ->]]; reflexivity. }
  unfold _read_header.
  rewrite <- !append_assoc.
  rewrite !(readline_one_line (q1 +:+ w1)) by exact L1. cbn [fst snd].
  rewrite E1. change (negb (String.eqb _XMLDECL _XMLDECL)) with false. cbv iota.
  split.
  - rewrite (readline_one_line (q2 +:+ w2)) by exact L2. cbn [fst].
    rewrite (E2 (String nl_char "") eq_refl). exact Hd.
  - rewrite (readline_last_line (q2 +:+ w2)) by exact L2. cbn [fst].
    rewrite <- (append_nil_r (q2 +:+ w2)), (E2 "" eq_refl). exact Hd.
Qed.

(** *** The layout helper *)

Lemma etree_ind (P : etree -> Prop) :
  (forall tg at_ tx tl cs, Forall P cs -> P (ETNode tg at_ tx tl cs)) ->
  forall t, P t.
Proof.
  intros H. fix IH 1. intros [tg at_ tx tl cs]. apply H.
  induction cs as [|c cs IHcs]; constructor; [apply IH|exact IHcs].
Qed.

Lemma indent_node level tg at_ tx tl c cs :
  _indent level (ETNode tg at_ tx tl (c :: cs))
  = ETNode tg at_ (if blank_text tx then Some (child_indent level) else tx) tl
      (layout level (_indent (S level)) (c :: cs)).
Proof.
  cbn [_indent]. f_equal. cbn [layout].
  revert c. induction cs as [|d cs IH]; intros c; [reflexivity|].
  f_equal. exact (IH d).
Qed.

Lemma isspace_spaces level r :
  isspace_all r = true -> isspace_all (spaces level +:+ r) = true.
Proof.
  intros Hr. induction level as [|level IH]; [exact Hr|].
  change (spaces (S level) +:+ r)
    with (String " " (String " " (spaces level +:+ r))).
  cbn [isspace_all]. change (in_range 9 13 " " || in_range 28 32 " ") with true.
  cbv iota. exact IH.
Qed.

Lemma blank_child_indent level : blank_text (Some (child_indent level)) = true.
Proof.
  unfold blank_text, child_indent, self_indent.
  change (String nl_char (spaces level) +:+ "  ")
    with (String nl_char (spaces level +:+ "  ")).
  cbn [isspace_all].
  change (in_range 9 13 nl_char || in_range 28 32 nl_char) with true. cbv iota.
  by apply isspace_spaces.
Qed.

Lemma content_set_tail x t : content (set_tail x t) = content t.
Proof. by destruct t. Qed.

Lemma layout_cons level f c cs :
  exists c' cs', layout level f (c :: cs) = c' :: cs'.
Proof. destruct cs; cbn [layout]; eauto. Qed.

Lemma content_layout level f cs :
  Forall (fun c => content (f c) = content c) cs ->
  map content (layout level f cs) = map content cs.
Proof.
  induction 1 as [|c cs Hc Hcs IH]; [reflexivity|].
  destruct cs as [|d cs]; cbn [layout map].
  - by rewrite content_set_tail, Hc.
  - rewrite content_set_tail, Hc. f_equal. exact IH.
Qed.

Lemma indent_set_tail level x t :
  _indent level (set_tail x t) = set_tail x (_indent level t).
Proof. destruct t as [tg at_ tx tl [|c cs]]; reflexivity. Qed.

Lemma set_tail_twice x y t : set_tail x (set_tail y t) = set_tail x t.
Proof. by destruct t. Qed.

Lemma layout_twice level f cs :
  Forall (fun c => f (f c) = f c) cs ->
  (forall x t, f (set_tail x t) = set_tail x (f t)) ->
  layout level f (layout level f cs) = layout level f cs.
Proof.
  intros Hall Hf. induction Hall as [|c cs Hc Hcs IH]; [reflexivity|].
  destruct cs as [|d cs].
  - cbn [layout]. by rewrite Hf, Hc, set_tail_twice.
  - destruct (layout_cons level f d cs) as (d' & cs' & E).
    change (layout level f (c :: d :: cs))
      with (set_tail (child_indent level) (f c) :: layout level f (d :: cs)).
    rewrite E in IH |- *.
    change (layout level f (set_tail (child_indent level) (f c) :: d' :: cs'))
      with (set_tail (child_indent level) (f (set_tail (child_indent level) (f c)))
            :: layout level f (d' :: cs')).
    by rewrite IH, Hf, Hc, set_tail_twice.
Qed.

(** X16.  [_indent] only lays an element out: it leaves every tag and
    attribute, the text of every childless element and every text that is
    not white space as they are, and the tail of the element it is called
    on; what it changes is the white-space text of elements with children
    and the tails of the children.  Laying out twice is laying out
    once. *)
Theorem indent_keeps_content level elem :
  content (_indent level elem) = content elem
  /\ et_tail (_indent level elem) = et_tail elem
  /\ _indent level (_indent level elem) = _indent level elem.
Proof.
  revert level. induction elem as [tg at_ tx tl cs IH] using etree_ind.
  intros level. destruct cs as [|c cs]; [repeat split|].
  rewrite indent_node.
  destruct (layout_cons level (_indent (S level)) c cs) as (c' & cs' & E).
  split; [|split].
  - cbn [content]. rewrite E. rewrite <- E.
    rewrite content_layout
      by (eapply Forall_impl; [exact IH|]; intros t Ht; apply Ht).
    f_equal. destruct (blank_text tx) eqn:Hb.
    + by rewrite blank_child_indent.
    + by rewrite Hb.
  - reflexivity.
  - rewrite E, indent_node, <- E.
    rewrite layout_twice;
      [|eapply Forall_impl; [exact IH|]; intros t Ht; apply Ht
       |apply indent_set_tail].
    f_equal. destruct (blank_text tx) eqn:Hb.
    + by rewrite blank_child_indent.
    + by rewrite Hb.
Qed.

(** *** The scanner on what [dump] wrote *)

Lemma shaped_dump_lexical_entry entry sbmap version t :
  _dump_lexical_entry entry sbmap version = Ok t ->
  shaped "LexicalEntry" below_entry t.
Proof.
  unfold _dump_lexical_entry.
  destruct (_build_lemma (LexicalEntry_lemma entry)) as [lemma|] eqn:Hl;
    [|discriminate].
  cbn [rbind]. intros [= <-]. split; [reflexivity|]. cbn [children_of elem].
  assert (Hbase : Forall (tags_in below_entry)
            ([lemma] ++ map _build_form (LexicalEntry_forms entry)
             ++ map _build_sense (LexicalEntry_senses entry))).
  { tags_tac.
    - unfold _build_lemma in Hl.
      destruct (LexicalEntry_lemma entry) as [l|]; [|discriminate].
      injection Hl as <-. tags_tac. unfold _build_tag. tags_tac.
    - unfold _build_form. tags_tac. unfold _build_tag. tags_tac.
    - unfold _build_sense. tags_tac;
        [unfold _build_sense_relation|unfold _build_example|unfold _build_count];
        tags_tac. }
  destruct (String.eqb version "1.0"); [|exact Hbase].
  refine (Forall_app_2 _ _ _ Hbase _).
  unfold entry_syntactic_behaviours. apply Forall_forall. intros x Hx.
  apply list_elem_of_In, in_flat_map in Hx as (sid & _ & Hx).
  apply in_map_iff in Hx as (sb & <- & _).
  unfold _build_syntactic_behaviour_1_0. tags_tac.
Qed.

Lemma shaped_dump_synset synset version :
  shaped "Synset" below_synset (_dump_synset synset version).
Proof.
  split; [reflexivity|]. unfold _dump_synset. cbn [children_of elem].
  tags_tac.
  - unfold _build_definition. tags_tac.
  - destruct (Synset_ili_definition synset); tags_tac.
    unfold _build_ili_definition. tags_tac.
  - unfold _build_synset_relation. tags_tac.
  - unfold _build_example. tags_tac.
Qed.

Lemma shaped_descendants name below t :
  shaped name below t ->
  Forall (fun e => str_in (tag e) below = true) (descendants t).
Proof.
  intros [_ H]. unfold descendants. apply Forall_concat, Forall_map.
  exact H.
Qed.

Lemma occurrences_shaped name below ts :
  str_in name below = false ->
  Forall (shaped name below) ts ->
  occurrences name (concat (map elements_of ts)) = length ts.
Proof.
  intros Hn. induction 1 as [|[e cs] ts Ht _ IH]; [reflexivity|].
  cbn [map concat elements_of length]. rewrite <- app_comm_cons.
  rewrite occurrences_cons, occurrences_app, IH.
  pose proof (shaped_descendants _ _ _ Ht) as Hd.
  destruct Ht as [Htag _]. unfold tag_of in Htag. cbn [root_elem] in Htag.
  destruct (decide (tag e = name)); [|contradiction].
  unfold descendants in Hd. cbn [children_of] in Hd.
  rewrite occurrences_zero; [lia|].
  eapply Forall_impl; [exact Hd|]. intros x Hx E. cbv beta in Hx.
  rewrite E in Hx. congruence.
Qed.

Lemma occurrences_other name name' below ts :
  name <> name' -> str_in name below = false ->
  Forall (shaped name' below) ts ->
  occurrences name (concat (map elements_of ts)) = 0.
Proof.
  intros Hne Hn Hts. apply occurrences_zero. apply Forall_concat, Forall_map.
  eapply Forall_impl; [exact Hts|]. intros [e cs] Ht.
  pose proof (shaped_descendants _ _ _ Ht) as Hd.
  destruct Ht as [Htag _]. unfold tag_of in Htag. cbn [root_elem] in Htag.
  cbn [elements_of]. constructor; [congruence|].
  unfold descendants in Hd. cbn [children_of] in Hd.
  eapply Forall_impl; [exact Hd|]. intros x Hx E. cbv beta in Hx.
  rewrite E in Hx. congruence.
Qed.

Lemma dump_lexicon_tree lexicon version t :
  _dump_lexicon lexicon version = Ok t ->
  exists entries synsets,
    tag_of t = "Lexicon"
    /\ dget "id" (attrib (root_elem t)) = Some (Lexicon_id lexicon)
    /\ children_of t = entries ++ synsets
    /\ length entries = length (Lexicon_lexical_entries lexicon)
    /\ length synsets = length (Lexicon_synsets lexicon)
    /\ Forall (shaped "LexicalEntry" below_entry) entries
    /\ Forall (shaped "Synset" below_synset) synsets.
Proof.
  unfold _dump_lexicon.
  destruct (traverse _ (Lexicon_lexical_entries lexicon)) as [entries|] eqn:He;
    [|discriminate].
  cbn [rbind]. intros [= <-].
  exists entries, (map (fun synset => _dump_synset synset version)
                       (Lexicon_synsets lexicon)).
  apply traverse_inv in He.
  split; [reflexivity|]. split.
  { cbn [root_elem elem attrib].
    assert (Hp : forall d : dict string,
              dget "id" d = Some (Lexicon_id lexicon) ->
              dget "id" (dupdate d (_meta_dict (Lexicon_meta lexicon)))
              = Some (Lexicon_id lexicon)).
    { intros d Hd. unfold dupdate.
      pose proof (meta_dict_keys (Lexicon_meta lexicon)) as Hk. revert d Hd Hk.
      generalize (_meta_dict (Lexicon_meta lexicon)). intros md.
      induction md as [|[k v] md IH]; intros d Hd Hk; [exact Hd|].
      unfold dkeys in Hk. cbn [map fst] in Hk.
      apply Forall_cons_1 in Hk as [[n Hn] Hk]. subst k.
      cbn [fold_left fst snd].
      apply IH; [|exact Hk]. rewrite dget_dset_ne; [exact Hd|].
      destruct n; discriminate. }
    apply Hp.
    destruct (otruthy (Lexicon_citation lexicon)), (otruthy (Lexicon_url lexicon));
      reflexivity. }
  split; [reflexivity|].
  split; [symmetry; eapply Forall2_length, He|].
  split; [apply length_map|]. split.
  - clear -He. induction He as [|entry t l ts Ht _ IH]; constructor; [|exact IH].
    eapply shaped_dump_lexical_entry, Ht.
  - apply Forall_map, Forall_forall. intros s _. apply shaped_dump_synset.
Qed.

(** On the start tags of a document [dump] wrote, the handler never
    raises, and the records are those of the lexicons. *)
Lemma dump_scan_records lexicons version d :
  dump lexicons version = Ok d ->
  exists infos,
    scan_lexicons (expat_tags (doc_root d)) true = Ok infos
    /\ Forall2 (fun lexicon info =>
                  dget "id" info = Some (IStr (Lexicon_id lexicon))
                  /\ exists counts,
                       dget "counts" info = Some (ICounts counts)
                       /\ count_of counts "LexicalEntry"
                          = length (Lexicon_lexical_entries lexicon)
                       /\ count_of counts "Synset"
                          = length (Lexicon_synsets lexicon))
               lexicons infos.
Proof.
  intros H. apply dump_inv in H as (schema & dc_uri & lexs & _ & _ & Ht & ->).
  cbn [doc_root]. apply traverse_inv in Ht.
  assert (Htrees : Forall2 (fun lexicon t =>
            exists entries synsets,
              tag_of t = "Lexicon"
              /\ dget "id" (attrib (root_elem t)) = Some (Lexicon_id lexicon)
              /\ children_of t = entries ++ synsets
              /\ length entries = length (Lexicon_lexical_entries lexicon)
              /\ length synsets = length (Lexicon_synsets lexicon)
              /\ Forall (shaped "LexicalEntry" below_entry) entries
              /\ Forall (shaped "Synset" below_synset) synsets) lexicons lexs).
  { eapply Forall2_impl; [exact Ht|]. intros lexicon t Hl.
    eapply dump_lexicon_tree, Hl. }
  clear Ht.
  assert (Hdesc : Forall (fun t =>
            is_resource (tag_of t) = true
            /\ Forall (fun e => str_in (tag e) (below_entry ++ below_synset
                                               ++ ["LexicalEntry"; "Synset"])
                                = true) (descendants t)) lexs).
  { clear -Htrees. induction Htrees as [|lexicon t ls ts Hl _ IH];
      constructor; [|exact IH].
    destruct Hl as (entries & synsets & Htag & _ & Hc & _ & _ & He & Hs).
    split; [by rewrite Htag|].
    unfold descendants. rewrite Hc, map_app, concat_app.
    apply Forall_app. split; apply Forall_concat, Forall_map.
    - eapply Forall_impl; [exact He|]. intros [e cs] Hsh.
      pose proof (shaped_descendants _ _ _ Hsh) as Hd. destruct Hsh as [Htg _].
      unfold tag_of in Htg. cbn [root_elem] in Htg. cbn [elements_of].
      constructor; [by rewrite Htg|].
      eapply Forall_impl; [exact Hd|]. intros x Hx. cbv beta in Hx.
      unfold str_in in *. rewrite existsb_app, Hx. reflexivity.
    - eapply Forall_impl; [exact Hs|]. intros [e cs] Hsh.
      pose proof (shaped_descendants _ _ _ Hsh) as Hd. destruct Hsh as [Htg _].
      unfold tag_of in Htg. cbn [root_elem] in Htg. cbn [elements_of].
      constructor; [by rewrite Htg|].
      eapply Forall_impl; [exact Hd|]. intros x Hx. cbv beta in Hx.
      unfold str_in in *. rewrite !existsb_app, Hx, !orb_true_r. reflexivity. }
  assert (Hscan : exists infos,
            scan_lexicons
              (expat_tags (elem "LexicalResource" [("xmlns:dc", dc_uri)] None lexs))
              true = Ok infos).
  { unfold scan_lexicons. unfold elem. rewrite expat_tags_node, scan_feed_cons.
    cbn [tag attrib scan_start str_in existsb String.eqb Ascii.eqb Bool.eqb orb
         last rbind].
    unfold descendants, as_tags. cbn [children_of].
    rewrite concat_map, map_map.
    destruct (scan_resources_ok lexs []) as [infos Hi].
    - eapply Forall_impl; [exact Hdesc|]. intros t [Hr Hd]. split; [exact Hr|].
      eapply Forall_impl; [exact Hd|]. intros x Hx. cbv beta in Hx. split.
      + unfold is_resource.
        destruct (str_in (tag x) ["Lexicon"; "LexiconExtension"]) eqn:E;
          [|reflexivity].
        apply str_in_true in E. apply str_in_true in Hx. exfalso.
        destruct E as [E|[E|[]]]; rewrite <- E in Hx; simpl in Hx;
          repeat (destruct Hx as [Hx|Hx]; [discriminate Hx|]); exact Hx.
      + intros E. rewrite E in Hx. discriminate Hx.
    - exists infos. unfold expat_tags in Hi. rewrite Hi. reflexivity. }
  destruct Hscan as [infos Hscan]. exists infos. split; [exact Hscan|].
  pose proof Hscan as Hrec.
  apply scan_tree_counts in Hscan; [|reflexivity|].
  2:{ eapply Forall_impl; [exact Hdesc|]. intros t [Hr Hd]. split; [exact Hr|].
      eapply Forall_impl; [exact Hd|]. intros x Hx. cbv beta in Hx.
      unfold is_resource.
      destruct (str_in (tag x) ["Lexicon"; "LexiconExtension"]) eqn:E;
        [|reflexivity].
      apply str_in_true in E. apply str_in_true in Hx. exfalso.
      destruct E as [E|[E|[]]]; rewrite <- E in Hx; simpl in Hx;
        repeat (destruct Hx as [Hx|Hx]; [discriminate Hx|]); exact Hx. }
  assert (Hids : Forall2 (fun t info =>
            forall k, k <> "counts" -> k <> "extends" ->
                      dget k info = IStr <$> dget k (attrib (root_elem t)))
            lexs infos).
  { unfold scan_lexicons in Hrec.
    destruct (scan_feed _ []) as [infos0|] eqn:E; [|discriminate].
    cbn [rbind] in Hrec. injection Hrec as <-.
    unfold elem in E. rewrite expat_tags_node in E.
    change ((tag (mkElement "LexicalResource" [("xmlns:dc", dc_uri)] None),
             attrib (mkElement "LexicalResource" [("xmlns:dc", dc_uri)] None))
            :: as_tags (descendants
                          (Node (mkElement "LexicalResource"
                                   [("xmlns:dc", dc_uri)] None) lexs)))
      with (as_tags (mkElement "LexicalResource" [("xmlns:dc", dc_uri)] None
                     :: descendants
                          (Node (mkElement "LexicalResource"
                                   [("xmlns:dc", dc_uri)] None) lexs))) in E.
    apply (scan_feed_records _) in E. cbn [resources is_resource str_in existsb
      tag String.eqb Ascii.eqb Bool.eqb orb] in E.
    unfold descendants in E. cbn [children_of] in E.
    clear -E Hdesc. revert infos0 E.
    induction Hdesc as [|[e cs] ts [Hr Hd] _ IH]; intros infos E.
    - inversion E. constructor.
    - cbn [map concat elements_of] in E. rewrite <- app_comm_cons in E.
      cbn [resources] in E. unfold tag_of in Hr. cbn [root_elem] in Hr.
      rewrite Hr in E. inversion E as [|? info ? news Hi Hf]; subst.
      constructor.
      + destruct Hi as [Hk _]. exact Hk.
      + apply IH. clear -Hf Hd Hr.
        assert (Hno : forall l, resources (concat (map elements_of cs) ++ l)
                                = resources l).
        { clear Hf. intros l. unfold descendants in Hd. cbn [children_of] in Hd.
          induction Hd as [|x xs Hx _ IHx]; [reflexivity|].
          rewrite <- app_comm_cons. cbn [resources].
          assert (Hx' : is_resource (tag x) = false).
          { unfold is_resource.
            destruct (str_in (tag x) ["Lexicon"; "LexiconExtension"]) eqn:E;
              [|reflexivity].
            apply str_in_true in E. apply str_in_true in Hx. exfalso.
            destruct E as [E|[E|[]]]; rewrite <- E in Hx; simpl in Hx;
              repeat (destruct Hx as [Hx|Hx]; [discriminate Hx|]); exact Hx. }
          rewrite Hx'. exact IHx. }
        rewrite Hno in Hf. exact Hf. }
  clear Hrec Hdesc.
  revert infos Hscan Hids. induction Htrees as [|lexicon t ls ts Hl _ IH];
    intros infos Hscan Hids.
  - inversion Hscan. constructor.
  - inversion Hscan as [|? info ? infos' Hi Hf]; subst.
    inversion Hids as [|? ? ? ? Hid Hids']; subst.
    constructor; [|apply IH; assumption].
    destruct Hl as (entries & synsets & Htag & Hidt & Hc & Hle & Hls & He & Hs).
    split.
    + rewrite Hid by discriminate. by rewrite Hidt.
    + destruct Hi as (counts & Hcounts & Hn). exists counts.
      split; [exact Hcounts|].
      rewrite !Hn by discriminate. unfold descendants.
      rewrite Hc, map_app, concat_app, !occurrences_app.
      rewrite (occurrences_shaped "LexicalEntry" below_entry entries eq_refl He).
      rewrite (occurrences_other "LexicalEntry" "Synset" below_synset synsets)
        by (discriminate || reflexivity || exact Hs).
      rewrite (occurrences_other "Synset" "LexicalEntry" below_entry entries)
        by (discriminate || reflexivity || exact He).
      rewrite (occurrences_shaped "Synset" below_synset synsets eq_refl Hs).
      lia.
Qed.

(** X17.  The scanner on a document [dump] wrote.  When the parser
    accepts the file, [scan_lexicons] returns one record per lexicon, in
    order, with the [id] of the lexicon, a count of [LexicalEntry] equal to
    the number of its entries and a count of [Synset] equal to the number
    of its synsets.  When the parser rejects the file, as it does at a
    character that XML forbids and that [dump] writes as it is, the handler
    has not raised on the start tags read so far, however many they are,
    and [scan_lexicons] raises the [LMFError]. *)
Theorem dump_scan lexicons version d :
  dump lexicons version = Ok d ->
  (exists infos,
     scan_lexicons (expat_tags (doc_root d)) true = Ok infos
     /\ Forall2 (fun lexicon info =>
                   dget "id" info = Some (IStr (Lexicon_id lexicon))
                   /\ exists counts,
                        dget "counts" info = Some (ICounts counts)
                        /\ count_of counts "LexicalEntry"
                           = length (Lexicon_lexical_entries lexicon)
                        /\ count_of counts "Synset"
                           = length (Lexicon_synsets lexicon))
                lexicons infos)
  /\ (forall n,
        scan_lexicons (take n (expat_tags (doc_root d))) false
        = Raise (LMFError "invalid or ill-formed WN-LMF file")).
Proof.
  intros H. destruct (dump_scan_records _ _ _ H) as (infos & Hs & Hf).
  split; [eauto|]. intros n. unfold scan_lexicons in *.
  destruct (scan_feed (expat_tags (doc_root d)) []) as [all|] eqn:E;
    [|discriminate].
  rewrite <- (take_drop n (expat_tags (doc_root d))), scan_feed_app in E.
  destruct (scan_feed (take n (expat_tags (doc_root d))) []); [|discriminate].
  reflexivity.
Qed.

(** *** A whole graph, written and loaded again *)

Lemma reparsed_total_length uri ts1 ts2 :
  length (reparsed uri (ts1 ++ ts2))
  = length (reparsed uri ts1) + length (reparsed uri ts2).
Proof. by rewrite reparsed_app, length_app. Qed.

Lemma build_lemma_attrib lemma :
  exists attrib_,
    plain attrib_
    /\ _build_lemma (Some lemma)
       = Ok (elem "Lemma" attrib_ None (map _build_tag (Lemma_tags lemma)))
    /\ dget "writtenForm" attrib_ = Some (Lemma_form lemma)
    /\ dget "partOfSpeech" attrib_ = Some (Lemma_pos lemma)
    /\ dget "script" attrib_ = reread_option (Lemma_script lemma).
Proof.
  unfold _build_lemma, reread_option.
  destruct (otruthy (Lemma_script lemma)) eqn:Ht.
  - eexists. split; [|split; [reflexivity|]].
    + cbn [dset String.eqb Ascii.eqb Bool.eqb]. repeat constructor.
    + repeat split; try reflexivity.
      destruct (Lemma_script lemma); [reflexivity|discriminate].
  - eexists. split; [|split; [reflexivity|]].
    + cbn [dset String.eqb Ascii.eqb Bool.eqb]. repeat constructor.
    + repeat split; reflexivity.
Qed.

Lemma get_literal_pos pos c :
  _get_literal (Some pos) PARTS_OF_SPEECH c
  = Done pos (mkCursor (pending c) (log c ++ pos_warnings pos)).
Proof.
  unfold pos_warnings. destruct (str_in pos PARTS_OF_SPEECH) eqn:Hin.
  - rewrite get_literal_inside by exact Hin. destruct c. cbn [pending log].
    by rewrite app_nil_r.
  - by rewrite get_literal_outside.
Qed.

Lemma lemma_run uri fuel lemma attrib_ rest w :
  plain attrib_ ->
  dget "writtenForm" attrib_ = Some (Lemma_form lemma) ->
  dget "partOfSpeech" attrib_ = Some (Lemma_pos lemma) ->
  dget "script" attrib_ = reread_option (Lemma_script lemma) ->
  length (Lemma_tags lemma) < fuel ->
  _load_lemma fuel
    (mkCursor (reparsed uri [elem "Lemma" attrib_ None
                               (map _build_tag (Lemma_tags lemma))] ++ rest) w)
  = Done (reread_lemma lemma)
         (mkCursor rest (w ++ pos_warnings (Lemma_pos lemma))).
Proof.
  intros Hp Hw Hpos Hs Hf. unfold _load_lemma.
  rewrite reparsed_cons, reparsed_nil, plain_expand_id by exact Hp. cbn [app].
  step ltac:(apply start_at; reflexivity).
  cbn [attrib].
  step ltac:(apply lift_dindex; exact Hw).
  step ltac:(apply lift_dindex; exact Hpos).
  step ltac:(apply get_literal_pos).
  cbn [pending log]. rewrite <- app_assoc. cbn [app].
  step ltac:(apply load_tags_reread; [reflexivity|exact Hf]).
  step ltac:(apply end_at; reflexivity).
  rewrite Hs. reflexivity.
Qed.

Lemma insert_sorted_Forall (P : string -> Prop) x l :
  P x -> Forall P l -> Forall P (insert_sorted x l).
Proof.
  intros Hx Hl. induction Hl as [|y l Hy Hl IH]; simpl; [by repeat constructor|].
  destruct (String.leb x y); repeat constructor; assumption.
Qed.

Lemma sorted_Forall (P : string -> Prop) l : Forall P l -> Forall P (sorted l).
Proof.
  induction 1 as [|x l Hx _ IH]; simpl; [constructor|].
  by apply insert_sorted_Forall.
Qed.

Lemma entry_behaviours_tokens entry sbmap :
  Forall (fun sense => token (Sense_id sense)) (LexicalEntry_senses entry) ->
  Forall (fun sb => Forall token (sb_senses sb)) (entry_behaviours entry sbmap).
Proof.
  intros H. apply Forall_forall. intros sb Hin.
  apply list_elem_of_In in Hin. unfold entry_behaviours in Hin.
  apply in_flat_map in Hin as (sid & _ & Hin).
  apply in_map_iff in Hin as (sb0 & <- & _). cbn [sb_senses].
  apply sorted_Forall, Forall_forall. intros s Hs.
  apply elem_of_remove_dups, list_elem_of_filter in Hs as [_ Hs].
  apply list_elem_of_fmap in Hs as (sense & -> & Hsense).
  rewrite Forall_forall in H. by apply H.
Qed.

Lemma written_behaviours_tokens version entry sbmap :
  (version = "1.0" ->
   Forall (fun sense => token (Sense_id sense)) (LexicalEntry_senses entry)) ->
  Forall (fun sb => Forall token (sb_senses sb))
         (written_behaviours version entry sbmap).
Proof.
  intros H. unfold written_behaviours.
  destruct (String.eqb_spec version "1.0") as [E|_]; [|constructor].
  by apply entry_behaviours_tokens, H.
Qed.

Lemma entry_syntactic_behaviours_built entry sbmap :
  entry_syntactic_behaviours entry sbmap
  = map (fun sb => _build_syntactic_behaviour_1_0 (sb_frame sb) (sb_senses sb))
        (entry_behaviours entry sbmap).
Proof.
  unfold entry_syntactic_behaviours, entry_behaviours.
  generalize (set_iter (map Sense_id (LexicalEntry_senses entry))) as l.
  induction l as [|sid l IH]; [reflexivity|].
  cbn [flat_map]. rewrite map_app, IH, map_map. reflexivity.
Qed.

Lemma behaviours_run version uri sbs fuel rest w :
  stops "SyntacticBehaviour" rest ->
  Forall (fun sb => Forall token (sb_senses sb)) sbs ->
  length sbs < fuel ->
  _load_syntactic_behaviours fuel version
    (mkCursor
       (reparsed uri
          (map (fun sb =>
                  _build_syntactic_behaviour_1_0 (sb_frame sb) (sb_senses sb))
               sbs) ++ rest) w)
  = Done sbs (mkCursor rest w).
Proof.
  intros Hr Ht Hf. unfold _load_syntactic_behaviours.
  etransitivity.
  - refine (leaf_loop_run "SyntacticBehaviour" _
              (fun sb => _build_syntactic_behaviour_1_0 (sb_frame sb) (sb_senses sb))
              (fun sb => sb) uri sbs _ fuel [] rest w Hr Hf).
    intros [frame senses] Hin. rewrite Forall_forall in Ht.
    pose proof (Ht _ (proj2 (list_elem_of_In _ _) Hin)) as Hs.
    cbn [sb_senses sb_frame] in *. unfold _build_syntactic_behaviour_1_0.
    eexists _, _. split; [reflexivity|]. intros acc c. cbn [attrib text].
    step ltac:(apply lift_dindex; reflexivity).
    change (dget "senses" _) with (Some (join " " senses)).
    change (default "" (Some (join " " senses))) with (join " " senses).
    by rewrite split_ws_join.
  - by rewrite map_id.
Qed.

Lemma dump_lexical_entry_inv entry sbmap version t :
  _dump_lexical_entry entry sbmap version = Ok t ->
  exists lemma attrib_,
    LexicalEntry_lemma entry = Some lemma
    /\ plain attrib_
    /\ dget "writtenForm" attrib_ = Some (Lemma_form lemma)
    /\ dget "partOfSpeech" attrib_ = Some (Lemma_pos lemma)
    /\ dget "script" attrib_ = reread_option (Lemma_script lemma)
    /\ t = elem "LexicalEntry"
             ([("id", LexicalEntry_id entry)]
              ++ _meta_dict (LexicalEntry_meta entry)) None
             ([elem "Lemma" attrib_ None (map _build_tag (Lemma_tags lemma))]
              ++ map _build_form (LexicalEntry_forms entry)
              ++ map _build_sense (LexicalEntry_senses entry)
              ++ map (fun sb =>
                        _build_syntactic_behaviour_1_0 (sb_frame sb) (sb_senses sb))
                     (written_behaviours version entry sbmap)).
Proof.
  unfold _dump_lexical_entry.
  destruct (LexicalEntry_lemma entry) as [lemma|] eqn:Hl; [|discriminate].
  destruct (build_lemma_attrib lemma) as (attrib_ & Hp & Hb & Hw & Hpos & Hs).
  rewrite Hb. cbn [rbind]. intros [= <-].
  exists lemma, attrib_. repeat (split; [assumption || reflexivity|]).
  rewrite dupdate_meta;
    [|repeat constructor
     |apply (bool_decide_unpack (NoDup ["id"])); vm_compute; reflexivity].
  unfold written_behaviours. destruct (String.eqb version "1.0").
  - rewrite entry_syntactic_behaviours_built, <- !app_assoc. reflexivity.
  - cbn [map]. rewrite !app_nil_r. reflexivity.
Qed.

Lemma entries_run version uri sbmap entries ts fuel rest w :
  dget version _DC_URIS = Some uri ->
  Forall2 (fun entry t => _dump_lexical_entry entry sbmap version = Ok t)
          entries ts ->
  Forall (reloadable_entry version) entries ->
  stops "LexicalEntry" rest ->
  length (reparsed uri ts) < fuel ->
  _load_lexical_entries fuel false version
    (mkCursor (reparsed uri ts ++ rest) w)
  = Done (map reread_entry entries,
          flat_map (fun entry => written_behaviours version entry sbmap) entries)
         (mkCursor rest (w ++ flat_map entry_warnings entries)).
Proof.
  intros Hu H2 Hall Hr Hf.
  assert (Hfs : Forall (fun t => length (reparsed uri (children_of t)) < fuel) ts)
    by (by apply reparsed_children_length).
  assert (Hn : length entries < fuel).
  { pose proof (reparsed_length uri ts) as Hl.
    rewrite (Forall2_length _ _ _ H2). lia. }
  clear Hf. unfold _load_lexical_entries.
  match goal with
  | |- while_ _ ?body _ _ = _ => set (B := body)
  end.
  change (map reread_entry entries) with ([] ++ map reread_entry entries).
  change (flat_map (fun entry => written_behaviours version entry sbmap) entries)
    with ([] ++ flat_map (fun entry => written_behaviours version entry sbmap)
                         entries).
  generalize (@nil LexicalEntry) as accE.
  generalize (@nil SyntacticBehaviour) as accS.
  revert w Hn. generalize fuel at 1 2 as n.
  revert ts H2 Hfs.
  induction entries as [|entry entries IH]; intros ts H2 Hfs n w Hn accS accE.
  - apply Forall2_nil_inv_l in H2 as ->.
    destruct n as [|n]; [simpl in Hn; lia|].
    cbn [map flat_map]. rewrite reparsed_nil, !app_nil_r. cbn [app].
    apply while_none. subst B. cbv beta iota.
    step ltac:(apply starts_stops, Hr).
    step ltac:(reflexivity). reflexivity.
  - apply Forall2_cons_inv_l in H2 as (t & ts' & Ht & H2 & ->).
    destruct n as [|n]; [simpl in Hn; lia|].
    apply Forall_cons_1 in Hall
      as [(Hsenses & Hmeta & Htok) Hall].
    apply Forall_cons_1 in Hfs as [Hft Hfs].
    destruct (dump_lexical_entry_inv _ _ _ _ Ht)
      as (lemma & attrib_ & Hl & Hp & Hw & Hpos & Hs & ->).
    cbn [children_of elem] in Hft.
    rewrite !reparsed_total_length in Hft.
    pose proof (reparsed_length uri (map _build_tag (Lemma_tags lemma))) as L1.
    pose proof (reparsed_length uri (map _build_form (LexicalEntry_forms entry)))
      as L2.
    pose proof (reparsed_children_length uri
                  (map _build_form (LexicalEntry_forms entry)) fuel) as L3.
    pose proof (reparsed_length uri
                  (map (fun sb => _build_syntactic_behaviour_1_0
                                    (sb_frame sb) (sb_senses sb))
                       (written_behaviours version entry sbmap))) as L4.
    rewrite reparsed_cons, reparsed_nil in Hft. cbn [app length] in Hft.
    rewrite length_app in Hft. cbn [length] in Hft.
    rewrite !length_map in *.
    assert (Hfl : Forall (fun form => length (Form_tags form) < fuel)
                         (LexicalEntry_forms entry)).
    { assert (L3' := L3 ltac:(lia)). rewrite Forall_map in L3'.
      eapply Forall_impl; [exact L3'|]. intros form Hform. cbv beta in Hform.
      destruct (build_form_attrib form) as (a & Hb & _).
      rewrite Hb in Hform. cbn [children_of elem] in Hform.
      pose proof (reparsed_length uri (map _build_tag (Form_tags form))) as Hl'.
      rewrite length_map in Hl'. lia. }
    assert (Hp0 : plain [("id", LexicalEntry_id entry)]) by (repeat constructor).
    set (A := [("id", LexicalEntry_id entry)]
              ++ _meta_dict (LexicalEntry_meta entry)).
    cbn [map flat_map]. rewrite reparsed_cons, !reparsed_app. cbn [app].
    erewrite while_some; cycle 1.
    { subst B. cbv beta iota.
      step ltac:(eapply starts_at; reflexivity).
      cbn [is_start andb tag].
      change (str_in "LexicalEntry" ["LexicalEntry"]) with true. cbv iota.
      step ltac:(apply start_at; reflexivity).
      cbn [attrib]. unfold A.
      step ltac:(apply lift_dindex; rewrite framed_dget_plain;
                 [reflexivity|exact Hp0|reflexivity]).
      rewrite <- !app_assoc.
      step ltac:(apply lemma_run; [exact Hp|exact Hw|exact Hpos|exact Hs|lia]).
      step ltac:(apply (forms_loop uri fuel (LexicalEntry_forms entry));
                 [apply stops_map; [intros x; discriminate|];
                  apply stops_map; [intros x; discriminate|]; apply stops_end
                 |exact Hfl|lia]).
      step ltac:(apply senses_run;
                 [exact Hu|exact Hsenses
                 |apply stops_map; [intros x; discriminate|]; apply stops_end
                 |discriminate|lia]).
      step ltac:(apply metadata_reread_base; [exact Hu|exact Hp0|exact Hmeta]).
      step ltac:(apply behaviours_run;
                 [apply stops_end
                 |apply written_behaviours_tokens; exact Htok|lia]).
      step ltac:(apply end_at; reflexivity).
      reflexivity. }
    cbn [pending log].
    rewrite IH by (assumption || simpl in Hn; lia).
    unfold reread_entry, entry_warnings. rewrite Hl.
    rewrite <- !app_assoc. reflexivity.
Qed.

Lemma stops_forest T uri ts rest :
  Forall (fun t => tag_of t <> T) ts -> stops T rest ->
  stops T (reparsed uri ts ++ rest).
Proof.
  intros Hts Hr. destruct Hts as [|[[tg at_ tx] cs] ts Ht _]; [exact Hr|].
  change (Node (mkElement tg at_ tx) cs) with (elem tg at_ tx cs).
  rewrite reparsed_cons. exact Ht.
Qed.

Lemma dump_lexicon_inv lexicon version t :
  _dump_lexicon lexicon version = Ok t ->
  exists pre ts,
    t = elem "Lexicon" (pre ++ _meta_dict (Lexicon_meta lexicon)) None
          (ts ++ map (fun synset => _dump_synset synset version)
                     (Lexicon_synsets lexicon))
    /\ plain pre
    /\ dget "id" pre = Some (Lexicon_id lexicon)
    /\ dget "label" pre = Some (Lexicon_label lexicon)
    /\ dget "language" pre = Some (Lexicon_language lexicon)
    /\ dget "email" pre = Some (Lexicon_email lexicon)
    /\ dget "license" pre = Some (Lexicon_license lexicon)
    /\ dget "version" pre = Some (Lexicon_version lexicon)
    /\ dget "url" pre = reread_option (Lexicon_url lexicon)
    /\ dget "citation" pre = reread_option (Lexicon_citation lexicon)
    /\ Forall2 (fun entry t =>
                  _dump_lexical_entry entry
                    (build_sbmap version (Lexicon_syntactic_behaviours lexicon))
                    version = Ok t)
               (Lexicon_lexical_entries lexicon) ts.
Proof.
  unfold _dump_lexicon.
  destruct (traverse _ (Lexicon_lexical_entries lexicon)) as [ts|] eqn:He;
    [|discriminate].
  apply traverse_inv in He. cbn [rbind]. intros [= <-].
  unfold reread_option.
  destruct (Lexicon_url lexicon) as [url|], (Lexicon_citation lexicon) as [cit|];
    cbn [otruthy default];
    repeat match goal with
           | |- context [truthy ?s] => destruct (truthy s)
           end;
    eexists _, ts;
    (split;
     [rewrite dupdate_meta;
      [reflexivity|repeat constructor
      |match goal with
       | |- NoDup ?l =>
           apply (bool_decide_unpack (NoDup l)); vm_compute; reflexivity
       end]|]);
    (split; [repeat constructor|]);
    do 8 (split; [reflexivity|]); exact He.
Qed.

Lemma lexicon_run version uri lexicon t fuel rest w :
  dget version _DC_URIS = Some uri ->
  _dump_lexicon lexicon version = Ok t ->
  reloadable_lexicon version lexicon ->
  length (reparsed uri [t]) < fuel ->
  _load_lexicon fuel version (mkCursor (reparsed uri [t] ++ rest) w)
  = Done (reread_lexicon version lexicon)
         (mkCursor rest (w ++ lexicon_warnings lexicon)).
Proof.
  intros Hu Ht (Hentries & Hsynsets & Hmeta) Hf.
  destruct (dump_lexicon_inv _ _ _ Ht)
    as (pre & ts & -> & Hp & Hid & Hlabel & Hlang & Hemail & Hlic & Hver
        & Hurl & Hcit & H2).
  rewrite reparsed_cons, reparsed_nil in Hf. cbn [app length] in Hf.
  rewrite length_app, reparsed_total_length in Hf. cbn [length] in Hf.
  destruct fuel as [|fuel']; [lia|]. set (fuel := S fuel') in *.
  assert (Htags : Forall (fun t => tag_of t = "LexicalEntry") ts).
  { clear -H2. induction H2 as [|entry t l ts' Hd _ IH]; constructor; [|exact IH].
    destruct (dump_lexical_entry_inv _ _ _ _ Hd) as (? & ? & _ & _ & _ & _ & _ & ->).
    reflexivity. }
  set (A := pre ++ _meta_dict (Lexicon_meta lexicon)).
  unfold _load_lexicon.
  rewrite reparsed_cons, reparsed_nil, reparsed_app. cbn [app].
  rewrite <- !app_assoc. cbn [app].
  step ltac:(destruct (String.eqb version "1.0");
             [step ltac:(apply start_at; reflexivity); reflexivity
             |step ltac:(apply start_at; reflexivity);
              cbn [tag];
              change (String.eqb "Lexicon" "LexiconExtension") with false;
              cbv iota;
              step ltac:(reflexivity);
              step ltac:(apply loop_stops;
                         apply stops_forest;
                         [eapply Forall_impl; [exact Htags|];
                          intros x Hx; cbv beta in Hx; rewrite Hx; discriminate
                         |apply stops_map; [intros x; discriminate|];
                          apply stops_end]);
              reflexivity]).
  cbv beta iota zeta. cbn [attrib tag].
  step ltac:(apply entries_run;
             [exact Hu|exact H2|exact Hentries
             |apply stops_map; [intros x; discriminate|]; apply stops_end
             |lia]).
  step ltac:(apply synsets_run;
             [exact Hu|reflexivity
             |exact Hsynsets
             |lia]).
  unfold A.
  step ltac:(apply lift_dindex; rewrite framed_dget_plain;
             [exact Hid|exact Hp|reflexivity]).
  step ltac:(apply lift_dindex; rewrite framed_dget_plain;
             [exact Hlabel|exact Hp|reflexivity]).
  step ltac:(apply lift_dindex; rewrite framed_dget_plain;
             [exact Hlang|exact Hp|reflexivity]).
  step ltac:(apply lift_dindex; rewrite framed_dget_plain;
             [exact Hemail|exact Hp|reflexivity]).
  step ltac:(apply lift_dindex; rewrite framed_dget_plain;
             [exact Hlic|exact Hp|reflexivity]).
  step ltac:(apply lift_dindex; rewrite framed_dget_plain;
             [exact Hver|exact Hp|reflexivity]).
  step ltac:(apply metadata_reread_base; [exact Hu|exact Hp|exact Hmeta]).
  step ltac:(apply end_at; reflexivity).
  rewrite !framed_dget_plain by (exact Hp || reflexivity).
  rewrite Hurl, Hcit. cbn [fst snd log pending].
  unfold reread_lexicon, lexicon_warnings, ret.
  rewrite <- !app_assoc. reflexivity.
Qed.

Lemma lexicons_run version uri fuel rest :
  dget version _DC_URIS = Some uri ->
  rest_ok rest ->
  forall lexicons ts,
    Forall2 (fun lexicon t => _dump_lexicon lexicon version = Ok t) lexicons ts ->
    Forall (reloadable_lexicon version) lexicons ->
    length (reparsed uri ts) < fuel ->
    forall n acc w,
      length lexicons < n ->
      while_ n
        (fun lexicons0 =>
           b <- starts ["Lexicon"; "LexiconExtension"] ;;
           if b then
             lex <- _load_lexicon fuel version ;;
             ret (Some (lexicons0 ++ [lex]))
           else ret None) acc
        (mkCursor (reparsed uri ts ++ rest) w)
      = Done (acc ++ map (reread_lexicon version) lexicons)
             (mkCursor rest (w ++ flat_map lexicon_warnings lexicons)).
Proof.
  intros Hu Hr lexicons ts H2.
  induction H2 as [|lexicon t lexicons ts Ht _ IH]; intros Hall Hf n acc w Hn.
  - destruct n as [|n]; [simpl in Hn; lia|].
    cbn [map flat_map]. rewrite reparsed_nil, !app_nil_r. cbn [app].
    apply while_none.
    step ltac:(apply starts_rest_ok; exact Hr). reflexivity.
  - destruct n as [|n]; [simpl in Hn; lia|].
    apply Forall_cons_1 in Hall as [Hlex Hall].
    change (t :: ts) with ([t] ++ ts) in Hf |- *.
    rewrite reparsed_total_length in Hf.
    rewrite reparsed_app, <- app_assoc.
    assert (Htag : exists e cs, t = Node e cs /\ tag e = "Lexicon").
    { destruct (dump_lexicon_inv _ _ _ Ht) as (pre & ts0 & -> & _).
      eexists _, _. split; reflexivity. }
    destruct Htag as (e & cs & Et & Htag).
    erewrite while_some; cycle 1.
    { step ltac:(eapply starts_at; subst t; unfold reparsed, events_of_forest;
                 cbn [map expand concat events_of app]; reflexivity).
      cbn [is_start andb tag]. rewrite Htag.
      change (str_in "Lexicon" ["Lexicon"; "LexiconExtension"]) with true.
      cbv iota.
      step ltac:(apply lexicon_run; [exact Hu|exact Ht|exact Hlex|lia]).
      reflexivity. }
    rewrite IH by (assumption || simpl in Hn; lia).
    cbn [map flat_map]. rewrite <- !app_assoc. reflexivity.
Qed.

Lemma load_events_run version uri lexicons ts :
  dget version _DC_URIS = Some uri ->
  Forall2 (fun lexicon t => _dump_lexicon lexicon version = Ok t) lexicons ts ->
  Forall (reloadable_lexicon version) lexicons ->
  let events := iterparse (mkDocument _XMLDECL EmptyString
                  (elem "LexicalResource" [("xmlns:dc", uri)] None ts)) in
  load_events (S (length events)) version (mkCursor events [])
  = Done (map (reread_lexicon version) lexicons)
         (mkCursor [] (flat_map lexicon_warnings lexicons)).
Proof.
  intros Hu Ht Hall events.
  assert (Hev : events
                = (start_ev, mkElement "LexicalResource" [] None)
                  :: reparsed uri ts
                  ++ [(end_ev, mkElement "LexicalResource" [] None)])
    by reflexivity.
  rewrite Hev. set (fuel := S (length _)).
  assert (Hf : length (reparsed uri ts) < fuel).
  { subst fuel. cbn [length]. rewrite length_app. cbn [length]. lia. }
  unfold load_events.
  step ltac:(apply start_at; reflexivity).
  cbn [log].
  step ltac:(apply (lexicons_run version uri fuel
                      [(end_ev, mkElement "LexicalResource" [] None)]
                      Hu eq_refl lexicons ts Ht Hall Hf fuel [] []);
             pose proof (reparsed_length uri ts);
             rewrite (Forall2_length _ _ _ Ht); lia).
  step ltac:(apply end_at; reflexivity).
  step ltac:(reflexivity).
  reflexivity.
Qed.

Lemma written_header version schema root :
  dget version _SCHEMAS = Some schema ->
  _read_header (file_head (mkDocument _XMLDECL (_DOCTYPE schema) root))
  = Ok version.
Proof.
  intros Hs.
  destruct (schema_cases _ _ Hs) as [[-> ->]|[-> ->]]; vm_compute; reflexivity.
Qed.

(** X18.  Loading the file [dump] wrote gives the graph back up to what
    the serializer does not write and to what the parser changes: for a
    graph whose records are as [load] builds them, with an [ili] on every
    synset, written to a file whose strings are of characters XML allows,
    the reload answers [reread_lexicon] of every lexicon.  The
    dependencies, the metadata of the examples and the slots [status],
    [note] and [confidence] are lost, the entries, senses and synsets are
    no longer external, the behaviours are those written in the entries at
    version 1.0 and none at version 1.1, and the texts of the tags,
    examples and definitions come back as the parser gives them, an empty
    text as [None] and every carriage return, with the line feed that may
    follow it, as one line feed.  The warnings are one for every part of
    speech and every [adjposition] outside its vocabulary. *)
Theorem dump_load lexicons version d :
  dump lexicons version = Ok d ->
  xml_tree (doc_root d) = true ->
  Forall (reloadable_lexicon version) lexicons ->
  load (file_head d) (iterparse d)
  = Done (map (reread_lexicon version) lexicons)
         (mkCursor [] (flat_map lexicon_warnings lexicons)).
Proof.
  intros Hd _ Hall.
  apply dump_inv in Hd as (schema & dc_uri & lexs & Hs & Hu & Ht & ->).
  apply traverse_inv in Ht.
  unfold load. rewrite (written_header _ _ _ Hs).
  exact (load_events_run version dc_uri lexicons lexs Hu Ht Hall).
Qed.

(** *** The second round trip *)

Lemma reread_option_twice o : reread_option (reread_option o) = reread_option o.
Proof.
  unfold reread_option. destruct (otruthy o) eqn:H; [by rewrite H|reflexivity].
Qed.

Lemma take_reread (slots : Metadata) (l : Metadata) :
  length slots = 17 -> take 14 (take 14 slots ++ l) = take 14 slots.
Proof.
  intros Hl. apply take_app_length'. rewrite length_take. lia.
Qed.

Lemma reread_metadata_loaded m :
  loaded_metadata m -> loaded_metadata (m ≫= reread_metadata).
Proof.
  destruct m as [slots|]; [|intros _; exact I]. intros [Hl Hs].
  cbn [mbind option_bind]. unfold reread_metadata.
  destruct (existsb _ _); [|exact I]. split.
  - rewrite length_app, length_take. cbn [length]. lia.
  - by rewrite take_reread.
Qed.

Lemma reread_metadata_twice m :
  loaded_metadata m ->
  (m ≫= reread_metadata) ≫= reread_metadata = m ≫= reread_metadata.
Proof.
  destruct m as [slots|]; [|reflexivity]. intros [Hl Hs].
  cbn [mbind option_bind]. unfold reread_metadata at 2 3.
  destruct (existsb _ (take 14 slots)) eqn:He; [|reflexivity].
  cbn [mbind option_bind]. unfold reread_metadata.
  by rewrite take_reread, He.
Qed.

Lemma map_twice {A} (f : A -> A) l :
  Forall (fun x => f (f x) = f x) l -> map f (map f l) = map f l.
Proof.
  induction 1 as [|x l Hx _ IH]; [reflexivity|]. cbn [map]. by rewrite Hx, IH.
Qed.

Lemma Forall_map_impl {A B} (P : A -> Prop) (Q : B -> Prop) (f : A -> B) l :
  (forall x, P x -> Q (f x)) -> Forall P l -> Forall Q (map f l).
Proof. intros H. induction 1; constructor; auto. Qed.

Lemma reread_tags_twice tags :
  map reread_tag (map reread_tag tags) = map reread_tag tags.
Proof.
  apply map_twice, Forall_forall. intros t _. apply reread_tag_twice.
Qed.

Lemma reread_form_twice form : reread_form (reread_form form) = reread_form form.
Proof.
  unfold reread_form. cbn. by rewrite reread_option_twice, reread_tags_twice.
Qed.

Lemma reread_example_twice example :
  reread_example (reread_example example) = reread_example example.
Proof.
  unfold reread_example. cbn. by rewrite reread_option_twice, parsed_text_twice.
Qed.

Lemma reread_sense_loaded sense :
  loaded_sense sense -> loaded_sense (reread_sense sense).
Proof.
  intros (Hrel & Hcnt & Hmeta). unfold loaded_sense, reread_sense.
  cbn [Sense_relations Sense_examples Sense_counts Sense_meta].
  repeat split.
  - eapply Forall_map_impl; [|exact Hrel]. intros r [Ht Hm]. cbn.
    split; [exact Ht|by apply reread_metadata_loaded].
  - eapply Forall_map_impl; [|exact Hcnt]. intros c [Hv Hm]. cbn.
    split; [exact Hv|by apply reread_metadata_loaded].
  - by apply reread_metadata_loaded.
Qed.

Lemma reread_sense_twice sense :
  loaded_sense sense -> reread_sense (reread_sense sense) = reread_sense sense.
Proof.
  intros (Hrel & Hcnt & Hmeta). unfold reread_sense.
  cbn [Sense_id Sense_synset Sense_relations Sense_examples Sense_counts
       Sense_lexicalized Sense_adjposition Sense_meta].
  rewrite reread_metadata_twice by exact Hmeta.
  rewrite !map_twice; [reflexivity| | |].
  - eapply Forall_impl; [exact Hcnt|]. intros c [_ Hm]. unfold reread_count.
    cbn. by rewrite reread_metadata_twice.
  - apply Forall_forall. intros e _. apply reread_example_twice.
  - eapply Forall_impl; [exact Hrel|]. intros r [_ Hm].
    unfold reread_sense_relation. cbn. by rewrite reread_metadata_twice.
Qed.

Lemma reread_synset_loaded synset :
  loaded_synset synset -> loaded_synset (reread_synset synset).
Proof.
  intros (Hdef & Hili & Hrel & Hmeta). unfold loaded_synset, reread_synset.
  cbn [Synset_definitions Synset_ili_definition Synset_relations Synset_meta].
  repeat split.
  - eapply Forall_map_impl; [|exact Hdef]. intros x Hm. cbn.
    by apply reread_metadata_loaded.
  - destruct (Synset_ili_definition synset) as [x|]; [|exact I]. cbn.
    by apply reread_metadata_loaded.
  - eapply Forall_map_impl; [|exact Hrel]. intros r [Ht Hm]. cbn.
    split; [exact Ht|by apply reread_metadata_loaded].
  - by apply reread_metadata_loaded.
Qed.

Lemma reread_synset_twice synset :
  loaded_synset synset ->
  reread_synset (reread_synset synset) = reread_synset synset.
Proof.
  intros (Hdef & Hili & Hrel & Hmeta). unfold reread_synset.
  cbn [Synset_id Synset_ili Synset_pos Synset_definitions Synset_ili_definition
       Synset_relations Synset_examples Synset_lexicalized Synset_meta].
  rewrite reread_metadata_twice by exact Hmeta.
  rewrite !map_twice; [f_equal| | |].
  - destruct (Synset_ili_definition synset) as [x|]; [|reflexivity].
    cbn. unfold reread_ili_definition. cbn.
    by rewrite reread_metadata_twice, parsed_text_twice.
  - apply Forall_forall. intros e _. apply reread_example_twice.
  - eapply Forall_impl; [exact Hrel|]. intros r [_ Hm].
    unfold reread_synset_relation. cbn. by rewrite reread_metadata_twice.
  - eapply Forall_impl; [exact Hdef|]. intros x Hm.
    unfold reread_definition. cbn.
    by rewrite reread_metadata_twice, !reread_option_twice, parsed_text_twice.
Qed.

Lemma reread_entry_reloadable version entry :
  reloadable_entry version entry ->
  reloadable_entry version (reread_entry entry).
Proof.
  intros (Hsenses & Hmeta & Htok).
  unfold reloadable_entry, reread_entry.
  cbn [LexicalEntry_lemma LexicalEntry_forms LexicalEntry_senses
       LexicalEntry_meta].
  repeat split.
  - eapply Forall_map_impl; [|exact Hsenses]. apply reread_sense_loaded.
  - by apply reread_metadata_loaded.
  - intros Hv. eapply Forall_map_impl; [|exact (Htok Hv)]. intros x Hx. exact Hx.
Qed.

Lemma reread_entry_twice version entry :
  reloadable_entry version entry ->
  reread_entry (reread_entry entry) = reread_entry entry.
Proof.
  intros (Hsenses & Hmeta & Htok). unfold reread_entry.
  cbn [LexicalEntry_id LexicalEntry_lemma LexicalEntry_forms LexicalEntry_senses
       LexicalEntry_meta].
  rewrite reread_metadata_twice by exact Hmeta.
  rewrite !map_twice; [f_equal| |].
  - destruct (LexicalEntry_lemma entry) as [lemma|]; [|reflexivity].
    cbn. unfold reread_lemma. cbn.
    by rewrite reread_option_twice, reread_tags_twice.
  - eapply Forall_impl; [exact Hsenses|]. apply reread_sense_twice.
  - apply Forall_forall. intros f _. apply reread_form_twice.
Qed.

Lemma no_written_behaviours version sbmap entries :
  version <> "1.0" ->
  flat_map (fun entry => written_behaviours version entry sbmap) entries = [].
Proof.
  intros Hv. unfold written_behaviours.
  destruct (String.eqb_spec version "1.0") as [E|_]; [contradiction|].
  induction entries; [reflexivity|exact IHentries].
Qed.

Lemma reread_lexicon_reloadable version lexicon :
  reloadable_lexicon version lexicon ->
  reloadable_lexicon version (reread_lexicon version lexicon).
Proof.
  intros (He & Hs & Hm). unfold reloadable_lexicon, reread_lexicon.
  cbn [Lexicon_lexical_entries Lexicon_synsets Lexicon_meta].
  repeat split.
  - eapply Forall_map_impl; [|exact He]. apply reread_entry_reloadable.
  - eapply Forall_map_impl; [|exact Hs]. intros x (Hi & Hl).
    split; [exact Hi|by apply reread_synset_loaded].
  - by apply reread_metadata_loaded.
Qed.

Lemma reread_lexicon_twice version lexicon :
  version <> "1.0" ->
  reloadable_lexicon version lexicon ->
  reread_lexicon version (reread_lexicon version lexicon)
  = reread_lexicon version lexicon.
Proof.
  intros Hv (He & Hs & Hm). unfold reread_lexicon.
  cbn [Lexicon_id Lexicon_label Lexicon_language Lexicon_email Lexicon_license
       Lexicon_version Lexicon_url Lexicon_citation Lexicon_lexical_entries
       Lexicon_synsets Lexicon_syntactic_behaviours Lexicon_meta].
  rewrite !no_written_behaviours by exact Hv.
  rewrite reread_metadata_twice by exact Hm.
  rewrite !reread_option_twice.
  rewrite !map_twice; [reflexivity| |].
  - eapply Forall_impl; [exact Hs|]. intros x (_ & Hl).
    by apply reread_synset_twice.
  - eapply Forall_impl; [exact He|]. apply reread_entry_twice.
Qed.

Lemma reread_lexicon_warnings version lexicon :
  lexicon_warnings (reread_lexicon version lexicon) = lexicon_warnings lexicon.
Proof.
  unfold lexicon_warnings, reread_lexicon.
  cbn [Lexicon_lexical_entries Lexicon_synsets].
  rewrite !flat_map_concat_map, !map_map. f_equal; f_equal.
  - apply map_ext. intros entry. unfold entry_warnings, reread_entry.
    cbn [LexicalEntry_lemma LexicalEntry_senses].
    rewrite !flat_map_concat_map, map_map.
    destruct (LexicalEntry_lemma entry); reflexivity.
Qed.

Lemma dumped_has_lemmas lexicons version ts :
  Forall2 (fun lexicon t => _dump_lexicon lexicon version = Ok t) lexicons ts ->
  has_lemmas lexicons.
Proof.
  induction 1 as [|lexicon t lexicons ts Ht _ IH]; constructor; [|exact IH].
  destruct (dump_lexicon_inv _ _ _ Ht) as (pre & es & _ & _ & _ & _ & _ & _ & _
                                           & _ & _ & _ & H2).
  clear -H2. induction H2 as [|entry e l es' He _ IH]; constructor; [|exact IH].
  destruct (dump_lexical_entry_inv _ _ _ _ He) as (lemma & ? & -> & _).
  by eexists.
Qed.

(** X19.  At version 1.1 one round trip reaches a fixed point: the graph
    a reload gives ([reread_lexicon] of every lexicon, with the texts as
    the parser gave them back) can be written again, and loading that
    second file, when its strings are of characters XML allows, gives the
    same graph, with the same warnings. *)
Theorem reload_stable lexicons version d :
  version <> "1.0" ->
  dump lexicons version = Ok d ->
  Forall (reloadable_lexicon version) lexicons ->
  exists d',
    dump (map (reread_lexicon version) lexicons) version = Ok d'
    /\ (xml_tree (doc_root d') = true ->
        load (file_head d') (iterparse d')
        = Done (map (reread_lexicon version) lexicons)
               (mkCursor [] (flat_map lexicon_warnings lexicons))).
Proof.
  intros Hv Hd Hall.
  apply dump_inv in Hd as (schema & dc_uri & lexs & Hs & Hu & Ht & ->).
  apply traverse_inv, dumped_has_lemmas in Ht.
  destruct (traverse_total (fun lexicon => _dump_lexicon lexicon version)
              (map (reread_lexicon version) lexicons)) as [lexs' Hl].
  { eapply Forall_map_impl; [|exact Ht]. intros lexicon Hlex.
    apply (dump_lexicon_cases (reread_lexicon version lexicon) version).
    unfold reread_lexicon. cbn [Lexicon_lexical_entries].
    eapply Forall_map_impl; [|exact Hlex]. intros entry [lemma Hlm].
    unfold reread_entry. cbn [LexicalEntry_lemma]. rewrite Hlm. by eexists. }
  eexists. split.
  - unfold dump, dindex. rewrite Hs, Hu. cbn [rbind]. rewrite Hl. reflexivity.
  - intros _. apply traverse_inv in Hl.
    unfold load. rewrite (written_header _ _ _ Hs).
    etransitivity.
    + apply (load_events_run version dc_uri _ lexs' Hu Hl).
      eapply Forall_map_impl; [|exact Hall]. apply reread_lexicon_reloadable.
    + rewrite map_twice.
      * rewrite flat_map_concat_map, map_map, <- flat_map_concat_map.
        do 2 f_equal. apply flat_map_ext. intros lexicon.
        apply reread_lexicon_warnings.
      * eapply Forall_impl; [exact Hall|]. intros lexicon.
        by apply reread_lexicon_twice.
Qed.

(** *** The errors of a load *)

Lemma depth_start d l :
  depth_ok d l -> head_start l ->
  exists e l', l = (start_ev, e) :: l' /\ depth_ok (S d) l'.
Proof.
  intros Hd Hh. destruct d as [|d].
  - destruct Hd as [[|[e cs] ts] ->]; [contradiction|].
    rewrite forest_cons. eexists _, _. split; [reflexivity|].
    exists cs, e, (events_of_forest ts). split; [reflexivity|]. by exists ts.
  - destruct Hd as ([|[e cs] ts] & e0 & l0 & -> & Hd); [contradiction|].
    rewrite forest_cons. cbn [app]. eexists _, _. split; [reflexivity|].
    exists cs, e, (events_of_forest ts ++ (end_ev, e0) :: l0).
    split; [by rewrite <- app_assoc|]. by exists ts, e0, l0.
Qed.

Lemma depth_head d l :
  depth_ok (S d) l ->
  (exists e l', l = (start_ev, e) :: l' /\ depth_ok (S (S d)) l')
  \/ (exists e l', l = (end_ev, e) :: l' /\ depth_ok d l').
Proof.
  intros Hd. destruct Hd as ([|t ts] & e0 & l0 & E & Hd').
  - right. subst l. eauto.
  - left. apply depth_start.
    + by exists (t :: ts), e0, l0.
    + subst l. destruct t as [e cs]. rewrite forest_cons. exact I.
Qed.

Lemma keeps_runs {A} d (m : M A) : keeps m -> runs d m d.
Proof.
  intros H c Hc. specialize (H c). destruct (m c); auto. by rewrite H.
Qed.

Lemma runs_weaken {A} d (m : M A) d' : runs d m d' -> runs_at d m d'.
Proof. intros H c Hc _. by apply H. Qed.

Lemma runs_ret {A} d (a : A) : runs d (ret a) d.
Proof. intros c Hc. exact Hc. Qed.

Lemma runs_raise {A} d e d' : loader_error e -> runs d (@raise A e) d'.
Proof. intros H c _. exact H. Qed.

Lemma runs_bind {A B} d d1 d2 (m : M A) (k : A -> M B) :
  runs d m d1 -> (forall a, runs d1 (k a) d2) -> runs d (bind m k) d2.
Proof.
  intros Hm Hk c Hc. unfold bind. specialize (Hm c Hc).
  destruct (m c) as [a c1| |]; auto. by apply Hk.
Qed.

Lemma runs_at_bind {A B} d d1 d2 (m : M A) (k : A -> M B) :
  runs_at d m d1 -> (forall a, runs d1 (k a) d2) -> runs_at d (bind m k) d2.
Proof.
  intros Hm Hk c Hc Hh. unfold bind. specialize (Hm c Hc Hh).
  destruct (m c) as [a c1| |]; auto. by apply Hk.
Qed.

Lemma runs_guard {A} d d' tags (K E : M A) :
  runs_at d K d' -> runs d E d' ->
  runs d (b <- starts tags ;; if b then K else E) d'.
Proof.
  intros HK HE c Hc. unfold bind, starts.
  pose proof (HE c Hc) as HEc. pose proof (HK c Hc) as HKc.
  destruct (pending c) as [|[[|] e] l]; cbn [is_start andb]; [exact HEc| |exact HEc].
  destruct (str_in (tag e) tags); [exact (HKc I)|exact HEc].
Qed.

Lemma runs_guard_if {A} d d' (x : bool) tags (K E : M A) :
  runs_at d K d' -> runs d E d' ->
  runs d (b <- (if x then starts tags else ret false) ;; if b then K else E) d'.
Proof.
  intros HK HE. destruct x; [by apply runs_guard|].
  intros c Hc. apply HE, Hc.
Qed.

Lemma runs_while {S} d fuel (body : S -> M (option S)) s :
  (forall s, runs d (body s) d) -> runs d (while_ fuel body s) d.
Proof.
  intros Hb. revert s. induction fuel as [|fuel IH]; intros s c Hc; [exact I|].
  simpl. unfold bind. specialize (Hb s c Hc).
  destruct (body s c) as [[s'|] c1| |]; auto. by apply IH.
Qed.

Lemma runs_next_at d : runs_at d next_event (S d).
Proof.
  intros c Hc Hh. destruct (depth_start _ _ Hc Hh) as (e & l' & Hp & Hd).
  unfold next_event. rewrite Hp. exact Hd.
Qed.

Lemma runs_start_at d tags : runs_at d (start tags) (S d).
Proof.
  intros c Hc Hh. destruct (depth_start _ _ Hc Hh) as (e & l' & Hp & Hd).
  unfold start, bind, next_event. rewrite Hp. cbn [fst snd is_start negb].
  destruct (negb (str_in (tag e) tags)); [exact I|exact Hd].
Qed.

Lemma runs_start d tags : runs (S d) (start tags) (S (S d)).
Proof.
  intros c Hc.
  destruct (depth_head _ _ Hc) as [(e & l' & Hp & Hd)|(e & l' & Hp & Hd)];
    unfold start, bind, next_event; rewrite Hp; cbn [fst snd is_start negb].
  - destruct (negb (str_in (tag e) tags)); [exact I|exact Hd].
  - exact I.
Qed.

Lemma runs_end d tags : runs (S d) (end_ tags) d.
Proof.
  intros c Hc.
  destruct (depth_head _ _ Hc) as [(e & l' & Hp & Hd)|(e & l' & Hp & Hd)];
    unfold end_, bind, next_event; rewrite Hp; cbn [fst snd is_start negb].
  - exact I.
  - destruct (negb (str_in (tag e) tags)); [exact I|exact Hd].
Qed.

Lemma keeps_ret {A} (a : A) : keeps (ret a).
Proof. intros c. reflexivity. Qed.

Lemma keeps_warn w : keeps (warn w).
Proof. intros c. reflexivity. Qed.

Lemma keeps_dindex k (d : dict string) : keeps (lift (dindex k d)).
Proof. intros c. unfold dindex. destruct (dget k d); [reflexivity|exact I]. Qed.

Lemma keeps_quiet {A} (m : M A) : quiet m -> keeps m.
Proof. intros H c. destruct (H c) as (a & w & ->). reflexivity. Qed.

Lemma keeps_get_metadata attrs version : keeps (_get_metadata attrs version).
Proof.
  intros c. pose proof (still_get_metadata attrs version c) as Hs.
  destruct (_get_metadata attrs version c) as [a c'|e|] eqn:E;
    [by eapply Hs| |exact I].
  unfold _get_metadata, bind, dindex in E.
  destruct (dget version _DC_QNAME_PAIRS); [|by injection E as <-].
  cbn [lift ret] in E.
  destruct (dget "confidenceScore" attrs) as [value|].
  - destruct (py_float value) as [f|].
    + destruct (float_in_unit f); cbn in E;
        destruct (existsb _ _); discriminate.
    + cbn in E. destruct (existsb _ _); discriminate.
  - cbn in E. destruct (existsb _ _); discriminate.
Qed.

Lemma runs_drain d : runs d drain 0.
Proof. intros c _. by exists []. Qed.

Create HintDb runs discriminated.

(** The loaders are followed along their syntax, the depth of every
    intermediate state being found by unification. *)
Ltac runs_tac :=
  cbv beta zeta;
  lazymatch goal with
  | |- runs _ (bind (starts _) _) _ =>
      eapply runs_guard; [runs_at_tac|runs_tac]
  | |- runs _ (bind (if _ then starts _ else ret false) _) _ =>
      eapply runs_guard_if; [runs_at_tac|runs_tac]
  | |- runs _ (bind _ _) _ => eapply runs_bind; [runs_tac|intros; runs_tac]
  | |- runs _ (ret _) _ => apply runs_ret
  | |- runs _ (raise _) _ => apply runs_raise; exact I
  | |- runs _ (lift (dindex _ _)) _ => apply keeps_runs, keeps_dindex
  | |- runs _ (warn _) _ => apply keeps_runs, keeps_warn
  | |- runs _ (_get_literal _ _) _ =>
      apply keeps_runs, keeps_quiet, quiet_get_literal
  | |- runs _ (_get_bool _) _ => apply keeps_runs, keeps_quiet, quiet_get_bool
  | |- runs _ (_get_metadata _ _) _ => apply keeps_runs, keeps_get_metadata
  | |- runs _ (start _) _ => apply runs_start
  | |- runs _ (end_ _) _ => apply runs_end
  | |- runs _ drain _ => apply runs_drain
  | |- runs _ (while_ _ _ _) _ => apply runs_while; intros; runs_tac
  | |- runs _ (if ?b then _ else _) _ => destruct b; runs_tac
  | |- runs _ (match ?x with _ => _ end) _ => destruct x; runs_tac
  | |- _ => solve [eauto with runs]
  end
with runs_at_tac :=
  cbv beta zeta;
  lazymatch goal with
  | |- runs_at _ (bind next_event _) _ =>
      eapply runs_at_bind; [apply runs_next_at|intros; runs_tac]
  | |- runs_at _ (bind (start _) _) _ =>
      eapply runs_at_bind; [apply runs_start_at|intros; runs_tac]
  | |- runs_at _ (bind _ _) _ =>
      eapply runs_at_bind; [apply runs_weaken; runs_tac|intros; runs_tac]
  | |- _ => apply runs_weaken; runs_tac
  end.

Lemma runs_load_dependency d tag_ : runs (S d) (_load_dependency tag_) (S d).
Proof. unfold _load_dependency. runs_tac. Qed.
#[local] Hint Resolve runs_load_dependency : runs.

Lemma runs_load_tags d fuel : runs (S d) (_load_tags fuel) (S d).
Proof. unfold _load_tags. runs_tac. Qed.
#[local] Hint Resolve runs_load_tags : runs.

Lemma runs_load_lemma d fuel : runs (S d) (_load_lemma fuel) (S d).
Proof. unfold _load_lemma. runs_tac. Qed.
#[local] Hint Resolve runs_load_lemma : runs.

Lemma runs_load_forms d fuel : runs (S d) (_load_forms fuel) (S d).
Proof. unfold _load_forms. runs_tac. Qed.
#[local] Hint Resolve runs_load_forms : runs.

Lemma runs_load_sense_relations d fuel version :
  runs (S d) (_load_sense_relations fuel version) (S d).
Proof. unfold _load_sense_relations. runs_tac. Qed.
#[local] Hint Resolve runs_load_sense_relations : runs.

Lemma runs_load_examples d fuel version :
  runs (S d) (_load_examples fuel version) (S d).
Proof. unfold _load_examples. runs_tac. Qed.
#[local] Hint Resolve runs_load_examples : runs.

Lemma runs_load_counts d fuel version :
  runs (S d) (_load_counts fuel version) (S d).
Proof. unfold _load_counts. runs_tac. Qed.
#[local] Hint Resolve runs_load_counts : runs.

Lemma runs_load_senses d fuel external version :
  runs (S d) (_load_senses fuel external version) (S d).
Proof. unfold _load_senses. runs_tac. Qed.
#[local] Hint Resolve runs_load_senses : runs.

Lemma runs_load_syntactic_behaviours d fuel version :
  runs (S d) (_load_syntactic_behaviours fuel version) (S d).
Proof. unfold _load_syntactic_behaviours. runs_tac. Qed.
#[local] Hint Resolve runs_load_syntactic_behaviours : runs.

Lemma runs_load_lexical_entries d fuel extension version :
  runs (S d) (_load_lexical_entries fuel extension version) (S d).
Proof. unfold _load_lexical_entries. runs_tac. Qed.
#[local] Hint Resolve runs_load_lexical_entries : runs.

Lemma runs_load_definitions d fuel version :
  runs (S d) (_load_definitions fuel version) (S d).
Proof. unfold _load_definitions. runs_tac. Qed.
#[local] Hint Resolve runs_load_definitions : runs.

Lemma runs_load_ilidefinition d version :
  runs (S d) (_load_ilidefinition version) (S d).
Proof. unfold _load_ilidefinition. runs_tac. Qed.
#[local] Hint Resolve runs_load_ilidefinition : runs.

Lemma runs_load_synset_relations d fuel version :
  runs (S d) (_load_synset_relations fuel version) (S d).
Proof. unfold _load_synset_relations. runs_tac. Qed.
#[local] Hint Resolve runs_load_synset_relations : runs.

Lemma runs_load_synsets d fuel extension version :
  runs (S d) (_load_synsets fuel extension version) (S d).
Proof. unfold _load_synsets. runs_tac. Qed.
#[local] Hint Resolve runs_load_synsets : runs.

Lemma runs_load_lexicon d fuel version :
  runs (S d) (_load_lexicon fuel version) (S d).
Proof. unfold _load_lexicon. runs_tac. Qed.
#[local] Hint Resolve runs_load_lexicon : runs.

Lemma runs_load_events fuel version : runs_at 0 (load_events fuel version) 0.
Proof. unfold load_events. runs_at_tac. Qed.

(** X20.  On the events of a document, whatever its elements are, [load]
    raises nothing but [LMFError], [KeyError] for a missing attribute,
    [TypeError] for a [Count] without text and, from the header alone,
    [UnicodeDecodeError]: it never runs past the end of the events, so
    [StopIteration] does not escape, and [KeyError] and [TypeError] are
    raised only after the header has been accepted. *)
Theorem load_errors fh doc e :
  load fh (events_of doc) = Abort e ->
  match e with
  | LMFError _ => True
  | KeyError _ | TypeError => exists version, _read_header fh = Ok version
  | UnicodeDecodeError => _read_header fh = Raise UnicodeDecodeError
  | _ => False
  end.
Proof.
  unfold load. destruct (_read_header fh) as [version|e'] eqn:Hh.
  - intros H.
    pose proof (runs_load_events (S (length (events_of doc))) version
                  (mkCursor (events_of doc) [])) as Hr.
    rewrite H in Hr.
    assert (He : loader_error e).
    { apply Hr.
      - exists [doc]. cbn [pending]. apply events_of_forest_one.
      - destruct doc as [x cs]. exact I. }
    destruct e; try contradiction; eauto.
  - intros [= <-]. unfold _read_header in Hh.
    destruct (negb _); [by injection Hh as <-|].
    unfold decode_utf8 in Hh. destruct (utf8_valid _); cbn [rbind] in Hh.
    + destruct (dget _ _DOCTYPES); [discriminate|]. by injection Hh as <-.
    + by injection Hh as <-.
Qed.

(** *** Writing a graph that was loaded *)

(** X21.  A graph that [load] returned is written by [dump], at a known
    version, exactly when none of its entries is external: every other
    entry has its lemma, and an external entry makes [dump] raise
    [AttributeError].  So an extension with an [ExternalLexicalEntry] can
    be loaded but not written. *)
Theorem loaded_dump fh events lexicons c' version :
  load fh events = Done lexicons c' ->
  is_Some (dget version _SCHEMAS) ->
  (Forall (fun lexicon =>
             Forall (fun entry => LexicalEntry_external entry = false)
                    (Lexicon_lexical_entries lexicon)) lexicons ->
   exists d, dump lexicons version = Ok d)
  /\ (Exists (fun lexicon =>
                Exists (fun entry => LexicalEntry_external entry = true)
                       (Lexicon_lexical_entries lexicon)) lexicons ->
      dump lexicons version = Raise AttributeError).
Proof.
  unfold load. destruct (_read_header fh) as [v|]; [|discriminate].
  intros H Hs. apply yields_load_events in H.
  split.
  - intros Hne. apply dump_writes; [exact Hs|].
    unfold has_lemmas. rewrite Forall_forall in H, Hne |- *.
    intros lexicon Hin. destruct (H _ Hin) as (He & _).
    specialize (Hne _ Hin). rewrite Forall_forall in He, Hne |- *.
    intros entry Hin'. destruct (He _ Hin') as (_ & _ & Hl & _).
    by apply Hl, Hne.
  - intros Hex. apply dump_refuses; [exact Hs|].
    rewrite Forall_forall in H. rewrite Exists_exists in Hex |- *.
    destruct Hex as (lexicon & Hin & Hex). exists lexicon. split; [exact Hin|].
    destruct (H _ Hin) as (He & _). rewrite Forall_forall in He.
    rewrite Exists_exists in Hex |- *.
    destruct Hex as (entry & Hin' & Hx). exists entry. split; [exact Hin'|].
    destruct (He _ Hin') as (_ & _ & _ & Hl). by apply Hl.
Qed.

(** *** [Count] elements as they come *)

Lemma count_step version uri fuel e ts rest w :
  dget version _DC_URIS = Some uri ->
  tag e = "Count" -> plain (attrib e) ->
  forall acc,
    while_ (S fuel)
      (fun counts =>
         b <- starts ["Count"] ;;
         if b then
           next_event ;;;
           elem <- end_ ["Count"] ;;
           let attrs := attrib elem in
           value <- match text elem with
                    | None => raise TypeError
                    | Some txt =>
                        match py_int txt with
                        | Some n => ret n
                        | None => warn (CountNotInteger txt) ;;; ret (-1)%Z
                        end
                    end ;;
           meta <- _get_metadata attrs version ;;
           ret (Some (counts ++ [mkCount value meta]))
         else ret None) acc
      (mkCursor (events_of_forest (Node e [] :: ts) ++ rest) w)
    = match text e with
      | None => Abort TypeError
      | Some _ =>
          while_ fuel
            (fun counts =>
               b <- starts ["Count"] ;;
               if b then
                 next_event ;;;
                 elem <- end_ ["Count"] ;;
                 let attrs := attrib elem in
                 value <- match text elem with
                          | None => raise TypeError
                          | Some txt =>
                              match py_int txt with
                              | Some n => ret n
                              | None => warn (CountNotInteger txt) ;;; ret (-1)%Z
                              end
                          end ;;
                 meta <- _get_metadata attrs version ;;
                 ret (Some (counts ++ [mkCount value meta]))
               else ret None) (acc ++ [mkCount (count_value e) None])
            (mkCursor (events_of_forest ts ++ rest) (w ++ count_warnings e))
      end.
Proof.
  intros Hu Ht Hp acc. rewrite forest_cons. cbn [events_of_forest map concat app].
  assert (Hin : str_in (tag e) ["Count"] = true) by (by rewrite Ht).
  unfold count_value, count_warnings.
  destruct (text e) as [txt|] eqn:Htxt.
  - erewrite while_some; [reflexivity|].
    step ltac:(eapply starts_at; reflexivity).
    cbn [is_start andb]. rewrite Hin. cbv iota.
    step ltac:(unfold next_event; reflexivity).
    step ltac:(apply end_at; [reflexivity|exact Hin]).
    rewrite Htxt. cbn [mbind option_bind]. cbn [pending log].
    destruct (py_int txt) as [n|].
    + step ltac:(reflexivity).
      step ltac:(apply (get_metadata_plain version uri); [exact Hu|exact Hp]).
      cbn [default]. by rewrite app_nil_r.
    + step ltac:(reflexivity).
      step ltac:(apply (get_metadata_plain version uri); [exact Hu|exact Hp]).
      reflexivity.
  - apply while_abort.
    step ltac:(eapply starts_at; reflexivity).
    cbn [is_start andb]. rewrite Hin. cbv iota.
    step ltac:(unfold next_event; reflexivity).
    step ltac:(apply end_at; [reflexivity|exact Hin]).
    rewrite Htxt. reflexivity.
Qed.

(** X22.  [_load_counts] on [Count] elements that carry no metadata: a
    text [int] reads gives its value, any other text gives the value -1
    and one warning, and the first element without text makes the load
    raise [TypeError]. *)
Theorem counts_edge_cases version uri fuel es rest w :
  dget version _DC_URIS = Some uri ->
  Forall (fun e => tag e = "Count" /\ plain (attrib e)) es ->
  stops "Count" rest -> length es < fuel ->
  (Forall (fun e => is_Some (text e)) es ->
   _load_counts fuel version
     (mkCursor (events_of_forest (map (fun e => Node e []) es) ++ rest) w)
   = Done (map (fun e => mkCount (count_value e) None) es)
          (mkCursor rest (w ++ flat_map count_warnings es)))
  /\ (Exists (fun e => text e = None) es ->
      _load_counts fuel version
        (mkCursor (events_of_forest (map (fun e => Node e []) es) ++ rest) w)
      = Abort TypeError).
Proof.
  intros Hu Hes Hr Hf. unfold _load_counts.
  pose proof (count_step version uri) as Hstep.
  match goal with
  | |- context [while_ fuel ?body] => set (B := body) in *
  end.
  change (map (fun e => mkCount (count_value e) None) es)
    with ([] ++ map (fun e => mkCount (count_value e) None) es).
  generalize (@nil Count) as acc. revert w fuel Hf.
  induction Hes as [|e es [Ht Hp] _ IH]; intros w fuel Hf acc.
  - destruct fuel as [|fuel]; [simpl in Hf; lia|]. split.
    + intros _. cbn [map flat_map]. rewrite !app_nil_r. cbn [app].
      apply loop_stops. exact Hr.
    + intros Hex. inversion Hex.
  - destruct fuel as [|fuel]; [simpl in Hf; lia|].
    cbn [map flat_map]. rewrite (Hstep fuel e _ rest w Hu Ht Hp).
    destruct (IH (w ++ count_warnings e) fuel ltac:(simpl in Hf; lia)
                 (acc ++ [mkCount (count_value e) None])) as [IH1 IH2].
    split.
    + intros Hall. apply Forall_cons_1 in Hall as [[txt Htxt] Hall].
      rewrite Htxt, IH1 by exact Hall. rewrite <- !app_assoc. reflexivity.
    + intros Hex. destruct (text e) as [txt|] eqn:Htxt; [|reflexivity].
      apply IH2. inversion Hex as [? ? Hh|? ? Hx]; subst; [congruence|exact Hx].
Qed.

(** *** The documents [load] accepts *)

Lemma passes_weaken {A} (m : M A) l rest (Q Q' : A -> Prop) :
  (forall a, Q a -> Q' a) -> passes m l rest Q -> passes m l rest Q'.
Proof. intros HQ H w. destruct (H w) as (a & w' & E & Ha). eauto. Qed.

Lemma passes_ret {A} (a : A) rest (Q : A -> Prop) : Q a -> passes (ret a) [] rest Q.
Proof. intros H w. exists a, w. auto. Qed.

Lemma passes_bind {A B} (m : M A) (k : A -> M B) l1 l2 rest P Q :
  passes m l1 (l2 ++ rest) P ->
  (forall a, P a -> passes (k a) l2 rest Q) ->
  passes (bind m k) (l1 ++ l2) rest Q.
Proof.
  intros Hm Hk w. rewrite <- app_assoc.
  destruct (Hm w) as (a & w1 & E & Ha).
  destruct (Hk a Ha w1) as (b & w2 & E' & Hb).
  exists b, w2. by rewrite (bind_eq _ _ _ _ _ E).
Qed.

Lemma passes_quiet {A B} (m : M A) (k : A -> M B) l rest Q :
  quiet m -> (forall a, passes (k a) l rest Q) -> passes (bind m k) l rest Q.
Proof.
  intros Hm Hk w. destruct (Hm (mkCursor (l ++ rest) w)) as (a & w1 & E).
  destruct (Hk a (w ++ w1)) as (b & w2 & E' & Hb).
  exists b, w2. by rewrite (bind_eq _ _ _ _ _ E).
Qed.

Lemma passes_dindex {B} k (d : dict string) (k' : string -> M B) l rest Q :
  has_attr k (mkElement EmptyString d None) ->
  (forall v, dget k d = Some v -> passes (k' v) l rest Q) ->
  passes (bind (lift (dindex k d)) k') l rest Q.
Proof.
  intros [v Hv] Hk w. cbn [attrib] in Hv.
  destruct (Hk v Hv w) as (b & w2 & E' & Hb).
  exists b, w2. by rewrite (bind_eq _ _ _ _ _ (lift_dindex _ _ _ _ Hv)).
Qed.

Lemma passes_start {B} tags e (k : Element -> M B) l rest Q :
  str_in (tag e) tags = true ->
  passes (k e) l rest Q ->
  passes (bind (start tags) k) ((start_ev, e) :: l) rest Q.
Proof.
  intros Hin Hk w. destruct (Hk w) as (b & w2 & E' & Hb).
  exists b, w2. cbn [app].
  by rewrite (bind_eq _ _ _ _ _ (start_at tags (mkCursor ((start_ev, e) :: l ++ rest) w) e (l ++ rest) eq_refl Hin)).
Qed.

Lemma passes_next {B} ev (k : event -> M B) l rest Q :
  passes (k ev) l rest Q ->
  passes (bind next_event k) (ev :: l) rest Q.
Proof.
  intros Hk w. destruct (Hk w) as (b & w2 & E' & Hb).
  exists b, w2. exact (conj E' Hb).
Qed.

Lemma passes_end {B} tags e (k : Element -> M B) l rest Q :
  str_in (tag e) tags = true ->
  passes (k e) l rest Q ->
  passes (bind (end_ tags) k) ((end_ev, e) :: l) rest Q.
Proof.
  intros Hin Hk w. destruct (Hk w) as (b & w2 & E' & Hb).
  exists b, w2. cbn [app].
  by rewrite (bind_eq _ _ _ _ _ (end_at tags (mkCursor ((end_ev, e) :: l ++ rest) w) e (l ++ rest) eq_refl Hin)).
Qed.

Lemma passes_guard_true {A} tags e (K E : M A) l rest Q :
  str_in (tag e) tags = true ->
  passes K ((start_ev, e) :: l) rest Q ->
  passes (b <- starts tags ;; if b then K else E) ((start_ev, e) :: l) rest Q.
Proof.
  intros Hin HK w. destruct (HK w) as (b & w2 & E' & Hb).
  exists b, w2. split; [|exact Hb].
  unfold bind, starts. cbn [pending app is_start andb]. by rewrite Hin.
Qed.

Lemma passes_guard_false {A} tags (K E : M A) l rest Q :
  halts tags (l ++ rest) ->
  passes E l rest Q ->
  passes (b <- starts tags ;; if b then K else E) l rest Q.
Proof.
  intros Hh HE w. destruct (HE w) as (b & w2 & E' & Hb).
  exists b, w2. split; [|exact Hb].
  unfold bind, starts. cbn [pending]. unfold halts in Hh.
  destruct (l ++ rest) as [|[[|] e] l']; cbn [is_start andb];
    [exact E'| |exact E'].
  by rewrite Hh.
Qed.

Lemma passes_while {S} (body : S -> M (option S)) (items : list (list event))
    rest :
  Forall (fun item => forall s R, passes (body s) item R is_Some) items ->
  (forall s, passes (body s) [] rest (fun r => r = None)) ->
  forall fuel s,
    length items < fuel ->
    passes (while_ fuel body s) (concat items) rest (fun _ => True).
Proof.
  intros Hitems Hstop.
  induction Hitems as [|item items Hitem _ IH]; intros fuel s Hf w.
  - destruct fuel as [|fuel]; [simpl in Hf; lia|].
    destruct (Hstop s w) as (r & w' & E & ->).
    exists s, w'. split; [|exact I]. cbn [concat]. by apply while_none.
  - destruct fuel as [|fuel]; [simpl in Hf; lia|].
    cbn [concat]. rewrite <- app_assoc.
    destruct (Hitem s (concat items ++ rest) w) as (r & w1 & E & [s' ->]).
    destruct (IH fuel s' ltac:(simpl in Hf; lia) w1) as (a & w2 & E' & _).
    exists a, w2. split; [|exact I].
    by rewrite (while_some _ _ _ _ _ _ E).
Qed.

Lemma halts_end tags e l : halts tags ((end_ev, e) :: l).
Proof. exact I. Qed.

Lemma halts_nil tags : halts tags [].
Proof. exact I. Qed.

Lemma halts_forest tags ts l :
  Forall (fun t => str_in (tag_of t) tags = false) ts ->
  halts tags l -> halts tags (events_of_forest ts ++ l).
Proof.
  intros Hts Hl. destruct Hts as [|[e cs] ts Ht _]; [exact Hl|].
  rewrite forest_cons. exact Ht.
Qed.

Lemma fits_children fuel e cs :
  fits fuel (Node e cs) -> Forall (fits fuel) cs /\ length cs < fuel.
Proof.
  unfold fits. cbn [events_of]. rewrite length_cons, length_app. cbn [length].
  fold (events_of_forest cs). intros H.
  assert (Hc : Forall (fun t => length (events_of t) <= length (events_of_forest cs)) cs
               /\ length cs <= length (events_of_forest cs)).
  { clear H. induction cs as [|[x xs] cs [IH1 IH2]]; [split; [constructor|reflexivity]|].
    rewrite forest_cons. split.
    - constructor.
      + cbn [events_of length]. rewrite !length_app. cbn [length].
        fold (events_of_forest xs). lia.
      + eapply Forall_impl; [exact IH1|]. intros t Ht. cbv beta in Ht.
        cbn [length]. rewrite !length_app. cbn [length]. lia.
    - cbn [length]. rewrite !length_app. cbn [length]. lia. }
  destruct Hc as [H1 H2]. split; [|lia].
  eapply Forall_impl; [exact H1|]. intros t Ht. cbv beta in Ht. lia.
Qed.

Lemma forest_concat ts : events_of_forest ts = concat (map events_of ts).
Proof. reflexivity. Qed.

Lemma events_of_node e cs :
  events_of (Node e cs) = (start_ev, e) :: events_of_forest cs ++ [(end_ev, e)].
Proof. reflexivity. Qed.

Lemma passes_attr {B} k (d : dict string) (k' : string -> M B) l rest Q :
  is_Some (dget k d) ->
  (forall v, passes (k' v) l rest Q) ->
  passes (bind (lift (dindex k d)) k') l rest Q.
Proof.
  intros [v Hv] Hk w. destruct (Hk v w) as (b & w2 & E' & Hb).
  exists b, w2. by rewrite (bind_eq _ _ _ _ _ (lift_dindex _ _ _ _ Hv)).
Qed.

Lemma passes_attr_val {B} k (d : dict string) v (k' : string -> M B) l rest Q :
  dget k d = Some v ->
  passes (k' v) l rest Q ->
  passes (bind (lift (dindex k d)) k') l rest Q.
Proof.
  intros Hv Hk w. destruct (Hk w) as (b & w2 & E' & Hb).
  exists b, w2. by rewrite (bind_eq _ _ _ _ _ (lift_dindex _ _ _ _ Hv)).
Qed.

(** A loop over childless elements of one tag *)
Lemma passes_leaves {I} T (K : list I -> Element -> M (option (list I)))
    (G : Element -> Prop) rest :
  (forall e acc R, G e -> tag e = T -> passes (K acc e) [] R is_Some) ->
  forall ts fuel acc,
    Forall (fun t => leaf_of T t /\ G (root_elem t)) ts ->
    halts [T] rest -> length ts < fuel ->
    passes (while_ fuel
              (fun acc =>
                 b <- starts [T] ;;
                 if b then next_event ;;; (elem <- end_ [T] ;; K acc elem)
                 else ret None) acc)
           (events_of_forest ts) rest (fun _ => True).
Proof.
  intros HK ts fuel acc Hts Hr Hf. rewrite forest_concat.
  apply passes_while; [| |by rewrite length_map].
  - apply Forall_map. eapply Forall_impl; [exact Hts|].
    intros [e cs] [[Ht Hc] Hg] s R.
    change (tag e = T) in Ht. change (cs = []) in Hc. change (G e) in Hg.
    subst cs.
    assert (Hin : str_in (tag e) [T] = true).
    { rewrite Ht. unfold str_in. simpl. by rewrite String.eqb_refl. }
    cbn [events_of map concat app].
    apply passes_guard_true; [exact Hin|].
    apply passes_next. apply passes_end; [exact Hin|]. by apply HK.
  - intros s. apply passes_guard_false; [exact Hr|]. by apply passes_ret.
Qed.

Ltac pass :=
  cbv beta zeta;
  lazymatch goal with
  | |- passes (ret _) [] _ _ => apply passes_ret; eauto
  | |- passes (bind (lift (dindex _ _)) _) _ _ _ =>
      apply passes_attr; [eassumption|intros ?]
  | |- passes (bind (_get_metadata _ _) _) _ _ _ =>
      apply passes_quiet; [apply quiet_get_metadata; assumption|intros ?]
  | |- passes (bind (_get_literal _ _) _) _ _ _ =>
      apply passes_quiet; [apply quiet_get_literal|intros ?]
  | |- passes (bind (_get_bool _) _) _ _ _ =>
      apply passes_quiet; [apply quiet_get_bool|intros ?]
  | |- passes (bind next_event _) (_ :: _) _ _ => apply passes_next
  end.

Lemma accepts_tags fuel ts rest :
  Forall accepted_tag ts -> halts ["Tag"] rest -> length ts < fuel ->
  passes (_load_tags fuel) (events_of_forest ts) rest (fun _ => True).
Proof.
  intros Hts. unfold _load_tags.
  apply (passes_leaves "Tag" _ (has_attr "category")); [|exact Hts].
  intros e acc R Hc _. unfold has_attr in Hc. repeat pass.
Qed.

Lemma accepts_examples version fuel ts rest :
  version = "1.0" \/ version = "1.1" ->
  Forall (leaf_of "Example") ts -> halts ["Example"] rest -> length ts < fuel ->
  passes (_load_examples fuel version) (events_of_forest ts) rest (fun _ => True).
Proof.
  intros Hv Hts. unfold _load_examples.
  apply (passes_leaves "Example" _ (fun _ => True)).
  - intros e acc R _ _. repeat pass.
  - eapply Forall_impl; [exact Hts|]. by intros t Ht.
Qed.

Lemma accepts_definitions version fuel ts rest :
  version = "1.0" \/ version = "1.1" ->
  Forall (leaf_of "Definition") ts -> halts ["Definition"] rest ->
  length ts < fuel ->
  passes (_load_definitions fuel version) (events_of_forest ts) rest
         (fun _ => True).
Proof.
  intros Hv Hts. unfold _load_definitions.
  apply (passes_leaves "Definition" _ (fun _ => True)).
  - intros e acc R _ _. repeat pass.
  - eapply Forall_impl; [exact Hts|]. by intros t Ht.
Qed.

Lemma accepts_counts version fuel ts rest :
  version = "1.0" \/ version = "1.1" ->
  Forall accepted_count ts -> halts ["Count"] rest -> length ts < fuel ->
  passes (_load_counts fuel version) (events_of_forest ts) rest (fun _ => True).
Proof.
  intros Hv Hts. unfold _load_counts.
  apply (passes_leaves "Count" _ (fun e => is_Some (text e))); [|exact Hts].
  intros e acc R [txt Htxt] _. cbv beta zeta. rewrite Htxt.
  apply passes_quiet.
  - destruct (py_int txt); [apply quiet_ret|].
    apply quiet_bind; [apply quiet_warn|intros; apply quiet_ret].
  - intros value. repeat pass.
Qed.

Lemma accepts_syntactic_behaviours version fuel ts rest :
  version = "1.0" \/ version = "1.1" ->
  Forall accepted_behaviour ts -> halts ["SyntacticBehaviour"] rest ->
  length ts < fuel ->
  passes (_load_syntactic_behaviours fuel version) (events_of_forest ts) rest
         (fun _ => True).
Proof.
  intros Hv Hts. unfold _load_syntactic_behaviours.
  apply (passes_leaves "SyntacticBehaviour" _
           (has_attr "subcategorizationFrame")); [|exact Hts].
  intros e acc R Hc _. unfold has_attr in Hc. repeat pass.
Qed.

Lemma accepts_sense_relations version fuel ts rest :
  version = "1.0" \/ version = "1.1" ->
  Forall accepted_sense_relation ts -> halts ["SenseRelation"] rest ->
  length ts < fuel ->
  passes (_load_sense_relations fuel version) (events_of_forest ts) rest
         (fun _ => True).
Proof.
  intros Hv Hts. unfold _load_sense_relations.
  apply (passes_leaves "SenseRelation" _
           (fun e => has_attr "target" e /\ valid_sense_relation e)).
  - intros e acc R [Ht (r & Hr & Hin)] _. unfold has_attr in Ht. cbv beta zeta.
    apply (passes_attr_val _ _ r); [exact Hr|].
    assert (Hn : negb (str_in r SENSE_RELATIONS
                       || str_in r SENSE_SYNSET_RELATIONS) = false)
      by (apply negb_false_iff, orb_true_iff; exact Hin).
    rewrite Hn. repeat pass.
  - eapply Forall_impl; [exact Hts|]. by intros t (Hl & Ht & Hin).
Qed.

Lemma accepts_synset_relations version fuel ts rest :
  version = "1.0" \/ version = "1.1" ->
  Forall accepted_synset_relation ts -> halts ["SynsetRelation"] rest ->
  length ts < fuel ->
  passes (_load_synset_relations fuel version) (events_of_forest ts) rest
         (fun _ => True).
Proof.
  intros Hv Hts. unfold _load_synset_relations.
  apply (passes_leaves "SynsetRelation" _
           (fun e => has_attr "target" e /\ valid_synset_relation e)).
  - intros e acc R [Ht (r & Hr & Hin)] _. unfold has_attr in Ht. cbv beta zeta.
    apply (passes_attr_val _ _ r); [exact Hr|].
    rewrite Hin. cbn [negb]. repeat pass.
  - eapply Forall_impl; [exact Hts|]. by intros t (Hl & Ht & Hin).
Qed.


Lemma passes_ret_bind {A B} (a : A) (k : A -> M B) l rest Q :
  passes (k a) l rest Q -> passes (bind (ret a) k) l rest Q.
Proof. intros H w. exact (H w). Qed.

Lemma passes_sub {A B} (m : M A) (k : A -> M B) l1 l2 rest Q :
  passes m l1 (l2 ++ rest) (fun _ => True) ->
  (forall a, passes (k a) l2 rest Q) ->
  passes (bind m k) (l1 ++ l2) rest Q.
Proof. intros Hm Hk. eapply passes_bind; [exact Hm|]. intros a _. apply Hk. Qed.

Lemma halts_weaken tags tags' l :
  (forall x, str_in x tags' = true -> str_in x tags = true) ->
  halts tags l -> halts tags' l.
Proof.
  intros Hsub. unfold halts. destruct l as [|[[|] e] l]; auto.
  intros H. destruct (str_in (tag e) tags') eqn:E; [|reflexivity].
  apply Hsub in E. congruence.
Qed.

Lemma halts_forest_in tags names ts l :
  Forall (fun t => str_in (tag_of t) names = true) ts ->
  Forall (fun name => str_in name tags = false) names ->
  halts tags l -> halts tags (events_of_forest ts ++ l).
Proof.
  intros Hts Hn Hl. apply halts_forest; [|exact Hl].
  eapply Forall_impl; [exact Hts|]. intros t Ht. cbv beta in Ht.
  apply str_in_true in Ht. rewrite Forall_forall in Hn.
  apply Hn. by apply list_elem_of_In.
Qed.

Lemma leaf_tag T names t :
  str_in T names = true -> leaf_of T t -> str_in (tag_of t) names = true.
Proof. intros H [-> _]. exact H. Qed.

Create HintDb tags discriminated.

Lemma tags_of_leaves T ts :
  Forall (leaf_of T) ts ->
  Forall (fun t => str_in (tag_of t) [T] = true) ts.
Proof.
  intros Hts. eapply Forall_impl; [exact Hts|]. intros t. apply leaf_tag.
  unfold str_in. simpl. by rewrite String.eqb_refl.
Qed.

Lemma tags_of_counts ts :
  Forall accepted_count ts ->
  Forall (fun t => str_in (tag_of t) ["Count"] = true) ts.
Proof.
  intros Hts. eapply Forall_impl; [exact Hts|].
  by intros t [[-> _] _]. Qed.

Lemma tags_of_behaviours ts :
  Forall accepted_behaviour ts ->
  Forall (fun t => str_in (tag_of t) ["SyntacticBehaviour"] = true) ts.
Proof.
  intros Hts. eapply Forall_impl; [exact Hts|].
  by intros t [[-> _] _]. Qed.

Lemma tags_of_synset_relations ts :
  Forall accepted_synset_relation ts ->
  Forall (fun t => str_in (tag_of t) ["SynsetRelation"] = true) ts.
Proof.
  intros Hts. eapply Forall_impl; [exact Hts|].
  by intros t [[-> _] _]. Qed.

Lemma tags_of_forms ts :
  Forall accepted_form ts ->
  Forall (fun t => str_in (tag_of t) ["Form"] = true) ts.
Proof.
  intros Hts. eapply Forall_impl; [exact Hts|].
  by intros t [-> _]. Qed.

Lemma tags_of_senses external ts :
  Forall (accepted_sense external) ts ->
  Forall (fun t => str_in (tag_of t) ["Sense"; "ExternalSense"] = true) ts.
Proof.
  intros Hts. eapply Forall_impl; [exact Hts|].
  by intros t (_ & [[-> _]|(_ & ->)] & _). Qed.

Lemma tags_of_entries extension ts :
  Forall (accepted_entry extension) ts ->
  Forall (fun t => str_in (tag_of t) ["LexicalEntry"; "ExternalLexicalEntry"]
                   = true) ts.
Proof.
  intros Hts. eapply Forall_impl; [exact Hts|].
  by intros t (_ & ? & ? & ? & ? & _ & _ & _ & [(-> & _)|(_ & -> & _)]).
Qed.

Lemma tags_of_synsets extension ts :
  Forall (accepted_synset extension) ts ->
  Forall (fun t => str_in (tag_of t) ["Synset"; "ExternalSynset"] = true) ts.
Proof.
  intros Hts. eapply Forall_impl; [exact Hts|].
  by intros t (_ & ? & ? & ? & ? & _ & _ & _ & _ & [(-> & _)|(_ & -> & _)]).
Qed.

Lemma tags_of_dependencies T ts :
  Forall (accepted_dependency T) ts ->
  Forall (fun t => str_in (tag_of t) [T] = true) ts.
Proof.
  intros Hts. eapply Forall_impl; [exact Hts|].
  intros t [[-> _] _]. unfold str_in. simpl.
  by rewrite String.eqb_refl.
Qed.

(** The stream goes on with elements that a loop does not read, down to
    an end tag. *)
Ltac halt :=
  rewrite <- ?app_assoc;
  repeat first
    [ apply halts_end
    | apply halts_nil
    | assumption
    | eapply halts_forest_in;
      [ first [ eapply tags_of_leaves; eassumption
              | eapply tags_of_counts; eassumption
              | eapply tags_of_behaviours; eassumption
              | eapply tags_of_synset_relations; eassumption
              | eapply tags_of_forms; eassumption
              | eapply tags_of_senses; eassumption
              | eapply tags_of_entries; eassumption
              | eapply tags_of_synsets; eassumption ]
      | repeat constructor | ] ].

Lemma accepts_forms fuel ts rest :
  Forall accepted_form ts -> Forall (fits fuel) ts ->
  halts ["Form"] rest -> length ts < fuel ->
  passes (_load_forms fuel) (events_of_forest ts) rest (fun _ => True).
Proof.
  intros Hts Hfit Hr Hf. unfold _load_forms. rewrite forest_concat.
  apply passes_while; [| |by rewrite length_map].
  - apply Forall_map. rewrite Forall_forall in Hts, Hfit |- *.
    intros [e cs] Hin s R.
    destruct (Hts _ Hin) as (Ht & Hw & Htags).
    destruct (fits_children _ _ _ (Hfit _ Hin)) as [_ Hl].
    change (tag e = "Form") in Ht. unfold has_attr in Hw.
    cbn [root_elem children_of] in Hw, Htags.
    rewrite events_of_node.
    apply passes_guard_true; [by rewrite Ht|].
    apply passes_next. cbv beta zeta. cbn [snd].
    pass. apply passes_sub; [apply accepts_tags; [exact Htags|halt|exact Hl]|].
    intros tags. apply passes_end; [by rewrite Ht|]. pass.
  - intros s. apply passes_guard_false; [exact Hr|]. by apply passes_ret.
Qed.

Lemma accepts_lemma fuel t rest :
  accepted_lemma t -> fits fuel t ->
  passes (_load_lemma fuel) (events_of t) rest (fun _ => True).
Proof.
  destruct t as [e cs]. intros (Ht & Hw & Hp & Htags) Hfit.
  destruct (fits_children _ _ _ Hfit) as [_ Hl].
  change (tag e = "Lemma") in Ht. unfold has_attr in Hw, Hp.
  cbn [root_elem children_of] in Hw, Hp, Htags.
  unfold _load_lemma. rewrite events_of_node.
  apply passes_start; [by rewrite Ht|]. repeat pass.
  apply passes_sub; [apply accepts_tags; [exact Htags|halt|exact Hl]|].
  intros tags. apply passes_end; [by rewrite Ht|]. pass.
Qed.

Lemma accepts_ilidefinition version ts rest :
  version = "1.0" \/ version = "1.1" ->
  ts = [] \/ (exists d, ts = [d] /\ leaf_of "ILIDefinition" d) ->
  halts ["ILIDefinition"] rest ->
  passes (_load_ilidefinition version) (events_of_forest ts) rest (fun _ => True).
Proof.
  intros Hv [->|([e cs] & -> & Ht & Hc)] Hr; unfold _load_ilidefinition.
  - apply passes_guard_false; [exact Hr|]. by apply passes_ret.
  - change (tag e = "ILIDefinition") in Ht. change (cs = []) in Hc. subst cs.
    cbn [events_of_forest map concat events_of app].
    apply passes_guard_true; [by rewrite Ht|].
    apply passes_next. apply passes_end; [by rewrite Ht|]. repeat pass.
Qed.

Lemma fits_app fuel ts1 ts2 :
  Forall (fits fuel) (ts1 ++ ts2) -> Forall (fits fuel) ts1 /\ Forall (fits fuel) ts2.
Proof. apply Forall_app. Qed.

Lemma accepts_senses version fuel external ts rest :
  version = "1.0" \/ version = "1.1" ->
  Forall (accepted_sense external) ts -> Forall (fits fuel) ts ->
  halts ["Sense"; "ExternalSense"] rest -> length ts < fuel ->
  passes (_load_senses fuel external version) (events_of_forest ts) rest
         (fun _ => True).
Proof.
  intros Hv Hts Hfit Hr Hf. unfold _load_senses. rewrite forest_concat.
  assert (H1 : halts ["Sense"] rest).
  { eapply halts_weaken; [|exact Hr]. intros x Hx%str_in_one. by subst. }
  assert (H2 : halts ["ExternalSense"] rest).
  { eapply halts_weaken; [|exact Hr]. intros x Hx%str_in_one. by subst. }
  apply passes_while; [| |by rewrite length_map].
  - apply Forall_map. rewrite Forall_forall in Hts, Hfit |- *.
    intros [e cs] Hin s R.
    destruct (Hts _ Hin)
      as (Hid & Hkind & rels & exs & cnts & Hcs & Hrels & Hexs & Hcnts).
    destruct (fits_children _ _ _ (Hfit _ Hin)) as [_ Hl].
    unfold has_attr in Hid. cbn [root_elem children_of] in Hid, Hcs, Hkind.
    subst cs. rewrite !length_app in Hl.
    rewrite events_of_node, !forest_app, <- !app_assoc.
    destruct Hkind as [[Ht Hsyn]|[-> Ht]];
      unfold tag_of in Ht; cbn [root_elem] in Ht.
    + unfold has_attr in Hsyn. cbn [root_elem] in Hsyn.
      apply passes_guard_true; [by rewrite Ht|].
      apply passes_start; [by rewrite Ht|]. repeat pass.
      apply passes_sub;
        [apply accepts_sense_relations; [exact Hv|exact Hrels|halt|lia]|].
      intros relations.
      apply passes_sub; [apply accepts_examples; [exact Hv|exact Hexs|halt|lia]|].
      intros examples.
      apply passes_sub; [apply accepts_counts; [exact Hv|exact Hcnts|halt|lia]|].
      intros counts. repeat pass.
      apply passes_end; [by rewrite Ht|]. pass.
    + apply passes_guard_false; [cbn [app halts]; by rewrite Ht|].
      cbv iota.
      apply passes_guard_true; [by rewrite Ht|].
      apply passes_start; [by rewrite Ht|]. repeat pass.
      apply passes_sub;
        [apply accepts_sense_relations; [exact Hv|exact Hrels|halt|lia]|].
      intros relations.
      apply passes_sub; [apply accepts_examples; [exact Hv|exact Hexs|halt|lia]|].
      intros examples.
      apply passes_sub; [apply accepts_counts; [exact Hv|exact Hcnts|halt|lia]|].
      intros counts. cbv beta zeta.
      apply passes_end; [by rewrite Ht|]. pass.
  - intros s. apply passes_guard_false; [exact H1|].
    destruct external.
    + apply passes_guard_false; [exact H2|]. by apply passes_ret.
    + apply passes_ret_bind. by apply passes_ret.
Qed.

Lemma accepts_synsets version fuel extension ts rest :
  version = "1.0" \/ version = "1.1" ->
  Forall (accepted_synset extension) ts -> Forall (fits fuel) ts ->
  halts ["Synset"; "ExternalSynset"] rest -> length ts < fuel ->
  passes (_load_synsets fuel extension version) (events_of_forest ts) rest
         (fun _ => True).
Proof.
  intros Hv Hts Hfit Hr Hf. unfold _load_synsets. rewrite forest_concat.
  assert (H1 : halts ["Synset"] rest).
  { eapply halts_weaken; [|exact Hr]. intros x Hx%str_in_one. by subst. }
  assert (H2 : halts ["ExternalSynset"] rest).
  { eapply halts_weaken; [|exact Hr]. intros x Hx%str_in_one. by subst. }
  apply passes_while; [| |by rewrite length_map].
  - apply Forall_map. rewrite Forall_forall in Hts, Hfit |- *.
    intros [e cs] Hin s R.
    destruct (Hts _ Hin)
      as (Hid & defs & ilis & rels & exs & Hcs & Hdefs & Hrels & Hexs & Hkind).
    destruct (fits_children _ _ _ (Hfit _ Hin)) as [_ Hl].
    unfold has_attr in Hid. cbn [root_elem children_of] in Hid, Hcs, Hkind.
    subst cs. rewrite !length_app in Hl.
    rewrite events_of_node, !forest_app, <- !app_assoc.
    destruct Hkind as [(Ht & Hili & Hilis)|(-> & Ht & ->)];
      unfold tag_of in Ht; cbn [root_elem] in Ht.
    + unfold has_attr in Hili. cbn [root_elem] in Hili.
      assert (Hit : Forall (fun t => str_in (tag_of t) ["ILIDefinition"] = true)
                           ilis).
      { destruct Hilis as [->|(d & -> & [Hd _])]; repeat constructor.
        by rewrite Hd. }
      apply passes_guard_true; [by rewrite Ht|].
      apply passes_start; [by rewrite Ht|]. repeat pass.
      apply passes_sub;
        [apply accepts_definitions;
         [exact Hv|exact Hdefs
         |rewrite <- ?app_assoc;
          eapply halts_forest_in; [exact Hit|repeat constructor|]; halt
         |lia]|].
      intros definitions.
      apply passes_sub;
        [apply accepts_ilidefinition; [exact Hv|exact Hilis|halt]|].
      intros ili_definition.
      apply passes_sub;
        [apply accepts_synset_relations; [exact Hv|exact Hrels|halt|lia]|].
      intros relations.
      apply passes_sub; [apply accepts_examples; [exact Hv|exact Hexs|halt|lia]|].
      intros examples. repeat pass.
      apply passes_end; [by rewrite Ht|]. pass.
    + apply passes_guard_false; [cbn [app halts]; by rewrite Ht|].
      cbv iota.
      apply passes_guard_true; [by rewrite Ht|].
      apply passes_start; [by rewrite Ht|]. repeat pass.
      cbn [events_of_forest map concat app].
      apply passes_sub;
        [apply accepts_definitions; [exact Hv|exact Hdefs|halt|lia]|].
      intros definitions.
      apply passes_sub;
        [apply accepts_synset_relations; [exact Hv|exact Hrels|halt|lia]|].
      intros relations.
      apply passes_sub; [apply accepts_examples; [exact Hv|exact Hexs|halt|lia]|].
      intros examples. cbv beta zeta.
      apply passes_end; [by rewrite Ht|]. pass.
  - intros s. apply passes_guard_false; [exact H1|].
    destruct extension.
    + apply passes_guard_false; [exact H2|]. by apply passes_ret.
    + apply passes_ret_bind. by apply passes_ret.
Qed.

Lemma load_lexical_entries_body fuel extension version :
  _load_lexical_entries fuel extension version
  = while_ fuel (lexical_entries_body fuel extension version) ([], []).
Proof. reflexivity. Qed.

(** One turn of the loop of [_load_lexical_entries] goes through one
    entry. *)
Lemma accepts_entry version fuel extension t :
  version = "1.0" \/ version = "1.1" ->
  accepted_entry extension t -> fits fuel t ->
  forall s R,
    passes (lexical_entries_body fuel extension version s) (events_of t) R
           is_Some.
Proof.
  intros Hv Ht0 Hfit [entries sbs] R. destruct t as [e cs].
  destruct Ht0
    as (Hid & lemmas & forms & senses & behaviours & Hcs & Hforms & Hsbs
        & Hkind).
  destruct (fits_children _ _ _ Hfit) as [Hfc Hl].
  unfold has_attr in Hid. cbn [root_elem children_of] in Hid, Hcs, Hkind.
  subst cs. rewrite !length_app in Hl.
  apply fits_app in Hfc as [Hf1 Hfc]. apply fits_app in Hfc as [Hf2 Hfc].
  apply fits_app in Hfc as [Hf3 _].
  rewrite events_of_node, !forest_app, <- !app_assoc.
  unfold lexical_entries_body.
  destruct Hkind as [(Ht & (lemma & -> & Hlemma) & Hsenses)
                    |(-> & Ht & -> & Hsenses)];
    unfold tag_of in Ht; cbn [root_elem] in Ht.
  + apply Forall_cons_1 in Hf1 as [Hf1 _].
    rewrite <- events_of_forest_one.
    apply passes_guard_true; [by rewrite Ht|].
    apply passes_start; [by rewrite Ht|]. repeat pass.
    apply passes_sub; [by apply accepts_lemma|].
    intros lemma'.
    apply passes_sub; [apply accepts_forms; [exact Hforms|exact Hf2|halt|lia]|].
    intros forms'.
    apply passes_sub;
      [apply accepts_senses; [exact Hv|exact Hsenses|exact Hf3|halt|lia]|].
    intros senses'. repeat pass.
    apply passes_sub;
      [apply accepts_syntactic_behaviours; [exact Hv|exact Hsbs|halt|lia]|].
    intros sbs'.
    apply passes_end; [by rewrite Ht|]. pass.
  + apply passes_guard_false; [cbn [app halts]; by rewrite Ht|].
    cbv iota.
    apply passes_guard_true; [by rewrite Ht|].
    apply passes_start; [by rewrite Ht|]. repeat pass.
    cbn [events_of_forest map concat app].
    apply passes_sub; [apply accepts_forms; [exact Hforms|exact Hf2|halt|lia]|].
    intros forms'.
    apply passes_sub;
      [apply accepts_senses; [exact Hv|exact Hsenses|exact Hf3|halt|lia]|].
    intros senses'. cbv beta zeta.
    apply passes_sub;
      [apply accepts_syntactic_behaviours; [exact Hv|exact Hsbs|halt|lia]|].
    intros sbs'.
    apply passes_end; [by rewrite Ht|]. pass.
Qed.

Lemma accepts_lexical_entries version fuel extension ts rest :
  version = "1.0" \/ version = "1.1" ->
  Forall (accepted_entry extension) ts -> Forall (fits fuel) ts ->
  halts ["LexicalEntry"; "ExternalLexicalEntry"] rest -> length ts < fuel ->
  passes (_load_lexical_entries fuel extension version) (events_of_forest ts)
         rest (fun _ => True).
Proof.
  intros Hv Hts Hfit Hr Hf. rewrite load_lexical_entries_body, forest_concat.
  assert (H1 : halts ["LexicalEntry"] rest).
  { eapply halts_weaken; [|exact Hr]. intros x Hx%str_in_one. by subst. }
  assert (H2 : halts ["ExternalLexicalEntry"] rest).
  { eapply halts_weaken; [|exact Hr]. intros x Hx%str_in_one. by subst. }
  apply passes_while; [| |by rewrite length_map].
  - apply Forall_map. rewrite Forall_forall in Hts, Hfit |- *.
    intros t Hin. apply (accepts_entry version); auto.
  - intros [entries sbs]. unfold lexical_entries_body.
    apply passes_guard_false; [exact H1|].
    destruct extension.
    + apply passes_guard_false; [exact H2|]. by apply passes_ret.
    + apply passes_ret_bind. by apply passes_ret.
Qed.

Lemma accepts_dependency T t rest (Q : Dependency -> Prop) :
  accepted_dependency T t -> (forall d, Q d) ->
  passes (_load_dependency T) (events_of t) rest Q.
Proof.
  destruct t as [e cs]. intros ([Ht Hc] & Hid & Hver) HQ.
  unfold tag_of in Ht. cbn [root_elem children_of] in Ht, Hc. subst cs.
  unfold has_attr in Hid, Hver. cbn [root_elem] in Hid, Hver.
  assert (Hin : str_in (tag e) [T] = true).
  { rewrite Ht. unfold str_in. simpl. by rewrite String.eqb_refl. }
  unfold _load_dependency. cbn [events_of map concat app].
  apply passes_start; [exact Hin|].
  apply passes_end; [exact Hin|]. repeat pass.
Qed.

Lemma accepts_requires fuel ts rest :
  Forall (accepted_dependency "Requires") ts ->
  halts ["Requires"] rest -> length ts < fuel ->
  passes (while_ fuel (fun requires =>
                         b <- starts ["Requires"] ;;
                         if b then
                           d <- _load_dependency "Requires" ;;
                           ret (Some (requires ++ [d]))
                         else ret None) [])
         (events_of_forest ts) rest (fun _ => True).
Proof.
  intros Hts Hr Hf. rewrite forest_concat.
  apply passes_while; [| |by rewrite length_map].
  - apply Forall_map. eapply Forall_impl; [exact Hts|].
    intros t Ht s R. cbv beta.
    pose proof Ht as ([Htag Hc] & _). destruct t as [e cs].
    unfold tag_of in Htag. cbn [root_elem children_of] in Htag, Hc. subst cs.
    cbn [events_of map concat app].
    apply passes_guard_true; [by rewrite Htag|].
    rewrite <- (app_nil_r [(start_ev, e); (end_ev, e)]).
    apply passes_sub; [by apply (accepts_dependency "Requires" (Node e []))|].
    intros d. by apply passes_ret.
  - intros s. apply passes_guard_false; [exact Hr|]. by apply passes_ret.
Qed.

Lemma tags_of_lexicons version ts :
  Forall (accepted_lexicon version) ts ->
  Forall (fun t => str_in (tag_of t) ["Lexicon"; "LexiconExtension"] = true) ts.
Proof.
  intros Hts. eapply Forall_impl; [exact Hts|].
  by intros t (_ & ? & ? & ? & ? & _ & _ & _ & [(-> & _)|(_ & -> & _)]).
Qed.

Lemma accepts_lexicon version fuel t rest :
  version = "1.0" \/ version = "1.1" ->
  accepted_lexicon version t -> fits fuel t ->
  passes (_load_lexicon fuel version) (events_of t) rest (fun _ => True).
Proof.
  intros Hv (Hattrs & extension & deps & entries & synsets & Hcs & Hentries
             & Hsynsets & Hkind) Hfit.
  destruct t as [e cs]. cbn [root_elem children_of] in Hattrs, Hcs, Hkind.
  subst cs.
  destruct (fits_children _ _ _ Hfit) as [Hfc Hl]. rewrite !length_app in Hl.
  apply fits_app in Hfc as [_ Hfc]. apply fits_app in Hfc as [Hf2 Hf3].
  repeat match goal with
         | H : Forall _ (_ :: _) |- _ => apply Forall_cons_1 in H as [? H]
         end.
  unfold has_attr in *.
  rewrite events_of_node, !forest_app, <- !app_assoc, app_comm_cons.
  unfold _load_lexicon.
  eapply (passes_bind _ _ _ _ _
            (fun hd => exists extends requires,
                         hd = (e, extension, extends, requires))).
  - destruct Hkind as [(Ht & -> & Hdeps & H10)
                      |(Hn & Ht & -> & ext & reqs & -> & Hext & Hreqs)];
      unfold tag_of in Ht; cbn [root_elem] in Ht.
    + destruct (String.eqb_spec version "1.0") as [E|E].
      * rewrite (H10 E). cbn [events_of_forest map concat].
        apply passes_start; [by rewrite Ht|]. apply passes_ret. eauto.
      * apply passes_start; [by rewrite Ht|]. cbv beta zeta. rewrite Ht.
        change (String.eqb "Lexicon" "LexiconExtension") with false. cbv iota.
        apply passes_ret_bind.
        rewrite <- (app_nil_r (events_of_forest deps)).
        apply passes_sub; [apply accepts_requires; [exact Hdeps|halt|lia]|].
        intros requires. apply passes_ret. eauto.
    + destruct (String.eqb_spec version "1.0") as [E|E]; [contradiction|].
      apply passes_start; [by rewrite Ht|]. cbv beta zeta. rewrite Ht.
      change (String.eqb "LexiconExtension" "LexiconExtension") with true.
      cbv iota. change (ext :: reqs) with ([ext] ++ reqs).
      rewrite forest_app, <- events_of_forest_one.
      apply passes_sub.
      * rewrite <- (app_nil_r (events_of ext)).
        apply passes_sub; [by apply accepts_dependency|].
        intros d. by apply passes_ret.
      * intros extends. rewrite <- (app_nil_r (events_of_forest reqs)).
        cbn [length] in Hl.
        apply passes_sub; [apply accepts_requires; [exact Hreqs|halt|lia]|].
        intros requires. apply passes_ret. eauto.
  - intros hd (extends & requires & ->). cbv beta iota zeta. cbn [attrib].
    apply passes_sub;
      [apply accepts_lexical_entries; [exact Hv|exact Hentries|exact Hf2|halt|lia]|].
    intros ef.
    apply passes_sub;
      [apply accepts_synsets; [exact Hv|exact Hsynsets|exact Hf3|halt|lia]|].
    intros synsets'. repeat pass.
    apply passes_end; [|pass].
    unfold str_in. simpl. by rewrite String.eqb_refl.
Qed.

Lemma accepts_load_events version doc :
  version = "1.0" \/ version = "1.1" ->
  accepted_document version doc ->
  passes (load_events (S (length (events_of doc))) version) (events_of doc) []
         (fun _ => True).
Proof.
  intros Hv [Ht Hlex]. destruct doc as [e cs].
  unfold tag_of in Ht. cbn [root_elem children_of] in Ht, Hlex.
  set (fuel := S (length _)).
  assert (Hfit : fits fuel (Node e cs)) by (unfold fits, fuel; lia).
  destruct (fits_children _ _ _ Hfit) as [Hfc Hl].
  unfold load_events. rewrite events_of_node.
  apply passes_start; [by rewrite Ht|].
  apply passes_sub.
  - rewrite forest_concat. apply passes_while; [| |by rewrite length_map].
    + apply Forall_map. rewrite Forall_forall in Hlex, Hfc |- *.
      intros t Hin s R. cbv beta.
      pose proof (tags_of_lexicons version [t]
                    (Forall_cons_2 _ _ _ (Hlex _ Hin) (Forall_nil_2 _))) as Htag.
      apply Forall_cons_1 in Htag as [Htag _]. destruct t as [x xs].
      rewrite events_of_node. apply passes_guard_true; [exact Htag|].
      rewrite <- events_of_node.
      rewrite <- (app_nil_r (events_of (Node x xs))).
      apply passes_sub; [by apply accepts_lexicon; auto|].
      intros lex. by apply passes_ret.
    + intros s. apply passes_guard_false; [exact I|]. by apply passes_ret.
  - intros lexicons. apply passes_end.
    + unfold str_in. simpl. by rewrite String.eqb_refl.
    + intros w. exists lexicons, w. auto.
Qed.

Lemma header_version fh version :
  _read_header fh = Ok version -> version = "1.0" \/ version = "1.1".
Proof.
  unfold _read_header. destruct (negb _); [discriminate|].
  destruct (decode_utf8 _) as [s|]; [|discriminate]. cbn [rbind].
  destruct (dget s _DOCTYPES) as [v|] eqn:E; [|discriminate].
  intros [= <-]. destruct (dget_DOCTYPES _ _ E) as [[-> _]|[-> _]]; auto.
Qed.

(** X23.  [load] returns on every document of the shape the loaders
    follow: under a [LexicalResource] root, lexicons with their six
    required attributes, whose children are the dependencies (none at
    version 1.0, an [Extends] first in an extension), then the entries,
    then the synsets; in an entry a [Lemma], then the forms, the senses and
    the syntactic behaviours; in a sense the relations, the examples and
    the counts; in a synset the definitions, at most one ILI definition,
    the relations and the examples; relation types in their vocabularies,
    a text in every [Count], and the attributes the loaders index.  It
    then returns one lexicon per child of the root and leaves no event. *)
Theorem load_accepts fh doc version :
  _read_header fh = Ok version ->
  accepted_document version doc ->
  exists lexicons w,
    load fh (events_of doc) = Done lexicons (mkCursor [] w)
    /\ length lexicons = length (children_of doc).
Proof.
  intros Hh Hdoc. pose proof (header_version _ _ Hh) as Hv.
  destruct (accepts_load_events version doc Hv Hdoc []) as (lexicons & w & E & _).
  rewrite app_nil_r in E.
  assert (El : load fh (events_of doc) = Done lexicons (mkCursor [] w)).
  { unfold load. by rewrite Hh. }
  exists lexicons, w. split; [exact El|].
  apply load_sound in El as (v & Hv' & _ & Hf).
  symmetry. eapply Forall2_length, Hf.
Qed.

(** *** The documents [load] returns on *)

Lemma consumes_seq {A B} (m : M A) (k : A -> M B) Q1 Q2 :
  consumes m Q1 -> (forall a, consumes (k a) (Q2 a)) ->
  consumes (bind m k)
    (fun ts b => exists a ts1 ts2, ts = ts1 ++ ts2 /\ Q1 ts1 a /\ Q2 a ts2 b).
Proof.
  intros Hm Hk ts rest c b c' Hr Hp (a & c1 & H1 & H2)%bind_Done.
  destruct (Hm _ _ _ _ _ Hr Hp H1) as (ts1 & ts2 & -> & Hp1 & Hq1).
  destruct (Hk a _ _ _ _ _ Hr Hp1 H2) as (ts3 & ts4 & -> & Hp2 & Hq2).
  exists (ts1 ++ ts3), ts4. rewrite app_assoc. split; [reflexivity|].
  split; [assumption|]. eauto 8.
Qed.

Lemma encloses_seq {A B} (m : M A) (k : A -> M B) e Q1 W2 :
  consumes m Q1 -> (forall a, encloses (k a) e (W2 a)) ->
  encloses (bind m k) e
    (fun cs b => exists a cs1 cs2, cs = cs1 ++ cs2 /\ Q1 cs1 a /\ W2 a cs2 b).
Proof.
  intros Hm Hk cs R c b c' Hp (a & c1 & H1 & H2)%bind_Done.
  destruct (Hm cs ((end_ev, e) :: R) c a c1 eq_refl Hp H1)
    as (ts1 & ts2 & -> & Hp1 & Hq1).
  destruct (Hk a _ _ _ _ _ Hp1 H2) as (Hp2 & Hq2).
  split; [assumption|]. eauto 8.
Qed.

Lemma consumes_keep {A} (m : M A) (P : A -> Prop) :
  (forall c a c', m c = Done a c' -> pending c' = pending c /\ P a) ->
  consumes m (fun ts a => ts = [] /\ P a).
Proof.
  intros Hm ts rest c a c' Hr Hp H. destruct (Hm _ _ _ H) as [Hp' Ha].
  exists [], ts. rewrite Hp'. auto.
Qed.

Lemma consumes_attr k (d : dict string) :
  consumes (lift (dindex k d)) (fun ts v => ts = [] /\ is_Some (dget k d)).
Proof.
  apply consumes_keep. intros c a c' [H ->]%lift_Done.
  apply dindex_Ok in H. split; [reflexivity|]. by rewrite H.
Qed.

Lemma consumes_quiet {A} (m : M A) :
  still m -> consumes m (fun ts _ => ts = [] /\ True).
Proof. intros Hs. apply consumes_keep. intros c a c' H. split; [eauto|exact I]. Qed.

Lemma encloses_end {A} tags (x : A) e :
  encloses (end_ tags ;;; ret x) e (fun cs a => cs = [] /\ a = x).
Proof.
  intros cs R c a c' Hp (y & c1 & H1 & H2)%bind_Done.
  destruct (end_forest _ _ _ _ _ _ _ Hp H1) as (-> & -> & _ & Hp1).
  apply ret_Done in H2 as [-> ->]. auto.
Qed.

Lemma at_head_opened {A} tags tags' (k : Element -> M A) W :
  (forall x, encloses (k x) x (W x)) ->
  at_head tags (bind (start tags') k)
    (fun t b => str_in (tag_of t) tags' = true
                /\ W (root_elem t) (children_of t) b).
Proof.
  intros Hk e cs ts rest c a c' Hr Hin Hp (x & c1 & H1 & H2)%bind_Done.
  destruct (start_forest _ _ _ _ _ _ Hr Hp H1)
    as (cs' & ts' & [= <- <- <-] & Hin' & Hp1).
  destruct (Hk _ _ _ _ _ _ Hp1 H2) as (Hp2 & Hw). auto.
Qed.

Lemma at_head_entered {A} tags (k : event -> M A) W :
  (forall x, encloses (k (start_ev, x)) x (W x)) ->
  at_head tags (bind next_event k)
    (fun t b => W (root_elem t) (children_of t) b).
Proof.
  intros Hk e cs ts rest c a c' Hr Hin Hp (ev & c1 & H1 & H2)%bind_Done.
  destruct (next_forest _ _ _ _ _ _ _ Hp H1) as [-> Hp1].
  destruct (Hk _ _ _ _ _ _ Hp1 H2) as (Hp2 & Hw). auto.
Qed.

Lemma consumes_opened {A} tags (k : Element -> M A) W :
  (forall x, encloses (k x) x (W x)) ->
  consumes (bind (start tags) k)
    (fun ts b => exists t, ts = [t] /\ str_in (tag_of t) tags = true
                  /\ W (root_elem t) (children_of t) b).
Proof.
  intros Hk ts rest c a c' Hr Hp (x & c1 & H1 & H2)%bind_Done.
  destruct (start_forest _ _ _ _ _ _ Hr Hp H1) as (cs & ts' & -> & Hin & Hp1).
  destruct (Hk _ _ _ _ _ _ Hp1 H2) as (Hp2 & Hw).
  exists [Node x cs], ts'. split; [reflexivity|]. split; [assumption|].
  exists (Node x cs). auto.
Qed.

Lemma consumes_forall {S} (body : S -> M (option S)) (G : xml -> Prop) :
  (forall s, one_step (body s) (fun t _ => G t)) ->
  forall fuel s, consumes (while_ fuel body s) (fun ts _ => Forall G ts).
Proof.
  intros Hb. induction fuel as [|fuel IH]; intros s ts rest c r c' Hr Hp H;
    [discriminate|].
  simpl in H. apply bind_Done in H as (o & c1 & H1 & H2).
  pose proof (Hb s _ _ _ _ _ Hr Hp H1) as Hstep. destruct o as [s'|].
  - destruct Hstep as (t & ts' & -> & Hp1 & Hg).
    destruct (IH s' _ _ _ _ _ Hr Hp1 H2) as (ts1 & ts2 & -> & Hp2 & Hf).
    exists (t :: ts1), ts2. split; [reflexivity|]. split; [assumption|].
    by constructor.
  - apply ret_Done in H2 as [-> ->]. exists [], ts.
    split; [reflexivity|]. split; [congruence|constructor].
Qed.

Lemma one_step_some {S} tags (m e : M (option S)) (G : xml -> Prop) :
  at_head tags m (fun t r => is_Some r /\ G t) ->
  one_step e (fun t _ => G t) ->
  one_step (bind (starts tags) (fun b => if b then m else e)) (fun t _ => G t).
Proof.
  intros Hm He. apply one_step_guard; [|exact He].
  eapply at_head_weaken; [|exact Hm].
  intros t a _ [[s' ->] Hg]. eauto.
Qed.

Lemma one_step_some_if {S} (flag : bool) tags (m : M (option S))
    (G : xml -> Prop) :
  at_head tags m (fun t r => is_Some r /\ (flag = true -> G t)) ->
  one_step (bind (if flag then starts tags else ret false)
                 (fun b => if b then m else ret None)) (fun t _ => G t).
Proof.
  intros Hm. apply one_step_guard_if.
  eapply at_head_weaken; [|exact Hm].
  intros t a _ [[s' ->] Hg]. eauto.
Qed.

(** A loop over childless elements of one tag, read back *)
Lemma consumes_leaves {I} T (K : list I -> Element -> M (option (list I)))
    (G : Element -> Prop) :
  (forall acc x c r c', K acc x c = Done r c' ->
     pending c' = pending c /\ is_Some r /\ G x) ->
  forall fuel acc,
    consumes (while_ fuel
                (fun acc =>
                   b <- starts [T] ;;
                   if b then next_event ;;; (elem <- end_ [T] ;; K acc elem)
                   else ret None) acc)
             (fun ts _ => Forall (fun t => leaf_of T t /\ G (root_elem t)) ts).
Proof.
  intros HK. apply consumes_forall. intros s.
  apply one_step_some; [|apply one_step_none].
  intros e cs ts rest c a c' Hr Hin Hp (ev & c1 & H1 & H2)%bind_Done.
  destruct (next_forest _ _ _ _ _ _ _ Hp H1) as [-> Hp1].
  apply bind_Done in H2 as (x & c2 & H2 & H3).
  destruct (end_forest _ _ _ _ _ _ _ Hp1 H2) as (-> & -> & _ & Hp2).
  destruct (HK _ _ _ _ _ H3) as (Hp3 & Hr' & Hg).
  split; [congruence|]. split; [exact Hr'|].
  split; [|exact Hg]. split; [|reflexivity].
  apply str_in_one in Hin. exact Hin.
Qed.

Ltac unbind H :=
  repeat lazymatch type of H with
  | bind (lift _) _ _ = Done _ _ =>
      let v := fresh "v" in let c := fresh "c" in let Hv := fresh "Hv" in
      apply bind_Done in H as (v & c & [Hv%dindex_Ok ->]%lift_Done & H)
  | bind (_get_metadata _ _) _ _ = Done _ _ =>
      let v := fresh "meta" in let c := fresh "c" in let Hv := fresh "Hv" in
      apply bind_Done in H as (v & c & Hv%still_get_metadata & H)
  | ret _ _ = Done _ _ => apply ret_Done in H as [-> ->]
  end.

Lemma reads_tags fuel :
  consumes (_load_tags fuel) (fun ts _ => Forall accepted_tag ts).
Proof.
  apply (consumes_leaves "Tag" _ (has_attr "category")).
  intros acc x c r c' H. unbind H.
  split; [reflexivity|]. split; [eauto|]. unfold has_attr. by rewrite Hv.
Qed.

Lemma reads_examples fuel version :
  consumes (_load_examples fuel version)
           (fun ts _ => Forall (leaf_of "Example") ts).
Proof.
  eapply consumes_weaken;
    [|apply (consumes_leaves "Example" _ (fun _ => True))].
  - intros ts a H. eapply Forall_impl; [exact H|]. by intros t [Ht _].
  - intros acc x c r c' H. unbind H. eauto.
Qed.

Lemma reads_definitions fuel version :
  consumes (_load_definitions fuel version)
           (fun ts _ => Forall (leaf_of "Definition") ts).
Proof.
  eapply consumes_weaken;
    [|apply (consumes_leaves "Definition" _ (fun _ => True))].
  - intros ts a H. eapply Forall_impl; [exact H|]. by intros t [Ht _].
  - intros acc x c r c' H. unbind H. eauto.
Qed.

Lemma reads_syntactic_behaviours fuel version :
  consumes (_load_syntactic_behaviours fuel version)
           (fun ts _ => Forall accepted_behaviour ts).
Proof.
  apply (consumes_leaves "SyntacticBehaviour" _
           (has_attr "subcategorizationFrame")).
  intros acc x c r c' H. unbind H.
  split; [reflexivity|]. split; [eauto|]. unfold has_attr. by rewrite Hv.
Qed.

Lemma reads_counts fuel version :
  consumes (_load_counts fuel version) (fun ts _ => Forall accepted_count ts).
Proof.
  apply (consumes_leaves "Count" _ (fun x => is_Some (text x))).
  intros acc x c r c' (n & c1 & H1 & H)%bind_Done. unbind H.
  destruct (text x) as [txt|]; [|discriminate].
  split; [|eauto]. rewrite Hv.
  destruct (py_int txt); [by apply ret_Done in H1 as [_ ->]|].
  apply bind_Done in H1 as ([] & c2 & [= <-] & [_ ->]%ret_Done). reflexivity.
Qed.

Lemma reads_sense_relations fuel version :
  consumes (_load_sense_relations fuel version)
           (fun ts _ => Forall accepted_sense_relation ts).
Proof.
  eapply consumes_weaken;
    [|apply (consumes_leaves "SenseRelation" _
               (fun x => has_attr "target" x /\ valid_sense_relation x))].
  - intros ts a H. eapply Forall_impl; [exact H|].
    intros t (Hl & Ht & Hv). by split.
  - intros acc x c r c' H.
    apply bind_Done in H as (reltype & c1 & [Hr%dindex_Ok ->]%lift_Done & H).
    destruct (str_in reltype SENSE_RELATIONS
              || str_in reltype SENSE_SYNSET_RELATIONS) eqn:Hin;
      cbn [negb] in H; [|discriminate].
    unbind H. split; [assumption|]. split; [eauto|].
    split; [unfold has_attr; by rewrite Hv|].
    exists reltype. split; [assumption|]. by apply orb_true_iff in Hin.
Qed.

Lemma reads_synset_relations fuel version :
  consumes (_load_synset_relations fuel version)
           (fun ts _ => Forall accepted_synset_relation ts).
Proof.
  eapply consumes_weaken;
    [|apply (consumes_leaves "SynsetRelation" _
               (fun x => has_attr "target" x /\ valid_synset_relation x))].
  - intros ts a H. eapply Forall_impl; [exact H|].
    intros t (Hl & Ht & Hv). by split.
  - intros acc x c r c' H.
    apply bind_Done in H as (reltype & c1 & [Hr%dindex_Ok ->]%lift_Done & H).
    destruct (str_in reltype SYNSET_RELATIONS) eqn:Hin;
      cbn [negb] in H; [|discriminate].
    unbind H. split; [assumption|]. split; [eauto|].
    split; [unfold has_attr; by rewrite Hv|].
    exists reltype. by split.
Qed.

Lemma reads_ilidefinition version :
  consumes (_load_ilidefinition version)
    (fun ts _ => ts = [] \/ exists d, ts = [d] /\ leaf_of "ILIDefinition" d).
Proof.
  intros ts rest c a c' Hr Hp (b & c1 & H1 & H2)%bind_Done.
  destruct (starts_forest _ _ _ _ _ _ Hr Hp H1) as [-> Hb].
  destruct b.
  - destruct (Hb eq_refl) as (x & cs & ts' & -> & Hin%str_in_one).
    apply bind_Done in H2 as (ev & c2 & H2 & H3).
    destruct (next_forest _ _ _ _ _ _ _ Hp H2) as [-> Hp2].
    apply bind_Done in H3 as (y & c3 & H3 & H4).
    destruct (end_forest _ _ _ _ _ _ _ Hp2 H3) as (-> & -> & _ & Hp3).
    unbind H4. exists [Node x []], ts'. split; [reflexivity|].
    split; [congruence|]. right. eexists. split; [reflexivity|]. by split.
  - apply ret_Done in H2 as [-> ->]. exists [], ts. auto.
Qed.

Lemma consumes_literal value choices :
  consumes (_get_literal value choices) (fun ts _ => ts = [] /\ True).
Proof. apply consumes_quiet, still_get_literal. Qed.

Lemma consumes_bool value :
  consumes (_get_bool value) (fun ts _ => ts = [] /\ True).
Proof. apply consumes_quiet, still_get_bool. Qed.

Lemma consumes_metadata attrs version :
  consumes (_get_metadata attrs version) (fun ts _ => ts = [] /\ True).
Proof. apply consumes_quiet, still_get_metadata. Qed.

Create HintDb reads.
#[local] Hint Resolve consumes_attr consumes_literal consumes_bool
  consumes_metadata reads_tags reads_examples reads_definitions
  reads_syntactic_behaviours reads_counts reads_sense_relations
  reads_synset_relations reads_ilidefinition : reads.

Ltac enc :=
  cbv zeta; cbn [snd];
  lazymatch goal with
  | |- encloses (bind (end_ _) (fun _ => ret _)) _ _ => apply encloses_end
  | |- encloses (bind _ _) _ _ =>
      eapply encloses_seq; [solve [eauto with reads] | intros ?; enc]
  end.

Ltac flat :=
  cbv beta in *;
  repeat match goal with
         | H : exists _, _ |- _ => destruct H
         | H : _ /\ _ |- _ => destruct H
         end.

Ltac tidy :=
  flat; subst; cbn [app] in *; rewrite ?app_nil_r in *.

Lemma reads_forms fuel :
  consumes (_load_forms fuel) (fun ts _ => Forall accepted_form ts).
Proof.
  apply consumes_forall. intros s. apply one_step_some; [|apply one_step_none].
  eapply at_head_weaken; [|apply at_head_entered; intros x; enc].
  intros t a Hin H. tidy. split; [eauto|].
  split; [by apply str_in_one|]. split; [assumption|].
  by match goal with H : children_of t = _ |- _ => rewrite H end.
Qed.

Lemma reads_lemma fuel :
  consumes (_load_lemma fuel)
           (fun ts _ => exists lemma, ts = [lemma] /\ accepted_lemma lemma).
Proof.
  unfold _load_lemma.
  eapply consumes_weaken; [|apply consumes_opened; intros x; enc].
  intros ts a H. tidy. eexists. split; [reflexivity|].
  split; [by apply str_in_one|]. split; [assumption|]. split; [assumption|].
  by match goal with H : children_of _ = _ |- _ => rewrite H end.
Qed.

#[local] Hint Resolve reads_forms reads_lemma : reads.

Lemma reads_senses fuel external version :
  consumes (_load_senses fuel external version)
           (fun ts _ => Forall (accepted_sense external) ts).
Proof.
  apply consumes_forall. intros s.
  apply one_step_some; [|apply one_step_some_if].
  - eapply at_head_weaken; [|apply at_head_opened; intros x; enc].
    intros t a Hin H. tidy. split; [eauto|].
    split; [assumption|].
    split; [left; split; [by apply str_in_one|assumption]|].
    eexists _, _, _. split; [eassumption|]. auto.
  - eapply at_head_weaken; [|apply at_head_opened; intros x; enc].
    intros t a Hin H. tidy. split; [eauto|]. intros ->.
    split; [assumption|].
    split; [right; split; [reflexivity|by apply str_in_one]|].
    eexists _, _, _. split; [eassumption|]. auto.
Qed.

#[local] Hint Resolve reads_senses : reads.

Lemma reads_lexical_entries fuel extension version :
  consumes (_load_lexical_entries fuel extension version)
           (fun ts _ => Forall (accepted_entry extension) ts).
Proof.
  apply consumes_forall. intros [entries sbs].
  apply one_step_some; [|apply one_step_some_if].
  - eapply at_head_weaken; [|apply at_head_opened; intros x; enc].
    intros t a Hin H. tidy. split; [eauto|].
    split; [assumption|].
    eexists [_], _, _, _.
    split; [match goal with H : children_of t = _ |- _ => exact H end|].
    split; [assumption|]. split; [assumption|]. left.
    split; [by apply str_in_one|]. split; [eauto|assumption].
  - eapply at_head_weaken; [|apply at_head_opened; intros x; enc].
    intros t a Hin H. tidy. split; [eauto|]. intros ->.
    split; [assumption|].
    eexists [], _, _, _.
    split; [match goal with H : children_of t = _ |- _ => exact H end|].
    split; [assumption|]. split; [assumption|]. right.
    split; [reflexivity|]. split; [by apply str_in_one|]. by split.
Qed.

Lemma reads_synsets fuel extension version :
  consumes (_load_synsets fuel extension version)
           (fun ts _ => Forall (accepted_synset extension) ts).
Proof.
  apply consumes_forall. intros s.
  apply one_step_some; [|apply one_step_some_if].
  - eapply at_head_weaken; [|apply at_head_opened; intros x; enc].
    intros t a Hin H. tidy. split; [eauto|].
    split; [assumption|].
    eexists _, _, _, _. split; [eassumption|].
    split; [assumption|]. split; [assumption|]. split; [assumption|].
    left. split; [by apply str_in_one|]. split; assumption.
  - eapply at_head_weaken; [|apply at_head_opened; intros x; enc].
    intros t a Hin H. tidy. split; [eauto|]. intros ->.
    split; [assumption|].
    eexists _, [], _, _. split; [eassumption|].
    split; [assumption|]. split; [assumption|]. split; [assumption|].
    right. split; [reflexivity|]. split; [by apply str_in_one|reflexivity].
Qed.

#[local] Hint Resolve reads_lexical_entries reads_synsets : reads.

Lemma reads_dependency name :
  consumes (_load_dependency name)
           (fun ts _ => exists t, ts = [t] /\ accepted_dependency name t).
Proof.
  intros ts rest c a c' Hr Hp (x & c1 & H1 & H2)%bind_Done.
  destruct (start_forest _ _ _ _ _ _ Hr Hp H1)
    as (cs & ts' & -> & Hin%str_in_one & Hp1).
  apply bind_Done in H2 as (y & c2 & H2 & H3).
  destruct (end_forest _ _ _ _ _ _ _ Hp1 H2) as (-> & -> & _ & Hp2).
  unbind H3. exists [Node x []], ts'. split; [reflexivity|].
  split; [assumption|]. eexists. split; [reflexivity|].
  split; [by split|]. unfold has_attr. cbn [root_elem]. rewrite Hv, Hv0. eauto.
Qed.

Lemma reads_requires fuel :
  consumes (while_ fuel (fun requires =>
              b <- starts ["Requires"] ;;
              if b then
                d <- _load_dependency "Requires" ;;
                ret (Some (requires ++ [d]))
              else ret None) [])
           (fun ts _ => Forall (accepted_dependency "Requires") ts).
Proof.
  apply consumes_forall. intros s.
  apply one_step_some; [|apply one_step_none].
  intros e cs ts rest c a c' Hr Hin Hp (d & c1 & H1 & H2)%bind_Done.
  destruct (reads_dependency _ _ _ _ _ _ Hr Hp H1)
    as (ts1 & ts2 & E & Hp1 & t & -> & Ht).
  apply ret_Done in H2 as [-> ->]. injection E as <- <-. eauto.
Qed.

Ltac rest_of H x :=
  lazymatch type of H with
  | ?m _ = Done _ _ => eassert (encloses m x _) as He by enc
  end.

Lemma reads_lexicon fuel version :
  consumes (_load_lexicon fuel version)
           (fun ts _ => exists t, ts = [t] /\ accepted_lexicon version t).
Proof.
  intros ts rest c a c' Hr Hp (hd & c1 & H1 & H2)%bind_Done.
  destruct (String.eqb version "1.0") eqn:Hv.
  - apply String.eqb_eq in Hv as ->.
    apply bind_Done in H1 as (x & c2 & H1 & [-> ->]%ret_Done).
    destruct (start_forest _ _ _ _ _ _ Hr Hp H1)
      as (cs & ts' & -> & Hin%str_in_one & Hp1).
    cbv beta iota zeta in H2. rest_of H2 x.
    destruct (He _ _ _ _ _ Hp1 H2) as [Hp2 Hw]. clear He. tidy.
    eexists [Node x _], ts'. split; [reflexivity|].
    split; [assumption|]. eexists. split; [reflexivity|].
    split; [repeat (constructor; [assumption|]); constructor|].
    eexists false, [], _, _. split; [reflexivity|].
    split; [assumption|]. split; [assumption|]. left. by repeat split.
  - apply String.eqb_neq in Hv.
    apply bind_Done in H1 as (x & c2 & H1 & H3).
    destruct (start_forest _ _ _ _ _ _ Hr Hp H1) as (cs & ts' & -> & Hin & Hp1).
    apply bind_Done in H3 as (extends & c3 & H3 & H4).
    apply bind_Done in H4 as (requires & c4 & H4 & [-> ->]%ret_Done).
    cbv beta iota zeta in H2, H3.
    destruct (String.eqb (tag x) "LexiconExtension") eqn:Hx.
    + apply String.eqb_eq in Hx.
      apply bind_Done in H3 as (d & c5 & H3 & [-> ->]%ret_Done).
      destruct (reads_dependency _ _ _ _ _ _ (rest_ok_end _ _) Hp1 H3)
        as (ts1 & cs2 & -> & Hp3 & e & -> & He).
      destruct (reads_requires _ _ _ _ _ _ (rest_ok_end _ _) Hp3 H4)
        as (reqs & cs3 & -> & Hp4 & Hreqs).
      rename He into Hext. rest_of H2 x.
      destruct (He _ _ _ _ _ Hp4 H2) as [Hp2 Hw]. clear He. tidy.
      eexists [Node x _], ts'. split; [reflexivity|].
      split; [assumption|]. eexists. split; [reflexivity|].
      split; [repeat (constructor; [assumption|]); constructor|].
      eexists true, (e :: reqs), _, _. split; [reflexivity|].
      split; [assumption|]. split; [assumption|]. right.
      split; [assumption|]. split; [assumption|]. split; [reflexivity|].
      eauto.
    + apply String.eqb_neq in Hx. apply ret_Done in H3 as [-> ->].
      destruct (reads_requires _ _ _ _ _ _ (rest_ok_end _ _) Hp1 H4)
        as (reqs & cs3 & -> & Hp4 & Hreqs).
      rest_of H2 x.
      destruct (He _ _ _ _ _ Hp4 H2) as [Hp2 Hw]. clear He. tidy.
      eexists [Node x _], ts'. split; [reflexivity|].
      split; [assumption|]. eexists. split; [reflexivity|].
      split; [repeat (constructor; [assumption|]); constructor|].
      eexists false, reqs, _, _. split; [reflexivity|].
      split; [assumption|]. split; [assumption|]. left.
      apply str_in_true in Hin as [Hin|[Hin|[]]]; [|congruence].
      split; [by symmetry|]. split; [reflexivity|]. split; [assumption|].
      intros ->. congruence.
Qed.

Lemma reads_load_events fuel version doc lexicons w c' :
  load_events fuel version (mkCursor (events_of doc) w) = Done lexicons c' ->
  accepted_document version doc.
Proof.
  intros H. unfold load_events in H.
  apply bind_Done in H as (root & c1 & H1 & H).
  assert (Hp : pending (mkCursor (events_of doc) w) = events_of_forest [doc] ++ [])
    by (simpl; rewrite app_nil_r; apply events_of_forest_one).
  destruct (start_forest _ [doc] [] _ _ _ I Hp H1)
    as (cs & ts' & [= -> <-] & Hin%str_in_one & Hp1).
  apply bind_Done in H as (lexs & c2 & H2 & H).
  match type of H2 with
  | while_ _ ?body _ _ = _ =>
      assert (HB : forall s, one_step (body s)
                (fun t _ => accepted_lexicon version t))
  end.
  { intros s. apply one_step_some; [|apply one_step_none].
    intros e cs' ts rest c a c0 Hr0 _ Hp0 (lex & c3 & H3 & H4)%bind_Done.
    destruct (reads_lexicon _ _ _ _ _ _ _ Hr0 Hp0 H3)
      as (ts1 & ts2 & E & Hp3 & t & -> & Ht).
    apply ret_Done in H4 as [-> ->]. injection E as <- <-. eauto. }
  destruct (consumes_forall _ _ HB _ _ _ _ _ _ _ (rest_ok_end _ _) Hp1 H2)
    as (ts1 & ts2 & -> & Hp2 & Hf).
  apply bind_Done in H as (y & c3 & H3 & H).
  destruct (end_forest _ _ _ _ _ _ _ Hp2 H3) as (-> & _ & _ & _).
  split; [exact Hin|]. simpl. by rewrite app_nil_r.
Qed.

(** X24.  [load] returns only on documents of the shape of X23: when it
    returns, the header gave a version, the root is a [LexicalResource],
    and every element below it has the children, in the order, and the
    indexed attributes that the loaders follow.  On any other document it
    returns no result. *)
Theorem load_returns fh doc lexicons c' :
  load fh (events_of doc) = Done lexicons c' ->
  exists version, _read_header fh = Ok version /\ accepted_document version doc.
Proof.
  unfold load. destruct (_read_header fh) as [version|e]; [|discriminate].
  intros H. exists version. split; [reflexivity|].
  eapply reads_load_events, H.
Qed.

(** *** A document that lacks a required child *)

Lemma fails_bind {A B} (m : M A) (k : A -> M B) l e :
  fails m l e -> fails (bind m k) l e.
Proof. intros H w. apply bind_abort, H. Qed.

Lemma fails_sub {A B} (m : M A) (k : A -> M B) l rest P e :
  passes m l rest P -> (forall a, fails (k a) rest e) ->
  fails (bind m k) (l ++ rest) e.
Proof.
  intros Hm Hk w. destruct (Hm w) as (a & w' & E & _).
  rewrite (bind_eq _ _ _ _ _ E). apply Hk.
Qed.

Lemma fails_start {B} tags x (k : Element -> M B) l e :
  str_in (tag x) tags = true -> fails (k x) l e ->
  fails (bind (start tags) k) ((start_ev, x) :: l) e.
Proof.
  intros Hin Hk w.
  rewrite (bind_eq _ _ _ _ _
             (start_at tags (mkCursor ((start_ev, x) :: l) w) x l eq_refl Hin)).
  apply Hk.
Qed.

Lemma fails_guard_true {A} tags x (K E : M A) l e :
  str_in (tag x) tags = true -> fails K ((start_ev, x) :: l) e ->
  fails (b <- starts tags ;; if b then K else E) ((start_ev, x) :: l) e.
Proof.
  intros Hin HK w. unfold bind, starts. cbn [pending is_start andb].
  rewrite Hin. apply HK.
Qed.

Lemma fails_attr {B} k (d : dict string) (k' : string -> M B) l e :
  is_Some (dget k d) -> (forall v, fails (k' v) l e) ->
  fails (bind (lift (dindex k d)) k') l e.
Proof.
  intros [v Hv] Hk w. rewrite (bind_eq _ _ _ _ _ (lift_dindex _ _ _ _ Hv)).
  apply Hk.
Qed.

Lemma fails_ret_bind {A B} (a : A) (k : A -> M B) l e :
  fails (k a) l e -> fails (bind (ret a) k) l e.
Proof. intros H w. apply H. Qed.

Lemma fails_start_other name ev l :
  is_start_of name ev = false ->
  fails (start [name]) (ev :: l)
        (LMFError ("expected <" +:+ name +:+ ">, got " +:+ got ev)).
Proof. intros H w. by apply (start_abort name _ ev l). Qed.

(** A loop that goes through some items and raises on what follows *)
Lemma fails_while {S} (body : S -> M (option S)) (items : list (list event))
    rest e :
  Forall (fun item => forall s R, passes (body s) item R is_Some) items ->
  (forall s, fails (body s) rest e) ->
  forall fuel s,
    length items < fuel ->
    fails (while_ fuel body s) (concat items ++ rest) e.
Proof.
  intros Hitems Hfail.
  induction Hitems as [|item items Hitem _ IH]; intros fuel s Hf w.
  - destruct fuel as [|fuel]; [simpl in Hf; lia|].
    cbn [concat app]. apply while_abort, Hfail.
  - destruct fuel as [|fuel]; [simpl in Hf; lia|].
    cbn [concat]. rewrite <- app_assoc.
    destruct (Hitem s (concat items ++ rest) w) as (r & w1 & E & [s' ->]).
    rewrite (while_some _ _ _ _ _ _ E).
    apply IH. simpl in Hf. lia.
Qed.

Lemma first_inside_events e cs :
  exists evs, events_of_forest cs ++ [(end_ev, e)]
              = first_inside (Node e cs) :: evs.
Proof.
  unfold first_inside. cbn [children_of root_elem].
  destruct cs as [|[x xs] cs]; [by exists []|].
  rewrite forest_cons. cbn [root_elem app]. eauto.
Qed.

Lemma first_inside_other name t :
  ~ first_child_is name t -> is_start_of name (first_inside t) = false.
Proof.
  intros Hno. unfold first_inside, is_start_of.
  destruct (children_of t) as [|c cs] eqn:Hc; [reflexivity|].
  cbn [fst snd is_start andb].
  destruct (String.eqb_spec (tag (root_elem c)) name) as [E|_]; [|reflexivity].
  exfalso. apply Hno. exists c, cs. by split.
Qed.

Lemma fails_after {A B} (m : M A) (k : A -> M B) l rest (P : A -> Prop) e :
  passes m l rest P -> (forall a, P a -> fails (k a) rest e) ->
  fails (bind m k) (l ++ rest) e.
Proof.
  intros Hm Hk w. destruct (Hm w) as (a & w' & E & Ha).
  rewrite (bind_eq _ _ _ _ _ E). by apply Hk.
Qed.

(** An entry that has its [id] and no [Lemma] in front: the loop of
    [_load_lexical_entries] raises on it. *)
Lemma entry_without_lemma fuel extension version bad rest s :
  tag_of bad = "LexicalEntry" -> has_attr "id" (root_elem bad) ->
  ~ first_child_is "Lemma" bad ->
  fails (lexical_entries_body fuel extension version s)
        (events_of bad ++ rest)
        (LMFError ("expected <Lemma>, got " +:+ got (first_inside bad))).
Proof.
  intros Ht Hid Hno. pose proof (first_inside_other _ _ Hno) as Hev.
  destruct bad as [b cs]. unfold tag_of in Ht. cbn [root_elem] in Ht, Hid.
  destruct (first_inside_events b cs) as [evs Hevs].
  rewrite events_of_node, Hevs. cbn [app].
  destruct s as [entries sbs]. unfold lexical_entries_body.
  apply fails_guard_true; [by rewrite Ht|].
  apply fails_start; [by rewrite Ht|]. cbv beta zeta.
  apply fails_attr; [exact Hid|]. intros id.
  apply fails_bind. unfold _load_lemma. apply fails_bind.
  by apply fails_start_other.
Qed.

Lemma entries_without_lemma version fuel extension entries bad rest :
  version = "1.0" \/ version = "1.1" ->
  Forall (accepted_entry extension) entries -> Forall (fits fuel) entries ->
  length entries < fuel ->
  tag_of bad = "LexicalEntry" -> has_attr "id" (root_elem bad) ->
  ~ first_child_is "Lemma" bad ->
  fails (_load_lexical_entries fuel extension version)
        (events_of_forest entries ++ events_of bad ++ rest)
        (LMFError ("expected <Lemma>, got " +:+ got (first_inside bad))).
Proof.
  intros Hv Hts Hfit Hf Ht Hid Hno.
  rewrite load_lexical_entries_body, forest_concat.
  apply fails_while; [| |by rewrite length_map].
  - apply Forall_map. rewrite Forall_forall in Hts, Hfit |- *.
    intros t Hin. apply (accepts_entry version); auto.
  - intros s. by apply entry_without_lemma.
Qed.

(** The start of a lexicon, up to its first entry *)
Lemma accepts_head version fuel extension e deps rest :
  accepted_head version extension e deps ->
  length deps < fuel ->
  halts ["Requires"] rest ->
  passes (if String.eqb version "1.0" then
            lex_root <- start ["Lexicon"] ;;
            ret (lex_root, false, None, [])
          else
            lex_root <- start ["Lexicon"; "LexiconExtension"] ;;
            let extension := String.eqb (tag lex_root) "LexiconExtension" in
            extends <- (if extension
                        then d <- _load_dependency "Extends" ;; ret (Some d)
                        else ret None) ;;
            requires <- while_ fuel (fun requires =>
                          b <- starts ["Requires"] ;;
                          if b then
                            d <- _load_dependency "Requires" ;;
                            ret (Some (requires ++ [d]))
                          else ret None) [] ;;
            ret (lex_root, extension, extends, requires))
         ((start_ev, e) :: events_of_forest deps) rest
         (fun hd => exists extends requires,
                      hd = (e, extension, extends, requires)).
Proof.
  intros Hkind Hl Hr.
  destruct Hkind as [(Ht & -> & Hdeps & H10)
                    |(Hn & Ht & -> & ext & reqs & -> & Hext & Hreqs)].
  - destruct (String.eqb_spec version "1.0") as [E|E].
    + rewrite (H10 E). cbn [events_of_forest map concat].
      apply passes_start; [by rewrite Ht|]. apply passes_ret. eauto.
    + apply passes_start; [by rewrite Ht|]. cbv beta zeta. rewrite Ht.
      change (String.eqb "Lexicon" "LexiconExtension") with false. cbv iota.
      apply passes_ret_bind.
      rewrite <- (app_nil_r (events_of_forest deps)).
      apply passes_sub; [apply accepts_requires; [exact Hdeps|exact Hr|lia]|].
      intros requires. apply passes_ret. eauto.
  - destruct (String.eqb_spec version "1.0") as [E|E]; [contradiction|].
    apply passes_start; [by rewrite Ht|]. cbv beta zeta. rewrite Ht.
    change (String.eqb "LexiconExtension" "LexiconExtension") with true.
    cbv iota. change (ext :: reqs) with ([ext] ++ reqs).
    rewrite forest_app, <- events_of_forest_one.
    apply passes_sub.
    + rewrite <- (app_nil_r (events_of ext)).
      apply passes_sub; [by apply accepts_dependency|].
      intros d. by apply passes_ret.
    + intros extends. rewrite <- (app_nil_r (events_of_forest reqs)).
      cbn [length] in Hl.
      apply passes_sub; [apply accepts_requires; [exact Hreqs|exact Hr|lia]|].
      intros requires. apply passes_ret. eauto.
Qed.

Lemma halts_tree tags t l :
  str_in (tag_of t) tags = false -> halts tags (events_of t ++ l).
Proof. destruct t as [e cs]. intros H. rewrite events_of_node. exact H. Qed.

Lemma lexicon_without_lemma version fuel extension e deps entries bad more rest :
  version = "1.0" \/ version = "1.1" ->
  fits fuel (Node e (deps ++ entries ++ bad :: more)) ->
  accepted_head version extension e deps ->
  Forall (accepted_entry extension) entries ->
  tag_of bad = "LexicalEntry" -> has_attr "id" (root_elem bad) ->
  ~ first_child_is "Lemma" bad ->
  fails (_load_lexicon fuel version)
        (events_of (Node e (deps ++ entries ++ bad :: more)) ++ rest)
        (LMFError ("expected <Lemma>, got " +:+ got (first_inside bad))).
Proof.
  intros Hv Hfit Hkind Hentries Ht Hid Hno.
  destruct (fits_children _ _ _ Hfit) as [Hfc Hl]. rewrite !length_app in Hl.
  apply fits_app in Hfc as [_ Hfc]. apply fits_app in Hfc as [Hf2 _].
  assert (Hh : halts ["Requires"]
                 (events_of_forest entries
                  ++ events_of bad
                  ++ events_of_forest more ++ (end_ev, e) :: rest)).
  { apply halts_forest.
    - pose proof (tags_of_entries extension entries Hentries) as Htags.
      eapply Forall_impl; [exact Htags|]. intros t Hin. cbv beta in Hin.
      apply str_in_true in Hin as [<-|[<-|[]]]; reflexivity.
    - apply halts_tree. by rewrite Ht. }
  assert (E : events_of (Node e (deps ++ entries ++ bad :: more)) ++ rest
              = ((start_ev, e) :: events_of_forest deps)
                ++ (events_of_forest entries
                    ++ events_of bad
                    ++ events_of_forest more ++ (end_ev, e) :: rest)).
  { change (bad :: more) with ([bad] ++ more).
    rewrite events_of_node, !forest_app, <- events_of_forest_one.
    cbn [app]. rewrite <- !app_assoc. reflexivity. }
  rewrite E.
  unfold _load_lexicon.
  eapply fails_after.
  - apply (accepts_head version fuel extension e deps); [exact Hkind|lia|exact Hh].
  - intros hd (extends & requires & ->). cbv beta iota zeta.
    apply fails_bind.
    apply entries_without_lemma; try assumption. lia.
Qed.

Lemma lexicon_without_extends version fuel e cs rest :
  version <> "1.0" -> tag e = "LexiconExtension" ->
  ~ first_child_is "Extends" (Node e cs) ->
  fails (_load_lexicon fuel version) (events_of (Node e cs) ++ rest)
        (LMFError ("expected <Extends>, got " +:+ got (first_inside (Node e cs)))).
Proof.
  intros Hv Ht Hno. pose proof (first_inside_other _ _ Hno) as Hev.
  destruct (first_inside_events e cs) as [evs Hevs].
  rewrite events_of_node, Hevs. cbn [app].
  unfold _load_lexicon. apply fails_bind.
  apply String.eqb_neq in Hv. rewrite Hv.
  apply fails_start; [by rewrite Ht|]. cbv beta zeta. rewrite Ht.
  change (String.eqb "LexiconExtension" "LexiconExtension") with true.
  cbv iota. apply fails_bind, fails_bind.
  unfold _load_dependency. apply fails_bind.
  by apply fails_start_other.
Qed.

(** At version 1.0 the loader expects a [Lexicon] and raises on the
    start tag of an extension. *)
Lemma extension_at_1_0 fuel e cs rest :
  tag e = "LexiconExtension" ->
  fails (_load_lexicon fuel "1.0") (events_of (Node e cs) ++ rest)
        (LMFError "expected <Lexicon>, got <LexiconExtension>").
Proof.
  intros Ht. rewrite events_of_node. cbn [app].
  unfold _load_lexicon. apply fails_bind.
  change (String.eqb "1.0" "1.0") with true. cbv iota.
  apply fails_bind.
  assert (Hev : is_start_of "Lexicon" (start_ev, e) = false).
  { unfold is_start_of. cbn [fst snd is_start andb]. by rewrite Ht. }
  pose proof (fails_start_other "Lexicon" (start_ev, e)
                ((events_of_forest cs ++ [(end_ev, e)]) ++ rest) Hev) as H.
  unfold got in H. cbn [fst snd is_start] in H. rewrite Ht in H. exact H.
Qed.

(** [load] on a document whose lexicons are read without fault up to
    one on which [_load_lexicon] raises *)
Lemma load_fails fh version root before lex after err :
  _read_header fh = Ok version ->
  tag root = "LexicalResource" ->
  Forall (accepted_lexicon version) before ->
  str_in (tag_of lex) ["Lexicon"; "LexiconExtension"] = true ->
  (forall fuel rest,
     fits fuel lex -> fails (_load_lexicon fuel version) (events_of lex ++ rest) err) ->
  load fh (events_of (Node root (before ++ lex :: after))) = Abort err.
Proof.
  intros Hh Ht Hlex Htag Hfail. pose proof (header_version _ _ Hh) as Hv.
  unfold load. rewrite Hh.
  set (doc := Node root (before ++ lex :: after)).
  set (fuel := S (length (events_of doc))).
  assert (Hfit : fits fuel doc) by (unfold fits, fuel; lia).
  destruct (fits_children _ _ _ Hfit) as [Hfc Hl].
  apply fits_app in Hfc as [Hf1 Hf2]. apply Forall_cons_1 in Hf2 as [Hf2 _].
  rewrite length_app in Hl.
  assert (E : events_of doc
              = (start_ev, root)
                :: concat (map events_of before)
                ++ (events_of lex
                    ++ events_of_forest after ++ [(end_ev, root)])).
  { unfold doc. change (lex :: after) with ([lex] ++ after).
    rewrite events_of_node, !forest_app, <- events_of_forest_one, forest_concat.
    rewrite <- !app_assoc. reflexivity. }
  rewrite E. unfold load_events.
  apply fails_start; [by rewrite Ht|]. apply fails_bind.
  apply fails_while; [| |rewrite length_map; lia].
  - apply Forall_map. rewrite Forall_forall in Hlex, Hf1 |- *.
    intros t Hin s R. cbv beta.
    pose proof (tags_of_lexicons version [t]
                  (Forall_cons_2 _ _ _ (Hlex _ Hin) (Forall_nil_2 _))) as Htg.
    apply Forall_cons_1 in Htg as [Htg _]. destruct t as [x xs].
    rewrite events_of_node. apply passes_guard_true; [exact Htg|].
    rewrite <- events_of_node.
    rewrite <- (app_nil_r (events_of (Node x xs))).
    apply passes_sub; [by apply accepts_lexicon; auto|].
    intros lex'. by apply passes_ret.
  - intros s. destruct lex as [x xs]. unfold tag_of in Htag.
    cbn [root_elem] in Htag.
    rewrite events_of_node. cbn [app].
    apply fails_guard_true; [exact Htag|].
    apply fails_bind.
    change ((start_ev, x)
            :: (events_of_forest xs ++ [(end_ev, x)])
            ++ events_of_forest after ++ [(end_ev, root)])
      with (events_of (Node x xs)
            ++ events_of_forest after ++ [(end_ev, root)]).
    by apply Hfail.
Qed.

(** C5.  A document with a [LexicalEntry] whose first child is not a
    [Lemma], or with a [LexiconExtension] whose first child is not an
    [Extends], does not load: [load] raises and returns no resource.  Where
    the loader meets such an element, the error is the [LMFError] that
    names the expected tag and the event found in its place.  This is the
    error of the whole load when the document was read without fault up to
    that element: the lexicons before it are as the loaders accept them,
    and so are, for an entry, the start of its lexicon and the entries
    before it, the entry itself having its [id].  At version 1.0, where no
    extension is expected, the error names the [Lexicon] expected in place
    of the [LexiconExtension]. *)
Theorem missing_required_child :
  (forall fh doc n,
     In n (subtrees doc) -> tag_of n = "LexicalEntry" ->
     ~ first_child_is "Lemma" n ->
     exists e, load fh (events_of doc) = Abort e)
  /\ (forall fh doc n,
     In n (subtrees doc) -> tag_of n = "LexiconExtension" ->
     ~ first_child_is "Extends" n ->
     exists e, load fh (events_of doc) = Abort e)
  /\ (forall fuel extension version e ev evs w id,
     tag e = "LexicalEntry" ->
     dget "id" (attrib e) = Some id ->
     is_start_of "Lemma" ev = false ->
     _load_lexical_entries (S fuel) extension version
       (mkCursor ((start_ev, e) :: ev :: evs) w)
     = Abort (LMFError ("expected <Lemma>, got " +:+ got ev)))
  /\ (forall fuel version e ev evs w,
     version <> "1.0" ->
     tag e = "LexiconExtension" ->
     is_start_of "Extends" ev = false ->
     _load_lexicon fuel version (mkCursor ((start_ev, e) :: ev :: evs) w)
     = Abort (LMFError ("expected <Extends>, got " +:+ got ev)))
  /\ (forall fh version root before e dependencies entries bad more after
            extension,
     _read_header fh = Ok version ->
     tag root = "LexicalResource" ->
     Forall (accepted_lexicon version) before ->
     accepted_head version extension e dependencies ->
     Forall (accepted_entry extension) entries ->
     tag_of bad = "LexicalEntry" -> has_attr "id" (root_elem bad) ->
     ~ first_child_is "Lemma" bad ->
     load fh (events_of
                (Node root
                   (before
                    ++ Node e (dependencies ++ entries ++ bad :: more)
                    :: after)))
     = Abort (LMFError ("expected <Lemma>, got " +:+ got (first_inside bad))))
  /\ (forall fh version root before e cs after,
     _read_header fh = Ok version -> version <> "1.0" ->
     tag root = "LexicalResource" ->
     Forall (accepted_lexicon version) before ->
     tag e = "LexiconExtension" ->
     ~ first_child_is "Extends" (Node e cs) ->
     load fh (events_of (Node root (before ++ Node e cs :: after)))
     = Abort (LMFError ("expected <Extends>, got "
                        +:+ got (first_inside (Node e cs)))))
  /\ (forall fh root before e cs after,
     _read_header fh = Ok "1.0" ->
     tag root = "LexicalResource" ->
     Forall (accepted_lexicon "1.0") before ->
     tag e = "LexiconExtension" ->
     load fh (events_of (Node root (before ++ Node e cs :: after)))
     = Abort (LMFError "expected <Lexicon>, got <LexiconExtension>")).
Proof.
  split; [|split; [|split; [|split; [|split; [|split]]]]].
  - intros fh doc n Hin Htag Hbad. apply (load_aborts fh doc n Hin).
    intros (_ & _ & Hok & _). auto.
  - intros fh doc n Hin Htag Hbad. apply (load_aborts fh doc n Hin).
    intros (_ & _ & _ & Hok). auto.
  - intros fuel extension version e ev evs w id Htag Hid Hev.
    assert (Hin : str_in (tag e) ["LexicalEntry"] = true)
      by (rewrite Htag; reflexivity).
    unfold _load_lexical_entries. apply while_abort. cbv beta iota.
    step ltac:(eapply starts_at; reflexivity).
    cbn [is_start andb]. rewrite Hin. cbv iota.
    step ltac:(apply start_at; [reflexivity|exact Hin]).
    step ltac:(apply lift_dindex; exact Hid).
    apply bind_abort. unfold _load_lemma. apply bind_abort.
    apply (start_abort "Lemma" _ ev evs); [reflexivity|exact Hev].
  - intros fuel version e ev evs w Hv Htag Hev.
    unfold _load_lexicon. apply bind_abort.
    apply String.eqb_neq in Hv. rewrite Hv.
    step ltac:(apply start_at; [reflexivity|rewrite Htag; reflexivity]).
    rewrite Htag. cbn [String.eqb Ascii.eqb Bool.eqb]. cbv iota.
    apply bind_abort. apply bind_abort. unfold _load_dependency.
    apply bind_abort.
    apply (start_abort "Extends" _ ev evs); [reflexivity|exact Hev].
  - intros fh version root before e deps entries bad more after extension
      Hh Hroot Hbefore Hhead Hentries Htag Hid Hno.
    apply (load_fails fh version root before _ after); try assumption.
    + destruct Hhead as [(Ht & _)|(_ & Ht & _)]; unfold tag_of;
        cbn [root_elem]; by rewrite Ht.
    + intros fuel rest Hfit.
      apply (lexicon_without_lemma version fuel extension); try assumption.
      exact (header_version _ _ Hh).
  - intros fh version root before e cs after Hh Hv Hroot Hbefore Htag Hno.
    apply (load_fails fh version root before _ after); try assumption.
    + unfold tag_of. cbn [root_elem]. by rewrite Htag.
    + intros fuel rest _. by apply lexicon_without_extends.
  - intros fh root before e cs after Hh Hroot Hbefore Htag.
    apply (load_fails fh "1.0" root before _ after); try assumption.
    + unfold tag_of. cbn [root_elem]. by rewrite Htag.
    + intros fuel rest _. by apply extension_at_1_0.
Qed.

(** *** The metadata of the loaded entities *)

Lemma Forall2_Exists_iff {A B} (P : A -> Prop) (Q : B -> Prop) l k :
  Forall2 (fun a b => Q b <-> P a) l k -> (Exists Q k <-> Exists P l).
Proof.
  induction 1 as [|a b l k Hab _ IH]; [split; intros H; inversion H|].
  rewrite !Exists_cons. destruct IH as [IH1 IH2], Hab as [H1 H2].
  split; (intros [H|H]; [left|right]); auto.
Qed.

Lemma get_metadata_attached version uri e c m c' :
  dget version _DC_URIS = Some uri ->
  _get_metadata (attrib e) version c = Done m c' ->
  attached uri e m.
Proof.
  intros Hu H.
  destruct (get_metadata_slots (attrib e) version uri c Hu)
    as (slots & r & c'' & Hrun & _ & Hlen & Hall & Hcase).
  rewrite Hrun in H. injection H as -> _.
  pose proof (Forall2_Exists_iff _ _ _ _ Hall) as Hex.
  destruct Hcase as [[-> Hsome]|[-> Hnone]]; split.
  - split; [intros _; by apply Hex|intros _; eauto].
  - intros slots' [= <-]. by split.
  - split; [intros [? [=]]|]. intros Hp. apply Hex in Hp. exfalso.
    apply Exists_exists in Hp as (x & Hin & [v ->]).
    rewrite Forall_forall in Hnone. by specialize (Hnone _ Hin).
  - intros slots' [=].
Qed.

Lemma consumes_metadata_attached version uri x :
  dget version _DC_URIS = Some uri ->
  consumes (_get_metadata (attrib x) version)
           (fun ts m => ts = [] /\ attached uri x m).
Proof.
  intros Hu. apply consumes_keep. intros c a c' H. split.
  - eapply still_get_metadata, H.
  - eapply get_metadata_attached; eauto.
Qed.

(** A loop over childless elements of one tag, each of which gives one
    item *)
Lemma consumes_leaves_list {I} T
    (K : list I -> Element -> M (option (list I))) (R : Element -> I -> Prop) :
  (forall acc x c r c', K acc x c = Done r c' ->
     pending c' = pending c /\ exists item, r = Some (acc ++ [item]) /\ R x item) ->
  forall fuel,
    consumes (while_ fuel
                (fun acc =>
                   b <- starts [T] ;;
                   if b then next_event ;;; (elem <- end_ [T] ;; K acc elem)
                   else ret None) [])
             (fun ts r => Forall2 (fun t item => tag_of t = T
                                                 /\ R (root_elem t) item) ts r).
Proof.
  intros HK fuel. eapply consumes_weaken; cycle 1.
  - apply (consumes_while_list _
             (fun t item => tag_of t = T /\ R (root_elem t) item)).
    intros s. apply one_step_guard; [|apply one_step_none].
    intros e cs ts rest c a c' Hr Hin Hp (ev & c1 & H1 & H2)%bind_Done.
    destruct (next_forest _ _ _ _ _ _ _ Hp H1) as [-> Hp1].
    apply bind_Done in H2 as (x & c2 & H2 & H3).
    destruct (end_forest _ _ _ _ _ _ _ Hp1 H2) as (-> & -> & _ & Hp2).
    destruct (HK _ _ _ _ _ H3) as (Hp3 & item & -> & Hitem).
    split; [congruence|]. eexists. split; [reflexivity|].
    eexists. split; [reflexivity|]. split; [|exact Hitem].
    by apply str_in_one in Hin.
  - intros ts a (xs & -> & Hf). exact Hf.
Qed.

Ltac unbind_meta H Hu :=
  repeat lazymatch type of H with
  | bind (lift _) _ _ = Done _ _ =>
      let v := fresh "v" in let c := fresh "c" in let Hv := fresh "Hv" in
      apply bind_Done in H as (v & c & [Hv%dindex_Ok ->]%lift_Done & H)
  | bind (_get_metadata _ _) _ _ = Done _ _ =>
      let v := fresh "meta" in let c := fresh "c" in let Hv := fresh "Hm" in
      apply bind_Done in H as (v & c & Hv & H);
      pose proof (still_get_metadata _ _ _ _ _ Hv);
      apply (get_metadata_attached _ _ _ _ _ _ Hu) in Hv
  | ret _ _ = Done _ _ => apply ret_Done in H as [-> ->]
  end.

Section Metas.
Variables (version uri : string).
Hypothesis Hu : dget version _DC_URIS = Some uri.

Lemma metas_examples fuel :
  consumes (_load_examples fuel version)
           (fun ts r => Forall2 (leaf_metadata "Example" Example_meta uri) ts r).
Proof using Hu.
  apply (consumes_leaves_list "Example" _
           (fun x item => attached uri x (Example_meta item))).
  intros acc x c r c' H. unbind_meta H Hu. split; [assumption|]. eauto.
Qed.

Lemma metas_definitions fuel :
  consumes (_load_definitions fuel version)
           (fun ts r => Forall2 (leaf_metadata "Definition" Definition_meta uri)
                                ts r).
Proof using Hu.
  apply (consumes_leaves_list "Definition" _
           (fun x item => attached uri x (Definition_meta item))).
  intros acc x c r c' H. unbind_meta H Hu. split; [assumption|]. eauto.
Qed.

Lemma metas_counts fuel :
  consumes (_load_counts fuel version)
           (fun ts r => Forall2 (leaf_metadata "Count" Count_meta uri) ts r).
Proof using Hu.
  apply (consumes_leaves_list "Count" _
           (fun x item => attached uri x (Count_meta item))).
  intros acc x c r c' (n & c1 & H1 & H)%bind_Done. unbind_meta H Hu.
  destruct (text x) as [txt|]; [|discriminate].
  split; [|eauto]. rewrite H0.
  destruct (py_int txt); [by apply ret_Done in H1 as [_ ->]|].
  apply bind_Done in H1 as ([] & c2 & [= <-] & [_ ->]%ret_Done). reflexivity.
Qed.

Lemma metas_sense_relations fuel :
  consumes (_load_sense_relations fuel version)
           (fun ts r => Forall2 (leaf_metadata "SenseRelation"
                                   SenseRelation_meta uri) ts r).
Proof using Hu.
  apply (consumes_leaves_list "SenseRelation" _
           (fun x item => attached uri x (SenseRelation_meta item))).
  intros acc x c r c' H.
  apply bind_Done in H as (reltype & c1 & [Hr%dindex_Ok ->]%lift_Done & H).
  destruct (negb _); [discriminate|].
  unbind_meta H Hu. split; [assumption|]. eauto.
Qed.

Lemma metas_synset_relations fuel :
  consumes (_load_synset_relations fuel version)
           (fun ts r => Forall2 (leaf_metadata "SynsetRelation"
                                   SynsetRelation_meta uri) ts r).
Proof using Hu.
  apply (consumes_leaves_list "SynsetRelation" _
           (fun x item => attached uri x (SynsetRelation_meta item))).
  intros acc x c r c' H.
  apply bind_Done in H as (reltype & c1 & [Hr%dindex_Ok ->]%lift_Done & H).
  destruct (negb _); [discriminate|].
  unbind_meta H Hu. split; [assumption|]. eauto.
Qed.

Lemma metas_ilidefinition :
  consumes (_load_ilidefinition version)
    (fun ts r => Forall2 (leaf_metadata "ILIDefinition" ILIDefinition_meta uri)
                         ts (option_list r)).
Proof using Hu.
  intros ts rest c a c' Hr Hp (b & c1 & H1 & H2)%bind_Done.
  destruct (starts_forest _ _ _ _ _ _ Hr Hp H1) as [-> Hb].
  destruct b.
  - destruct (Hb eq_refl) as (x & cs & ts' & -> & Hin%str_in_one).
    apply bind_Done in H2 as (ev & c2 & H2 & H3).
    destruct (next_forest _ _ _ _ _ _ _ Hp H2) as [-> Hp2].
    apply bind_Done in H3 as (y & c3 & H3 & H4).
    destruct (end_forest _ _ _ _ _ _ _ Hp2 H3) as (-> & -> & _ & Hp3).
    unbind_meta H4 Hu. exists [Node x []], ts'. split; [reflexivity|].
    split; [congruence|]. cbn [option_list]. constructor; [|constructor].
    by split.
  - apply ret_Done in H2 as [-> ->]. exists [], ts.
    split; [reflexivity|]. split; [exact Hp|constructor].
Qed.

Create HintDb metas.
#[local] Hint Resolve consumes_attr consumes_literal consumes_bool reads_tags
  reads_forms reads_lemma reads_syntactic_behaviours metas_examples
  metas_definitions metas_counts metas_sense_relations metas_synset_relations
  metas_ilidefinition consumes_metadata_attached : metas.

Ltac menc :=
  cbv zeta; cbn [snd];
  lazymatch goal with
  | |- encloses (bind (end_ _) (fun _ => ret _)) _ _ => apply encloses_end
  | |- encloses (bind _ _) _ _ =>
      eapply encloses_seq; [solve [eauto with metas] | intros ?; menc]
  end.

Ltac children :=
  match goal with H : children_of _ = _ |- _ => exact H end.

Lemma metas_senses fuel external :
  consumes (_load_senses fuel external version)
           (fun ts r => Forall2 (sense_metadata uri) ts r).
Proof using Hu.
  eapply consumes_weaken; cycle 1.
  - apply (consumes_while_list _ (sense_metadata uri)). intros s.
    apply one_step_guard; [|apply one_step_guard_if].
    + eapply at_head_weaken; [|apply at_head_opened; intros x; menc].
      intros t a Hin H. tidy.
      eexists. split; [reflexivity|]. eexists. split; [reflexivity|].
      split; [left; split; [by apply str_in_one|by split]|].
      eexists _, _, _. split; [children|]. by repeat split.
    + eapply at_head_weaken; [|apply at_head_opened; intros x; menc].
      intros t a Hin H. tidy.
      eexists. split; [reflexivity|]. intros _. eexists. split; [reflexivity|].
      split; [right; split; [by apply str_in_one|by split]|].
      eexists _, _, _. split; [children|]. by repeat split.
  - intros ts a (xs & -> & Hf). exact Hf.
Qed.

#[local] Hint Resolve metas_senses : metas.

Lemma consumes_while_fst {X Y} (body : list X * Y -> M (option (list X * Y)))
    (R : xml -> X -> Prop) :
  (forall s, one_step (body s)
               (fun t s' => exists x, s'.1 = s.1 ++ [x] /\ R t x)) ->
  forall fuel s,
    consumes (while_ fuel body s)
      (fun ts1 r => exists xs, r.1 = s.1 ++ xs /\ Forall2 R ts1 xs).
Proof.
  intros Hb. induction fuel as [|fuel IH]; intros s ts rest c r c' Hr Hp H;
    [discriminate|].
  simpl in H. apply bind_Done in H as (o & c1 & H1 & H2).
  pose proof (Hb s _ _ _ _ _ Hr Hp H1) as Hstep. destruct o as [s'|].
  - destruct Hstep as (t & ts' & -> & Hp1 & x & Hs' & Hx).
    destruct (IH _ _ _ _ _ _ Hr Hp1 H2) as (ts1 & ts2 & -> & Hp2 & xs & Hxs & Hf).
    exists (t :: ts1), ts2. split; [reflexivity|]. split; [assumption|].
    exists (x :: xs). rewrite Hxs, Hs', <- app_assoc. split; [reflexivity|].
    constructor; assumption.
  - apply ret_Done in H2 as [-> ->]. exists [], ts.
    split; [reflexivity|]. split; [congruence|].
    exists []. rewrite app_nil_r. split; [reflexivity|constructor].
Qed.

Lemma lemma_or_form lemmas forms :
  (exists lemma, lemmas = [lemma] /\ accepted_lemma lemma) \/ lemmas = [] ->
  Forall accepted_form forms ->
  Forall (fun c => str_in (tag_of c) ["Lemma"; "Form"] = true) (lemmas ++ forms).
Proof.
  intros Hl Hf. apply Forall_app. split.
  - destruct Hl as [(lemma & -> & Ht & _)| ->]; [|constructor].
    constructor; [by rewrite Ht|constructor].
  - eapply Forall_impl; [exact Hf|]. intros c (Ht & _). by rewrite Ht.
Qed.

Lemma behaviour_tags ts :
  Forall accepted_behaviour ts ->
  Forall (fun c => tag_of c = "SyntacticBehaviour") ts.
Proof. intros H. eapply Forall_impl; [exact H|]. by intros c [[Ht _] _]. Qed.

Lemma metas_lexical_entries fuel extension :
  consumes (_load_lexical_entries fuel extension version)
           (fun ts r => Forall2 (entry_metadata uri) ts r.1).
Proof using Hu.
  eapply consumes_weaken; cycle 1.
  - apply (consumes_while_fst _ (entry_metadata uri)). intros [entries sbs].
    apply one_step_guard; [|apply one_step_guard_if].
    + eapply at_head_weaken; [|apply at_head_opened; intros x; menc].
      intros t a Hin H. tidy.
      eexists. split; [reflexivity|]. eexists. split; [reflexivity|].
      split; [left; split; [by apply str_in_one|by split]|].
      eexists (_ :: _), _, _. split; [|split; [|split]].
      * match goal with
        | H : children_of t = ?l :: ?f ++ ?s ++ ?b |- _ =>
            change (children_of t = ([l] ++ f) ++ s ++ b) in H; exact H
        end.
      * match goal with
        | |- Forall _ (?l :: ?f) => apply (lemma_or_form [l] f); eauto
        end.
      * by apply behaviour_tags.
      * assumption.
    + eapply at_head_weaken; [|apply at_head_opened; intros x; menc].
      intros t a Hin H. tidy.
      eexists. split; [reflexivity|]. intros _. eexists. split; [reflexivity|].
      split; [right; split; [by apply str_in_one|by split]|].
      eexists _, _, _. split; [children|]. split; [|split].
      * apply (lemma_or_form []); auto.
      * by apply behaviour_tags.
      * assumption.
  - intros ts a (xs & -> & Hf). exact Hf.
Qed.

Lemma metas_synsets fuel extension :
  consumes (_load_synsets fuel extension version)
           (fun ts r => Forall2 (synset_metadata uri) ts r).
Proof using Hu.
  eapply consumes_weaken; cycle 1.
  - apply (consumes_while_list _ (synset_metadata uri)). intros s.
    apply one_step_guard; [|apply one_step_guard_if].
    + eapply at_head_weaken; [|apply at_head_opened; intros x; menc].
      intros t a Hin H. tidy.
      eexists. split; [reflexivity|]. eexists. split; [reflexivity|].
      split; [left; split; [by apply str_in_one|by split]|].
      eexists _, _, _, _. split; [children|]. by repeat split.
    + eapply at_head_weaken; [|apply at_head_opened; intros x; menc].
      intros t a Hin H. tidy.
      eexists. split; [reflexivity|]. intros _. eexists. split; [reflexivity|].
      split; [right; split; [by apply str_in_one|by split]|].
      eexists _, [], _, _. split; [children|]. repeat split; try assumption.
      constructor.
  - intros ts a (xs & -> & Hf). exact Hf.
Qed.

#[local] Hint Resolve metas_lexical_entries metas_synsets : metas.

Ltac mrest_of H x :=
  lazymatch type of H with
  | ?m _ = Done _ _ => eassert (encloses m x _) as He by menc
  end.

Lemma requires_tags ts :
  Forall (accepted_dependency "Requires") ts ->
  Forall (fun c => str_in (tag_of c) ["Extends"; "Requires"] = true) ts.
Proof. intros H. eapply Forall_impl; [exact H|]. intros c [[-> _] _]. reflexivity. Qed.

Lemma metas_lexicon fuel :
  consumes (_load_lexicon fuel version)
           (fun ts lexicon => exists t, ts = [t] /\ lexicon_metadata uri t lexicon).
Proof using Hu.
  intros ts rest c a c' Hr Hp (hd & c1 & H1 & H2)%bind_Done.
  destruct (String.eqb version "1.0") eqn:Hv.
  - apply bind_Done in H1 as (x & c2 & H1 & [-> ->]%ret_Done).
    destruct (start_forest _ _ _ _ _ _ Hr Hp H1)
      as (cs & ts' & -> & Hin%str_in_one & Hp1).
    cbv beta iota zeta in H2. mrest_of H2 x.
    destruct (He _ _ _ _ _ Hp1 H2) as [Hp2 Hw]. clear He. tidy.
    eexists [Node x _], ts'. split; [reflexivity|].
    split; [assumption|]. eexists. split; [reflexivity|].
    split; [assumption|].
    eexists [], _, _. split; [reflexivity|]. split; [constructor|]. by split.
  - apply bind_Done in H1 as (x & c2 & H1 & H3).
    destruct (start_forest _ _ _ _ _ _ Hr Hp H1) as (cs & ts' & -> & Hin & Hp1).
    apply bind_Done in H3 as (extends & c3 & H3 & H4).
    apply bind_Done in H4 as (requires & c4 & H4 & [-> ->]%ret_Done).
    cbv beta iota zeta in H2, H3.
    destruct (String.eqb (tag x) "LexiconExtension") eqn:Hx.
    + apply bind_Done in H3 as (d & c5 & H3 & [-> ->]%ret_Done).
      destruct (reads_dependency _ _ _ _ _ _ (rest_ok_end _ _) Hp1 H3)
        as (ts1 & cs2 & -> & Hp3 & e & -> & Hext).
      destruct (reads_requires _ _ _ _ _ _ (rest_ok_end _ _) Hp3 H4)
        as (reqs & cs3 & -> & Hp4 & Hreqs).
      mrest_of H2 x.
      destruct (He _ _ _ _ _ Hp4 H2) as [Hp2 Hw]. clear He. tidy.
      eexists [Node x _], ts'. split; [reflexivity|].
      split; [assumption|]. eexists. split; [reflexivity|].
      split; [assumption|].
      eexists (e :: reqs), _, _. split; [reflexivity|]. split; [|by split].
      constructor; [|by apply requires_tags].
      destruct Hext as [[-> _] _]. reflexivity.
    + apply ret_Done in H3 as [-> ->].
      destruct (reads_requires _ _ _ _ _ _ (rest_ok_end _ _) Hp1 H4)
        as (reqs & cs3 & -> & Hp4 & Hreqs).
      mrest_of H2 x.
      destruct (He _ _ _ _ _ Hp4 H2) as [Hp2 Hw]. clear He. tidy.
      eexists [Node x _], ts'. split; [reflexivity|].
      split; [assumption|]. eexists. split; [reflexivity|].
      split; [assumption|].
      eexists reqs, _, _. split; [reflexivity|].
      split; [by apply requires_tags|by split].
Qed.

Lemma metas_load_events fuel doc lexicons w c' :
  load_events fuel version (mkCursor (events_of doc) w) = Done lexicons c' ->
  Forall2 (lexicon_metadata uri) (children_of doc) lexicons.
Proof using Hu.
  intros H. unfold load_events in H.
  apply bind_Done in H as (root & c1 & H1 & H).
  assert (Hp : pending (mkCursor (events_of doc) w) = events_of_forest [doc] ++ [])
    by (simpl; rewrite app_nil_r; apply events_of_forest_one).
  destruct (start_forest _ [doc] [] _ _ _ I Hp H1)
    as (cs & ts' & [= -> <-] & Hin%str_in_one & Hp1).
  apply bind_Done in H as (lexs & c2 & H2 & H).
  match type of H2 with
  | while_ _ ?body _ _ = _ =>
      assert (HB : forall s, one_step (body s)
                (fun t s' => exists x, s' = s ++ [x] /\ lexicon_metadata uri t x))
  end.
  { intros s. apply one_step_guard; [|apply one_step_none].
    intros e cs' ts rest c a c0 Hr0 _ Hp0 (lex & c3 & H3 & H4)%bind_Done.
    destruct (metas_lexicon _ _ _ _ _ _ Hr0 Hp0 H3)
      as (ts1 & ts2 & E & Hp3 & t & -> & Ht).
    apply ret_Done in H4 as [-> ->]. injection E as <- <-. eauto 6. }
  destruct (consumes_while_list _ _ HB _ _ _ _ _ _ _ (rest_ok_end _ _) Hp1 H2)
    as (ts1 & ts2 & -> & Hp2 & xs & -> & Hf).
  apply bind_Done in H as (y & c3 & H3 & H).
  destruct (end_forest _ _ _ _ _ _ _ Hp2 H3) as (-> & _ & _ & _).
  apply bind_Done in H as (d & c4 & H4 & H).
  apply ret_Done in H as [-> _].
  cbn [children_of]. by rewrite app_nil_r.
Qed.

End Metas.

Lemma uri_of_version version :
  version = "1.0" \/ version = "1.1" -> is_Some (dget version _DC_URIS).
Proof. intros [-> | ->]; by eexists. Qed.

(** C6 (amended).  [_get_metadata] fills seventeen slots, one per
    attribute name of [metadata_names], each exactly when the attribute is
    present, and returns the record when some slot is filled and [None]
    when none is.  In the graph [load] returns, every lexicon, every entry,
    sense and synset that is not external, every relation, example, count,
    definition and ILI definition carries the metadata that goes with the
    element it was loaded from: a record exactly when one of the seventeen
    attributes is present on that element.  The external entries, senses
    and synsets carry none, whatever attributes their elements have. *)
Theorem metadata_attached_iff :
  (forall attrs version uri c,
     dget version _DC_URIS = Some uri ->
     exists (slots : Metadata) r c',
       _get_metadata attrs version c = Done r c'
       /\ pending c' = pending c
       /\ length slots = 17
       /\ Forall2 (fun name slot => is_Some slot <-> is_Some (dget name attrs))
                  (metadata_names uri) slots
       /\ ((r = Some slots /\ Exists is_Some slots)
           \/ (r = None /\ Forall (fun slot => slot = None) slots)))
  /\ (forall fh doc lexicons c',
     load fh (events_of doc) = Done lexicons c' ->
     exists version uri,
       _read_header fh = Ok version
       /\ dget version _DC_URIS = Some uri
       /\ Forall2 (lexicon_metadata uri) (children_of doc) lexicons).
Proof.
  split; [exact get_metadata_slots|].
  intros fh doc lexicons c'. unfold load.
  destruct (_read_header fh) as [version|e] eqn:Hh; [|discriminate].
  intros H.
  destruct (uri_of_version version (header_version _ _ Hh)) as [uri Hu].
  exists version, uri. split; [reflexivity|]. split; [exact Hu|].
  eapply metas_load_events; eauto.
Qed.

End LMF.

(** * The claims at concrete inputs *)

Arguments Done {float A} a c.
Arguments Abort {float A} e.
Arguments OutOfFuel {float A}.
Arguments mkCursor {float} pending log.
Arguments pending {float} c.
Arguments log {float} c.
Arguments NotOneOf {float} value choices.
Arguments PStr {float} s.
Arguments PFloat {float} f.

Abbreviation sample_load :=
  (load sample_SENSE_RELATIONS sample_SENSE_SYNSET_RELATIONS
     sample_SYNSET_RELATIONS sample_ADJPOSITIONS sample_PARTS_OF_SPEECH
     Z sample_int sample_float sample_float_in_unit).

Abbreviation sample_dump := (dump Z sample_float_str sample_set_iter).

Abbreviation sample_round_trip :=
  (round_trip sample_SENSE_RELATIONS sample_SENSE_SYNSET_RELATIONS
     sample_SYNSET_RELATIONS sample_ADJPOSITIONS sample_PARTS_OF_SPEECH
     Z sample_int sample_float sample_float_in_unit sample_float_str
     sample_set_iter).

Abbreviation sample_get_bool := (_get_bool Z).

Abbreviation sample_get_literal := (_get_literal Z).

Abbreviation sample_get_metadata :=
  (_get_metadata Z sample_float sample_float_in_unit).

Abbreviation sample_load_senses :=
  (_load_senses sample_SENSE_RELATIONS sample_SENSE_SYNSET_RELATIONS
     sample_ADJPOSITIONS Z sample_int sample_float sample_float_in_unit).

Abbreviation sample_load_synsets :=
  (_load_synsets sample_SYNSET_RELATIONS sample_PARTS_OF_SPEECH Z sample_float
     sample_float_in_unit).

Abbreviation sample_load_synset_relations :=
  (_load_synset_relations sample_SYNSET_RELATIONS Z sample_float
     sample_float_in_unit).

Abbreviation sample_load_sense_relations :=
  (_load_sense_relations sample_SENSE_RELATIONS sample_SENSE_SYNSET_RELATIONS Z
     sample_float sample_float_in_unit).

Abbreviation sample_load_lexical_entries :=
  (_load_lexical_entries sample_SENSE_RELATIONS sample_SENSE_SYNSET_RELATIONS
     sample_ADJPOSITIONS sample_PARTS_OF_SPEECH Z sample_int sample_float
     sample_float_in_unit).

Abbreviation sample_load_lexicon :=
  (_load_lexicon sample_SENSE_RELATIONS sample_SENSE_SYNSET_RELATIONS
     sample_SYNSET_RELATIONS sample_ADJPOSITIONS sample_PARTS_OF_SPEECH Z
     sample_int sample_float sample_float_in_unit).

Ltac find_node := vm_compute; repeat (first [left; reflexivity | right]).

(** The header reader on three files: a first line that declares XML
    1.1, a second line that is no DOCTYPE of the format, and a well-formed
    header of version 1.1. *)
Lemma read_header_spec_witness :
  _read_header ("<?xml version=" +:+ dq +:+ "1.1" +:+ dq +:+ "?>"
                +:+ String nl_char "<LexicalResource/>")
  = Raise (LMFError "invalid or missing XML declaration")
  /\ (exists e, _read_header (_XMLDECL +:+ String nl_char "<!DOCTYPE html>") = Raise e)
  /\ (_read_header header_1_1 = Ok "1.1"
      /\ header_line (readline header_1_1).1 = _XMLDECL).
Proof.
  split; [|split].
  - destruct (read_header_spec
                ("<?xml version=" +:+ dq +:+ "1.1" +:+ dq +:+ "?>"
                 +:+ String nl_char "<LexicalResource/>")) as (_ & _ & _ & H4).
    apply (H4 "<LexicalResource/>"). reflexivity.
  - destruct (read_header_spec (_XMLDECL +:+ String nl_char "<!DOCTYPE html>"))
      as (_ & H2 & _).
    apply H2. intros version schema Hs.
    unfold _SCHEMAS in Hs. simpl in Hs.
    destruct (String.eqb version "1.0");
      [injection Hs as <-; vm_compute; discriminate|].
    destruct (String.eqb version "1.1");
      [injection Hs as <-; vm_compute; discriminate|].
    discriminate.
  - destruct (read_header_spec header_1_1) as (_ & _ & H3 & _).
    split; [reflexivity|]. apply (H3 "1.1"). reflexivity.
Defined.

Lemma relation_validation_witness :
  (exists e, sample_load header_1_0 (events_of bogus_relation_doc) = Abort e)
  /\ (exists e, sample_load header_1_0 (events_of bogus_sense_relation_doc) = Abort e)
  /\ sample_load_synset_relations 1 "1.0"
       (mkCursor (events_of (leaf "SynsetRelation"
                               [("target", "ss1"); ("relType", "bogus-type")] None))
                 [])
     = Abort (LMFError "invalid synset relation: bogus-type")
  /\ sample_load_sense_relations 1 "1.0"
       (mkCursor (events_of (leaf "SenseRelation"
                               [("target", "s1"); ("relType", "bogus-type")] None))
                 [])
     = Abort (LMFError "invalid sense relation: bogus-type")
  /\ sample_get_literal (Some "bogus") sample_ADJPOSITIONS (mkCursor [] [])
     = Done "bogus" (mkCursor [] [NotOneOf "bogus" sample_ADJPOSITIONS])
  /\ (exists sense c',
        sample_load_senses 2 false "1.0"
          (mkCursor (events_of (Node bogus_sense []) ++ []) []) = Done [sense] c'
        /\ pending c' = []
        /\ Sense_adjposition Z sense = "bogus"
        /\ In (NotOneOf "bogus" sample_ADJPOSITIONS) (log c')).
Proof.
  destruct (relation_validation sample_SENSE_RELATIONS
              sample_SENSE_SYNSET_RELATIONS sample_SYNSET_RELATIONS
              sample_ADJPOSITIONS sample_PARTS_OF_SPEECH Z sample_int
              sample_float sample_float_in_unit)
    as (H1 & H2 & H3 & H4 & H5 & H6).
  split; [|split; [|split; [|split; [|split]]]].
  - apply (H1 header_1_0 bogus_relation_doc
             (leaf "SynsetRelation" [("target", "ss1"); ("relType", "bogus-type")] None)
             "bogus-type"); [find_node|reflexivity..].
  - apply (H2 header_1_0 bogus_sense_relation_doc
             (leaf "SenseRelation" [("target", "s1"); ("relType", "bogus-type")] None)
             "bogus-type"); [find_node|reflexivity..].
  - exact (H3 0 "1.0"
             (mkElement "SynsetRelation"
                [("target", "ss1"); ("relType", "bogus-type")] None)
             [] [] "bogus-type" eq_refl eq_refl eq_refl).
  - exact (H4 0 "1.0"
             (mkElement "SenseRelation"
                [("target", "s1"); ("relType", "bogus-type")] None)
             [] [] "bogus-type" eq_refl eq_refl eq_refl eq_refl).
  - apply (H5 "bogus" (mkCursor [] [])). reflexivity.
  - apply (H6 0 false "1.0" bogus_sense [] [] "s1" "ss1" "bogus");
      first [reflexivity | left; reflexivity | exact I].
Defined.

Lemma lexicalized_outside_vocabulary_witness :
  sample_get_bool "maybe" (mkCursor [] [])
  = Done false (mkCursor [] [NotOneOf "maybe" ["true"; "false"]])
  /\ sample_get_bool "TRUE" (mkCursor [] []) = Done true (mkCursor [] [])
  /\ (exists sense c',
        sample_load_senses 2 false "1.0"
          (mkCursor (events_of (Node bogus_sense []) ++ []) []) = Done [sense] c'
        /\ pending c' = []
        /\ Sense_lexicalized Z sense = false
        /\ In (NotOneOf "maybe" ["true"; "false"]) (log c'))
  /\ (exists synset c',
        sample_load_synsets 2 false "1.0"
          (mkCursor (events_of (Node maybe_synset []) ++ []) []) = Done [synset] c'
        /\ pending c' = []
        /\ Synset_lexicalized Z synset = false
        /\ In (NotOneOf "maybe" ["true"; "false"]) (log c')).
Proof.
  destruct (lexicalized_outside_vocabulary sample_SENSE_RELATIONS
              sample_SENSE_SYNSET_RELATIONS sample_SYNSET_RELATIONS
              sample_ADJPOSITIONS sample_PARTS_OF_SPEECH Z sample_int
              sample_float sample_float_in_unit)
    as (H1 & H2 & H3 & H4).
  split; [|split; [|split]].
  - apply (H1 "maybe" (mkCursor [] [])). reflexivity.
  - apply (H2 "TRUE" (mkCursor [] [])). reflexivity.
  - apply (H3 0 false "1.0" bogus_sense [] [] "s1" "ss1" "maybe");
      first [reflexivity | left; reflexivity | exact I].
  - apply (H4 0 false "1.0" maybe_synset [] [] "ss1" "i1" "maybe");
      first [reflexivity | left; reflexivity | exact I].
Defined.

(** C7, as stated, fails.  The loaded flag is a boolean: [maybe] and [no]
    are both stored as [False], so no reading of the stored value gives the
    text back; and [TRUE], which is not in the vocabulary as written, is
    accepted without a diagnostic. *)
Lemma get_bool_keeps_no_raw_value :
  ~ (exists raw_of : bool -> string,
       forall value b c',
         str_in value ["true"; "false"] = false ->
         sample_get_bool value (mkCursor [] []) = Done b c' ->
         raw_of b = value)
  /\ str_in "TRUE" ["true"; "false"] = false
  /\ sample_get_bool "TRUE" (mkCursor [] []) = Done true (mkCursor [] []).
Proof.
  split; [|split; reflexivity].
  intros (raw_of & H).
  pose proof (H "maybe" false _ eq_refl eq_refl) as H1.
  pose proof (H "no" false _ eq_refl eq_refl) as H2.
  rewrite H1 in H2. discriminate H2.
Qed.

Lemma scan_load_consistency_witness :
  exists lexicons c',
    sample_load header_1_0 (events_of sample_doc) = Done lexicons c'
    /\ exists infos,
         scan_lexicons (expat_tags sample_doc) true = Ok infos
         /\ Forall2 (fun info lex => exists counts,
                       dget "counts" info = Some (ICounts counts)
                       /\ count_of counts "LexicalEntry"
                          + count_of counts "ExternalLexicalEntry"
                          = length (Lexicon_lexical_entries Z lex)
                       /\ count_of counts "Synset"
                          + count_of counts "ExternalSynset"
                          = length (Lexicon_synsets Z lex))
                    infos lexicons.
Proof.
  eexists _, _. split; [vm_compute; reflexivity|].
  eapply (scan_load_consistency sample_SENSE_RELATIONS
            sample_SENSE_SYNSET_RELATIONS sample_SYNSET_RELATIONS
            sample_ADJPOSITIONS sample_PARTS_OF_SPEECH Z sample_int
            sample_float sample_float_in_unit header_1_0 sample_doc).
  vm_compute. reflexivity.
Defined.



(** C10: the code at the failing input.  The file opens with the XML
    declaration, so [is_xml] accepts it; its second line is not UTF-8, and
    the [UnicodeDecodeError] of [_read_header] leaves [is_lmf]. *)
Theorem is_lmf_raises_on_undecodable_header :
  sample_is_xml "garbled.xml" = true
  /\ is_lmf sample_is_xml sample_fs "garbled.xml" = Raise UnicodeDecodeError.
Proof. split; vm_compute; reflexivity. Qed.

(** C2: the code at the failing input.  The frame [F] of [sample_doc]
    names both senses of the entry; dumped at version 1.0, the entry gets
    the [SyntacticBehaviour] of [F] twice, in whichever order the set of
    sense ids is iterated. *)
Theorem dump_repeats_syntactic_behaviour :
  exists lexicons c' d d',
    sample_load header_1_0 (events_of sample_doc) = Done lexicons c'
    /\ sample_dump lexicons "1.0" = Ok d
    /\ dumped_elements "SyntacticBehaviour" d
       = [ mkElement "SyntacticBehaviour"
             [("subcategorizationFrame", "F"); ("senses", "s1 s2")] None;
           mkElement "SyntacticBehaviour"
             [("subcategorizationFrame", "F"); ("senses", "s1 s2")] None ]
    /\ dump Z sample_float_str (fun ids => rev (remove_dups ids)) lexicons "1.0"
       = Ok d'
    /\ dumped_elements "SyntacticBehaviour" d'
       = dumped_elements "SyntacticBehaviour" d.
Proof.
  eexists _, _, _, _. split; [vm_compute; reflexivity|].
  split; [vm_compute; reflexivity|]. split; [vm_compute; reflexivity|].
  split; vm_compute; reflexivity.
Qed.

(** C1: the code at the failing input.  The example of [sample_doc]
    carries metadata; after one dump and reload it carries none.  The second
    dump is not the first either: it holds four [SyntacticBehaviour]
    elements where the first holds two. *)
Theorem round_trip_loses_example_metadata :
  exists g1 d1 g2 d2,
    sample_round_trip "1.0" header_1_0 (events_of sample_doc)
    = Some (g1, d1, g2, d2)
    /\ example_metas Z g1
       = [Some [None; None; None; None; None; None; None; None; None; None;
                Some (PStr "book"); None; None; None; None; None; None]]
    /\ example_metas Z g2 = [None]
    /\ length (dumped_elements "SyntacticBehaviour" d1) = 2
    /\ length (dumped_elements "SyntacticBehaviour" d2) = 4.
Proof.
  eexists _, _, _, _. split; [vm_compute; reflexivity|].
  repeat split; vm_compute; reflexivity.
Qed.

(** A whole document with a sense whose [adjposition] and [lexicalized]
    are outside their vocabularies loads: the [adjposition] is stored as
    read, the flag is [False], and the log has the two warnings. *)
Lemma load_with_values_outside_vocabulary :
  exists lexicons c',
    sample_load header_1_0
      (events_of
         (elem "LexicalResource" [] None
            [ elem "Lexicon" lexicon_attrs None
                [ elem "LexicalEntry" [("id", "e1")] None
                    [ leaf "Lemma" [("writtenForm", "cat"); ("partOfSpeech", "n")]
                        None;
                      Node bogus_sense [] ] ] ]))
    = Done lexicons c'
    /\ ((fun sense => (Sense_adjposition Z sense, Sense_lexicalized Z sense))
          <$> (lexicon ← lexicons ;
               entry ← Lexicon_lexical_entries Z lexicon ;
               LexicalEntry_senses Z entry))
       = [("bogus", false)]
    /\ log c' = [NotOneOf "maybe" ["true"; "false"];
                 NotOneOf "bogus" sample_ADJPOSITIONS].
Proof.
  eexists _, _. split; [vm_compute; reflexivity|].
  split; vm_compute; reflexivity.
Qed.

(** * The further properties at concrete inputs *)

Lemma dump_outcome_witness :
  sample_dump [] "2.0" = Raise (KeyError "2.0")
  /\ sample_dump [extension_lexicon Z] "1.1" = Raise AttributeError
  /\ exists d, sample_dump [plain_lexicon Z] "1.0" = Ok d.
Proof.
  split; [|split].
  - destruct (dump_outcome Z sample_float_str sample_set_iter [] "2.0")
      as (H & _ & _).
    apply H. reflexivity.
  - destruct (dump_outcome Z sample_float_str sample_set_iter
                [extension_lexicon Z] "1.1") as (_ & H & _).
    apply H; [eexists; reflexivity|].
    intros Hl. apply Forall_cons_1 in Hl as [Hl _].
    apply Forall_cons_1 in Hl as [[l Hl] _]. discriminate Hl.
  - destruct (dump_outcome Z sample_float_str sample_set_iter
                [plain_lexicon Z] "1.0") as (_ & _ & H).
    apply H; [eexists; reflexivity|].
    repeat constructor. eexists; reflexivity.
Defined.

Lemma dump_header_witness :
  exists d,
    sample_dump [plain_lexicon Z] "1.0" = Ok d
    /\ _read_header (file_head d +:+ "<LexicalResource/>") = Ok "1.0"
    /\ is_lmf sample_is_xml sample_fs "wn.xml" = Ok true.
Proof.
  eexists. split; [vm_compute; reflexivity|].
  match goal with
  | |- _read_header (file_head ?d +:+ _) = _ /\ _ =>
      destruct (dump_header sample_is_xml sample_fs Z sample_float_str
                  sample_set_iter [plain_lexicon Z] "1.0" d "<LexicalResource/>")
        as [H1 H2]
  end.
  - vm_compute. reflexivity.
  - split; [exact H1|]. apply (H2 "wn.xml"); vm_compute; reflexivity.
Defined.

Lemma dump_written_tags_witness :
  exists d,
    sample_dump [plain_lexicon Z] "1.1" = Ok d
    /\ tags_in (tags_at "1.1") (doc_root d)
    /\ dumped_elements "SyntacticBehaviour" d = []
    /\ dumped_elements "Extends" d = [].
Proof.
  eexists. split; [vm_compute; reflexivity|].
  match goal with
  | |- tags_in _ (doc_root ?d) /\ _ =>
      destruct (dump_written_tags Z sample_float_str sample_set_iter
                  [plain_lexicon Z] "1.1" d) as (H1 & H2 & H3)
  end.
  - vm_compute. reflexivity.
  - split; [exact H1|]. split; [apply H2; discriminate|].
    apply Forall_cons_1 in H3 as [_ H3]. apply Forall_cons_1 in H3 as [H3 _].
    exact H3.
Defined.


Lemma forms_reread_witness :
  _load_forms Z 15
    (mkCursor (reparsed "http://purl.org/dc/elements/1.1/"
                 (map _build_form [sample_form; noted_form]) ++ []) [])
  = Done [sample_form;
          mkForm "cats" None [mkTag (Some two_lines_read) "note";
                              mkTag None "number"]]
         (mkCursor [] []).
Proof.
  destruct (forms_reread Z "http://purl.org/dc/elements/1.1/"
              [sample_form; noted_form] 15 [] [])
    as [H1 H2].
  - reflexivity.
  - exact I.
  - vm_compute. lia.
  - rewrite H1. reflexivity.
Defined.

Lemma examples_reread_witness :
  _load_examples Z sample_float sample_float_in_unit 3 "1.0"
    (mkCursor (reparsed "http://purl.org/dc/elements/1.1/"
                 (map (_build_example Z)
                      [mkExample Z (Some two_lines) (Some "en")
                         (Some (sample_metadata Z));
                       mkExample Z (Some "") None None]) ++ []) [])
  = Done [mkExample Z (Some two_lines_read) (Some "en") None;
          mkExample Z None None None] (mkCursor [] []).
Proof.
  apply (examples_reread Z sample_float sample_float_in_unit "1.0"
           "http://purl.org/dc/elements/1.1/"
           [mkExample Z (Some two_lines) (Some "en") (Some (sample_metadata Z));
            mkExample Z (Some "") None None]
           3 [] []).
  - reflexivity.
  - reflexivity.
  - exact I.
  - simpl. lia.
Defined.



Lemma senses_reread_witness :
  sample_load_senses 9 false "1.0"
    (mkCursor (reparsed "http://purl.org/dc/elements/1.1/"
                 (map (_build_sense Z sample_float_str) [sample_sense Z]) ++ [])
              [])
  = Done [reread_sense Z (sample_sense Z)] (mkCursor [] [])
  /\ Sense_examples Z (reread_sense Z (sample_sense Z))
     = [mkExample Z (Some "a cat") (Some "en") None].
Proof.
  split; [|reflexivity].
  apply (senses_reread sample_SENSE_RELATIONS sample_SENSE_SYNSET_RELATIONS
           sample_ADJPOSITIONS Z sample_int sample_float sample_float_in_unit
           sample_float_str "1.0" "http://purl.org/dc/elements/1.1/" false
           [sample_sense Z] 9 [] []).
  - reflexivity.
  - reflexivity.
  - repeat constructor; try discriminate; intros f; discriminate.
  - exact I.
  - vm_compute. lia.
Defined.

Lemma synsets_reread_witness :
  sample_load_synsets 12 false "1.0"
    (mkCursor (reparsed "http://purl.org/dc/elements/1.1/"
                 (map (fun synset => _dump_synset Z sample_float_str synset "1.0")
                      [sample_synset_record Z]) ++ []) [])
  = Done [reread_synset Z (sample_synset_record Z)] (mkCursor [] [])
  /\ sample_load_synsets 12 false "1.0"
       (mkCursor (reparsed "http://purl.org/dc/elements/1.1/"
                    [_dump_synset Z sample_float_str (ililess_synset Z) "1.0"]
                  ++ []) [])
     = Abort (KeyError "ili").
Proof.
  destruct (synsets_reread sample_SYNSET_RELATIONS sample_PARTS_OF_SPEECH Z
              sample_float sample_float_in_unit sample_float_str "1.0"
              "http://purl.org/dc/elements/1.1/" false 12 [] [] eq_refl I)
    as [H1 H2].
  split.
  - apply (H1 [sample_synset_record Z]).
    + reflexivity.
    + repeat constructor; try discriminate; intros f; discriminate.
    + vm_compute. lia.
  - apply (H2 (ililess_synset Z) []); [reflexivity|reflexivity|lia].
Defined.

Lemma load_invariants_witness :
  exists lexicons c',
    sample_load header_1_0 (events_of sample_doc) = Done lexicons c'
    /\ Forall (lexicon_inv sample_SENSE_RELATIONS sample_SENSE_SYNSET_RELATIONS
                 sample_SYNSET_RELATIONS Z "1.0") lexicons.
Proof.
  eexists _, _. split; [vm_compute; reflexivity|].
  match goal with
  | |- Forall _ ?lexicons =>
      destruct (load_invariants sample_SENSE_RELATIONS
                  sample_SENSE_SYNSET_RELATIONS sample_SYNSET_RELATIONS
                  sample_ADJPOSITIONS sample_PARTS_OF_SPEECH Z sample_int
                  sample_float sample_float_in_unit header_1_0
                  (events_of sample_doc) lexicons (mkCursor [] []))
        as (version & Hv & Hl)
  end.
  - vm_compute. reflexivity.
  - vm_compute in Hv. injection Hv as <-. exact Hl.
Defined.

Lemma scan_records_witness :
  exists info,
    scan_lexicons
      (as_tags [mkElement "LexicalResource" [] None;
                mkElement "LexiconExtension" [("id", "ext"); ("version", "2")] None;
                mkElement "Extends" [("id", "test-en"); ("version", "1")] None;
                mkElement "ExternalLexicalEntry" [("id", "e1")] None]) true
    = Ok [info]
    /\ dget "id" info = Some (IStr "ext")
    /\ dget "version" info = Some (IStr "2")
    /\ dget "extends" info = Some (IExtends "test-en" "1").
Proof.
  eexists. split; [vm_compute; reflexivity|].
  match goal with
  | |- dget "id" ?info = _ /\ _ =>
      destruct (scan_records
                  [mkElement "LexicalResource" [] None;
                   mkElement "LexiconExtension"
                     [("id", "ext"); ("version", "2")] None;
                   mkElement "Extends" [("id", "test-en"); ("version", "1")] None;
                   mkElement "ExternalLexicalEntry" [("id", "e1")] None]
                  true [info]) as [H _]
  end.
  - vm_compute. reflexivity.
  - apply Forall2_cons_1 in H as [[Hk Hx] _].
    split; [apply Hk; discriminate|]. split; [apply Hk; discriminate|].
    exact Hx.
Defined.

Lemma iterator_transparent_witness :
  XMLEventIterator_list 3
    (XMLEventIterator_init (events_of (leaf "Tag" [("category", "x")] None)))
  = events_of (leaf "Tag" [("category", "x")] None)
  /\ starts Z ["Tag"]
       (mkCursor (to_come (XMLEventIterator_init
                             (events_of (leaf "Tag" [("category", "x")] None))))
                 [])
     = Done true
         (mkCursor (to_come (XMLEventIterator_init
                               (events_of (leaf "Tag" [("category", "x")] None))))
                   []).
Proof.
  destruct (iterator_transparent Z) as [H1 H2]. split.
  - destruct (H1 (events_of (leaf "Tag" [("category", "x")] None)))
      as (_ & _ & H). exact H.
  - destruct (H2 (XMLEventIterator_init
                    (events_of (leaf "Tag" [("category", "x")] None)))
                 ["Tag"] []) as (_ & H & _).
    + intros E. discriminate E.
    + exact H.
Defined.

Lemma read_header_tolerant_witness :
  _read_header
    ("<?xml version='1.0' encoding='UTF-8'?>" +:+ String "013" ""
     +:+ String nl_char
           (("<!DOCTYPE LexicalResource SYSTEM "
             +:+ "'http://globalwordnet.github.io/schemas/WN-LMF-1.1.dtd'>")
            +:+ "  " +:+ String nl_char "<LexicalResource/>"))
  = Ok "1.1".
Proof.
  destruct (read_header_tolerant "1.1"
              "http://globalwordnet.github.io/schemas/WN-LMF-1.1.dtd"
              "<?xml version='1.0' encoding='UTF-8'?>"
              ("<!DOCTYPE LexicalResource SYSTEM "
               +:+ "'http://globalwordnet.github.io/schemas/WN-LMF-1.1.dtd'>")
              (String "013" "") "  " "<LexicalResource/>") as [H _];
    [vm_compute; reflexivity..|exact H].
Defined.

Lemma dump_scan_witness :
  exists d,
    sample_dump [plain_lexicon Z] "1.0" = Ok d
    /\ (exists infos,
          scan_lexicons (expat_tags (doc_root d)) true = Ok infos
          /\ Forall2 (fun lexicon info =>
                        dget "id" info = Some (IStr (Lexicon_id Z lexicon))
                        /\ exists counts,
                             dget "counts" info = Some (ICounts counts)
                             /\ count_of counts "LexicalEntry"
                                = length (Lexicon_lexical_entries Z lexicon)
                             /\ count_of counts "Synset"
                                = length (Lexicon_synsets Z lexicon))
                     [plain_lexicon Z] infos)
    /\ (forall n,
          scan_lexicons (take n (expat_tags (doc_root d))) false
          = Raise (LMFError "invalid or ill-formed WN-LMF file")).
Proof.
  assert (Hd : exists d, sample_dump [plain_lexicon Z] "1.0" = Ok d)
    by (eexists; vm_compute; reflexivity).
  destruct Hd as [d Hd]. exists d. split; [exact Hd|].
  exact (dump_scan Z sample_float_str sample_set_iter [plain_lexicon Z] "1.0"
           d Hd).
Defined.

Lemma dump_load_witness :
  exists d,
    sample_dump [behaving_lexicon Z] "1.0" = Ok d
    /\ sample_load (file_head d) (iterparse d)
       = Done (map (reread_lexicon Z sample_set_iter "1.0") [behaving_lexicon Z])
              (mkCursor [] [NotOneOf "q" sample_PARTS_OF_SPEECH])
    /\ Lexicon_syntactic_behaviours Z
         (reread_lexicon Z sample_set_iter "1.0" (behaving_lexicon Z))
       = [mkSyntacticBehaviour "NP V" ["s1"]]
    /\ Lexicon_requires Z
         (reread_lexicon Z sample_set_iter "1.0" (behaving_lexicon Z)) = [].
Proof.
  eexists. split; [vm_compute; reflexivity|].
  split; [|split; vm_compute; reflexivity].
  apply (dump_load sample_SENSE_RELATIONS sample_SENSE_SYNSET_RELATIONS
           sample_SYNSET_RELATIONS sample_ADJPOSITIONS sample_PARTS_OF_SPEECH
           Z sample_int sample_float sample_float_in_unit sample_float_str
           sample_set_iter [behaving_lexicon Z] "1.0" _).
  - vm_compute. reflexivity.
  - vm_compute. reflexivity.
  - repeat constructor; try discriminate; intros f; discriminate.
Defined.

Lemma reload_stable_witness :
  exists d',
    sample_dump (map (reread_lexicon Z sample_set_iter "1.1") [behaving_lexicon Z])
                "1.1" = Ok d'
    /\ xml_tree (doc_root d') = true
    /\ sample_load (file_head d') (iterparse d')
       = Done (map (reread_lexicon Z sample_set_iter "1.1") [behaving_lexicon Z])
              (mkCursor [] [NotOneOf "q" sample_PARTS_OF_SPEECH]).
Proof.
  assert (Hd : exists d, sample_dump [behaving_lexicon Z] "1.1" = Ok d)
    by (eexists; vm_compute; reflexivity).
  destruct Hd as [d Hd].
  destruct (reload_stable sample_SENSE_RELATIONS sample_SENSE_SYNSET_RELATIONS
              sample_SYNSET_RELATIONS sample_ADJPOSITIONS sample_PARTS_OF_SPEECH
              Z sample_int sample_float sample_float_in_unit sample_float_str
              sample_set_iter [behaving_lexicon Z] "1.1" d)
    as (d' & Hd' & Hload).
  - discriminate.
  - exact Hd.
  - repeat constructor; try discriminate; intros f; discriminate.
  - exists d'. split; [exact Hd'|].
    assert (Hx : xml_tree (doc_root d') = true).
    { vm_compute in Hd'. injection Hd' as <-. vm_compute. reflexivity. }
    split; [exact Hx|exact (Hload Hx)].
Defined.

Lemma load_errors_witness :
  sample_load header_1_0
    (events_of (elem "LexicalResource" [] None
                  [leaf "Lexicon" [("label", "Testing")] None]))
  = Abort (KeyError "id")
  /\ exists version, _read_header header_1_0 = Ok version.
Proof.
  assert (H : sample_load header_1_0
                (events_of (elem "LexicalResource" [] None
                              [leaf "Lexicon" [("label", "Testing")] None]))
              = Abort (KeyError "id")) by (vm_compute; reflexivity).
  split; [exact H|].
  exact (load_errors sample_SENSE_RELATIONS sample_SENSE_SYNSET_RELATIONS
           sample_SYNSET_RELATIONS sample_ADJPOSITIONS sample_PARTS_OF_SPEECH
           Z sample_int sample_float sample_float_in_unit header_1_0 _ _ H).
Defined.

Lemma loaded_dump_witness :
  exists lexicons c',
    sample_load header_1_1 (events_of extension_doc) = Done lexicons c'
    /\ sample_dump lexicons "1.1" = Raise AttributeError.
Proof.
  eexists _, _. split; [vm_compute; reflexivity|].
  match goal with
  | |- sample_dump ?lexicons _ = _ =>
      destruct (loaded_dump sample_SENSE_RELATIONS sample_SENSE_SYNSET_RELATIONS
                  sample_SYNSET_RELATIONS sample_ADJPOSITIONS
                  sample_PARTS_OF_SPEECH Z sample_int sample_float
                  sample_float_in_unit sample_float_str sample_set_iter
                  header_1_1 (events_of extension_doc) lexicons
                  (mkCursor [] []) "1.1") as [_ H]
  end.
  - vm_compute. reflexivity.
  - by eexists.
  - apply H. do 2 constructor. reflexivity.
Defined.

Lemma counts_edge_cases_witness :
  _load_counts Z sample_int sample_float sample_float_in_unit 5 "1.0"
    (mkCursor
       (events_of_forest
          (map (fun e => Node e [])
               [mkElement "Count" [] (Some "3");
                mkElement "Count" [] (Some "many")]) ++ []) [])
  = Done [mkCount Z 3 None; mkCount Z (-1) None]
         (mkCursor [] [CountNotInteger Z "many"])
  /\ _load_counts Z sample_int sample_float sample_float_in_unit 5 "1.0"
       (mkCursor
          (events_of_forest
             (map (fun e => Node e [])
                  [mkElement "Count" [] (Some "3");
                   mkElement "Count" [] None]) ++ []) [])
     = Abort TypeError.
Proof.
  split.
  - refine (proj1 (counts_edge_cases Z sample_int sample_float
                     sample_float_in_unit "1.0"
                     "http://purl.org/dc/elements/1.1/" 5
                     [mkElement "Count" [] (Some "3");
                      mkElement "Count" [] (Some "many")] [] []
                     eq_refl _ I _) _).
    + repeat constructor.
    + cbn [length]. lia.
    + repeat constructor; by eexists.
  - refine (proj2 (counts_edge_cases Z sample_int sample_float
                     sample_float_in_unit "1.0"
                     "http://purl.org/dc/elements/1.1/" 5
                     [mkElement "Count" [] (Some "3");
                      mkElement "Count" [] None] [] []
                     eq_refl _ I _) _).
    + repeat constructor.
    + cbn [length]. lia.
    + apply Exists_cons_tl, Exists_cons_hd. reflexivity.
Defined.

Lemma sample_entry_accepted :
  accepted_entry sample_SENSE_RELATIONS sample_SENSE_SYNSET_RELATIONS false
                 sample_entry.
Proof.
  split; [by eexists|].
  exists [leaf "Lemma" [("writtenForm", "cat"); ("partOfSpeech", "n")] None],
    [],
    [elem "Sense" [("id", "s1"); ("synset", "ss1")] None
       [leaf "Example" [(dc_1_0 "source", "book")] (Some "a cat")];
     elem "Sense" [("id", "s2"); ("synset", "ss1")] None []],
    [leaf "SyntacticBehaviour"
       [("subcategorizationFrame", "F"); ("senses", "s1 s2")] None].
  split; [reflexivity|]. split; [constructor|].
  split; [repeat constructor; by eexists|].
  left. split; [reflexivity|]. split.
  - eexists. split; [reflexivity|].
    split; [reflexivity|]. split; [by eexists|]. split; [by eexists|].
    constructor.
  - constructor; [|constructor; [|constructor]].
    + split; [by eexists|].
      split; [left; split; [reflexivity|by eexists]|].
      exists [], [leaf "Example" [(dc_1_0 "source", "book")] (Some "a cat")],
        [].
      repeat split; repeat constructor.
    + split; [by eexists|].
      split; [left; split; [reflexivity|by eexists]|].
      exists [], [], []. repeat split; constructor.
Qed.

Lemma sample_lexicon_accepted version :
  accepted_lexicon sample_SENSE_RELATIONS sample_SENSE_SYNSET_RELATIONS
    sample_SYNSET_RELATIONS version
    (elem "Lexicon" lexicon_attrs None [sample_entry; sample_synset]).
Proof.
  split; [repeat constructor; by eexists|].
  exists false, [], [sample_entry], [sample_synset].
  split; [reflexivity|]. split; [|split].
  - constructor; [exact sample_entry_accepted|constructor].
  - constructor; [|constructor]. split; [by eexists|].
    exists [], [],
      [leaf "SynsetRelation" [("target", "ss1"); ("relType", "hypernym")] None],
      [].
    split; [reflexivity|]. split; [constructor|]. split.
    + constructor; [|constructor]. split; [split; reflexivity|].
      split; [by eexists|]. exists "hypernym". split; reflexivity.
    + split; [constructor|]. left. split; [reflexivity|].
      split; [by eexists|]. by left.
  - left. split; [reflexivity|]. split; [reflexivity|].
    split; [constructor|reflexivity].
Qed.

Lemma load_accepts_witness :
  exists lexicons w,
    sample_load header_1_0 (events_of sample_doc) = Done lexicons (mkCursor [] w)
    /\ length lexicons = 1.
Proof.
  apply (load_accepts sample_SENSE_RELATIONS sample_SENSE_SYNSET_RELATIONS
           sample_SYNSET_RELATIONS sample_ADJPOSITIONS sample_PARTS_OF_SPEECH
           Z sample_int sample_float sample_float_in_unit header_1_0 sample_doc
           "1.0").
  - vm_compute. reflexivity.
  - split; [reflexivity|].
    constructor; [exact (sample_lexicon_accepted "1.0")|constructor].
Defined.

Lemma load_returns_witness :
  exists version,
    _read_header header_1_1 = Ok version
    /\ accepted_document sample_SENSE_RELATIONS sample_SENSE_SYNSET_RELATIONS
         sample_SYNSET_RELATIONS version extension_doc.
Proof.
  eassert (H : sample_load header_1_1 (events_of extension_doc) = Done _ _)
    by (vm_compute; reflexivity).
  exact (load_returns sample_SENSE_RELATIONS sample_SENSE_SYNSET_RELATIONS
           sample_SYNSET_RELATIONS sample_ADJPOSITIONS sample_PARTS_OF_SPEECH
           Z sample_int sample_float sample_float_in_unit header_1_1 _ _ _ H).
Defined.

Lemma missing_required_child_witness :
  (exists e, sample_load header_1_0 (events_of lemmaless_doc) = Abort e)
  /\ (exists e, sample_load header_1_1 (events_of extendsless_doc) = Abort e)
  /\ sample_load_lexical_entries 1 false "1.0"
       (mkCursor (events_of lemmaless_entry) [])
     = Abort (LMFError "expected <Lemma>, got <Sense>")
  /\ sample_load_lexicon 1 "1.1" (mkCursor (events_of rootless_extension) [])
     = Abort (LMFError "expected <Extends>, got <LexicalEntry>")
  /\ sample_load header_1_0 (events_of later_lemmaless_doc)
     = Abort (LMFError "expected <Lemma>, got <Sense>")
  /\ sample_load header_1_1 (events_of later_extendsless_doc)
     = Abort (LMFError "expected <Extends>, got <LexicalEntry>")
  /\ sample_load header_1_0 (events_of later_extendsless_doc)
     = Abort (LMFError "expected <Lexicon>, got <LexiconExtension>").
Proof.
  destruct (missing_required_child sample_SENSE_RELATIONS
              sample_SENSE_SYNSET_RELATIONS sample_SYNSET_RELATIONS
              sample_ADJPOSITIONS sample_PARTS_OF_SPEECH Z sample_int
              sample_float sample_float_in_unit)
    as (H1 & H2 & H3 & H4 & H5 & H6 & H7).
  split; [|split; [|split; [|split; [|split; [|split]]]]].
  - apply (H1 header_1_0 lemmaless_doc lemmaless_entry);
      [find_node|reflexivity|].
    intros (c & cs & Hc & Ht). injection Hc as <- <-. discriminate Ht.
  - apply (H2 header_1_1 extendsless_doc rootless_extension);
      [find_node|reflexivity|].
    intros (c & cs & Hc & Ht). injection Hc as <- <-. discriminate Ht.
  - exact (H3 0 false "1.0" (root_elem lemmaless_entry)
             (nth 1 (events_of lemmaless_entry) (end_ev, root_elem lemmaless_entry))
             (skipn 2 (events_of lemmaless_entry)) [] "e1"
             eq_refl eq_refl eq_refl).
  - refine (H4 1 "1.1" (root_elem rootless_extension)
              (nth 1 (events_of rootless_extension)
                   (end_ev, root_elem rootless_extension))
              (skipn 2 (events_of rootless_extension)) [] _ eq_refl eq_refl).
    discriminate.
  - apply (H5 header_1_0 "1.0" (mkElement "LexicalResource" [] None)
             [elem "Lexicon" lexicon_attrs None [sample_entry; sample_synset]]
             (mkElement "Lexicon" lexicon_attrs None) [] [sample_entry]
             lemmaless_entry [sample_synset] [] false).
    + vm_compute. reflexivity.
    + reflexivity.
    + constructor; [exact (sample_lexicon_accepted "1.0")|constructor].
    + left. split; [reflexivity|]. split; [reflexivity|].
      split; [constructor|reflexivity].
    + constructor; [exact sample_entry_accepted|constructor].
    + reflexivity.
    + by eexists.
    + intros (c & cs & Hc & Ht). injection Hc as <- <-. discriminate Ht.
  - apply (H6 header_1_1 "1.1" (mkElement "LexicalResource" [] None)
             [elem "Lexicon" lexicon_attrs None [sample_entry; sample_synset]]
             (mkElement "LexiconExtension" lexicon_attrs None) [sample_entry] []).
    + vm_compute. reflexivity.
    + discriminate.
    + reflexivity.
    + constructor; [exact (sample_lexicon_accepted "1.1")|constructor].
    + reflexivity.
    + intros (c & cs & Hc & Ht). injection Hc as <- <-. discriminate Ht.
  - apply (H7 header_1_0 (mkElement "LexicalResource" [] None)
             [elem "Lexicon" lexicon_attrs None [sample_entry; sample_synset]]
             (mkElement "LexiconExtension" lexicon_attrs None) [sample_entry] []).
    + vm_compute. reflexivity.
    + reflexivity.
    + constructor; [exact (sample_lexicon_accepted "1.0")|constructor].
    + reflexivity.
Defined.

Lemma metadata_attached_iff_witness :
  (exists (slots : Metadata Z) r c',
     sample_get_metadata [("id", "e1"); ("status", "ok")] "1.0" (mkCursor [] [])
     = Done r c'
     /\ pending c' = []
     /\ length slots = 17
     /\ Forall2 (fun name slot =>
                   is_Some slot
                   <-> is_Some (dget name [("id", "e1"); ("status", "ok")]))
                (metadata_names "http://purl.org/dc/elements/1.1/") slots
     /\ ((r = Some slots /\ Exists is_Some slots)
         \/ (r = None /\ Forall (fun slot => slot = None) slots)))
  /\ exists lexicons c' version uri,
       sample_load header_1_0 (events_of sample_doc) = Done lexicons c'
       /\ _read_header header_1_0 = Ok version
       /\ dget version _DC_URIS = Some uri
       /\ Forall2 (lexicon_metadata Z uri) (children_of sample_doc) lexicons.
Proof.
  destruct (metadata_attached_iff sample_SENSE_RELATIONS
              sample_SENSE_SYNSET_RELATIONS sample_SYNSET_RELATIONS
              sample_ADJPOSITIONS sample_PARTS_OF_SPEECH Z sample_int
              sample_float sample_float_in_unit) as [H1 H2].
  split.
  - apply (H1 [("id", "e1"); ("status", "ok")] "1.0"
             "http://purl.org/dc/elements/1.1/" (mkCursor [] [])).
    reflexivity.
  - eassert (H : sample_load header_1_0 (events_of sample_doc) = Done _ _)
      by (vm_compute; reflexivity).
    destruct (H2 header_1_0 sample_doc _ _ H) as (version & uri & Hh & Hu & Hf).
    eexists _, _, version, uri. split; [exact H|]. auto.
Defined.

(** C6, as stated, fails.  The external entry, sense and synset of
    [noted_extension_doc] carry the attribute [status] or [note], two of the
    seventeen, and are loaded without metadata; the example under the
    external sense, which carries [status] too, gets its record. *)
Lemma external_entities_get_no_metadata :
  exists lexicon entry sense example synset c',
    sample_load header_1_1 (events_of noted_extension_doc) = Done [lexicon] c'
    /\ Lexicon_lexical_entries Z lexicon = [entry]
    /\ LexicalEntry_senses Z entry = [sense]
    /\ Sense_examples Z sense = [example]
    /\ Lexicon_synsets Z lexicon = [synset]
    /\ is_Some (dget "status" (attrib (root_elem noted_external_entry)))
    /\ LexicalEntry_meta Z entry = None
    /\ Sense_meta Z sense = None
    /\ is_Some (Example_meta Z example)
    /\ is_Some (dget "status" (attrib (root_elem noted_external_synset)))
    /\ Synset_meta Z synset = None.
Proof.
  eexists _, _, _, _, _, _. split; [vm_compute; reflexivity|].
  repeat split; try reflexivity; by eexists.
Qed.
